(* ===== verification/_CoqProject ===== *)
-Q . S2P
Prelude.v
Machine.v
BTree.v
Storage.v
Decimal.v
Mempool.v
Extrinsic.v
System.v
Balances.v
ProofOfExistence.v
Runtime.v
Syntax.v
CallMacro.v
RuntimeMacro.v
Generated.v
RuntimeSpec.v
BlockExecution.v
Restart.v
Node.v
Authorship.v
Production.v
NodeLife.v
Network.v
Cli.v
Process.v
Reference.v
Witnesses.v
Forks.v
MacroWitnesses.v
ProcessWitnesses.v
Demo.v
UnitTests.v
