(* ===== verification/Prelude.v ===== *)
(** * A Rust state machine: a small blockchain node, verified

    The program (a Cargo crate with a macro crate and a node binary) is a
    proof-of-authority chain with three pallets.  This library models its runtime, its
    storage, its mempool and its node, and proves what makes them correct; where the
    code does not do what it means to, a theorem says what it does.

    ** The program's parts, and the files that model them

    - [Prelude] (this file): Rust's [Result]; computations over a state that may panic
      ([prog]: a panic keeps the state it happened in); [for], [?], [unwrap], borrowing
      a field ([zoom]); a transition calculus ([ensures R m]: every run of [m], panics
      included, relates the state before to the state after by [R]) with its hints and
      the tactic [ensures_steps]; and [erases], the simulation between a computation
      with an environment and one without.
    - [Machine]: bytes, fixed-size arrays, unsigned integers at their width
      ([u32], [u64], [u128] with checked and wrapping operations), and the [num] traits and
      [Ord] as classes with laws.
    - [BTree]: what the code uses of [BTreeMap]: iteration in key order, the last key,
      building a map from an iterator.
    - [Storage] ([support.rs]): the trait [KeyValueStore] as a class, its two
      implementations ([MemStore] and [RocksDbStore]) as instances with their laws, the
      process environment (store and output), and [synced] / [persisted_sub], the
      relations between an in-memory map and its persisted entries.
    - [Mempool] ([support.rs]): the FIFO pool.
    - [Extrinsic] ([support.rs]): accounts, headers, blocks, signed extrinsics,
      [verify_batch], the development keyring.
    - [System], [Balances], [ProofOfExistence] ([system.rs], [balances.rs],
      [proof_of_existence.rs]): the pallets, each with its record, its operations, its
      persistence, and the [Call] enum and [dispatch] that [#[macros::call]] generates
      ([macros/src/call/expand.rs]).
    - [Runtime] ([lib.rs], [macros/src/runtime/expand.rs]): [RuntimeCall], [Runtime],
      [dispatch], [execute_block] (its loop body is [execute_extrinsic]) and the genesis.
    - [RuntimeSpec]: the abstract specification: a state machine over the in-memory
      state alone ([apply_call], [apply_extrinsic], [apply_block]), and the refinement.
    - [BlockExecution]: theorems about [execute_block] and the genesis.
    - [Restart]: the store against the memory, and what a restart loads.
    - [Node] ([node.rs], topics of [network.rs]): slots, the RPC handlers, block
      production, the application task and the network task, as handlers over the state
      behind the node's locks and channels; [node_handle] is one event of a run.
    - [Authorship]: slots, authors and the peer list over time.
    - [Production]: what a produced block contains, convergence of peers, eviction,
      gossip and the nonce endpoint.
    - [NodeLife]: what holds after any sequence of events, and the tick.
    - [Network]: several nodes and the gossip between them as one step relation, the
      agreement of their chains, and its execution on lists of actions.
    - [Decimal]: [str::trim] and [str::parse::<u32>], and that they read back what
      [to_string] prints.
    - [Cli] ([main.rs]): [submit_transfer] and [submit_claim], to a node over HTTP ([ureq] is
      a parameter, and [served] is the one where this program's node answers) or in a
      runtime of their own.
    - [Process] ([support.rs], [main.rs]): the database path, the lazily opened database,
      and the commands, on a process with its statics, a file system and an output.
    - [Syntax], [CallMacro], [RuntimeMacro] ([macros/src]): [syn]'s items as far as the macros
      inspect them; the parsers ([try_from]); the expansions as data ([CallExpansion],
      [RuntimeExpansion]); and what the expanded code does when it runs ([run_dispatch],
      [run_runtime]).  [Generated] applies them to the items of this crate and gets
      [Balances.dispatch], [ProofOfExistence.dispatch], [Runtime.dispatch] and [new].
    - [Demo] ([main.rs]): [run_demo], and how it ends.
    - [UnitTests]: the unit tests of [system.rs], [balances.rs], [proof_of_existence.rs] and
      [support.rs] on the model; they pass.
    - [Reference]: concrete codecs, a toy signature scheme and network parameters, which
      show that the hypotheses on third-party code can hold.
    - [Witnesses], [MacroWitnesses], [ProcessWitnesses], [Forks]: the theorems at concrete
      inputs; [Forks] also has the run of two nodes that ends in a fork.

    ** How state and operations correspond to the code

    A method of a pallet is a [prog] over (pallet, environment); the runtime's methods
    run a pallet's method on a field with [on_system], [on_balances] and [on_poe]; a node
    handler runs a runtime's method with [on_runtime].  [kv_store()] is the store of the
    environment; [println!] and [eprintln!] append to its output.  The pallets are
    generic in the associated types of their [Config] traits, as in the code, and
    [Runtime] instantiates them with [lib.rs]'s types.  A run of a node is a sequence of
    [node_event]s: the application task is the only writer of the runtime and the
    mempool and the network task the only writer of the peer list.  Two handlers read
    state of another task twice, the tick (the peer list) and the nonce endpoint (the
    runtime, then the pool); what happens between the reads is a parameter of theirs.

    ** What the theorems show

    - Refinement: [execute_block] is the machine's step whatever the store does
      ([RuntimeSpec]); a transfer is the ideal ledger's move ([Balances]); the claims are
      a registry ([ProofOfExistence]).
    - Safety: without an account's signature nothing is taken from it, for a block
      ([BlockExecution]) and for a node's whole life, gossip, RPC and its own production
      included ([NodeLife]); an extrinsic is executed at most once; the issuance is
      conserved (self-transfers aside); unverifiable extrinsics are ignored.
    - Totality and bounds: execution and production do not panic and do succeed while
      the numbers have room; [inc_nonce] at the end of its type; no division by zero in
      a tick.
    - Persistence: a node can be stopped after any event and restarted without losing
      height, nonces or balances, and never gains a claim.
    - The network: one author per slot, rotation, sorted peer lists; a peer that handles
      a produced block converges to the author's runtime; which candidates a block
      includes; eviction; submission, from the client to the pools; the nonce endpoint.
    - Agreement: nodes that do not tick while a block is on its way, on a network that
      loses no block, have the same runtime whenever no block is on its way ([Network]);
      without the restriction on ticks they can part and not
      notice ([Forks]).
    - The macros: which items the parsers accept; for which functions the generated
      dispatcher compiles (values of types that are not [Copy] move when they are used);
      where it does, it runs the function with the authenticated caller; and for this
      crate it is the dispatcher of the model.
    - The process: the next process finds what a node has reached; the path of the
      database is fixed by its first use; a reset chain is new.
    - Defects, each as a theorem: [transfer_self_mints], [create_claim_lost_on_restart],
      [rejected_block_desyncs], [stale_nonce_drops_fresh], [second_connection_forgets_peer],
      [local_transfer_overwrites], [lone_node_may_produce], [nonce_reply_may_be_used],
      [late_block_forks], [reset_reports_success_on_failure], [init_after_open_ignored],
      and accepted functions whose expansion does not compile ([generated_dispatch_typed]);
      and [failed_call_consumes_nonce], where the README says otherwise.

    ** Third-party code

    It enters as classes, each with a companion that states documented behaviour:
    [Codec]/[CodecOk]/[CodecNonEmpty] (parity-scale-codec: decoding an encoding gives the
    value back and leaves the rest; trailing bytes are ignored by the callers),
    [Ed25519]/[Ed25519Ok] (ed25519-dalek: a signature verifies under its key),
    [RocksDB]/[RocksDBOk] (an ordered map), [KvReliable] (a store whose writes succeed: only
    the persistence theorems assume it), and [NodeParams]/[NodeParamsOk] (libp2p's peer ids
    and topic hashes, the [hex] crate, the iteration order of [HashMap], which is any
    order, and whether integer overflow is checked), [Syn] (the path and the tokens of a
    type, and the messages of [syn]'s parsers), [FileSystem]/[FileSystemOk] (directories
    with databases in them), [Ureq] and [RuntimeDebug].  The texts of third-party error
    values are left out of the messages that interpolate them.  Rayon's [par_iter] keeps
    the order and is a map.

    ** Bounds and fuel

    No definition of the program needs fuel: [drain_loop] recurses on the loop bound,
    the other loops on their list.  The one fuel is in [Reference] ([decode_list]), which is
    given the length of its input and shown sufficient.  Integers are bounded by their
    type: [uint w] carries a proof of [n < 2^w].

    ** Not modelled, and what is next

    Left out because they are pure I/O or wiring of libraries: [build_swarm], the listeners
    of the RPC server (its handlers and routes are modelled), the parser [clap] derives,
    and the two [proc_macro] attributes, which only forward.  [Network] starts all
    members together; its unrestricted form loses blocks and refuses their publication,
    which [chains_agree] excludes.  Members that join later are next, as are the
    integration tests under [tests/].  The cost of hashing,
    signing and waiting, and preemption inside a handler other than at the two double
    reads, are not modelled. *)

From stdpp Require Export base numbers strings list gmap sorting.

#[export] Set Default Goal Selector "!".

(** * Rust's [Result] *)

Inductive result (A E : Type) : Type :=
| Ok (a : A)
| Err (e : E).
Arguments Ok {A E} a.
Arguments Err {A E} e.

(** [support.rs]: [DispatchResult = Result<(), &'static str>]. *)
Definition DispatchResult : Type := result unit string.

Definition is_ok {A E} (r : result A E) : bool :=
  match r with Ok _ => true | Err _ => false end.

Definition is_err {A E} (r : result A E) : bool := negb (is_ok r).

(** [Option::ok_or]. *)
Definition ok_or {A E} (o : option A) (e : E) : result A E :=
  match o with Some a => Ok a | None => Err e end.

#[export] Instance result_eq_dec {A E} `{EqDecision A, EqDecision E} :
  EqDecision (result A E).
Proof. solve_decision. Defined.

(** * Stateful computations that may panic

    [prog S A] is a computation over the state [S].  A panic keeps the state it
    happened in: what was written before it stays written. *)

Inductive outcome (A : Type) : Type :=
| Done (a : A)
| Panicked (msg : string).
Arguments Done {A} a.
Arguments Panicked {A} msg.

Definition prog (S A : Type) : Type := S → outcome A * S.

#[export] Instance prog_ret {S} : MRet (prog S) := λ A a s, (Done a, s).

#[export] Instance prog_bind {S} : MBind (prog S) := λ A B k m s,
  match m s with
  | (Done a, s') => k a s'
  | (Panicked msg, s') => (Panicked msg, s')
  end.

Definition gets {S A} (f : S → A) : prog S A := λ s, (Done (f s), s).
Definition modify {S} (f : S → S) : prog S unit := λ s, (Done tt, f s).
Definition panic {S A} (msg : string) : prog S A := λ s, (Panicked msg, s).

(** [Option::expect]; [Option::unwrap] is [expect] with the standard message. *)
Definition expect {S A} (o : option A) (msg : string) : prog S A :=
  match o with Some a => mret a | None => panic msg end.

Abbreviation unwrap_msg := "called `Option::unwrap()` on a `None` value".

Definition unwrap {S A} (o : option A) : prog S A := expect o unwrap_msg.

(** The [?] operator on a [Result]. *)
Definition try_result {S A B E} (r : result A E)
    (k : A → prog S (result B E)) : prog S (result B E) :=
  match r with Ok a => k a | Err e => mret (Err e) end.

Notation "x ←? r ; k" := (try_result r (λ x, k))
  (at level 20, r at level 100, k at level 200, only parsing) : stdpp_scope.

(** [for x in l { f(x) }]. *)
Fixpoint for_each {S A} (f : A → prog S unit) (l : list A) : prog S unit :=
  match l with
  | [] => mret tt
  | x :: l' => f x ;; for_each f l'
  end.

(** A computation on a part of the state: [self.field.method()]. *)
Definition zoom {S T A} (get : S → T) (set : T → S → S) (m : prog T A) : prog S A :=
  λ s, let '(r, t) := m (get s) in (r, set t s).

(** [Iterator::enumerate]. *)
Definition enumerate {A} (l : list A) : list (nat * A) := imap pair l.

(** ** Running computations *)

Lemma run_ret {S A} (a : A) (s : S) : mret (M := prog S) a s = (Done a, s).
Proof. reflexivity. Qed.

Lemma run_bind_done {S A B} (m : prog S A) (k : A → prog S B) s a s' :
  m s = (Done a, s') → (m ≫= k) s = k a s'.
Proof. intros H. unfold mbind, prog_bind. by rewrite H. Qed.

Lemma run_bind_panicked {S A B} (m : prog S A) (k : A → prog S B) s msg s' :
  m s = (Panicked msg, s') → (m ≫= k) s = (Panicked msg, s').
Proof. intros H. unfold mbind, prog_bind. by rewrite H. Qed.

(** [prun] executes the monadic glue of the goal. *)
Ltac prun :=
  unfold mbind, prog_bind, mret, prog_ret, gets, modify, unwrap, expect, panic, zoom,
    try_result in *; simpl in *.

(** ** A transition calculus

    [ensures R m]: whatever [m] returns, and also if it panics, the state before
    and the state after are related by [R]. *)

Definition ensures {S A} (R : relation S) (m : prog S A) : Prop :=
  ∀ s, R s (m s).2.

Section ensures.
Context {S : Type} (R : relation S) `{!PreOrder R}.

Lemma ensures_ret {A} (a : A) : ensures R (mret a).
Proof. intros s. reflexivity. Qed.

Lemma ensures_gets {A} (f : S → A) : ensures R (gets f).
Proof. intros s. reflexivity. Qed.

Lemma ensures_panic {A} msg : ensures R (panic (A := A) msg).
Proof. intros s. reflexivity. Qed.

Lemma ensures_expect {A} (o : option A) msg : ensures R (expect o msg).
Proof. destruct o; [apply ensures_ret | apply ensures_panic]. Qed.

Lemma ensures_bind {A B} (m : prog S A) (k : A → prog S B) :
  ensures R m → (∀ a, ensures R (k a)) → ensures R (m ≫= k).
Proof.
  intros Hm Hk s. specialize (Hm s). unfold mbind, prog_bind.
  destruct (m s) as [[a|msg] s']; simpl in *; [|done].
  etrans; [exact Hm | apply Hk].
Qed.

(** The same from one state, with what is known of the intermediate result. *)
Lemma ensures_bind_run {A B} (m : prog S A) (k : A → prog S B) s :
  R s (m s).2 → (∀ a s', m s = (Done a, s') → R s' (k a s').2) → R s ((m ≫= k) s).2.
Proof.
  intros Hm Hk. unfold mbind, prog_bind.
  destruct (m s) as [[a|msg] s']; simpl in *; [|done].
  etrans; [exact Hm | by apply Hk].
Qed.

Lemma ensures_try {A B E} (r : result A E) (k : A → prog S (result B E)) :
  (∀ a, ensures R (k a)) → ensures R (try_result r k).
Proof. intros Hk. destruct r; [apply Hk | apply ensures_ret]. Qed.

Lemma ensures_for_each {A} (f : A → prog S unit) l :
  (∀ x, x ∈ l → ensures R (f x)) → ensures R (for_each f l).
Proof.
  induction l as [|x l IH]; intros Hf; [apply ensures_ret|].
  simpl. apply ensures_bind; [apply Hf; set_solver|].
  intros _. apply IH. intros y Hy. apply Hf. set_solver.
Qed.
End ensures.

Lemma ensures_zoom {S T A} (R : relation S) (Q : relation T)
    (get : S → T) (set : T → S → S) (m : prog T A) :
  (∀ s t, Q (get s) t → R s (set t s)) → ensures Q m → ensures R (zoom get set m).
Proof.
  intros HRQ Hm s. specialize (Hm (get s)). unfold zoom.
  destruct (m (get s)) as [r t]. by apply HRQ.
Qed.

Lemma ensures_mono {S A} (R Q : relation S) (m : prog S A) :
  (∀ s s', Q s s' → R s s') → ensures Q m → ensures R m.
Proof. intros HQR Hm s. apply HQR, Hm. Qed.

(** The preorder of an invariant: once it holds it keeps holding. *)
Definition keeps {S} (P : S → Prop) : relation S := λ s s', P s → P s'.

#[export] Instance keeps_preorder {S} (P : S → Prop) : PreOrder (keeps P).
Proof. split; unfold keeps; [intros s | intros s1 s2 s3]; tauto. Qed.

(** The preorder of a quantity that never decreases. *)
Definition grows {S} (f : S → N) : relation S := λ s s', (f s ≤ f s')%N.

#[export] Instance grows_preorder {S} (f : S → N) : PreOrder (grows f).
Proof. split; unfold grows; [intros s | intros s1 s2 s3]; lia. Qed.

(** The preorder of a part of the state that does not change. *)
Definition fixes {S A} (f : S → A) : relation S := λ s s', f s' = f s.

#[export] Instance fixes_preorder {S A} (f : S → A) : PreOrder (fixes f).
Proof. split; unfold fixes; [intros s | intros s1 s2 s3]; congruence. Qed.

(** ** Erasing a part of the state

    [erases m m']: on the first component of the state and in its result, [m] does
    what [m'] does, whatever the second component is. *)

Definition erases {S E A} (m : prog (S * E) A) (m' : prog S A) : Prop :=
  ∀ s e, ∃ e', m (s, e) = ((m' s).1, ((m' s).2, e')).

Section erases.
Context {S E : Type}.

Lemma erases_ret {A} (a : A) : erases (E := E) (S := S) (mret a) (mret a).
Proof. intros s e. by exists e. Qed.

Lemma erases_bind {A B} (m : prog (S * E) A) (m' : prog S A)
    (k : A → prog (S * E) B) (k' : A → prog S B) :
  erases m m' → (∀ a, erases (k a) (k' a)) → erases (m ≫= k) (m' ≫= k').
Proof.
  intros Hm Hk s e. destruct (Hm s e) as [e' He]. unfold mbind, prog_bind. rewrite He.
  destruct (m' s) as [[a|msg] s']; simpl; [apply Hk | by exists e'].
Qed.

Lemma erases_for_each {A B} (f : A → prog (S * E) unit) (g : B → prog S unit) l k :
  Forall2 (λ a b, erases (f a) (g b)) l k → erases (for_each f l) (for_each g k).
Proof.
  induction 1 as [|a b l k Hab _ IH]; simpl; [apply erases_ret|].
  by apply erases_bind.
Qed.
End erases.

Create HintDb prog.
#[export] Hint Resolve ensures_ret ensures_gets ensures_panic ensures_expect : prog.

(** [ensures_steps tac] takes a handler apart into its primitive actions; [tac] is
    tried on the actions it does not know. *)
Ltac ensures_steps tac :=
  repeat first
    [ progress intros
    | solve [apply ensures_ret; apply _]
    | solve [apply ensures_gets; apply _]
    | solve [apply ensures_panic; apply _]
    | solve [apply ensures_expect; apply _]
    | tac
    | match goal with
      | |- ensures _ (_ ≫= _) => apply ensures_bind; [apply _ | | ]
      | |- ensures _ (try_result _ _) => apply ensures_try; [apply _ | ]
      | |- ensures _ (for_each _ _) => apply ensures_for_each; [apply _ | ]
      | |- ensures _ (match ?x with _ => _ end) => destruct x
      end ].
