(* ===== verification/Machine.v ===== *)
(** Machine data: bytes, fixed-width unsigned integers, fixed-size byte arrays
    and the total orders Rust's [Ord] derives for them. *)

From S2P Require Export Prelude.
From Stdlib Require Export Strings.Byte.

(** * Bytes *)

Abbreviation byte := Corelib.Init.Byte.byte.
Abbreviation bytes := (list byte).

#[export] Instance byte_eq_dec : EqDecision byte := byte_eq_dec.

Definition byte_of_N (n : N) : byte := default x00 (Byte.of_N n).

Lemma byte_of_to_N b : byte_of_N (Byte.to_N b) = b.
Proof. unfold byte_of_N. by rewrite Byte.of_to_N. Qed.

#[export] Instance byte_countable : Countable byte.
Proof. exact (inj_countable' Byte.to_N byte_of_N byte_of_to_N). Defined.

Lemma byte_to_N_inj b c : Byte.to_N b = Byte.to_N c → b = c.
Proof. intros H. by rewrite <- (byte_of_to_N b), H, byte_of_to_N. Qed.

Lemma to_N_byte_of_N n : (n < 256)%N → Byte.to_N (byte_of_N n) = n.
Proof.
  intros Hn. unfold byte_of_N. destruct (Byte.of_N n) as [b|] eqn:Hb; simpl.
  - by apply Byte.to_of_N.
  - apply Byte.of_N_None_iff in Hb. lia.
Qed.

(** The bytes of a string literal, [b"..."]. *)
Definition bytes_of_string (s : string) : bytes := String.list_byte_of_string s.

(** * Unsigned integers of a fixed width *)

Record uint (w : N) := UInt { uval : N; ubound : (uval <? 2 ^ w)%N = true }.
Arguments UInt {w} _ _.
Arguments uval {w} _.
Arguments ubound {w} _.

Abbreviation u32 := (uint 32).
Abbreviation u64 := (uint 64).
Abbreviation u128 := (uint 128).

Definition umax (w : N) : N := (2 ^ w - 1)%N.

Section uint.
Context {w : N}.
Implicit Types a b c : uint w.

Lemma uint_eq a b : uval a = uval b → a = b.
Proof. destruct a, b; simpl; intros ->. f_equal. apply proof_irrel. Qed.

Lemma uval_lt a : (uval a < 2 ^ w)%N.
Proof. by apply N.ltb_lt, ubound. Qed.

Lemma uval_le_max a : (uval a ≤ umax w)%N.
Proof. unfold umax. pose proof (uval_lt a). lia. Qed.

#[export] Instance uint_eq_dec : EqDecision (uint w).
Proof.
  intros a b. destruct (decide (uval a = uval b)) as [H|H].
  - left. by apply uint_eq.
  - right. by intros ->.
Defined.

(** The proof field is computed, so that closed integers evaluate. *)
Definition uint_of_N (n : N) : option (uint w) :=
  match (n <? 2 ^ w)%N as b return (n <? 2 ^ w)%N = b → option (uint w) with
  | true => λ H, Some (UInt n H)
  | false => λ _, None
  end eq_refl.

Lemma uint_of_N_lt n : (n < 2 ^ w)%N → ∃ a, uint_of_N n = Some a ∧ uval a = n.
Proof.
  intros Hn%N.ltb_lt. unfold uint_of_N.
  generalize (eq_refl (n <? 2 ^ w)%N). revert Hn.
  generalize (n <? 2 ^ w)%N at 1 3 4. intros b -> H. by exists (UInt n H).
Qed.

Lemma uint_of_N_ge n : (2 ^ w ≤ n)%N → uint_of_N n = None.
Proof.
  intros Hn%N.ltb_ge. unfold uint_of_N.
  generalize (eq_refl (n <? 2 ^ w)%N). revert Hn.
  generalize (n <? 2 ^ w)%N at 1 3 4. by intros b ->.
Qed.

Lemma uint_of_N_Some n a : uint_of_N n = Some a ↔ uval a = n.
Proof.
  split.
  - intros H. destruct (N.lt_ge_cases n (2 ^ w)) as [Hn|Hn].
    + destruct (uint_of_N_lt n Hn) as (b & Hb & Hv). congruence.
    + rewrite uint_of_N_ge in H; done.
  - intros <-. destruct (uint_of_N_lt (uval a) (uval_lt a)) as (b & -> & Hb).
    f_equal. by apply uint_eq.
Qed.

Lemma uint_of_to_N a : uint_of_N (uval a) = Some a.
Proof. by apply uint_of_N_Some. Qed.

#[export] Instance uint_countable : Countable (uint w) :=
  inj_countable uval uint_of_N uint_of_to_N.

Definition uint_zero : uint w := default (UInt 0%N (proj2 (N.ltb_lt 0 (2 ^ w)) ltac:(lia))) (uint_of_N 0).

Lemma uval_zero : uval uint_zero = 0%N.
Proof.
  unfold uint_zero. destruct (uint_of_N_lt 0) as (a & -> & Ha); [lia | exact Ha].
Qed.

(** Truncation to the width: an [as] cast, or a wrapping operation's result. *)
Definition uwrap (n : N) : uint w := default uint_zero (uint_of_N (n mod 2 ^ w)).

Lemma uval_uwrap n : uval (uwrap n) = (n mod 2 ^ w)%N.
Proof.
  unfold uwrap. destruct (uint_of_N_lt (n mod 2 ^ w)) as (a & -> & Ha); [|exact Ha].
  apply N.mod_lt. lia.
Qed.

Lemma uval_uwrap_small n : (n < 2 ^ w)%N → uval (uwrap n) = n.
Proof. intros Hn. rewrite uval_uwrap. by apply N.mod_small. Qed.
End uint.

Abbreviation u32_of := (@uwrap 32).
Abbreviation u128_of := (@uwrap 128).

(** * Checked arithmetic: the [num] traits the pallets are generic in

    [CheckedNum] lists the operations of [Zero], [One], [CheckedAdd] and
    [CheckedSub]; [CheckedNumOk] is their contract on unsigned integers. *)

Class CheckedNum (A : Type) := {
  zero : A;
  one : A;
  checked_add : A → A → option A;
  checked_sub : A → A → option A;
  num_val : A → N;
  num_max : N
}.
Arguments num_max A {_}.

Class CheckedNumOk (A : Type) `{!CheckedNum A} : Prop := {
  num_val_inj (a b : A) : num_val a = num_val b → a = b;
  num_val_max (a : A) : (num_val a ≤ num_max A)%N;
  num_val_zero : num_val (zero : A) = 0%N;
  num_val_one : num_val (one : A) = 1%N;
  checked_add_Some (a b c : A) :
    checked_add a b = Some c ↔ num_val c = (num_val a + num_val b)%N;
  checked_add_None (a b : A) :
    checked_add a b = None ↔ (num_max A < num_val a + num_val b)%N;
  checked_sub_Some (a b c : A) :
    checked_sub a b = Some c ↔ (num_val c + num_val b)%N = num_val a;
  checked_sub_None (a b : A) :
    checked_sub a b = None ↔ (num_val a < num_val b)%N
}.

(** [u32], [u128], ... implement the traits. *)
#[export] Instance uint_num (w : N) : CheckedNum (uint w) := {
  zero := uint_zero;
  one := uwrap 1;
  checked_add a b := uint_of_N (uval a + uval b);
  checked_sub a b := if (uval b <=? uval a)%N then uint_of_N (uval a - uval b) else None;
  num_val := uval;
  num_max := umax w
}.

Lemma uint_num_ok (w : N) : (0 < w)%N → CheckedNumOk (uint w).
Proof.
  intros Hw. split; simpl.
  - apply uint_eq.
  - apply uval_le_max.
  - apply uval_zero.
  - apply uval_uwrap_small. apply N.pow_gt_1; lia.
  - intros a b c. apply uint_of_N_Some.
  - intros a b. unfold umax. split.
    + intros H. destruct (N.lt_ge_cases (uval a + uval b) (2 ^ w)) as [Hlt|]; [|lia].
      destruct (uint_of_N_lt _ Hlt) as (c & Hc & _). congruence.
    + intros H. apply uint_of_N_ge. lia.
  - intros a b c. destruct (N.leb_spec (uval b) (uval a)) as [H|H].
    + rewrite uint_of_N_Some. lia.
    + split; [done | lia].
  - intros a b. destruct (N.leb_spec (uval b) (uval a)) as [H|H]; [|done].
    split; [|lia]. intros Hn. pose proof (uval_lt a).
    destruct (uint_of_N_lt (w := w) (uval a - uval b)) as (c & Hc & _); [lia | congruence].
Qed.

#[export] Instance u32_ok : CheckedNumOk u32.
Proof. by apply uint_num_ok. Qed.
#[export] Instance u128_ok : CheckedNumOk u128.
Proof. by apply uint_num_ok. Qed.

Arguments checked_add : simpl never.
Arguments checked_sub : simpl never.
Arguments zero : simpl never.
Arguments one : simpl never.

(** * Total orders *)

Class Ord (A : Type) := ltb : A → A → bool.

Class OrdOk (A : Type) `{!Ord A} : Prop := {
  ltb_irrefl (x : A) : ltb x x = false;
  ltb_trans (x y z : A) : ltb x y = true → ltb y z = true → ltb x z = true;
  ltb_total (x y : A) : ltb x y = true ∨ x = y ∨ ltb y x = true
}.

Section ord.
Context {A : Type} `{!Ord A, !OrdOk A}.
Implicit Types x y : A.

Lemma ltb_asym x y : ltb x y = true → ltb y x = false.
Proof.
  intros H. destruct (ltb y x) eqn:Hyx; [|done].
  rewrite <- (ltb_irrefl x). symmetry. by apply ltb_trans with y.
Qed.

Definition ord_le : relation A := λ x y, ltb y x = false.

#[export] Instance ord_le_dec x y : Decision (ord_le x y).
Proof. unfold ord_le. apply _. Defined.

#[export] Instance ord_le_total : Total ord_le.
Proof.
  intros x y. unfold ord_le. destruct (ltb y x) eqn:H; [right | by left].
  by apply ltb_asym.
Qed.

#[export] Instance ord_le_preorder : PreOrder ord_le.
Proof.
  split.
  - intros x. apply ltb_irrefl.
  - unfold ord_le. intros x y z Hxy Hyz. destruct (ltb z x) eqn:H; [|done].
    destruct (ltb_total y z) as [Hlt|[->|Hlt]]; [|congruence..].
    rewrite <- Hxy. symmetry. by apply ltb_trans with z.
Qed.

#[export] Instance ord_le_antisymm : AntiSymm (=) ord_le.
Proof.
  intros x y Hxy Hyx. unfold ord_le in *.
  destruct (ltb_total x y) as [H|[H|H]]; congruence.
Qed.
End ord.

#[export] Instance N_ord : Ord N := N.ltb.
#[export] Instance N_ord_ok : OrdOk N.
Proof.
  split; unfold ltb, N_ord.
  - apply N.ltb_irrefl.
  - intros x y z. rewrite !N.ltb_lt. lia.
  - intros x y. rewrite !N.ltb_lt. lia.
Qed.

(** The order of an injective image, as [derive(PartialOrd, Ord)] gives a
    one-field struct. *)
Lemma ord_ok_inj {A B} `{!Ord A, !Ord B, !OrdOk B} (f : A → B) :
  (∀ x y, f x = f y → x = y) → (∀ x y : A, ltb x y = ltb (f x) (f y)) → OrdOk A.
Proof.
  intros Hinj Hltb. split.
  - intros x. rewrite Hltb. apply ltb_irrefl.
  - intros x y z. rewrite !Hltb. apply ltb_trans.
  - intros x y. rewrite !Hltb.
    destruct (ltb_total (f x) (f y)) as [?|[?|?]]; auto.
Qed.

#[export] Instance byte_ord : Ord byte := λ b c, ltb (Byte.to_N b) (Byte.to_N c).
#[export] Instance byte_ord_ok : OrdOk byte.
Proof. apply (ord_ok_inj Byte.to_N); [apply byte_to_N_inj | done]. Qed.

(** Slices and strings compare lexicographically. *)
Fixpoint list_ltb {A} `{!Ord A} (l k : list A) : bool :=
  match l, k with
  | [], [] => false
  | [], _ :: _ => true
  | _ :: _, [] => false
  | x :: l', y :: k' => if ltb x y then true else if ltb y x then false else list_ltb l' k'
  end.

#[export] Instance list_ord {A} `{!Ord A} : Ord (list A) := list_ltb.

#[export] Instance list_ord_ok {A} `{!Ord A, !OrdOk A} : OrdOk (list A).
Proof.
  split; unfold ltb, list_ord.
  - intros l. induction l as [|x l IH]; simpl; [done|]. by rewrite ltb_irrefl.
  - intros l. induction l as [|x l IH]; intros [|y k] [|z m]; simpl; try done.
    destruct (ltb_total x y) as [Hxy|[<-|Hyx]].
    + rewrite Hxy. intros _. destruct (ltb_total y z) as [Hyz|[<-|Hzy]].
      * by rewrite (ltb_trans _ _ _ Hxy Hyz).
      * by rewrite Hxy.
      * by rewrite Hzy, (ltb_asym _ _ Hzy).
    + rewrite ltb_irrefl. destruct (ltb x z), (ltb z x); try done. apply IH.
    + by rewrite Hyx, (ltb_asym _ _ Hyx).
  - intros l. induction l as [|x l IH]; intros [|y k]; simpl; auto.
    destruct (ltb_total x y) as [Hxy|[<-|Hyx]].
    + rewrite Hxy. auto.
    + rewrite ltb_irrefl. destruct (IH k) as [|[->|]]; auto.
    + rewrite Hyx. auto.
Qed.

(** [String] compares by its UTF-8 bytes. *)
#[export] Instance string_ord : Ord string :=
  λ s t, ltb (bytes_of_string s) (bytes_of_string t).
#[export] Instance string_ord_ok : OrdOk string.
Proof.
  apply (ord_ok_inj bytes_of_string); [|done].
  intros s t H. unfold bytes_of_string in H.
  by rewrite <- (String.string_of_list_byte_of_string s), H,
    String.string_of_list_byte_of_string.
Qed.

(** * Fixed-size byte arrays, [[u8; n]] *)

Record array (n : nat) :=
  Arr { arr_list : bytes; arr_len : Nat.eqb (length arr_list) n = true }.
Arguments Arr {n} _ _.
Arguments arr_list {n} _.
Arguments arr_len {n} _.

Section array.
Context {n : nat}.
Implicit Types a b : array n.

Lemma array_eq a b : arr_list a = arr_list b → a = b.
Proof. destruct a, b; simpl; intros ->. f_equal. apply proof_irrel. Qed.

Lemma length_array a : length (arr_list a) = n.
Proof. by apply Nat.eqb_eq, arr_len. Qed.

#[export] Instance array_eq_dec : EqDecision (array n).
Proof.
  intros a b. destruct (decide (arr_list a = arr_list b)) as [H|H].
  - left. by apply array_eq.
  - right. by intros ->.
Defined.

Definition array_of_list (l : bytes) : option (array n) :=
  match Nat.eqb (length l) n as b return Nat.eqb (length l) n = b → option (array n) with
  | true => λ H, Some (Arr l H)
  | false => λ _, None
  end eq_refl.

Lemma array_of_list_Some l a : array_of_list l = Some a ↔ arr_list a = l.
Proof.
  unfold array_of_list. generalize (eq_refl (Nat.eqb (length l) n)).
  generalize (Nat.eqb (length l) n) at 2 3. intros [] H; split; intros Ha; simplify_eq/=.
  - done.
  - f_equal. by apply array_eq.
  - by rewrite arr_len in H.
Qed.

Lemma array_of_to_list a : array_of_list (arr_list a) = Some a.
Proof. by apply array_of_list_Some. Qed.

Lemma array_of_list_length l : length l = n → ∃ a, array_of_list l = Some a ∧ arr_list a = l.
Proof.
  intros H%Nat.eqb_eq. exists (Arr l H). split; [by apply array_of_list_Some | done].
Qed.

#[export] Instance array_countable : Countable (array n) :=
  inj_countable arr_list array_of_list array_of_to_list.

#[export] Instance array_ord : Ord (array n) := λ a b, ltb (arr_list a) (arr_list b).
#[export] Instance array_ord_ok : OrdOk (array n).
Proof. apply (ord_ok_inj arr_list); [apply array_eq | done]. Qed.
End array.
