(* ===== verification/BTree.v ===== *)
(** Rust's [BTreeMap] as a finite map with ordered iteration, and the loop over
    decoded store entries the pallets' constructors run. *)

From S2P Require Export Machine.

Section btree.
Context {K V : Type} `{Countable K} `{!Ord K}.
Implicit Types m : gmap K V.

(** Entries compare by key. *)
Definition entry_le : relation (K * V) := λ x y, ord_le x.1 y.1.

#[export] Instance entry_le_dec x y : Decision (entry_le x y).
Proof. unfold entry_le. apply _. Defined.

(** [BTreeMap::iter]: the entries in increasing key order. *)
Definition btree_iter m : list (K * V) := merge_sort entry_le (map_to_list m).

(** [BTreeMap::keys]. *)
Definition btree_keys m : list K := (btree_iter m).*1.

(** [map.keys().last()]. *)
Definition btree_last_key m : option K := last (btree_keys m).
End btree.

Section btree_facts.
Context {K V : Type} `{Countable K} `{!Ord K, !OrdOk K}.
Implicit Types m : gmap K V.

#[local] Instance entry_le_total : Total (entry_le (K := K) (V := V)).
Proof. intros x y. apply (total ord_le). Qed.

#[local] Instance entry_le_trans : Transitive (entry_le (K := K) (V := V)).
Proof. unfold entry_le. intros x y z Hxy Hyz. by etrans. Qed.

Lemma btree_iter_perm m : btree_iter m ≡ₚ map_to_list m.
Proof. apply merge_sort_Permutation. Qed.

Lemma elem_of_btree_iter m k v : (k, v) ∈ btree_iter m ↔ m !! k = Some v.
Proof. rewrite btree_iter_perm. apply elem_of_map_to_list. Qed.

Lemma btree_iter_sorted m : StronglySorted entry_le (btree_iter m).
Proof. apply (StronglySorted_merge_sort _). Qed.

Lemma elem_of_btree_keys m k : k ∈ btree_keys m ↔ is_Some (m !! k).
Proof.
  unfold btree_keys. rewrite list_elem_of_fmap. split.
  - intros ((k' & v) & -> & Hkv). apply elem_of_btree_iter in Hkv. by exists v.
  - intros [v Hv]. exists (k, v). by rewrite elem_of_btree_iter.
Qed.

Lemma NoDup_btree_keys m : NoDup (btree_keys m).
Proof. unfold btree_keys. rewrite btree_iter_perm. apply NoDup_fst_map_to_list. Qed.

Lemma btree_keys_sorted m : StronglySorted ord_le (btree_keys m).
Proof.
  unfold btree_keys. eapply (StronglySorted_fmap _ entry_le); [|apply btree_iter_sorted].
  done.
Qed.

Lemma sorted_last_max (l : list K) k k' :
  StronglySorted ord_le l → last l = Some k → k' ∈ l → ord_le k' k.
Proof.
  intros Hs Hl Hk'. apply last_Some in Hl as [l' ->].
  apply elem_of_app in Hk' as [Hk'|Hk'].
  - eapply StronglySorted_app_1_elem_of; [exact Hs | exact Hk' | set_solver].
  - apply list_elem_of_singleton in Hk' as ->. reflexivity.
Qed.

(** The last key is the greatest one. *)
Lemma btree_last_key_Some m k :
  btree_last_key m = Some k ↔ is_Some (m !! k) ∧ ∀ k', is_Some (m !! k') → ord_le k' k.
Proof.
  unfold btree_last_key. split.
  - intros Hl. split.
    + apply elem_of_btree_keys. by apply last_Some_elem_of.
    + intros k' Hk'%elem_of_btree_keys.
      eapply sorted_last_max; eauto using btree_keys_sorted.
  - intros [Hk Hmax]. destruct (last (btree_keys m)) as [k0|] eqn:Hl.
    + f_equal. apply (anti_symm ord_le).
      * apply Hmax, elem_of_btree_keys. by apply last_Some_elem_of.
      * eapply sorted_last_max; eauto using btree_keys_sorted.
        by apply elem_of_btree_keys.
    + apply last_None in Hl. apply elem_of_btree_keys in Hk. rewrite Hl in Hk.
      by apply not_elem_of_nil in Hk.
Qed.

Lemma btree_last_key_is_Some m k : is_Some (m !! k) → ∃ k', btree_last_key m = Some k'.
Proof.
  intros Hk. unfold btree_last_key. destruct (last (btree_keys m)) as [k'|] eqn:Hl; [eauto|].
  apply last_None in Hl. apply elem_of_btree_keys in Hk. rewrite Hl in Hk.
  by apply not_elem_of_nil in Hk.
Qed.

(** A list of all the entries, sorted by key, is the iteration. *)
Lemma btree_iter_unique m (l : list (K * V)) :
  StronglySorted entry_le l → l ≡ₚ map_to_list m → l = btree_iter m.
Proof.
  intros Hs Hp. apply (StronglySorted_unique_strong entry_le).
  - intros [k1 v1] [k2 v2] H1 H2 H12 H21.
    assert (k1 = k2) as <- by by apply (anti_symm ord_le).
    rewrite Hp in H1. apply elem_of_btree_iter in H2.
    apply elem_of_map_to_list in H1. simpl in *. congruence.
  - done.
  - apply btree_iter_sorted.
  - by rewrite Hp, btree_iter_perm.
Qed.
End btree_facts.

(** * Building a map from a list of encoded entries *)

Section load.
Context {E K V : Type} `{Countable K} (dec : E → option (K * V)).

(** The loop [for e in l { if let Some((k, v)) = dec(e) { map.insert(k, v) } }]. *)
Definition load_one (m : gmap K V) (e : E) : gmap K V :=
  match dec e with Some (k, v) => <[k := v]> m | None => m end.

Definition load_all (l : list E) : gmap K V := foldl load_one ∅ l.

Lemma load_all_sub (l : list E) (m : gmap K V) :
  (∀ e k v, e ∈ l → dec e = Some (k, v) → m !! k = Some v) → load_all l ⊆ m.
Proof.
  unfold load_all. intros Hl. assert (Hacc : (∅ : gmap K V) ⊆ m) by apply map_empty_subseteq.
  revert Hacc. generalize (∅ : gmap K V) as acc.
  induction l as [|e l IH]; intros acc Hacc; simpl; [done|].
  apply IH; [intros e' k v He'; apply Hl; set_solver|]. unfold load_one.
  destruct (dec e) as [[k v]|] eqn:He; [|done].
  apply insert_subseteq_l; [apply (Hl e); [set_solver | done] | done].
Qed.

Lemma load_all_app l1 e l2 k v :
  dec e = Some (k, v) → is_Some (load_all (l1 ++ e :: l2) !! k).
Proof.
  intros He. unfold load_all. rewrite foldl_app. simpl. unfold load_one at 2. rewrite He.
  assert (Hk : is_Some (<[k:=v]> (foldl load_one ∅ l1) !! k))
    by (rewrite lookup_insert_eq; eauto).
  revert Hk. generalize (<[k:=v]> (foldl load_one ∅ l1)).
  induction l2 as [|e' l2 IH]; intros acc Hk; simpl; [done|].
  apply IH. unfold load_one. destruct (dec e') as [[k' v']|]; [|done].
  rewrite lookup_insert_is_Some. destruct (decide (k' = k)); [by left | by right].
Qed.

(** When the entries are exactly the encodings of a map, the loop rebuilds it. *)
Lemma load_all_eq (l : list E) (m : gmap K V) :
  (∀ e k v, e ∈ l → dec e = Some (k, v) → m !! k = Some v) →
  (∀ k v, m !! k = Some v → ∃ e, e ∈ l ∧ dec e = Some (k, v)) →
  load_all l = m.
Proof.
  intros Hl Hm. pose proof (load_all_sub l m Hl) as Hsub.
  apply map_eq. intros k. destruct (load_all l !! k) as [v|] eqn:Hk.
  - symmetry. by eapply lookup_weaken.
  - destruct (m !! k) as [v|] eqn:Hmk; [|done].
    destruct (Hm k v Hmk) as (e & (l1 & l2 & ->)%list_elem_of_split & He).
    destruct (load_all_app l1 e l2 k v He) as [v' Hv']. congruence.
Qed.
End load.
