(* ===== verification/Storage.v ===== *)
(** The storage layer of [support.rs]: the [KeyValueStore] trait, its two
    implementations, the process environment (store and stderr/stdout), and the
    relation between an in-memory map and its persisted entries.

    The SCALE codec ([parity_scale_codec]) and RocksDB are third-party code: they
    enter as the classes [Codec] and [RocksDB], whose [...Ok] companions state the
    documented behaviour the program relies on. *)

From S2P Require Export BTree.

(** * The codec interface *)

(** [Encode::encode] and [Decode::decode(&mut &[u8])]; decoding returns the rest
    of the input, which the cursor is left at. *)
Class Codec (A : Type) := {
  encode : A → bytes;
  decode : bytes → option (A * bytes)
}.

Class CodecOk (A : Type) `{!Codec A} : Prop :=
  decode_encode (a : A) (rest : bytes) : decode (encode a ++ rest) = Some (a, rest).

(** No value is encoded by zero bytes. *)
Class CodecNonEmpty (A : Type) `{!Codec A} : Prop :=
  encode_nonempty (a : A) : encode a ≠ [].

(** [T::decode(&mut &bytes[..]).ok()]: trailing bytes are ignored. *)
Definition decode_slice {A} `{!Codec A} (bs : bytes) : option A := fst <$> decode bs.

Section codec.
Context {A : Type} `{!Codec A, !CodecOk A}.

Lemma decode_slice_encode (a : A) : decode_slice (encode a) = Some a.
Proof. unfold decode_slice. by rewrite <- (app_nil_r (encode a)), decode_encode. Qed.

Lemma decode_slice_app (a : A) rest : decode_slice (encode a ++ rest) = Some a.
Proof. unfold decode_slice. by rewrite decode_encode. Qed.

Lemma encode_inj (a b : A) : encode a = encode b → a = b.
Proof.
  intros H. pose proof (decode_slice_encode a) as Ha.
  rewrite H, decode_slice_encode in Ha. congruence.
Qed.
End codec.

(** * The trait [KeyValueStore] *)

Class KeyValueStore (Store : Type) := {
  kv_get : Store → bytes → option bytes;
  kv_put : Store → bytes → bytes → result unit string * Store;
  kv_delete : Store → bytes → result unit string * Store;
  kv_scan_prefix : Store → bytes → list (bytes * bytes)
}.

(** [slice::starts_with]. *)
Definition starts_with (key pre : bytes) : bool := bool_decide (pre `prefix_of` key).

(** What an implementation promises: the store is a map from keys to values,
    [kv_view]; a successful write updates it; a scan lists the entries below the
    prefix in key order. *)
Class KeyValueStoreOk (Store : Type) `{!KeyValueStore Store} := {
  kv_view : Store → gmap bytes bytes;
  kv_get_view s k : kv_get s k = kv_view s !! k;
  kv_put_view s k v s' : kv_put s k v = (Ok tt, s') → kv_view s' = <[k := v]> (kv_view s);
  kv_delete_view s k s' : kv_delete s k = (Ok tt, s') → kv_view s' = delete k (kv_view s);
  kv_scan_view s p :
    kv_scan_prefix s p =
      base.filter (λ e : bytes * bytes, starts_with e.1 p = true) (btree_iter (kv_view s))
}.

(** A store whose writes succeed. *)
Class KvReliable (Store : Type) `{!KeyValueStore Store} : Prop := {
  kv_put_reliable (s : Store) k v : (kv_put s k v).1 = Ok tt;
  kv_delete_reliable (s : Store) k : (kv_delete s k).1 = Ok tt
}.

(** ** [test_store::MemStore], over a thread-local [BTreeMap] *)

Record MemStore := mkMemStore { MEM : gmap bytes bytes }.

#[export] Instance MemStore_kv : KeyValueStore MemStore := {
  kv_get s key := MEM s !! key;
  kv_put s key value := (Ok tt, mkMemStore (<[key := value]> (MEM s)));
  kv_delete s key := (Ok tt, mkMemStore (delete key (MEM s)));
  kv_scan_prefix s prefix :=
    base.filter (λ e : bytes * bytes, starts_with e.1 prefix = true) (btree_iter (MEM s))
}.

#[export] Instance MemStore_ok : KeyValueStoreOk MemStore.
Proof. by refine {| kv_view := MEM |}; intros; simplify_eq/=. Defined.

#[export] Instance MemStore_reliable : KvReliable MemStore.
Proof. done. Qed.

(** ** [RocksDbStore], over a RocksDB handle *)

Class RocksDB (DB : Type) := {
  db_get : DB → bytes → result (option bytes) string;
  db_put : DB → bytes → bytes → result unit string * DB;
  db_delete : DB → bytes → result unit string * DB;
  (** [DB::iterator(IteratorMode::Start)] *)
  db_iterator : DB → list (result (bytes * bytes) string)
}.

(** RocksDB is an ordered map whose reads succeed on an open database. *)
Class RocksDBOk (DB : Type) `{!RocksDB DB} := {
  db_view : DB → gmap bytes bytes;
  db_get_ok d k : db_get d k = Ok (db_view d !! k);
  db_put_ok d k v d' : db_put d k v = (Ok tt, d') → db_view d' = <[k := v]> (db_view d);
  db_delete_ok d k d' : db_delete d k = (Ok tt, d') → db_view d' = delete k (db_view d);
  db_iterator_ok d : db_iterator d = Ok <$> btree_iter (db_view d)
}.

Record RocksDbStore (DB : Type) := mkRocksDbStore { ROCKS_DB : DB }.
Arguments mkRocksDbStore {DB} _.
Arguments ROCKS_DB {DB} _.

Definition result_ok {A E} (r : result A E) : option A :=
  match r with Ok a => Some a | Err _ => None end.

Lemma omap_result_ok {A E} (l : list A) : omap result_ok (Ok (E := E) <$> l) = l.
Proof. induction l as [|x l IH]; csimpl; [done | by rewrite IH]. Qed.

Lemma omap_starts_with (l : list (bytes * bytes)) (p : bytes) :
  omap (λ '(k, v), if starts_with k p then Some (k, v) else None) l =
    base.filter (λ e : bytes * bytes, starts_with e.1 p = true) l.
Proof.
  induction l as [|[k v] l IH]; [done|]. rewrite filter_cons. csimpl.
  destruct (starts_with k p); simpl; by rewrite IH.
Qed.

Section rocksdb.
Context {DB : Type} `{!RocksDB DB}.

Definition rocks_get (s : RocksDbStore DB) (key : bytes) : option bytes :=
  mjoin (result_ok (db_get (ROCKS_DB s) key)).

Definition rocks_put (s : RocksDbStore DB) (key value : bytes) :
    result unit string * RocksDbStore DB :=
  let '(r, d) := db_put (ROCKS_DB s) key value in (r, mkRocksDbStore d).

Definition rocks_delete (s : RocksDbStore DB) (key : bytes) :
    result unit string * RocksDbStore DB :=
  let '(r, d) := db_delete (ROCKS_DB s) key in (r, mkRocksDbStore d).

Definition rocks_scan_prefix (s : RocksDbStore DB) (prefix : bytes) : list (bytes * bytes) :=
  omap (λ '(k, v), if starts_with k prefix then Some (k, v) else None)
    (omap result_ok (db_iterator (ROCKS_DB s))).

#[export] Instance RocksDbStore_kv : KeyValueStore (RocksDbStore DB) := {
  kv_get := rocks_get;
  kv_put := rocks_put;
  kv_delete := rocks_delete;
  kv_scan_prefix := rocks_scan_prefix
}.

Context `{!RocksDBOk DB}.

#[export] Instance RocksDbStore_ok : KeyValueStoreOk (RocksDbStore DB).
Proof.
  refine {| kv_view s := db_view (ROCKS_DB s) |}; simpl.
  - intros s k. unfold rocks_get. by rewrite db_get_ok.
  - intros s k v s'. unfold rocks_put.
    destruct (db_put (ROCKS_DB s) k v) as [r d] eqn:H. intros. simplify_eq. by apply db_put_ok.
  - intros s k s'. unfold rocks_delete.
    destruct (db_delete (ROCKS_DB s) k) as [r d] eqn:H. intros. simplify_eq.
    by apply db_delete_ok.
  - intros s p. unfold rocks_scan_prefix.
    by rewrite db_iterator_ok, omap_result_ok, omap_starts_with.
Defined.
End rocksdb.

(** * The process environment *)

(** What the program prints.  Messages with interpolated values keep the values. *)
Inductive event : Type :=
| Println (msg : string)
| Eprintln (msg : string)
| ExtrinsicError (block_number : N) (extrinsic_number : nat) (error : string).

Record env (Store : Type) := Env { env_kv : Store; env_out : list event }.
Arguments Env {Store} _ _.
Arguments env_kv {Store} _.
Arguments env_out {Store} _.

Section env.
Context {Store : Type} `{!KeyValueStore Store}.
Implicit Types e : env Store.

Definition env_print (ev : event) e : env Store := Env (env_kv e) (env_out e ++ [ev]).

(** [if let Err(e) = kv_store().put(&key, &value) { eprintln!(msg, e) }] *)
Definition env_put (key value : bytes) (msg : string) e : env Store :=
  match kv_put (env_kv e) key value with
  | (Ok _, s) => Env s (env_out e)
  | (Err err, s) => env_print (Eprintln (msg +:+ err)) (Env s (env_out e))
  end.

(** [if let Err(e) = kv_store().delete(&key) { eprintln!(msg, e) }] *)
Definition env_delete (key : bytes) (msg : string) e : env Store :=
  match kv_delete (env_kv e) key with
  | (Ok _, s) => Env s (env_out e)
  | (Err err, s) => env_print (Eprintln (msg +:+ err)) (Env s (env_out e))
  end.

(** An action on the environment next to a state [P]. *)
Definition effect {P} (f : env Store → env Store) : prog (P * env Store) unit :=
  modify (λ '(p, e), (p, f e)).
End env.

Section env_facts.
Context {Store : Type} `{!KeyValueStore Store, !KeyValueStoreOk Store, !KvReliable Store}.
Implicit Types e : env Store.

(** The persisted key-value pairs. *)
Definition persisted e : gmap bytes bytes := kv_view (env_kv e).

Lemma persisted_print ev e : persisted (env_print ev e) = persisted e.
Proof. done. Qed.

Lemma persisted_put k v msg e : persisted (env_put k v msg e) = <[k := v]> (persisted e).
Proof.
  unfold persisted, env_put. pose proof (kv_put_reliable (env_kv e) k v) as Hr.
  destruct (kv_put (env_kv e) k v) as [r s] eqn:Hp. simpl in Hr. subst r.
  by apply kv_put_view in Hp.
Qed.

Lemma persisted_delete k msg e : persisted (env_delete k msg e) = delete k (persisted e).
Proof.
  unfold persisted, env_delete. pose proof (kv_delete_reliable (env_kv e) k) as Hr.
  destruct (kv_delete (env_kv e) k) as [r s] eqn:Hp. simpl in Hr. subst r.
  by apply kv_delete_view in Hp.
Qed.
End env_facts.

Create Rewrite HintDb persist.
#[export] Hint Rewrite @persisted_print @persisted_put @persisted_delete
  using typeclasses eauto : persist.

(** * In-memory maps and their persisted entries *)

(** The transitions that leave the persisted keys in [P] alone. *)
Definition leaves {A Store} `{!KeyValueStore Store, !KeyValueStoreOk Store}
    (P : bytes → Prop) : relation (A * env Store) :=
  λ s s', ∀ key, P key → persisted s'.2 !! key = persisted s.2 !! key.

#[export] Instance leaves_preorder {A Store} `{!KeyValueStore Store, !KeyValueStoreOk Store} P :
  PreOrder (leaves (A := A) (Store := Store) P).
Proof.
  split; unfold leaves; [done|]. intros s1 s2 s3 H12 H23 key HP.
  by rewrite H23, H12.
Qed.

(** Two key prefixes neither of which extends the other never share a key. *)
Definition disjoint_prefixes (p q : bytes) : Prop := ¬ p `prefix_of` q ∧ ¬ q `prefix_of` p.

#[export] Instance disjoint_prefixes_dec p q : Decision (disjoint_prefixes p q).
Proof. unfold disjoint_prefixes. apply _. Defined.

Lemma disjoint_prefixes_app p q k : disjoint_prefixes p q → ¬ p `prefix_of` q ++ k.
Proof.
  intros [Hpq Hqp] H. destruct (prefix_weak_total p q (q ++ k)) as [?|?]; auto.
  by apply prefix_app_r.
Qed.

Section persisted_map.
Context {K V : Type} `{Countable K} `{!Codec K, !Codec V}.
Implicit Types (m : gmap K V) (st : gmap bytes bytes) (p : bytes).

(** One round of the loading loop of [Pallet::new]: skip the bare prefix, decode
    the rest of the key and the value. *)
Definition decode_entry (p : bytes) (e : bytes * bytes) : option (K * V) :=
  if (length e.1 <=? length p)%nat then None
  else
    a ← decode_slice (drop (length p) e.1);
    b ← decode_slice e.2;
    Some (a, b).

(** The map [Pallet::new] builds from the entries below [p]. *)
Definition load_map {Store} `{!KeyValueStore Store} (p : bytes) (s : Store) : gmap K V :=
  load_all (decode_entry p) (kv_scan_prefix s p).

(** Every persisted entry below [p] is an entry of [m]. *)
Definition persisted_sub (p : bytes) (m : gmap K V) (st : gmap bytes bytes) : Prop :=
  ∀ key b, p `prefix_of` key → st !! key = Some b →
    ∃ k x, key = p ++ encode k ∧ b = encode x ∧ m !! k = Some x.

(** The entries below [p] are exactly those of [m]. *)
Definition synced (p : bytes) (m : gmap K V) (st : gmap bytes bytes) : Prop :=
  persisted_sub p m st ∧ ∀ k x, m !! k = Some x → st !! (p ++ encode k) = Some (encode x).

Lemma persisted_sub_frame p m st key b :
  ¬ p `prefix_of` key → persisted_sub p m st → persisted_sub p m (<[key := b]> st).
Proof.
  intros Hkey Hsub key' b' Hp Hb. rewrite lookup_insert_ne in Hb; [by apply Hsub|].
  by intros ->.
Qed.

Lemma persisted_sub_frame_delete p m st key :
  persisted_sub p m st → persisted_sub p m (delete key st).
Proof. intros Hsub key' b' Hp [_ Hb]%lookup_delete_Some. by apply Hsub. Qed.

Lemma synced_frame p m st key b :
  ¬ p `prefix_of` key → synced p m st → synced p m (<[key := b]> st).
Proof.
  intros Hkey [Hsub Hall]. split; [by apply persisted_sub_frame|].
  intros k x Hk. rewrite lookup_insert_ne; [by apply Hall|].
  intros ->. by apply Hkey, prefix_app_r.
Qed.

Lemma synced_frame_delete p m st key :
  ¬ p `prefix_of` key → synced p m st → synced p m (delete key st).
Proof.
  intros Hkey [Hsub Hall]. split; [by apply persisted_sub_frame_delete|].
  intros k x Hk. rewrite lookup_delete_ne; [by apply Hall|].
  intros ->. by apply Hkey, prefix_app_r.
Qed.

(** The relations only look at the keys below the prefix. *)
Definition agree_on (P : bytes → Prop) (st st' : gmap bytes bytes) : Prop :=
  ∀ key, P key → st' !! key = st !! key.

Lemma persisted_sub_agree p m st st' :
  agree_on (λ key, p `prefix_of` key) st st' → persisted_sub p m st → persisted_sub p m st'.
Proof. intros Hst Hsub key b Hp Hb. apply Hsub; [done|]. by rewrite <- Hst. Qed.

Lemma synced_agree p m st st' :
  agree_on (λ key, p `prefix_of` key) st st' → synced p m st → synced p m st'.
Proof.
  intros Hst [Hsub Hall]. split; [by eapply persisted_sub_agree|].
  intros k x Hk. rewrite Hst by by apply prefix_app_r. by apply Hall.
Qed.

Lemma synced_empty p : synced p ∅ ∅.
Proof. split; [intros key b _ Hb | intros k x Hk]; by rewrite lookup_empty in *. Qed.

Context `{!CodecOk K, !CodecOk V, !CodecNonEmpty K}.

Lemma entry_key_inj p (k k' : K) : p ++ encode k = p ++ encode k' → k = k'.
Proof. intros Hk%app_inv_head. by apply encode_inj. Qed.

Lemma decode_entry_encode p (k : K) (x : V) :
  decode_entry p (p ++ encode k, encode x) = Some (k, x).
Proof.
  unfold decode_entry. simpl. rewrite length_app.
  destruct (encode k) as [|b bs] eqn:Hk; [by apply encode_nonempty in Hk|].
  destruct (Nat.leb_spec (length p + length (b :: bs)) (length p)); [simpl in *; lia|].
  by rewrite drop_app_length, <- Hk, !decode_slice_encode.
Qed.

(** Writing an entry through. *)
Lemma synced_insert p m st k x :
  synced p m st → synced p (<[k := x]> m) (<[p ++ encode k := encode x]> st).
Proof.
  intros [Hsub Hall]. split.
  - intros key b Hp [[<- <-]|[Hne Hb]]%lookup_insert_Some.
    + exists k, x. by rewrite lookup_insert_eq.
    + destruct (Hsub key b Hp Hb) as (k' & x' & -> & -> & Hk'). exists k', x'.
      rewrite lookup_insert_ne; [done|]. by intros ->.
  - intros k' x' [[<- <-]|[Hne Hk']]%lookup_insert_Some.
    + by rewrite lookup_insert_eq.
    + rewrite lookup_insert_ne; [by apply Hall|]. by intros ?%entry_key_inj.
Qed.

Lemma synced_delete p m st k :
  synced p m st → synced p (delete k m) (delete (p ++ encode k) st).
Proof.
  intros [Hsub Hall]. split.
  - intros key b Hp [Hne Hb]%lookup_delete_Some.
    destruct (Hsub key b Hp Hb) as (k' & x' & -> & -> & Hk'). exists k', x'.
    rewrite lookup_delete_ne; [done|]. by intros ->.
  - intros k' x' [Hne Hk']%lookup_delete_Some.
    rewrite lookup_delete_ne; [by apply Hall|]. by intros ?%entry_key_inj.
Qed.

(** Inserting in memory and writing some current entry. *)
Lemma persisted_sub_insert p m st k x k' x' :
  m !! k = None → <[k := x]> m !! k' = Some x' →
  persisted_sub p m st → persisted_sub p (<[k := x]> m) (<[p ++ encode k' := encode x']> st).
Proof.
  intros Hk Hk' Hsub key b Hp [[<- <-]|[Hne Hb]]%lookup_insert_Some.
  - by exists k', x'.
  - destruct (Hsub key b Hp Hb) as (k2 & x2 & -> & -> & Hk2). exists k2, x2.
    rewrite lookup_insert_ne; [done|]. intros ->. congruence.
Qed.

Lemma persisted_sub_delete p m st k :
  persisted_sub p m st → persisted_sub p (delete k m) (delete (p ++ encode k) st).
Proof.
  intros Hsub key b Hp [Hne Hb]%lookup_delete_Some.
  destruct (Hsub key b Hp Hb) as (k' & x' & -> & -> & Hk'). exists k', x'.
  rewrite lookup_delete_ne; [done|]. by intros ->.
Qed.

Context {Store : Type} `{!KeyValueStore Store, !KeyValueStoreOk Store}.

Lemma elem_of_scan (s : Store) p key b :
  (key, b) ∈ kv_scan_prefix s p ↔ kv_view s !! key = Some b ∧ p `prefix_of` key.
Proof.
  rewrite kv_scan_view, list_elem_of_filter, elem_of_btree_iter. simpl.
  unfold starts_with. rewrite bool_decide_eq_true. tauto.
Qed.

Lemma load_map_persisted_sub (s : Store) p m :
  persisted_sub p m (kv_view s) → load_map p s ⊆ m.
Proof.
  intros Hsub. apply load_all_sub. intros [key b] k x [Hb Hp]%elem_of_scan Hdec.
  destruct (Hsub key b Hp Hb) as (k' & x' & -> & -> & Hk').
  rewrite decode_entry_encode in Hdec. congruence.
Qed.

(** Loading a synchronised map gives it back. *)
Lemma load_map_synced (s : Store) p m : synced p m (kv_view s) → load_map p s = m.
Proof.
  intros [Hsub Hall]. apply load_all_eq.
  - intros [key b] k x [Hb Hp]%elem_of_scan Hdec.
    destruct (Hsub key b Hp Hb) as (k' & x' & -> & -> & Hk').
    rewrite decode_entry_encode in Hdec. congruence.
  - intros k x Hk. exists (p ++ encode k, encode x).
    rewrite elem_of_scan, decode_entry_encode. split; [|done].
    split; [by apply Hall | by apply prefix_app_r].
Qed.

(** What is loaded is exactly what is persisted. *)
Lemma load_map_loaded (s : Store) p m :
  persisted_sub p m (kv_view s) → synced p (load_map p s : gmap K V) (kv_view s).
Proof.
  intros Hsub. set (st := kv_view s).
  set (m' := base.filter (λ kx : K * V, st !! (p ++ encode kx.1) = Some (encode kx.2)) m).
  assert (Hs : synced p m' st).
  { split.
    - intros key b Hp Hb. destruct (Hsub key b Hp Hb) as (k & x & -> & -> & Hk).
      exists k, x. split; [done|]. split; [done|]. by apply map_lookup_filter_Some.
    - intros k x Hk. by apply map_lookup_filter_Some in Hk as [_ ?]. }
  by rewrite (load_map_synced s p m' Hs).
Qed.
End persisted_map.
