(* ===== verification/Decimal.v ===== *)
(** Decimal numbers as the standard library prints and reads them: [to_string] is
    stdpp's [pretty]; [str::trim] and [str::parse::<u32>] are below, with their round
    trip. *)

From S2P Require Export Machine.
From stdpp Require Import pretty.

(** ASCII white space.  ([str::trim] also removes white space beyond ASCII.) *)
Definition is_space (c : Ascii.ascii) : bool :=
  let n := Ascii.N_of_ascii c in ((9 <=? n) && (n <=? 13) || (n =? 32))%N.

Fixpoint drop_spaces (l : list Ascii.ascii) : list Ascii.ascii :=
  match l with
  | c :: l' => if is_space c then drop_spaces l' else l
  | [] => []
  end.

Definition trim (s : string) : string :=
  String.string_of_list_ascii
    (reverse (drop_spaces (reverse (drop_spaces (String.list_ascii_of_string s))))).

Definition digit_val (c : Ascii.ascii) : option N :=
  let n := Ascii.N_of_ascii c in
  if ((48 <=? n) && (n <=? 57))%N then Some (n - 48)%N else None.

(** The loop of [from_str_radix]: multiply and add with overflow checks. *)
Fixpoint parse_digits (acc : u32) (s : string) : option u32 :=
  match s with
  | String.EmptyString => Some acc
  | String.String c s' =>
      d ← digit_val c;
      acc' ← uint_of_N (10 * uval acc + d);
      parse_digits acc' s'
  end.

(** [str::parse::<u32>]: an optional plus sign and at least one digit. *)
Definition parse_u32 (s : string) : option u32 :=
  match s with
  | String.EmptyString => None
  | String.String c s' =>
      if decide (c = Ascii.ascii_of_nat 43) then
        match s' with String.EmptyString => None | _ => parse_digits uint_zero s' end
      else parse_digits uint_zero s
  end.

(** * Printing and reading back *)

Definition digits (s : string) : Prop :=
  Forall (λ c, is_Some (digit_val c)) (String.list_ascii_of_string s).

Lemma digit_val_pretty (d : N) : (d < 10)%N → digit_val (pretty_N_char d) = Some d.
Proof.
  intros Hd.
  assert (d = 0 ∨ d = 1 ∨ d = 2 ∨ d = 3 ∨ d = 4 ∨ d = 5 ∨ d = 6 ∨ d = 7 ∨ d = 8 ∨ d = 9)%N
    as Hc by lia.
  by repeat destruct Hc as [->|Hc]; [..|subst].
Qed.

Lemma digit_not_space c : is_Some (digit_val c) → is_space c = false.
Proof.
  unfold digit_val, is_space. intros [d Hd].
  destruct (_ && _)%N eqn:Hc in Hd; [|done].
  apply andb_true_iff in Hc as [H1%N.leb_le H2%N.leb_le].
  apply orb_false_iff. split; [apply andb_false_iff; right; apply N.leb_gt | apply N.eqb_neq]; lia.
Qed.

Lemma drop_spaces_digits l : Forall (λ c, is_Some (digit_val c)) l → drop_spaces l = l.
Proof. intros [|c l' Hc _]; simpl; [done|]. by rewrite digit_not_space. Qed.

Lemma trim_digits s : digits s → trim s = s.
Proof.
  unfold digits, trim. intros Hs.
  rewrite (drop_spaces_digits (String.list_ascii_of_string s)) by done.
  rewrite drop_spaces_digits by by rewrite reverse_Permutation.
  by rewrite reverse_involutive, String.string_of_list_ascii_of_string.
Qed.

Lemma pretty_go_digits (x : N) (s : string) : digits s → digits (pretty_N_go x s).
Proof.
  revert s. induction (N.lt_wf_0 x) as [x _ IH]; intros s Hs.
  destruct (decide (x = 0)%N) as [->|Hx]; [by rewrite pretty_N_go_0|].
  rewrite pretty_N_go_step by lia. apply IH; [apply N.div_lt; lia|].
  unfold digits. simpl. constructor; [|done].
  rewrite digit_val_pretty by (apply N.mod_lt; lia). by eexists.
Qed.

Lemma pretty_digits (x : N) : digits (pretty x).
Proof.
  unfold pretty, pretty_N. destruct (decide (x = 0)%N); [by repeat constructor|].
  apply pretty_go_digits. constructor.
Qed.

Lemma parse_pretty_go (x : u32) (s : string) :
  parse_digits uint_zero (pretty_N_go (uval x) s) = parse_digits x s.
Proof.
  remember (uval x) as n eqn:Hn. revert x Hn s.
  induction (N.lt_wf_0 n) as [n _ IH]; intros x Hn s.
  destruct (decide (n = 0)%N) as [->|Hx].
  { rewrite pretty_N_go_0. f_equal. apply uint_eq. by rewrite uval_zero. }
  rewrite pretty_N_go_step by lia. pose proof (uval_lt x) as Hlt.
  assert (Hq : uval (uwrap (w := 32) (n / 10)) = (n / 10)%N).
  { apply uval_uwrap_small. pose proof (N.div_lt n 10). lia. }
  rewrite (IH (n / 10)%N) with (x := uwrap (n / 10)); [|apply N.div_lt; lia | done].
  simpl. rewrite digit_val_pretty by (apply N.mod_lt; lia). simpl. rewrite Hq.
  assert (Heq : (10 * (n / 10) + n mod 10 = uval x)%N) by (pose proof (N.div_mod' n 10); lia).
  rewrite Heq, uint_of_to_N. done.
Qed.

Lemma parse_pretty (x : u32) : parse_u32 (pretty (uval x)) = Some x.
Proof.
  assert (Hparse : parse_digits uint_zero (pretty (uval x)) = Some x).
  { unfold pretty, pretty_N. destruct (decide (uval x = 0)%N) as [Hx|Hx].
    - simpl. f_equal. apply uint_eq. rewrite Hx. reflexivity.
    - by rewrite parse_pretty_go. }
  pose proof (pretty_digits (uval x)) as Hd. unfold parse_u32.
  destruct (pretty (uval x)) as [|c s] eqn:Hs.
  { unfold pretty, pretty_N in Hs. destruct (decide (uval x = 0)%N); [done|].
    pose proof (pretty_N_go_ne_0 (uval x)). rewrite <- Hs in Hparse.
    by rewrite Hs in Hparse; injection Hparse as Hz; rewrite <- Hz, uval_zero in n. }
  rewrite decide_False; [done|]. intros ->.
  apply Forall_cons in Hd as [[d Hc] _]. by vm_compute in Hc.
Qed.

(** What is printed is read back, also through [trim]. *)
Lemma parse_trim_pretty (x : u32) : parse_u32 (trim (pretty (uval x))) = Some x.
Proof. rewrite trim_digits by apply pretty_digits. apply parse_pretty. Qed.
