(* ===== verification/Mempool.v ===== *)
(** [support.rs]: the mempool, a FIFO queue of extrinsics waiting for a block. *)

From S2P Require Export Prelude.

Record Mempool (Extrinsic : Type) := mkMempool {
  pending : list Extrinsic;
  max_capacity : option nat;
  block_limit : option nat
}.
Arguments mkMempool {Extrinsic} _ _ _.
Arguments pending {Extrinsic} _.
Arguments max_capacity {Extrinsic} _.
Arguments block_limit {Extrinsic} _.

Inductive MempoolFull : Type := mempool_full.

Section mempool.
Context {Extrinsic : Type}.
Implicit Types mp : Mempool Extrinsic.

Definition new : Mempool Extrinsic := mkMempool [] None None.

Definition with_capacity (max_len : nat) : Mempool Extrinsic := mkMempool [] (Some max_len) None.

Definition with_block_limit (limit : nat) : Mempool Extrinsic := mkMempool [] None (Some limit).

Definition set_pending (l : list Extrinsic) mp : Mempool Extrinsic :=
  mkMempool l (max_capacity mp) (block_limit mp).

Definition len mp : nat := length (pending mp).

Definition is_empty mp : bool := match pending mp with [] => true | _ => false end.

Definition is_block_ready mp : bool :=
  match block_limit mp with
  | Some limit => (limit <=? length (pending mp))%nat
  | None => false
  end.

Definition pending_extrinsics mp : list Extrinsic := pending mp.

Definition submit (ext : Extrinsic) mp : result unit MempoolFull * Mempool Extrinsic :=
  let push := (Ok tt, set_pending (pending mp ++ [ext]) mp) in
  match max_capacity mp with
  | Some max => if (max <=? length (pending mp))%nat then (Err mempool_full, mp) else push
  | None => push
  end.

(** [for _ in 0..n]: pop the front into [exts], stop at the first [None]. *)
Fixpoint drain_loop (n : nat) (queue exts : list Extrinsic) : list Extrinsic * list Extrinsic :=
  match n with
  | 0 => (exts, queue)
  | S n' =>
      match queue with
      | ext :: queue' => drain_loop n' queue' (exts ++ [ext])
      | [] => (exts, [])
      end
  end.

Definition drain_for_block (n : nat) mp : list Extrinsic * Mempool Extrinsic :=
  let '(exts, queue) := drain_loop n (pending mp) [] in (exts, set_pending queue mp).

Definition remove (index : nat) mp : option Extrinsic * Mempool Extrinsic :=
  if (index <? length (pending mp))%nat
  then (pending mp !! index, set_pending (delete index (pending mp)) mp)
  else (None, mp).

Definition retain (f : Extrinsic → bool) mp : Mempool Extrinsic :=
  set_pending (base.filter (λ ext, f ext = true) (pending mp)) mp.

Definition clone mp : Mempool Extrinsic :=
  mkMempool (pending mp) (max_capacity mp) (block_limit mp).

(** ** The queue operations on the pending list *)

Lemma drain_loop_spec n queue exts :
  drain_loop n queue exts = (exts ++ take n queue, drop n queue).
Proof.
  revert queue exts. induction n as [|n IH]; intros queue exts; simpl.
  - by rewrite app_nil_r.
  - destruct queue as [|ext queue]; simpl; [by rewrite app_nil_r|].
    by rewrite IH, <- (assoc_L (++)).
Qed.

Lemma drain_for_block_spec n mp :
  drain_for_block n mp = (take n (pending mp), set_pending (drop n (pending mp)) mp).
Proof. unfold drain_for_block. by rewrite drain_loop_spec. Qed.

(** The queue holds at most as many extrinsics as the capacity allows. *)
Definition within_capacity mp : Prop :=
  ∀ max, max_capacity mp = Some max → length (pending mp) ≤ max.

Lemma within_capacity_set_pending l mp :
  length l ≤ length (pending mp) → within_capacity mp → within_capacity (set_pending l mp).
Proof. intros Hl Hmp max Hmax. specialize (Hmp max Hmax). simpl in *. lia. Qed.

Lemma submit_within_capacity ext mp :
  within_capacity mp → within_capacity (submit ext mp).2.
Proof.
  intros Hmp max Hmax. unfold submit in *. specialize (Hmp max).
  destruct (max_capacity mp) as [max'|] eqn:Hcap; simpl in *; [|congruence].
  destruct (Nat.leb_spec max' (length (pending mp))); simpl in *.
  - rewrite Hcap in *. auto.
  - rewrite Hcap in *. simplify_eq. rewrite length_app. simpl. lia.
Qed.
End mempool.

(** * A mempool over time *)

Section mempool_trace.
Context {Extrinsic : Type}.

(** The calls the node makes. *)
Inductive mempool_op : Type :=
| OpSubmit (ext : Extrinsic)
| OpDrain (n : nat)
| OpRemove (index : nat)
| OpRetain (f : Extrinsic → bool).

(** The submissions accepted so far, the extrinsics handed out so far, the pool. *)
Record history := History {
  accepted : list Extrinsic;
  drained : list Extrinsic;
  pool : Mempool Extrinsic
}.

Definition run_op (h : history) (op : mempool_op) : history :=
  match op with
  | OpSubmit ext =>
      let '(r, mp) := submit ext (pool h) in
      History (match r with Ok _ => accepted h ++ [ext] | Err _ => accepted h end) (drained h) mp
  | OpDrain n =>
      let '(exts, mp) := drain_for_block n (pool h) in
      History (accepted h) (drained h ++ exts) mp
  | OpRemove index => History (accepted h) (drained h) (remove index (pool h)).2
  | OpRetain f => History (accepted h) (drained h) (retain f (pool h))
  end.

Definition run_ops (mp : Mempool Extrinsic) (ops : list mempool_op) : history :=
  foldl run_op (History (pending mp) [] mp) ops.

Definition submit_or_drain (op : mempool_op) : Prop :=
  match op with OpSubmit _ | OpDrain _ => True | _ => False end.

Lemma run_op_fifo h op :
  submit_or_drain op → accepted h = drained h ++ pending (pool h) →
  accepted (run_op h op) = drained (run_op h op) ++ pending (pool (run_op h op)).
Proof.
  intros Hop Hh. destruct op as [ext|n| |]; [| |done..]; simpl.
  - unfold submit. destruct (max_capacity (pool h)) as [max|].
    + destruct (max <=? _)%nat; simpl; [done|]. by rewrite Hh, <- (assoc_L (++)).
    + simpl. by rewrite Hh, <- (assoc_L (++)).
  - rewrite drain_for_block_spec. simpl. by rewrite Hh, <- (assoc_L (++)), take_drop.
Qed.

(** C31: while a pool is only submitted to and drained, it is a FIFO queue that
    loses, duplicates and reorders nothing: what was handed out followed by what
    is pending is what was accepted, in the order of acceptance. *)
Theorem mempool_fifo (mp : Mempool Extrinsic) (ops : list mempool_op) :
  Forall submit_or_drain ops →
  accepted (run_ops mp ops) = drained (run_ops mp ops) ++ pending (pool (run_ops mp ops)).
Proof.
  intros Hops. unfold run_ops.
  assert (Hh : accepted (History (pending mp) [] mp) = drained (History (pending mp) [] mp) ++
    pending (pool (History (pending mp) [] mp))) by done.
  revert Hh. generalize (History (pending mp) [] mp).
  induction Hops as [|op ops Hop _ IH]; intros h Hh; simpl; [done|].
  by apply IH, run_op_fifo.
Qed.

Lemma run_op_within_capacity h op :
  within_capacity (pool h) → within_capacity (pool (run_op h op)).
Proof.
  intros Hh. destruct op as [ext|n|index|f]; simpl.
  - pose proof (submit_within_capacity ext (pool h) Hh). by destruct (submit ext (pool h)).
  - rewrite drain_for_block_spec. apply within_capacity_set_pending; [|done].
    rewrite length_drop. lia.
  - unfold remove. destruct (Nat.ltb_spec index (length (pending (pool h)))); [|done].
    apply within_capacity_set_pending; [|done]. rewrite length_delete; [lia|].
    by apply lookup_lt_is_Some.
  - apply within_capacity_set_pending; [|done]. apply length_filter.
Qed.

(** A pool made by [with_capacity] never holds more than [max_len]
    extrinsics, whatever calls are made on it, and its capacity never changes. *)
Theorem mempool_capacity_respected (max_len : nat) (ops : list mempool_op) :
  length (pending (pool (run_ops (with_capacity max_len) ops))) ≤ max_len.
Proof.
  unfold run_ops.
  set (h0 := History _ [] _).
  assert (Hh : within_capacity (pool h0) ∧ max_capacity (pool h0) = Some max_len).
  { split; [|done]. intros max. simpl. lia. }
  revert Hh. generalize h0. clear h0.
  induction ops as [|op ops IH]; intros h [Hcap Hmax]; simpl; [by apply Hcap|].
  apply IH. split; [by apply run_op_within_capacity|].
  destruct op as [ext|n|index|f]; simpl.
  - unfold submit. rewrite Hmax. by destruct (_ <=? _)%nat.
  - by rewrite drain_for_block_spec.
  - unfold remove. by destruct (_ <? _)%nat.
  - done.
Qed.
End mempool_trace.
Arguments mempool_op : clear implicits.
Arguments history : clear implicits.

Lemma mempool_fifo_witness :
  accepted (run_ops (with_capacity 2) [OpSubmit 1; OpSubmit 2; OpSubmit 3; OpDrain 1; OpSubmit 4])
    = [1] ++ [2; 4].
Proof.
  assert (H : Forall submit_or_drain
    [OpSubmit 1; OpSubmit 2; OpSubmit 3; OpDrain 1; OpSubmit 4]) by (repeat constructor).
  exact (mempool_fifo (with_capacity 2) _ H).
Defined.
