(* ===== verification/Extrinsic.v ===== *)
(** [support.rs]: accounts, blocks, signed extrinsics, batch verification and the
    development keyring.  Ed25519 ([ed25519_dalek]) is third-party code and enters
    as the class [Ed25519]. *)

From S2P Require Export Storage.

(** * Accounts *)

Record AccountId32 := mkAccountId32 { as_bytes : array 32 }.

Lemma AccountId32_eta (a : AccountId32) : mkAccountId32 (as_bytes a) = a.
Proof. by destruct a. Qed.

#[export] Instance AccountId32_eq_dec : EqDecision AccountId32.
Proof. solve_decision. Defined.

#[export] Instance AccountId32_countable : Countable AccountId32 :=
  inj_countable' as_bytes mkAccountId32 AccountId32_eta.

#[export] Instance AccountId32_ord : Ord AccountId32 := λ a b, ltb (as_bytes a) (as_bytes b).

#[export] Instance AccountId32_ord_ok : OrdOk AccountId32.
Proof. apply (ord_ok_inj as_bytes); [|done]. intros [] []. simpl. congruence. Qed.

Definition AccountId32_from (b : array 32) : AccountId32 := mkAccountId32 b.

(** ** Hexadecimal rendering *)

Definition hex_digit (n : N) : string :=
  default String.EmptyString (["0"; "1"; "2"; "3"; "4"; "5"; "6"; "7"; "8"; "9"; "a"; "b"; "c"; "d"; "e"; "f"]
    !! N.to_nat n).

(** [format!("{b:02x}")] *)
Definition byte_hex (b : byte) : string :=
  hex_digit (Byte.to_N b / 16) +:+ hex_digit (Byte.to_N b mod 16).

(** [bytes.iter().map(|b| format!("{b:02x}")).collect::<String>()] *)
Definition hex_string (bs : bytes) : string := foldr (λ b s, byte_hex b +:+ s) String.EmptyString bs.

(** [impl Debug for AccountId32] *)
Definition AccountId32_fmt (a : AccountId32) : string :=
  let hex := hex_string (arr_list (as_bytes a)) in
  "0x" +:+ String.substring 0 8 hex +:+ "…" +:+ String.substring 56 8 hex.

(** * Blocks *)

Record Header (BlockNumber : Type) := mkHeader { block_number : BlockNumber }.
Arguments mkHeader {BlockNumber} _.
Arguments block_number {BlockNumber} _.

Record Block (Header Extrinsic : Type) := mkBlock {
  header : Header;
  extrinsics : list Extrinsic
}.
Arguments mkBlock {Header Extrinsic} _ _.
Arguments header {Header Extrinsic} _.
Arguments extrinsics {Header Extrinsic} _.

(** * Ed25519 *)

Class Ed25519 := {
  SigningKey : Type;
  VerifyingKey : Type;
  signing_key_from_bytes : array 32 → SigningKey;
  verifying_key : SigningKey → VerifyingKey;
  verifying_key_bytes : VerifyingKey → array 32;
  (** [VerifyingKey::from_bytes], [None] when the bytes are not a curve point *)
  verifying_key_from_bytes : array 32 → option VerifyingKey;
  (** [sk.sign(msg).to_bytes()] *)
  sign : SigningKey → bytes → array 64;
  (** [vk.verify(msg, &Signature::from_bytes(sig)).is_ok()] *)
  verify_signature : VerifyingKey → bytes → array 64 → bool
}.

(** A public key survives its byte form, and a signature made with a key verifies
    under its public key. *)
Class Ed25519Ok `{!Ed25519} : Prop := {
  verifying_key_roundtrip (sk : SigningKey) :
    verifying_key_from_bytes (verifying_key_bytes (verifying_key sk)) = Some (verifying_key sk);
  verify_sign (sk : SigningKey) (msg : bytes) :
    verify_signature (verifying_key sk) msg (sign sk msg) = true
}.

(** * Extrinsics *)

Record UncheckedExtrinsic (Call : Type) := mkExtrinsic {
  signer : AccountId32;
  signature : array 64;
  nonce : u32;
  call : Call
}.
Arguments mkExtrinsic {Call} _ _ _ _.
Arguments signer {Call} _.
Arguments signature {Call} _.
Arguments nonce {Call} _.
Arguments call {Call} _.

Section extrinsic.
Context `{!Ed25519} {Call : Type} `{!Codec (array 32 * u32 * Call)}.
Implicit Types ext : UncheckedExtrinsic Call.

Definition new_signed (sk : SigningKey) (nonce : u32) (call : Call) : UncheckedExtrinsic Call :=
  let signer := mkAccountId32 (verifying_key_bytes (verifying_key sk)) in
  let payload := encode (as_bytes signer, nonce, call) in
  let signature := sign sk payload in
  mkExtrinsic signer signature nonce call.

Definition verify ext : DispatchResult :=
  match verifying_key_from_bytes (as_bytes (signer ext)) with
  | None => Err "invalid public key"
  | Some vk =>
      let sig := signature ext in
      let payload := encode (as_bytes (signer ext), nonce ext, call ext) in
      if verify_signature vk payload sig then Ok tt else Err "invalid signature"
  end.

(** [exts.par_iter().map(|e| e.verify()).collect()]: rayon keeps the order. *)
Definition verify_batch (exts : list (UncheckedExtrinsic Call)) : list DispatchResult :=
  verify <$> exts.

Lemma verify_new_signed `{!Ed25519Ok} (sk : SigningKey) (n : u32) (c : Call) :
  verify (new_signed sk n c) = Ok tt.
Proof.
  unfold verify, new_signed. simpl. by rewrite verifying_key_roundtrip, verify_sign.
Qed.

(** What [new_signed] builds verifies, whatever the key, nonce and call. *)
Theorem new_signed_verifies `{!Ed25519Ok} (sk : SigningKey) (n : u32) (c : Call) :
  verify (new_signed sk n c) = Ok tt.
Proof. apply verify_new_signed. Qed.

(** C32: the verified bytes bind signer, nonce and call: an extrinsic that
    verifies under a signature made for another signer, nonce or call has a
    signature the scheme accepts on a message different from the signed one. *)
Theorem verify_binds `{!CodecOk (array 32 * u32 * Call)} ext (sk : SigningKey)
    (n : u32) (c : Call) :
  signature ext = signature (new_signed sk n c) →
  verify ext = Ok tt →
  ext = new_signed sk n c ∨
  ∃ vk msg msg', msg ≠ msg' ∧ sign sk msg = signature ext ∧
    verifying_key_from_bytes (as_bytes (signer ext)) = Some vk ∧
    verify_signature vk msg' (sign sk msg) = true.
Proof.
  intros Hsig Hver. destruct ext as [s sg n' c']. simpl in *. subst sg.
  set (pk := verifying_key_bytes (verifying_key sk)).
  destruct (decide (encode (as_bytes s, n', c') = encode (pk, n, c))) as [Heq|Hne].
  - left. apply encode_inj in Heq. destruct s as [b]. simplify_eq/=. done.
  - right. unfold verify in Hver. simpl in Hver.
    destruct (verifying_key_from_bytes (as_bytes s)) as [vk|]; [|done].
    destruct (verify_signature _ _ _) eqn:Hv in Hver; [|done].
    by exists vk, (encode (pk, n, c)), (encode (as_bytes s, n', c')).
Qed.

Lemma verify_batch_lookup (exts : list (UncheckedExtrinsic Call)) (i : nat) :
  verify_batch exts !! i = verify <$> exts !! i.
Proof. apply list_lookup_fmap. Qed.
End extrinsic.

(** [impl Debug for UncheckedExtrinsic]: the shown signature. *)
Definition signature_fmt {Call} (ext : UncheckedExtrinsic Call) : string :=
  let sig_hex := hex_string (arr_list (signature ext)) in
  "0x" +:+ String.substring 0 8 sig_hex +:+ "…" +:+ String.substring 120 8 sig_hex.

(** * The development keyring *)

Inductive AccountKeyring : Type := Alice | Bob | Charlie.

#[export] Instance AccountKeyring_eq_dec : EqDecision AccountKeyring.
Proof. solve_decision. Defined.

Section keyring.
Context `{!Ed25519}.

Definition keyring_name (k : AccountKeyring) : bytes :=
  match k with
  | Alice => bytes_of_string "Alice"
  | Bob => bytes_of_string "Bob"
  | Charlie => bytes_of_string "Charlie"
  end.

(** [seed[..name.len()].copy_from_slice(name)] over a zeroed array *)
Definition seed_bytes (k : AccountKeyring) : bytes :=
  let seed := replicate 32 x00 in
  let name := keyring_name k in
  name ++ drop (length name) seed.

Lemma length_seed_bytes k : Nat.eqb (length (seed_bytes k)) 32 = true.
Proof. by destruct k. Defined.

Definition seed (k : AccountKeyring) : array 32 := Arr (seed_bytes k) (length_seed_bytes k).

Definition signing_key (k : AccountKeyring) : SigningKey := signing_key_from_bytes (seed k).

Definition public (k : AccountKeyring) : AccountId32 :=
  mkAccountId32 (verifying_key_bytes (verifying_key (signing_key k))).
End keyring.

(** [str::to_lowercase] on ASCII letters.  No other character lowers to the
    letters of the three names. *)
Definition ascii_lower (c : Ascii.ascii) : Ascii.ascii :=
  let n := Ascii.N_of_ascii c in
  if ((65 <=? n) && (n <=? 90))%N then Ascii.ascii_of_N (n + 32) else c.

Fixpoint to_lowercase (s : string) : string :=
  match s with
  | String.EmptyString => String.EmptyString
  | String.String c s' => String.String (ascii_lower c) (to_lowercase s')
  end.

Definition from_name (name : string) : option AccountKeyring :=
  let n := to_lowercase name in
  if decide (n = "alice") then Some Alice
  else if decide (n = "bob") then Some Bob
  else if decide (n = "charlie") then Some Charlie
  else None.

(** The three seeds differ, so no two dev accounts share a key. *)
Lemma seed_inj (k k' : AccountKeyring) : seed k = seed k' → k = k'.
Proof.
  intros H. apply (f_equal arr_list) in H. by destruct k, k'.
Qed.
