(* ===== verification/System.v ===== *)
(** [system.rs]: the system pallet, which keeps the block number and one nonce per
    account. *)

From S2P Require Export Storage.

Definition PREFIX_BLOCK_NUMBER : bytes := bytes_of_string "system:block_number".
Definition PREFIX_NONCE : bytes := bytes_of_string "system:nonce:".
#[global] Opaque PREFIX_BLOCK_NUMBER PREFIX_NONCE.

(** [Pallet<T>], with [T::AccountId], [T::Nonce] and [T::BlockNumber] as the
    parameters of the record. *)
Record Pallet (AccountId Nonce BlockNumber : Type) `{Countable AccountId} := mkPallet {
  pallet_block_number : BlockNumber;
  pallet_nonce : gmap AccountId Nonce
}.
Arguments mkPallet {AccountId Nonce BlockNumber _ _} _ _.
Arguments pallet_block_number {AccountId Nonce BlockNumber _ _} _.
Arguments pallet_nonce {AccountId Nonce BlockNumber _ _} _.

Section system.
Context {AccountId Nonce BlockNumber : Type} `{Countable AccountId}.
Context `{!CheckedNum Nonce, !CheckedNum BlockNumber}.
Context `{!Codec AccountId, !Codec Nonce, !Codec BlockNumber}.
Context {Store : Type} `{!KeyValueStore Store}.

#[local] Abbreviation pallet := (Pallet AccountId Nonce BlockNumber).
#[local] Abbreviation M := (prog (pallet * env Store)).
Implicit Types (p : pallet) (e : env Store) (who : AccountId).

Definition new (store : Store) : pallet :=
  let block_number :=
    default zero (kv_get store PREFIX_BLOCK_NUMBER ≫= decode_slice) in
  let nonce := load_map PREFIX_NONCE store in
  mkPallet block_number nonce.

Definition block_number p : BlockNumber := pallet_block_number p.

Definition nonce p who : Nonce := default zero (pallet_nonce p !! who).

Definition inc_block_number : M unit :=
  b ← gets (λ s, pallet_block_number s.1);
  b' ← unwrap (checked_add b one);
  modify (λ '(p, e), (mkPallet b' (pallet_nonce p), e));;
  effect (env_put PREFIX_BLOCK_NUMBER (encode b') "Failed to persist block number: ").

Definition inc_nonce who : M unit :=
  user_nonce ← gets (λ s, default zero (pallet_nonce s.1 !! who));
  new_nonce ← unwrap (checked_add user_nonce one);
  modify (λ '(p, e),
    (mkPallet (pallet_block_number p) (<[who := new_nonce]> (pallet_nonce p)), e));;
  let key := PREFIX_NONCE ++ encode who in
  effect (env_put key (encode new_nonce) "Failed to persist nonce for account: ").

(** ** What the operations do *)

(** The pallet after a successful [inc_block_number] or [inc_nonce]. *)
Definition set_block_number (b : BlockNumber) p : pallet := mkPallet b (pallet_nonce p).
Definition set_nonce who (n : Nonce) p : pallet :=
  mkPallet (pallet_block_number p) (<[who := n]> (pallet_nonce p)).

Lemma inc_block_number_run p e :
  inc_block_number (p, e) =
    match checked_add (block_number p) one with
    | Some b => (Done tt, (set_block_number b p,
        env_put PREFIX_BLOCK_NUMBER (encode b) "Failed to persist block number: " e))
    | None => (Panicked unwrap_msg, (p, e))
    end.
Proof.
  unfold inc_block_number, effect. prun. unfold block_number.
  by destruct (checked_add (pallet_block_number p) one).
Qed.

Lemma inc_nonce_run who p e :
  inc_nonce who (p, e) =
    match checked_add (nonce p who) one with
    | Some n => (Done tt, (set_nonce who n p,
        env_put (PREFIX_NONCE ++ encode who) (encode n) "Failed to persist nonce for account: " e))
    | None => (Panicked unwrap_msg, (p, e))
    end.
Proof.
  unfold inc_nonce, effect. prun. unfold nonce.
  by destruct (checked_add (default zero (pallet_nonce p !! who)) one).
Qed.

Lemma nonce_set_nonce who n p : nonce (set_nonce who n p) who = n.
Proof. unfold nonce. simpl. by rewrite lookup_insert_eq. Qed.

Lemma nonce_set_nonce_ne who who' n p : who ≠ who' → nonce (set_nonce who n p) who' = nonce p who'.
Proof. intros Hne. unfold nonce. simpl. by rewrite lookup_insert_ne. Qed.

Lemma nonce_set_block_number b p who : nonce (set_block_number b p) who = nonce p who.
Proof. done. Qed.

(** The persisted state of the pallet: the block number under its own key, the
    nonces below their prefix. *)
Definition system_synced p (st : gmap bytes bytes) : Prop :=
  default zero (st !! PREFIX_BLOCK_NUMBER ≫= decode_slice) = block_number p ∧
  synced PREFIX_NONCE (pallet_nonce p) st.

Lemma block_number_key_frame k : PREFIX_NONCE ++ k ≠ PREFIX_BLOCK_NUMBER.
Proof.
  intros Heq. assert (Hp : PREFIX_NONCE `prefix_of` PREFIX_BLOCK_NUMBER)
    by (rewrite <- Heq; apply prefix_app_r; done).
  revert Hp. apply (bool_decide_eq_false_1 _). by vm_compute.
Qed.

(** The keys the pallet owns. *)
Definition system_key (key : bytes) : Prop :=
  key = PREFIX_BLOCK_NUMBER ∨ PREFIX_NONCE `prefix_of` key.

Lemma system_synced_agree p st st' :
  agree_on system_key st st' → system_synced p st → system_synced p st'.
Proof.
  intros Hst [Hb Hs]. split.
  - rewrite Hst; [done | by left].
  - eapply synced_agree; [|done]. intros key Hkey. apply Hst. by right.
Qed.

Section persistence.
Context `{!CodecOk AccountId, !CodecOk Nonce, !CodecOk BlockNumber, !CodecNonEmpty AccountId}.
Context `{!KeyValueStoreOk Store}.

Lemma system_new_synced p (s : Store) : system_synced p (kv_view s) → new s = p.
Proof.
  intros [Hb Hs]. unfold new. rewrite kv_get_view, Hb, (load_map_synced _ _ _ Hs).
  by destruct p.
Qed.

Context `{!KvReliable Store}.

Lemma inc_block_number_synced :
  ensures (keeps (λ s, system_synced s.1 (persisted s.2))) inc_block_number.
Proof.
  intros [p e] [Hb Hs]. rewrite inc_block_number_run.
  destruct (checked_add (block_number p) one) as [b|]; simpl in *; [|by split].
  rewrite persisted_put. split; simpl.
  - rewrite lookup_insert_eq. simpl. by rewrite decode_slice_encode.
  - apply synced_frame; [|done]. apply (bool_decide_eq_false_1 _). by vm_compute.
Qed.

Lemma inc_nonce_synced who :
  ensures (keeps (λ s, system_synced s.1 (persisted s.2))) (inc_nonce who).
Proof.
  intros [p e] [Hb Hs]. rewrite inc_nonce_run.
  destruct (checked_add (nonce p who) one) as [n|]; simpl in *; [|by split].
  rewrite persisted_put. split; simpl.
  - rewrite lookup_insert_ne; [done | apply block_number_key_frame].
  - by apply synced_insert.
Qed.

Lemma inc_block_number_leaves :
  ensures (leaves (λ key, ¬ system_key key)) inc_block_number.
Proof.
  intros [p e] key Hkey. rewrite inc_block_number_run.
  destruct (checked_add _ _); simpl; [|done]. rewrite persisted_put, lookup_insert_ne; [done|].
  intros <-. apply Hkey. by left.
Qed.

Lemma inc_nonce_leaves who :
  ensures (leaves (λ key, ¬ system_key key)) (inc_nonce who).
Proof.
  intros [p e] key Hkey. rewrite inc_nonce_run.
  destruct (checked_add _ _); simpl; [|done]. rewrite persisted_put, lookup_insert_ne; [done|].
  intros <-. apply Hkey. right. by apply prefix_app_r.
Qed.
End persistence.

Section arithmetic.
Context `{!CheckedNumOk Nonce, !CheckedNumOk BlockNumber}.

(** The number [b] follows [b0]. *)
Lemma checked_succ (b0 b : BlockNumber) :
  checked_add b0 one = Some b ↔ num_val b = (num_val b0 + 1)%N.
Proof. by rewrite checked_add_Some, num_val_one. Qed.

(** C30: [inc_nonce] adds exactly one to the caller's nonce, touches no other
    account and no block number, and panics without any effect when the nonce
    has no successor in its type. *)
Theorem inc_nonce_spec who p e :
  if (num_val (nonce p who) =? num_max Nonce)%N
  then inc_nonce who (p, e)
    = (Panicked unwrap_msg, (p, e))
  else ∃ p' e', inc_nonce who (p, e) = (Done tt, (p', e')) ∧
    num_val (nonce p' who) = (num_val (nonce p who) + 1)%N ∧
    (∀ who', who' ≠ who → nonce p' who' = nonce p who') ∧
    block_number p' = block_number p.
Proof.
  rewrite inc_nonce_run. destruct (N.eqb_spec (num_val (nonce p who)) (num_max Nonce)) as [Hm|Hm].
  - assert (checked_add (nonce p who) one = None) as ->; [|done].
    apply checked_add_None. rewrite num_val_one. lia.
  - destruct (checked_add (nonce p who) one) as [n|] eqn:Hn.
    + apply checked_add_Some in Hn. rewrite num_val_one in Hn.
      eexists _, _. split; [done|]. split; [by rewrite nonce_set_nonce|].
      split; [|done]. intros who' Hne. by apply nonce_set_nonce_ne.
    + apply checked_add_None in Hn. rewrite num_val_one in Hn.
      pose proof (num_val_max (nonce p who)). lia.
Qed.
End arithmetic.
End system.
