(* ===== verification/Balances.v ===== *)
(** [balances.rs]: the balances pallet, account balances and transfers. *)

From S2P Require Export Storage.

Definition PREFIX_BALANCE : bytes := bytes_of_string "balances:".
#[global] Opaque PREFIX_BALANCE.

(** [Pallet<T>], with [T::AccountId] and [T::Balance] as parameters. *)
Record Pallet (AccountId Balance : Type) `{Countable AccountId} := mkPallet {
  balances : gmap AccountId Balance
}.
Arguments mkPallet {AccountId Balance _ _} _.
Arguments balances {AccountId Balance _ _} _.

(** The [Call] enum [#[macros::call]] generates. *)
Inductive Call (AccountId Balance : Type) : Type :=
| Call_transfer (to : AccountId) (amount : Balance).
Arguments Call_transfer {AccountId Balance} _ _.

Section balances.
Context {AccountId Balance : Type} `{Countable AccountId} `{!CheckedNum Balance}.
Context `{!Codec AccountId, !Codec Balance}.
Context {Store : Type} `{!KeyValueStore Store}.

#[local] Abbreviation pallet := (Pallet AccountId Balance).
#[local] Abbreviation M := (prog (pallet * env Store)).
Implicit Types (p : pallet) (e : env Store) (who caller to : AccountId) (amount : Balance).

Definition new (store : Store) : pallet := mkPallet (load_map PREFIX_BALANCE store).

Definition balance_key who : bytes := PREFIX_BALANCE ++ encode who.

Definition set_balance who amount : M unit :=
  modify (λ '(p, e), (mkPallet (<[who := amount]> (balances p)), e));;
  let key := balance_key who in
  let encoded := encode amount in
  effect (env_put key encoded "Failed to persist balance: ").

Definition balance p who : Balance := default zero (balances p !! who).

Definition transfer caller to amount : M DispatchResult :=
  caller_balance ← gets (λ s, balance s.1 caller);
  to_balance ← gets (λ s, balance s.1 to);
  new_caller_balance ←? ok_or (checked_sub caller_balance amount) "Not enough funds.";
  new_to_balance ←? ok_or (checked_add to_balance amount) "Overflow";
  set_balance caller new_caller_balance;;
  set_balance to new_to_balance;;
  mret (Ok tt).

(** The generated [Dispatch] implementation. *)
Definition dispatch caller (call : Call AccountId Balance) : M DispatchResult :=
  match call with
  | Call_transfer to amount =>
      r ← transfer caller to amount;
      _ ←? r;
      mret (Ok tt)
  end.

(** ** What the operations do *)

Definition insert_balance who amount p : pallet := mkPallet (<[who := amount]> (balances p)).

Definition persist_balance who amount e : env Store :=
  env_put (balance_key who) (encode amount) "Failed to persist balance: " e.

Lemma set_balance_run who amount p e :
  set_balance who amount (p, e) = (Done tt, (insert_balance who amount p, persist_balance who amount e)).
Proof. done. Qed.

Lemma transfer_run caller to amount p e :
  transfer caller to amount (p, e) =
    match checked_sub (balance p caller) amount with
    | None => (Done (Err "Not enough funds."), (p, e))
    | Some new_caller =>
        match checked_add (balance p to) amount with
        | None => (Done (Err "Overflow"), (p, e))
        | Some new_to => (Done (Ok tt),
            (insert_balance to new_to (insert_balance caller new_caller p),
             persist_balance to new_to (persist_balance caller new_caller e)))
        end
    end.
Proof.
  unfold transfer. prun. destruct (checked_sub (balance p caller) amount); simpl; [|done].
  by destruct (checked_add (balance p to) amount).
Qed.

Lemma dispatch_run caller to amount p e :
  dispatch caller (Call_transfer to amount) (p, e) = transfer caller to amount (p, e).
Proof.
  unfold dispatch. prun. rewrite transfer_run. destruct (checked_sub _ _); [|done].
  by destruct (checked_add _ _).
Qed.

Lemma balance_insert who amount p : balance (insert_balance who amount p) who = amount.
Proof. unfold balance. simpl. by rewrite lookup_insert_eq. Qed.

Lemma balance_insert_ne who who' amount p :
  who ≠ who' → balance (insert_balance who amount p) who' = balance p who'.
Proof. intros Hne. unfold balance. simpl. by rewrite lookup_insert_ne. Qed.

Section persistence.
Context `{!CodecOk AccountId, !CodecOk Balance, !CodecNonEmpty AccountId}.
Context `{!KeyValueStoreOk Store}.

Definition balances_synced p (st : gmap bytes bytes) : Prop :=
  synced PREFIX_BALANCE (balances p) st.

Lemma balances_new_synced p (s : Store) : balances_synced p (kv_view s) → new s = p.
Proof. intros Hs. unfold new. rewrite (load_map_synced _ _ _ Hs). by destruct p. Qed.

Context `{!KvReliable Store}.

Lemma insert_balance_synced who amount p e :
  balances_synced p (persisted e) →
  balances_synced (insert_balance who amount p) (persisted (persist_balance who amount e)).
Proof.
  intros Hs. unfold persist_balance. rewrite persisted_put. by apply synced_insert.
Qed.

Lemma set_balance_synced who amount :
  ensures (keeps (λ s, balances_synced s.1 (persisted s.2))) (set_balance who amount).
Proof. intros [p e] Hs. by apply insert_balance_synced. Qed.

Lemma dispatch_synced caller call :
  ensures (keeps (λ s, balances_synced s.1 (persisted s.2))) (dispatch caller call).
Proof.
  intros [p e] Hs. destruct call as [to amount]. rewrite dispatch_run, transfer_run.
  destruct (checked_sub _ _) as [nc|]; [|done]. destruct (checked_add _ _) as [nt|]; [|done].
  by apply insert_balance_synced, insert_balance_synced.
Qed.

(** The keys the pallet owns. *)
Definition balances_key (key : bytes) : Prop := PREFIX_BALANCE `prefix_of` key.

Lemma set_balance_leaves who amount :
  ensures (leaves (λ key, ¬ balances_key key)) (set_balance who amount).
Proof.
  intros [p e] key Hkey. rewrite set_balance_run. simpl. unfold persist_balance.
  rewrite persisted_put, lookup_insert_ne; [done|].
  intros <-. apply Hkey. by apply prefix_app_r.
Qed.

Lemma dispatch_balances_leaves caller call :
  ensures (leaves (λ key, ¬ balances_key key)) (dispatch caller call).
Proof.
  destruct call as [to amount]. unfold dispatch, transfer.
  repeat first [apply set_balance_leaves | intros; apply ensures_ret; apply _
    | apply ensures_bind; [apply _| |intros] | apply ensures_gets; apply _
    | apply ensures_try; [apply _|intros]].
Qed.
End persistence.
End balances.

(** * The ledger *)

Section ledger.
Context {AccountId Balance : Type} `{Countable AccountId}.
Context `{!CheckedNum Balance, !CheckedNumOk Balance}.
Context `{!Codec AccountId, !Codec Balance}.
Context {Store : Type} `{!KeyValueStore Store}.

#[local] Abbreviation pallet := (Pallet AccountId Balance).
Implicit Types (p : pallet) (e : env Store) (who caller to : AccountId) (amount : Balance).

(** The sum of all balances. *)
Definition total_issuance p : N :=
  map_fold (λ _ b acc, num_val b + acc)%N 0%N (balances p).

Lemma total_issuance_insert who amount p :
  (total_issuance (insert_balance who amount p) + num_val (balance p who)
    = total_issuance p + num_val amount)%N.
Proof.
  unfold total_issuance, balance, insert_balance. simpl.
  set (f := λ (_ : AccountId) (b : Balance) (acc : N), (num_val b + acc)%N).
  assert (Hfold : ∀ k b (m : gmap AccountId Balance), m !! k = None →
    map_fold f 0%N (<[k := b]> m) = (num_val b + map_fold f 0%N m)%N).
  { intros k b m Hk. apply (map_fold_insert_L f); [|done]. intros. unfold f. lia. }
  destruct (balances p !! who) as [old|] eqn:Hold; simpl.
  - rewrite <- (insert_delete_eq (balances p) who amount), Hfold by apply lookup_delete_eq.
    rewrite <- (insert_id (balances p) who old) at 2 by done.
    rewrite <- (insert_delete_eq (balances p) who old), Hfold by apply lookup_delete_eq. lia.
  - rewrite Hfold by done. rewrite num_val_zero. lia.
Qed.

(** An ideal ledger maps each account to an amount and moves [amount] by debiting
    the sender and then crediting the receiver. *)
Definition ledger_move (max : N) (from to : AccountId) (amt : N) (l : AccountId → N) :
    result (AccountId → N) string :=
  if (amt <=? l from)%N then
    let l1 := λ a, if decide (a = from) then (l from - amt)%N else l a in
    if (l1 to + amt <=? max)%N then
      Ok (λ a, if decide (a = to) then (l1 to + amt)%N else l1 a)
    else Err "Overflow"
  else Err "Not enough funds.".

Definition ledger_of p : AccountId → N := λ a, num_val (balance p a).

(** C19: between two different accounts, a transfer is the ideal ledger's move:
    the same result on every branch, the same balance for every account, and no
    effect at all on an error. *)
Theorem transfer_refines_ledger caller to amount p e :
  caller ≠ to →
  match ledger_move (num_max Balance) caller to (num_val amount) (ledger_of p) with
  | Ok l => ∃ p' e', transfer caller to amount (p, e) = (Done (Ok tt), (p', e')) ∧
      ∀ a, ledger_of p' a = l a
  | Err msg => transfer caller to amount (p, e) = (Done (Err msg), (p, e))
  end.
Proof.
  intros Hne. rewrite transfer_run. unfold ledger_move, ledger_of.
  destruct (N.leb_spec (num_val amount) (num_val (balance p caller))) as [Hle|Hlt].
  2: { assert (checked_sub (balance p caller) amount = None) as ->; [|done].
       by apply checked_sub_None. }
  destruct (checked_sub (balance p caller) amount) as [nc|] eqn:Hnc.
  2: { apply checked_sub_None in Hnc. lia. }
  apply checked_sub_Some in Hnc. rewrite decide_False by done.
  destruct (N.leb_spec (num_val (balance p to) + num_val amount) (num_max Balance)) as [Hmax|Hmax].
  2: { by apply checked_add_None in Hmax as ->. }
  destruct (checked_add (balance p to) amount) as [nt|] eqn:Hnt.
  2: { apply checked_add_None in Hnt. lia. }
  apply checked_add_Some in Hnt. eexists _, _. split; [done|]. intros a.
  destruct (decide (a = to)) as [->|Hto]; [by rewrite balance_insert|].
  rewrite balance_insert_ne by done. destruct (decide (a = caller)) as [->|Hc].
  - rewrite balance_insert. lia.
  - by rewrite balance_insert_ne.
Qed.

(** A transfer between two different accounts conserves the total issuance,
    whether it succeeds or fails. *)
Theorem transfer_conserves_issuance caller to amount p e :
  caller ≠ to →
  total_issuance (transfer caller to amount (p, e)).2.1 = total_issuance p.
Proof.
  intros Hne. rewrite transfer_run.
  destruct (checked_sub (balance p caller) amount) as [nc|] eqn:Hnc; [|done].
  destruct (checked_add (balance p to) amount) as [nt|] eqn:Hnt; [|done]. simpl.
  apply checked_sub_Some in Hnc. apply checked_add_Some in Hnt.
  pose proof (total_issuance_insert caller nc p) as H1.
  pose proof (total_issuance_insert to nt (insert_balance caller nc p)) as H2.
  rewrite balance_insert_ne in H2 by done. lia.
Qed.

(** C33: a transfer to oneself mints: whenever the caller owns the amount and the
    credit does not overflow, the call succeeds and the caller's balance and the
    total issuance grow by the amount. *)
Theorem transfer_self_mints caller amount p e :
  (num_val amount ≤ num_val (balance p caller))%N →
  (num_val (balance p caller) + num_val amount ≤ num_max Balance)%N →
  ∃ p' e', transfer caller caller amount (p, e) = (Done (Ok tt), (p', e')) ∧
    num_val (balance p' caller) = (num_val (balance p caller) + num_val amount)%N ∧
    total_issuance p' = (total_issuance p + num_val amount)%N.
Proof.
  intros Hle Hmax. rewrite transfer_run.
  destruct (checked_sub (balance p caller) amount) as [nc|] eqn:Hnc.
  2: { apply checked_sub_None in Hnc. lia. }
  destruct (checked_add (balance p caller) amount) as [nt|] eqn:Hnt.
  2: { apply checked_add_None in Hnt. lia. }
  apply checked_sub_Some in Hnc. apply checked_add_Some in Hnt.
  eexists _, _. split; [done|]. split; [by rewrite balance_insert|].
  pose proof (total_issuance_insert caller nc p) as H1.
  pose proof (total_issuance_insert caller nt (insert_balance caller nc p)) as H2.
  rewrite balance_insert in H2. lia.
Qed.
End ledger.
