(* ===== verification/ProofOfExistence.v ===== *)
(** [proof_of_existence.rs]: the proof-of-existence pallet, a registry of content
    owners. *)

From S2P Require Export Storage.

Definition PREFIX_POE : bytes := bytes_of_string "poe:".
#[global] Opaque PREFIX_POE.

(** [Pallet<T>], with [T::AccountId] and [T::Content] as parameters. *)
Record Pallet (AccountId Content : Type) `{Countable Content} := mkPallet {
  claims : gmap Content AccountId
}.
Arguments mkPallet {AccountId Content _ _} _.
Arguments claims {AccountId Content _ _} _.

(** The [Call] enum [#[macros::call]] generates. *)
Inductive Call (Content : Type) : Type :=
| Call_create_claim (claim : Content)
| Call_revoke_claim (claim : Content).
Arguments Call_create_claim {Content} _.
Arguments Call_revoke_claim {Content} _.

Section poe.
Context {AccountId Content : Type} `{EqDecision AccountId} `{Countable Content}.
Context `{!Ord Content, !Codec AccountId, !Codec Content}.
Context {Store : Type} `{!KeyValueStore Store}.

#[local] Abbreviation pallet := (Pallet AccountId Content).
#[local] Abbreviation M := (prog (pallet * env Store)).
Implicit Types (p : pallet) (e : env Store) (caller : AccountId) (claim : Content).

Definition new (store : Store) : pallet := mkPallet (load_map PREFIX_POE store).

Definition claim_key claim : bytes := PREFIX_POE ++ encode claim.

Definition get_claim p claim : option AccountId := claims p !! claim.

Definition create_claim caller claim : M DispatchResult :=
  p ← gets fst;
  if decide (is_Some (claims p !! claim)) then
    mret (Err "this content is already claimed")
  else
    modify (λ '(p, e), (mkPallet (<[claim := caller]> (claims p)), e));;
    p ← gets fst;
    last_claim ← expect (btree_last_key (claims p)) "inserted; map not empty";
    owner ← expect (claims p !! last_claim) "owner exists";
    let key := claim_key last_claim in
    let encoded_owner := encode owner in
    effect (env_put key encoded_owner "Failed to persist PoE claim: ");;
    mret (Ok tt).

Definition revoke_claim caller claim : M DispatchResult :=
  p ← gets fst;
  owner ←? ok_or (claims p !! claim) "claim does not exist";
  if decide (owner ≠ caller) then mret (Err "caller is not owner")
  else
    modify (λ '(p, e), (mkPallet (delete claim (claims p)), e));;
    let key := claim_key claim in
    effect (env_delete key "Failed to delete PoE claim from storage: ");;
    mret (Ok tt).

(** The generated [Dispatch] implementation. *)
Definition dispatch caller (call : Call Content) : M DispatchResult :=
  match call with
  | Call_create_claim claim =>
      r ← create_claim caller claim;
      _ ←? r;
      mret (Ok tt)
  | Call_revoke_claim claim =>
      r ← revoke_claim caller claim;
      _ ←? r;
      mret (Ok tt)
  end.

(** ** What the operations do *)

Definition insert_claim claim caller p : pallet := mkPallet (<[claim := caller]> (claims p)).
Definition delete_claim claim p : pallet := mkPallet (delete claim (claims p)).

(** The entry of the greatest content. *)
Definition last_entry p : option (Content * AccountId) :=
  k ← btree_last_key (claims p); o ← claims p !! k; Some (k, o).

Definition persist_last p e : env Store :=
  match last_entry p with
  | Some (k, o) => env_put (claim_key k) (encode o) "Failed to persist PoE claim: " e
  | None => e
  end.

Lemma revoke_claim_run caller claim p e :
  revoke_claim caller claim (p, e) =
    match get_claim p claim with
    | None => (Done (Err "claim does not exist"), (p, e))
    | Some owner =>
        if decide (owner = caller)
        then (Done (Ok tt), (delete_claim claim p,
          env_delete (claim_key claim) "Failed to delete PoE claim from storage: " e))
        else (Done (Err "caller is not owner"), (p, e))
    end.
Proof.
  unfold revoke_claim, get_claim, effect. prun.
  destruct (claims p !! claim) as [owner|]; simpl; [|done].
  destruct (decide (owner = caller)) as [Heq|Hne].
  - by rewrite decide_False by (intros ?; done).
  - by rewrite decide_True by done.
Qed.

Context `{!OrdOk Content}.

Lemma last_entry_insert claim caller p :
  ∃ k o, last_entry (insert_claim claim caller p) = Some (k, o) ∧
    btree_last_key (<[claim := caller]> (claims p)) = Some k ∧
    <[claim := caller]> (claims p) !! k = Some o.
Proof.
  unfold last_entry. simpl.
  destruct (btree_last_key_is_Some (<[claim:=caller]> (claims p)) claim) as [k Hk];
    [rewrite lookup_insert_eq; eauto|].
  rewrite Hk. simpl. apply btree_last_key_Some in Hk as Hk'. destruct Hk' as [[o Ho] _].
  rewrite Ho. simpl. eauto.
Qed.

Lemma create_claim_run caller claim p e :
  create_claim caller claim (p, e) =
    match get_claim p claim with
    | Some _ => (Done (Err "this content is already claimed"), (p, e))
    | None => (Done (Ok tt),
        (insert_claim claim caller p, persist_last (insert_claim claim caller p) e))
    end.
Proof.
  unfold create_claim, get_claim, effect, persist_last.
  destruct (last_entry_insert claim caller p) as (k & o & -> & Hk & Ho).
  prun. destruct (claims p !! claim) as [owner|] eqn:Hc; simpl.
  - done.
  - rewrite Hk. simpl. by rewrite Ho.
Qed.

Lemma dispatch_create_run caller claim p e :
  dispatch caller (Call_create_claim claim) (p, e) = create_claim caller claim (p, e).
Proof.
  unfold dispatch. prun. rewrite create_claim_run. by destruct (get_claim p claim).
Qed.

Lemma dispatch_revoke_run caller claim p e :
  dispatch caller (Call_revoke_claim claim) (p, e) = revoke_claim caller claim (p, e).
Proof.
  unfold dispatch. prun. rewrite revoke_claim_run.
  destruct (get_claim p claim) as [owner|]; [|done]. by destruct (decide (owner = caller)).
Qed.

(** C20: the pallet is a registry with one owner per content: creating takes a free
    content for the caller and fails on a taken one, revoking frees a content of
    the caller and fails for anybody else, and no call changes any other entry. *)
Theorem claims_registry caller claim p e :
  (∃ e', create_claim caller claim (p, e) =
    match get_claim p claim with
    | None => (Done (Ok tt), (mkPallet (<[claim := caller]> (claims p)), e'))
    | Some _ => (Done (Err "this content is already claimed"), (p, e))
    end) ∧
  (∃ e', revoke_claim caller claim (p, e) =
    match get_claim p claim with
    | None => (Done (Err "claim does not exist"), (p, e))
    | Some owner =>
        if decide (owner = caller) then (Done (Ok tt), (mkPallet (delete claim (claims p)), e'))
        else (Done (Err "caller is not owner"), (p, e))
    end).
Proof.
  rewrite create_claim_run, revoke_claim_run.
  split; eexists; destruct (get_claim p claim); reflexivity.
Qed.
End poe.

(** * Persistence of the claims *)

Section poe_persistence.
Context {AccountId Content : Type} `{EqDecision AccountId} `{Countable Content}.
Context `{!Ord Content, !OrdOk Content, !Codec AccountId, !Codec Content}.
Context `{!CodecOk AccountId, !CodecOk Content, !CodecNonEmpty Content}.
Context {Store : Type} `{!KeyValueStore Store, !KeyValueStoreOk Store, !KvReliable Store}.

#[local] Abbreviation pallet := (Pallet AccountId Content).
Implicit Types (p : pallet) (e : env Store) (caller : AccountId) (claim : Content).

Definition poe_synced p (st : gmap bytes bytes) : Prop := synced PREFIX_POE (claims p) st.
Definition poe_sound p (st : gmap bytes bytes) : Prop := persisted_sub PREFIX_POE (claims p) st.

Lemma poe_new_synced p (s : Store) : poe_synced p (kv_view s) → new s = p.
Proof. intros Hs. unfold new. rewrite (load_map_synced _ _ _ Hs). by destruct p. Qed.

Lemma persisted_persist_last claim caller p e :
  ∃ k o, last_entry (insert_claim claim caller p) = Some (k, o) ∧
    <[claim := caller]> (claims p) !! k = Some o ∧
    (∀ k', is_Some (<[claim := caller]> (claims p) !! k') → ord_le k' k) ∧
    persisted (persist_last (insert_claim claim caller p) e) =
      <[claim_key k := encode o]> (persisted e).
Proof.
  destruct (last_entry_insert claim caller p) as (k & o & Hlast & Hk & Ho).
  exists k, o. apply btree_last_key_Some in Hk as [_ Hmax].
  unfold persist_last. rewrite Hlast, persisted_put. done.
Qed.

(** Every persisted claim is a current one: this survives any call. *)
Lemma dispatch_sound caller call :
  ensures (keeps (λ s, poe_sound s.1 (persisted s.2)))
    (dispatch (Store := Store) caller (call : Call Content)).
Proof.
  intros [p e] Hs. destruct call as [claim|claim].
  - rewrite dispatch_create_run, create_claim_run.
    destruct (get_claim p claim) eqn:Hc; [done|]. simpl.
    destruct (persisted_persist_last claim caller p e) as (k & o & _ & Ho & _ & ->).
    by apply persisted_sub_insert.
  - rewrite dispatch_revoke_run, revoke_claim_run.
    destruct (get_claim p claim) as [owner|]; [|done].
    destruct (decide (owner = caller)); [|done]. simpl. rewrite persisted_delete.
    by apply persisted_sub_delete.
Qed.

(** The keys the pallet owns. *)
Definition poe_key (key : bytes) : Prop := PREFIX_POE `prefix_of` key.

Lemma dispatch_poe_leaves caller call :
  ensures (leaves (λ key, ¬ poe_key key))
    (dispatch (Store := Store) caller (call : Call Content)).
Proof.
  intros [p e] key Hkey.
  assert (Hne : ∀ claim, claim_key claim ≠ key).
  { intros claim <-. apply Hkey. by apply prefix_app_r. }
  destruct call as [claim|claim].
  - rewrite dispatch_create_run, create_claim_run. destruct (get_claim p claim); [done|].
    destruct (persisted_persist_last claim caller p e) as (k & o & _ & _ & _ & Hst). simpl.
    by rewrite Hst, lookup_insert_ne.
  - rewrite dispatch_revoke_run, revoke_claim_run. destruct (get_claim p claim) as [owner|]; [|done].
    destruct (decide (owner = caller)); [|done]. simpl.
    by rewrite persisted_delete, lookup_delete_ne.
Qed.

(** A call keeps the store in step with memory when it revokes, or when the
    content it creates is at least as great as every existing one. *)
Definition last_or_revoke p (call : Call Content) : Prop :=
  match call with
  | Call_create_claim claim => ∀ k, is_Some (claims p !! k) → ord_le k claim
  | Call_revoke_claim _ => True
  end.

Lemma dispatch_poe_synced caller call p e :
  last_or_revoke p call → poe_synced p (persisted e) →
  let s' := (dispatch (Store := Store) caller call (p, e)).2 in
  poe_synced s'.1 (persisted s'.2).
Proof.
  intros Hcall Hs. destruct call as [claim|claim]; cbv zeta.
  - rewrite dispatch_create_run, create_claim_run.
    destruct (get_claim p claim) eqn:Hc; [done|]. simpl.
    destruct (persisted_persist_last claim caller p e) as (k & o & _ & Ho & Hmax & ->).
    assert (k = claim) as ->.
    { apply (anti_symm ord_le); [|apply Hmax; rewrite lookup_insert_eq; eauto].
      destruct (decide (claim = k)) as [<-|Hne]; [reflexivity|].
      rewrite lookup_insert_ne in Ho by done. apply Hcall. eauto. }
    rewrite lookup_insert_eq in Ho. simplify_eq. by apply synced_insert.
  - rewrite dispatch_revoke_run, revoke_claim_run.
    destruct (get_claim p claim) as [owner|]; [|done].
    destruct (decide (owner = caller)); [|done]. simpl. rewrite persisted_delete.
    by apply synced_delete.
Qed.

(** C34: a claim that is not the greatest content is not persisted.  Creating it
    succeeds in memory, but the entry written is that of the greatest content, so
    a pallet loaded from the store afterwards does not have the claim. *)
Theorem create_claim_lost_on_restart caller claim other p e :
  get_claim p claim = None →
  is_Some (get_claim p other) → ltb claim other = true →
  poe_sound p (persisted e) →
  ∃ p' e', create_claim caller claim (p, e) = (Done (Ok tt), (p', e')) ∧
    get_claim p' claim = Some caller ∧
    get_claim (new (env_kv e') : pallet) claim = None.
Proof.
  intros Hc Hother Hlt Hsound. rewrite create_claim_run, Hc.
  eexists _, _. split; [done|]. split; [by apply lookup_insert_eq|].
  destruct (persisted_persist_last claim caller p e) as (k & o & _ & Ho & Hmax & Hst).
  assert (Hne : claim ≠ k).
  { intros <-. destruct (decide (claim = other)) as [<-|Hco].
    - by rewrite ltb_irrefl in Hlt.
    - unfold get_claim in Hother. specialize (Hmax other). unfold ord_le in Hmax.
      rewrite Hmax in Hlt; [done|]. by rewrite lookup_insert_ne. }
  rewrite lookup_insert_ne in Ho by done.
  assert (Hsub : persisted_sub PREFIX_POE (claims p)
    (persisted (persist_last (insert_claim claim caller p) e))).
  { rewrite Hst. rewrite <- (insert_id (claims p) k o) by done. unfold claim_key.
    intros key b Hp [[<- <-]|[Hkey Hb]]%lookup_insert_Some; [exists k, o | by rewrite insert_id by done; apply Hsound].
    by rewrite lookup_insert_eq. }
  apply load_map_persisted_sub in Hsub. unfold get_claim, new. simpl.
  destruct (load_map _ _ !! claim) as [o'|] eqn:Hl; [|done].
  eapply lookup_weaken in Hl; [|exact Hsub]. unfold get_claim in Hc. congruence.
Qed.
End poe_persistence.
