(* ===== verification/Runtime.v ===== *)
(** The runtime: [lib.rs] ([Runtime], its types, the genesis) and the code
    [#[macros::runtime]] generates for it ([RuntimeCall], the dispatcher, [new] and
    [execute_block]). *)

From S2P Require Export Extrinsic.
From S2P Require System Balances ProofOfExistence.

(** * [lib.rs]: the types *)

Abbreviation AccountId := AccountId32.
Abbreviation Balance := u128.
Abbreviation Nonce := u32.
Abbreviation BlockNumber := u32.
Abbreviation Content := string.

(** The outer call enum: one variant per pallet, [system] left out. *)
Inductive RuntimeCall : Type :=
| RuntimeCall_balances (call : Balances.Call AccountId Balance)
| RuntimeCall_proof_of_existence (call : ProofOfExistence.Call Content).

Record Runtime := mkRuntime {
  system : System.Pallet AccountId Nonce BlockNumber;
  balances : Balances.Pallet AccountId Balance;
  proof_of_existence : ProofOfExistence.Pallet AccountId Content
}.

Abbreviation types_Extrinsic := (UncheckedExtrinsic RuntimeCall).
Abbreviation types_Block := (Block (Header BlockNumber) types_Extrinsic).

(** * The generated code *)

Section runtime.
Context `{!Ed25519}.
Context `{!Codec AccountId, !Codec u32, !Codec u128, !Codec string}.
Context `{!Codec (array 32 * u32 * RuntimeCall)}.
Context {Store : Type} `{!KeyValueStore Store}.

#[local] Abbreviation M := (prog (Runtime * env Store)).
Implicit Types (rt : Runtime) (e : env Store) (ext : types_Extrinsic) (block : types_Block).

(** Borrows of the fields of [self]. *)
Definition on_system {A} (m : prog (System.Pallet AccountId Nonce BlockNumber * env Store) A) : M A :=
  zoom (λ s, (system s.1, s.2))
    (λ t s, (mkRuntime t.1 (balances s.1) (proof_of_existence s.1), t.2)) m.

Definition on_balances {A} (m : prog (Balances.Pallet AccountId Balance * env Store) A) : M A :=
  zoom (λ s, (balances s.1, s.2))
    (λ t s, (mkRuntime (system s.1) t.1 (proof_of_existence s.1), t.2)) m.

Definition on_poe {A} (m : prog (ProofOfExistence.Pallet AccountId Content * env Store) A) : M A :=
  zoom (λ s, (proof_of_existence s.1, s.2))
    (λ t s, (mkRuntime (system s.1) (balances s.1) t.1, t.2)) m.

Definition new (store : Store) : Runtime :=
  mkRuntime (System.new store) (Balances.new store) (ProofOfExistence.new store).

Definition dispatch (caller : AccountId) (runtime_call : RuntimeCall) : M DispatchResult :=
  match runtime_call with
  | RuntimeCall_balances call =>
      r ← on_balances (Balances.dispatch caller call);
      _ ←? r;
      mret (Ok tt)
  | RuntimeCall_proof_of_existence call =>
      r ← on_poe (ProofOfExistence.dispatch caller call);
      _ ←? r;
      mret (Ok tt)
  end.

(** [eprintln!("Extrinsic Error ...")] *)
Definition extrinsic_error (block_number : BlockNumber) (i : nat) (error : string) : M unit :=
  effect (env_print (ExtrinsicError (uval block_number) i error)).

(** The body of the loop of [execute_block]; [continue] ends it. *)
Definition execute_extrinsic (block_number : BlockNumber)
    (item : nat * (types_Extrinsic * DispatchResult)) : M unit :=
  let '(i, (ext, sig_result)) := item in
  match sig_result with
  | Err e => extrinsic_error block_number i ("bad signature — " +:+ e)
  | Ok _ =>
      rt ← gets fst;
      if decide (System.nonce (system rt) (signer ext) ≠ nonce ext) then
        extrinsic_error block_number i "nonce mismatch"
      else
        on_system (System.inc_nonce (signer ext));;
        res ← dispatch (signer ext) (call ext);
        match res with
        | Ok _ => mret tt
        | Err e => extrinsic_error block_number i e
        end
  end.

Definition execute_block (block : types_Block) : M DispatchResult :=
  on_system System.inc_block_number;;
  rt ← gets fst;
  if decide (block_number (header block) ≠ System.block_number (system rt)) then
    mret (Err "block number does not match what is expected")
  else
    let verify_results := verify_batch (extrinsics block) in
    for_each (execute_extrinsic (block_number (header block)))
      (enumerate (zip (extrinsics block) verify_results));;
    mret (Ok tt).

(** * [lib.rs]: the genesis *)

Definition maybe_apply_genesis : M unit :=
  rt ← gets fst;
  if decide (uval (System.block_number (system rt)) ≠ 0%N) then mret tt
  else
    on_balances (Balances.set_balance (public Alice) (u128_of 1000000));;
    on_balances (Balances.set_balance (public Bob) (u128_of 1000000));;
    on_balances (Balances.set_balance (public Charlie) (u128_of 1000000));;
    let genesis := mkBlock (mkHeader (u32_of 1)) [] in
    r ← execute_block genesis;
    expect (match r with Ok a => Some a | Err _ => None end) "genesis block must succeed";;
    effect (env_print (Println "[genesis] Alice / Bob / Charlie each funded with 1_000_000")).
End runtime.
