(* ===== verification/Syntax.v ===== *)
(** The macros' input: the parts of [syn]'s syntax trees that [macros/src] inspects, and
    the results of its parsers.

    An enum of [syn] has the constructors the macros match on and one for the others.
    Types are never taken apart by hand: the macros ask for the segments of a path and
    for a type's tokens, which are parameters. *)

From S2P Require Export Prelude.

Abbreviation Ident := string.

(** [proc_macro2]'s tokens: identifiers, [::], and the others. *)
Variant token :=
| TokIdent (ident : Ident)
| TokPathSep
| TokOther (text : string).

Class Syn := {
  (** [syn::Type]. *)
  Type_ : Type;
  (** The identifiers of the segments, if the type is a [Type::Path]. *)
  type_path : Type_ → option (list Ident);
  to_token_stream : Type_ → list token;
  (** The messages of [syn]'s own parsers. *)
  expected : string → string;
  unexpected_token : string
}.

(** * Items *)

Section items.
Context `{!Syn}.

Inductive Pat :=
| Pat_Ident (ident : Ident)
| Pat_other.

Record PatType := mkPatType { pat : Pat; ty : Type_ }.

(** Of a receiver, whether it takes [self] by reference ([&self], [&mut self] or spelled
    out), which is what a call of the function on a [&mut self] needs: the pallet structs
    are not [Copy]. *)
Inductive FnArg :=
| FnArg_Receiver (by_reference : bool)
| FnArg_Typed (arg : PatType).

(** The signature of a function of an [impl]. *)
Record ImplItemFn := mkFn { sig_ident : Ident; inputs : list FnArg }.

Inductive ImplItem :=
| ImplItem_Fn (method : ImplItemFn)
| ImplItem_other.

Record ItemImpl := mkItemImpl { self_ty : Type_; items : list ImplItem }.

Record Field := mkField { field_ident : option Ident; field_ty : Type_ }.

Record ItemStruct := mkItemStruct { struct_ident : Ident; fields : list Field }.

Inductive Item :=
| Item_Impl (item : ItemImpl)
| Item_Struct (item : ItemStruct)
| Item_other.
End items.

(** * Results

    [syn::Error] is its messages ([combine] appends), [syn::Result] may also panic. *)

Definition syn_Error : Type := list string.

Definition syn_Result (A : Type) : Type := outcome (result A syn_Error).

#[export] Instance syn_ret : MRet syn_Result := λ A a, Done (Ok a).

#[export] Instance syn_bind : MBind syn_Result := λ A B k m,
  match m with
  | Done (Ok a) => k a
  | Done (Err e) => Done (Err e)
  | Panicked msg => Panicked msg
  end.

Definition fail_with {A} (msg : string) : syn_Result A := Done (Err [msg]).

(** [map_err]. *)
Definition map_syn_err {A} (f : syn_Error → syn_Error) (r : syn_Result A) : syn_Result A :=
  match r with Done (Err e) => Done (Err (f e)) | _ => r end.

Lemma syn_bind_Ok {A B} (m : syn_Result A) (k : A → syn_Result B) b :
  (m ≫= k) = Done (Ok b) ↔ ∃ a, m = Done (Ok a) ∧ k a = Done (Ok b).
Proof.
  unfold mbind, syn_bind. split.
  - destruct m as [[a|e]|msg]; [|done..]. by exists a.
  - by intros (a & -> & Hk).
Qed.

(** Neither panics, and neither does the sequence. *)
Definition no_panic {A} (m : syn_Result A) : Prop := ∃ r, m = Done r.

Lemma no_panic_bind {A B} (m : syn_Result A) (k : A → syn_Result B) :
  no_panic m → (∀ a, m = Done (Ok a) → no_panic (k a)) → no_panic (m ≫= k).
Proof.
  intros [[a|e] ->] Hk; unfold mbind, syn_bind; [by apply Hk | by eexists].
Qed.

(** What a macro appends to its item: generated code, or [compile_error!]s. *)
Variant generated (E : Type) :=
| Expanded (code : E)
| CompileError (messages : syn_Error).
Arguments Expanded {E} _.
Arguments CompileError {E} _.

(** The arms of a [match] over variants of different names. *)
Lemma find_unique {A} (variant : A → Ident) (l : list A) x :
  NoDup (variant <$> l) → x ∈ l → head (base.filter (λ a, variant a = variant x) l) = Some x.
Proof.
  induction l as [|a l IH]; [by intros _ ?%not_elem_of_nil|].
  rewrite fmap_cons. intros [Hnotin Hnd]%NoDup_cons Hin. rewrite filter_cons.
  apply elem_of_cons in Hin as [<-|Hin]; [by rewrite decide_True|].
  rewrite decide_False; [by apply IH|]. intros Heq. apply Hnotin. rewrite Heq.
  by apply list_elem_of_fmap_2.
Qed.
