(* ===== verification/CallMacro.v ===== *)
(** [#[macros::call]] ([macros/src/call]): the parser of a pallet's [impl] block, the code
    it is expanded to, and what that code does when it runs. *)

From S2P Require Export Syntax.

Section call.
Context `{!Syn}.

(** * [parse.rs] *)

Record CallVariantDef := mkCallVariantDef { name : Ident; args : list (Ident * Type_) }.

Record CallDef := mkCallDef { pallet_struct : Ident; methods : list CallVariantDef }.

Implicit Types (item : Item) (arg : PatType) (method : ImplItemFn) (def : CallDef).

(** ** The caller's argument *)

(** [input.parse::<keyword>()]. *)
Definition parse_keyword (keyword : string) (input : list token) : syn_Result (list token) :=
  match input with
  | TokIdent ident :: input' =>
      if decide (ident = keyword) then mret input' else fail_with (expected keyword)
  | _ => fail_with (expected keyword)
  end.

Definition parse_path_sep (input : list token) : syn_Result (list token) :=
  match input with
  | TokPathSep :: input' => mret input'
  | _ => fail_with (expected "::")
  end.

Definition CheckDispatchableFirstArg_parse (input : list token) : syn_Result (list token) :=
  input ← parse_keyword "T" input;
  input ← parse_path_sep input;
  parse_keyword "AccountId" input.

(** [syn::parse2]: the parser has to take the whole input. *)
Definition parse2 (parser : list token → syn_Result (list token)) (input : list token) : syn_Result unit :=
  rest ← parser input;
  match rest with [] => mret tt | _ => fail_with unexpected_token end.

Definition check_caller_name arg : syn_Result unit :=
  match pat arg with
  | Pat_Ident ident =>
      if decide (ident ≠ "caller" ∧ ident ≠ "_caller") then
        fail_with "Invalid name for second parameter: expected `caller: T::AccountId`"
      else mret tt
  | Pat_other => mret tt
  end.

Definition check_caller_arg arg : syn_Result unit :=
  check_caller_name arg;;
  map_syn_err (λ e, "Invalid type for second parameter: expected `caller: T::AccountId`" :: e)
    (parse2 CheckDispatchableFirstArg_parse (to_token_stream (ty arg)));;
  mret tt.

(** ** The functions *)

(** The loop over the arguments after [self] and the caller. *)
Fixpoint parse_args (inputs : list FnArg) : syn_Result (list (Ident * Type_)) :=
  match inputs with
  | [] => mret []
  | FnArg_Typed arg :: inputs' =>
      match pat arg with
      | Pat_Ident arg_ident =>
          args ← parse_args inputs';
          mret ((arg_ident, ty arg) :: args)
      | Pat_other => fail_with "Invalid pallet::call, argument must be ident"
      end
  | FnArg_Receiver _ :: _ =>
      Panicked "internal error: entered unreachable code: All args should be typed."
  end.

(** One round of the loop over the functions. *)
Definition parse_method method : syn_Result CallVariantDef :=
  match inputs method !! 0 with
  | Some (FnArg_Receiver _) => mret tt
  | _ => fail_with "Invalid call, first argument must be a variant of self"
  end;;
  match inputs method !! 1 with
  | Some (FnArg_Typed arg) => check_caller_arg arg
  | _ => fail_with "Invalid call, second argument should be `caller: T::AccountId`"
  end;;
  args ← parse_args (drop 2 (inputs method));
  mret (mkCallVariantDef (sig_ident method) args).

Fixpoint parse_items (items : list ImplItem) : syn_Result (list CallVariantDef) :=
  match items with
  | [] => mret []
  | ImplItem_Fn method :: items' =>
      def ← parse_method method;
      defs ← parse_items items';
      mret (def :: defs)
  | ImplItem_other :: items' => parse_items items'
  end.

Definition pallet_struct_of (self_ty : Type_) : syn_Result Ident :=
  match type_path self_ty with
  | Some segments =>
      match head segments with Some ident => mret ident | None => Panicked unwrap_msg end
  | None => Panicked "not supported tokens"
  end.

Definition CallDef_try_from item : syn_Result CallDef :=
  match item with
  | Item_Impl item_impl =>
      pallet_struct ← pallet_struct_of (self_ty item_impl);
      methods ← parse_items (items item_impl);
      mret (mkCallDef pallet_struct methods)
  | _ => fail_with "Invalid pallet::call, expected item impl"
  end.

(** * [expand.rs]

    The generated [enum Call] and the generated [impl Dispatch], whose [dispatch] matches
    on the call: [Call::v { pattern } => { self.m(args)?; }], and then [Ok(())]. *)

Record CallVariant := mkCallVariant { variant_name : Ident; variant_fields : list (Ident * Type_) }.

Record CallArm := mkCallArm {
  arm_variant : Ident;
  arm_pattern : list Ident;
  arm_method : Ident;
  arm_args : list Ident
}.

Record CallExpansion := mkCallExpansion {
  call_enum : list CallVariant;
  dispatch_for : Ident;
  dispatch_arms : list CallArm
}.

Implicit Type (code : CallExpansion).

Definition expand_call def : CallExpansion :=
  let fn_name := name <$> methods def in
  let args_name := (λ m, fst <$> args m) <$> methods def in
  let args_type := (λ m, snd <$> args m) <$> methods def in
  {|
    call_enum :=
      zip_with mkCallVariant fn_name (zip_with zip args_name args_type);
    dispatch_for := pallet_struct def;
    dispatch_arms :=
      zip_with (λ f names, mkCallArm f names f ("caller" :: names)) fn_name args_name
  |}.

(** ** [mod.rs] *)

Definition call item : outcome (Item * generated CallExpansion) :=
  match CallDef_try_from item with
  | Done (Ok def) => Done (item, Expanded (expand_call def))
  | Done (Err e) => Done (item, CompileError e)
  | Panicked msg => Panicked msg
  end.

(** ** Running the generated code

    A value of the generated enum is a variant's name and the values of its fields.
    The pattern of an arm binds the fields under their own names, over the names in
    scope outside the match.  A use of a name moves its value out, unless the value's type
    is [Copy].  [None] is code that does not compile: no arm for the variant, a field
    that does not exist, a name that is not bound or has been moved, or a method that
    does not exist, cannot be called on [&mut self], or does not take these arguments. *)

Section run.
Context {V S : Type} (is_copy : V → bool).

(** A method: its receiver, and what it does with the other arguments. *)
Record fn_value := mkFnValue {
  fn_by_reference : bool;
  fn_body : list V → option (prog S DispatchResult)
}.

Context (method_of : Ident → option fn_value).

Record call_value := mkCallValue { variant_of : Ident; fields_of : gmap Ident V }.

Implicit Types (caller : V) (cv : call_value) (arm : CallArm) (scope : gmap Ident V).

(** The names in scope when an arm starts. *)
Definition arm_scope caller arm (vs : list V) : gmap Ident V :=
  list_to_map (zip (arm_pattern arm) vs) ∪ {["caller" := caller]}.

(** The arguments of a call, from left to right. *)
Fixpoint take_args scope (xs : list Ident) : option (list V) :=
  match xs with
  | [] => Some []
  | x :: xs' =>
      v ← scope !! x;
      vs ← take_args (if is_copy v then scope else delete x scope) xs';
      Some (v :: vs)
  end.

Definition run_arm caller arm cv : option (prog S DispatchResult) :=
  bound ← mapM (λ x, fields_of cv !! x) (arm_pattern arm);
  f ← method_of (arm_method arm);
  vs ← take_args (arm_scope caller arm bound) (arm_args arm);
  if fn_by_reference f then fn_body f vs else None.

Definition find_arm code (variant : Ident) : option CallArm :=
  head (base.filter (λ arm, arm_variant arm = variant) (dispatch_arms code)).

(** [match call { arms }; Ok(())], an arm being [self.method(args)?]. *)
Definition run_dispatch code caller cv : option (prog S DispatchResult) :=
  arm ← find_arm code (variant_of cv);
  body ← run_arm caller arm cv;
  Some (r ← body; _ ←? r; mret (Ok tt)).
End run.

(** * What the parser accepts *)

Definition caller_type (type : Type_) : Prop :=
  to_token_stream type = [TokIdent "T"; TokPathSep; TokIdent "AccountId"].

(** A caller's argument: the type [T::AccountId], and any pattern but another name. *)
Definition caller_arg arg : Prop :=
  (pat arg = Pat_Ident "caller" ∨ pat arg = Pat_Ident "_caller" ∨ pat arg = Pat_other) ∧
  caller_type (ty arg).

Definition typed_arg (a : Ident * Type_) : FnArg := FnArg_Typed (mkPatType (Pat_Ident a.1) a.2).

Inductive callable : ImplItemFn → CallVariantDef → Prop :=
| callable_intro f r arg rest :
    caller_arg arg →
    callable (mkFn f (FnArg_Receiver r :: FnArg_Typed arg :: (typed_arg <$> rest)))
      (mkCallVariantDef f rest).

Definition fns_of (l : list ImplItem) : list ImplItemFn :=
  omap (λ i, match i with ImplItem_Fn method => Some method | ImplItem_other => None end) l.

Lemma fail_with_not_ok {A} msg (a : A) : fail_with msg ≠ Done (Ok a).
Proof. done. Qed.

Lemma parse2_spec input :
  parse2 CheckDispatchableFirstArg_parse input = Done (Ok tt) ↔
  input = [TokIdent "T"; TokPathSep; TokIdent "AccountId"].
Proof.
  unfold parse2, CheckDispatchableFirstArg_parse, parse_keyword, parse_path_sep.
  split; [|by intros ->].
  destruct input as [|[t| |?] input]; try done. destruct (decide (t = "T")) as [->|]; [|done]. simpl.
  destruct input as [|[?| |?] input]; try done. simpl.
  destruct input as [|[a| |?] input]; try done. destruct (decide (a = "AccountId")) as [->|]; [|done].
  by destruct input.
Qed.

Lemma parse2_no_panic input : no_panic (parse2 CheckDispatchableFirstArg_parse input).
Proof.
  unfold parse2, CheckDispatchableFirstArg_parse, parse_keyword, parse_path_sep.
  repeat (apply no_panic_bind; intros); repeat case_match; by eexists.
Qed.

Lemma check_caller_arg_spec arg : check_caller_arg arg = Done (Ok tt) ↔ caller_arg arg.
Proof.
  unfold check_caller_arg, caller_arg, caller_type. rewrite <- parse2_spec, syn_bind_Ok.
  assert (Htype : ∀ e, (map_syn_err e (parse2 CheckDispatchableFirstArg_parse (to_token_stream (ty arg)));;
      mret tt) = Done (Ok tt) ↔
    parse2 CheckDispatchableFirstArg_parse (to_token_stream (ty arg)) = Done (Ok tt)).
  { intros e. destruct (parse2 _ _) as [[[]|]|]; split; by try intros [=]. }
  assert (Hname : (∃ a, check_caller_name arg = Done (Ok a)) ↔
    pat arg = Pat_Ident "caller" ∨ pat arg = Pat_Ident "_caller" ∨ pat arg = Pat_other).
  { unfold check_caller_name. destruct (pat arg) as [ident|]; [|split; [by right; right | by exists tt]].
    destruct (decide _) as [[]|Hnot]; split; [by intros [] | | |by exists tt].
    - intros [[=]|[[=]|[=]]]; done.
    - intros _. destruct (decide (ident = "caller")) as [->|]; [by left|].
      destruct (decide (ident = "_caller")) as [->|]; [by right; left|]. by destruct Hnot. }
  rewrite <- Hname. split.
  - intros (a & Ha & Ht%Htype). eauto.
  - intros [[a Ha] Ht]. exists a. split; [done|]. by apply Htype.
Qed.

Lemma parse_args_spec l rest : parse_args l = Done (Ok rest) ↔ l = typed_arg <$> rest.
Proof.
  revert rest. induction l as [|[r|[[i|] t]] l IH]; intros rest; simpl.
  - split; [by intros [= <-]|]. by destruct rest.
  - split; [done|]. by destruct rest as [|[]].
  - rewrite syn_bind_Ok. split.
    + intros (rest' & ->%IH & [= <-]). done.
    + destruct rest as [|[i' t'] rest']; [done|]. intros [= -> -> Hl]. exists rest'. by rewrite IH.
  - split; [done|]. by destruct rest as [|[]].
Qed.

Lemma parse_method_spec method (def : CallVariantDef) : parse_method method = Done (Ok def) ↔ callable method def.
Proof.
  unfold parse_method. destruct method as [f l]. simpl. rewrite !syn_bind_Ok. split.
  - intros ([] & H0 & ([] & H1 & Hrest)%syn_bind_Ok).
    destruct l as [|[r|?] [|[?|arg] l']]; try done. simpl in H1.
    apply syn_bind_Ok in Hrest as (rest & Hrest & [= <-]). apply parse_args_spec in Hrest. simpl in Hrest.
    rewrite drop_0 in Hrest. subst l'. constructor. by apply check_caller_arg_spec.
  - inversion 1 as [f' r arg rest Harg]; subst. exists tt. split; [done|].
    apply syn_bind_Ok. exists tt. split; [by apply check_caller_arg_spec|].
    apply syn_bind_Ok. exists rest. by rewrite parse_args_spec.
Qed.

Lemma parse_items_spec l defs : parse_items l = Done (Ok defs) ↔ Forall2 callable (fns_of l) defs.
Proof.
  revert defs. induction l as [|[method|] l IH]; intros defs; simpl; [| |done].
  - split; [by intros [= <-]|]. by inversion 1.
  - rewrite syn_bind_Ok. split.
    + intros (def & Hdef%parse_method_spec & (defs' & Hdefs & [= <-])%syn_bind_Ok).
      constructor; [done | by apply IH].
    + inversion 1 as [|? def ? defs' Hdef Hdefs]; subst. exists def. rewrite parse_method_spec.
      split; [done|]. apply syn_bind_Ok. exists defs'. by rewrite IH.
Qed.

Lemma try_from_Ok item def :
  CallDef_try_from item = Done (Ok def) ↔
  ∃ item_impl ident segments,
    item = Item_Impl item_impl ∧ type_path (self_ty item_impl) = Some (ident :: segments) ∧
    pallet_struct def = ident ∧ Forall2 callable (fns_of (items item_impl)) (methods def).
Proof.
  split.
  - destruct item as [item_impl| |]; [|done..]. simpl. intros (s & Hs & Hrest)%syn_bind_Ok.
    apply syn_bind_Ok in Hrest as (defs & Hdefs & [= <-]).
    unfold pallet_struct_of in Hs. destruct (type_path _) as [[|ident segments]|] eqn:Hp; try done.
    injection Hs as ->. exists item_impl, s, segments. by rewrite <- parse_items_spec.
  - intros (item_impl & ident & segments & -> & Hp & <- & Hdefs). simpl. apply syn_bind_Ok.
    exists (pallet_struct def). unfold pallet_struct_of. rewrite Hp. split; [done|].
    apply syn_bind_Ok. exists (methods def). rewrite parse_items_spec. split; [done|]. by destruct def.
Qed.

(** C15: the parser of [#[macros::call]] accepts exactly the [impl] blocks of a path type
    all of whose functions take a variant of [self], a caller of type [T::AccountId] that
    is not given another name, and named arguments; it finds those functions, in their
    order, with the names and types of their arguments. *)
Theorem call_parser_accepts item def :
  CallDef_try_from item = Done (Ok def) ↔
  ∃ item_impl ident segments,
    item = Item_Impl item_impl ∧ type_path (self_ty item_impl) = Some (ident :: segments) ∧
    pallet_struct def = ident ∧ Forall2 callable (fns_of (items item_impl)) (methods def).
Proof. apply try_from_Ok. Qed.

(** ** No panics

    [syn] puts a receiver in the first place only, so on the [impl] block of a path type
    the macro ends with code or with errors, behind the item it was given. *)

Definition receivers_first (l : list FnArg) : Prop := ∀ r, FnArg_Receiver r ∉ drop 1 l.

Lemma parse_args_no_panic l : (∀ r, FnArg_Receiver r ∉ l) → no_panic (parse_args l).
Proof.
  induction l as [|[r|[[i|] t]] l IH]; intros Hl; simpl; [by eexists|by destruct (Hl r); left| |by eexists].
  apply no_panic_bind; [apply IH | by eexists]. intros r Hr. apply (Hl r). by right.
Qed.

Lemma check_caller_arg_no_panic arg : no_panic (check_caller_arg arg).
Proof.
  unfold check_caller_arg, check_caller_name. apply no_panic_bind; [repeat case_match; by eexists|].
  intros _ _. destruct (parse2_no_panic (to_token_stream (ty arg))) as [[[]|e] ->]; by eexists.
Qed.

Lemma parse_method_no_panic method : receivers_first (inputs method) → no_panic (parse_method method).
Proof.
  unfold receivers_first. intros Hl. unfold parse_method.
  apply no_panic_bind; [repeat case_match; by eexists|]. intros _ _.
  apply no_panic_bind; [repeat case_match; by (apply check_caller_arg_no_panic || eexists)|]. intros _ _.
  apply no_panic_bind; [|by eexists]. apply parse_args_no_panic. intros r Hin. apply (Hl r).
  destruct (inputs method) as [|x [|y l]]; simpl in *; [done|done|]. rewrite drop_0 in Hin. by right.
Qed.

Lemma parse_items_no_panic l :
  (∀ method, method ∈ fns_of l → receivers_first (inputs method)) → no_panic (parse_items l).
Proof.
  induction l as [|[method|] l IH]; intros Hl; simpl; [by eexists| |by apply IH].
  apply no_panic_bind; [apply parse_method_no_panic, Hl; by left|]. intros def _.
  apply no_panic_bind; [|by eexists]. apply IH. intros method' Hin. apply Hl. by right.
Qed.

Lemma call_no_panic item :
  (∀ item_impl, item = Item_Impl item_impl →
    (∃ ident segments, type_path (self_ty item_impl) = Some (ident :: segments)) ∧
    ∀ method, method ∈ fns_of (items item_impl) → receivers_first (inputs method)) →
  ∃ out, call item = Done (item, out).
Proof.
  intros Hitem. unfold call. assert (Hnp : no_panic (CallDef_try_from item)).
  { destruct item as [item_impl| |]; [|by eexists..].
    destruct (Hitem item_impl eq_refl) as [(ident & segments & Hp) Hfns]. simpl.
    unfold pallet_struct_of. rewrite Hp. simpl.
    apply no_panic_bind; [by apply parse_items_no_panic | by eexists]. }
  destruct Hnp as [[def|e] ->]; by eexists.
Qed.

(** * What the generated code does *)

(** The arm of a function: one per function, for its variant. *)
Definition arm_of (m : CallVariantDef) : CallArm :=
  mkCallArm (name m) (args m).*1 (name m) ("caller" :: (args m).*1).

Lemma expand_call_arms def : dispatch_arms (expand_call def) = arm_of <$> methods def.
Proof.
  unfold expand_call. cbn [dispatch_arms]. by rewrite zip_with_fmap_l, zip_with_fmap_r, zip_with_diag.
Qed.


Lemma callable_names l defs : Forall2 callable l defs → name <$> defs = sig_ident <$> l.
Proof. induction 1 as [|m def l defs Hm _ IH]; [done|]. rewrite !fmap_cons, IH. by destruct Hm. Qed.

Lemma find_arm_of def m :
  NoDup (name <$> methods def) → m ∈ methods def → find_arm (expand_call def) (name m) = Some (arm_of m).
Proof.
  intros Hnd Hm. unfold find_arm. rewrite expand_call_arms.
  apply (find_unique arm_variant _ (arm_of m)); [|by apply list_elem_of_fmap_2].
  by rewrite <- list_fmap_compose.
Qed.

(** The receiver of a function of a block. *)
Definition receives_by_reference method : bool :=
  match inputs method with FnArg_Receiver r :: _ => r | _ => false end.

Section routing.
Context {V S : Type} (is_copy : V → bool) (method_of : Ident → option (fn_value (V := V) (S := S))).
Implicit Types (caller : V) (vs : list V) (scope : gmap Ident V).

(** The value of the variant [f] with the arguments [vs] for the fields [names]. *)
Definition value_of (f : Ident) (names : list Ident) vs : call_value (V := V) :=
  mkCallValue f (list_to_map (zip names vs)).

Lemma list_to_map_zip_union (names : list Ident) vs scope :
  NoDup names → length names = length vs →
  Forall2 (λ x v, (list_to_map (zip names vs) ∪ scope) !! x = Some v) names vs.
Proof.
  intros Hnd Hlen. apply Forall2_same_length_lookup. split; [done|].
  intros i x v Hx Hv. rewrite lookup_union_l'; [|eexists]; apply elem_of_list_to_map_1;
    try (by rewrite fst_zip by lia); apply list_elem_of_lookup; exists i; apply lookup_zip_with_Some; eauto.
Qed.

Lemma list_to_map_zip_lookup (names : list Ident) vs :
  NoDup names → length names = length vs →
  mapM (λ x, (list_to_map (zip names vs) : gmap Ident V) !! x) names = Some vs.
Proof.
  intros Hnd Hlen. apply mapM_Some. rewrite <- (right_id_L ∅ (∪) (list_to_map (zip names vs))).
  by apply list_to_map_zip_union.
Qed.

(** Different names are taken whatever is [Copy]. *)
Lemma take_args_distinct scope (xs : list Ident) vs :
  NoDup xs → Forall2 (λ x v, scope !! x = Some v) xs vs → take_args is_copy scope xs = Some vs.
Proof.
  revert scope vs. induction xs as [|x xs IH]; intros scope vs Hnd; inversion 1 as [|? v ? vs' Hx Hxs]; subst; [done|].
  apply NoDup_cons in Hnd as [Hnotin Hnd]. simpl. rewrite Hx. simpl. rewrite (IH _ vs'); [done|done|].
  destruct (is_copy v); [done|]. apply Forall2_same_length_lookup. split; [by eapply Forall2_length|].
  intros i y w Hy Hw. rewrite lookup_delete_ne; [by eapply (Forall2_lookup_lr _ _ _ _ _ _ Hxs)|].
  intros ->. by apply Hnotin, (list_elem_of_lookup_2 _ i).
Qed.

Lemma take_args_unbound scope (xs : list Ident) x :
  x ∈ xs → scope !! x = None → take_args is_copy scope xs = None.
Proof.
  revert scope. induction xs as [|y xs IH]; intros scope; [by intros ?%not_elem_of_nil|].
  intros [->|Hin]%elem_of_cons Hx; simpl; [by rewrite Hx|].
  destruct (scope !! y) as [v|]; [|done]. simpl. rewrite IH; [done|done|].
  destruct (is_copy v); [done|]. destruct (decide (y = x)) as [->|Hne]; [apply lookup_delete_eq|].
  by rewrite lookup_delete_ne.
Qed.

(** A second use of a value that has moved. *)
Lemma take_args_moved scope (xs : list Ident) x v :
  x ∈ xs → scope !! x = Some v → is_copy v = false → take_args is_copy scope (x :: xs) = None.
Proof.
  intros Hin Hx Hmove. simpl. rewrite Hx. simpl. rewrite Hmove.
  by rewrite (take_args_unbound _ xs x Hin (lookup_delete_eq _ _)).
Qed.

Lemma take_args_head scope x (xs : list Ident) v vs :
  take_args is_copy scope (x :: xs) = Some (v :: vs) → scope !! x = Some v.
Proof.
  simpl. destruct (scope !! x) as [w|]; [|done]. simpl.
  destruct (take_args _ _ xs); [|done]. by intros [= ->].
Qed.

Lemma callable_unique method m m' : callable method m → callable method m' → m = m'.
Proof.
  intros Hm Hm'. apply parse_method_spec in Hm, Hm'. rewrite Hm in Hm'. by injection Hm'.
Qed.

(** The scope of the arm of a call with these fields. *)
#[local] Abbreviation scope_of m caller vs := (arm_scope caller (arm_of m) vs).

Lemma run_dispatch_fn item_impl def method (m : CallVariantDef) caller vs :
  Forall2 callable (fns_of (items item_impl)) (methods def) →
  NoDup (sig_ident <$> fns_of (items item_impl)) →
  method ∈ fns_of (items item_impl) → callable method m →
  NoDup (args m).*1 → length (args m) = length vs →
  run_dispatch is_copy method_of (expand_call def) caller (value_of (sig_ident method) (args m).*1 vs) =
    (f ← method_of (sig_ident method);
     vs' ← take_args is_copy (scope_of m caller vs) ("caller" :: (args m).*1);
     body ← if fn_by_reference f then fn_body f vs' else None;
     Some (r ← body; _ ←? r; mret (Ok tt))).
Proof.
  intros Hdefs Hfns Hmethod Hm Hnd Hlen.
  assert (Hin : m ∈ methods def).
  { apply list_elem_of_lookup in Hmethod as [i Hi].
    destruct (Forall2_lookup_l _ _ _ _ _ Hdefs Hi) as (m' & Hi' & Hm').
    rewrite (callable_unique _ _ _ Hm Hm'). by eapply list_elem_of_lookup_2. }
  assert (Hname : sig_ident method = name m) by by destruct Hm.
  rewrite <- (length_fmap fst) in Hlen. rewrite Hname.
  unfold run_dispatch. cbn [variant_of value_of].
  rewrite find_arm_of by (done || by rewrite (callable_names _ _ Hdefs)). cbn [mbind option_bind].
  unfold run_arm. cbn [fields_of value_of arm_pattern arm_of arm_method arm_args].
  rewrite list_to_map_zip_lookup by done. cbn [mbind option_bind].
  destruct (method_of (name m)) as [f|]; [|done]. cbn [mbind option_bind].
  by destruct (take_args _ _ _).
Qed.

(** The arguments an arm passes, if no field is called [caller]. *)
Lemma arm_args_passed (m : CallVariantDef) caller vs :
  NoDup (args m).*1 → "caller" ∉ (args m).*1 → length (args m) = length vs →
  take_args is_copy (scope_of m caller vs) ("caller" :: (args m).*1) = Some (caller :: vs).
Proof.
  intros Hnd Hcaller Hlen. rewrite <- (length_fmap fst) in Hlen.
  apply take_args_distinct; [by constructor|]. unfold arm_scope. cbn [arm_pattern arm_of].
  constructor; [|by apply list_to_map_zip_union].
  rewrite lookup_union_r; [by rewrite lookup_singleton_eq|].
  apply not_elem_of_list_to_map_1. rewrite fst_zip; [done|lia].
Qed.

(** C13: the dispatcher [#[macros::call]] generates for an [impl] block passes a call of a
    function to that function, with the dispatcher's caller first and then the call's
    fields in the order of the parameters, and passes its result on: provided the
    functions and the parameters of each have different names, as Rust demands, the
    function takes [self] by reference, and no parameter after the second is called
    [caller]. *)
Theorem dispatch_passes_caller item_impl def method (m : CallVariantDef) caller vs f body :
  CallDef_try_from (Item_Impl item_impl) = Done (Ok def) →
  NoDup (sig_ident <$> fns_of (items item_impl)) →
  method ∈ fns_of (items item_impl) → callable method m →
  NoDup (args m).*1 → "caller" ∉ (args m).*1 → length (args m) = length vs →
  method_of (sig_ident method) = Some f → fn_by_reference f = true →
  fn_body f (caller :: vs) = Some body →
  run_dispatch is_copy method_of (expand_call def) caller (value_of (sig_ident method) (args m).*1 vs) =
    Some (r ← body; _ ←? r; mret (Ok tt)).
Proof.
  intros (? & ident & segments & [= <-] & _ & _ & Hdefs)%try_from_Ok Hfns Hmethod Hm Hnd Hcaller Hlen Hf Href Hbody.
  rewrite (run_dispatch_fn item_impl def method m), Hf by done. cbn [mbind option_bind].
  rewrite arm_args_passed by done. cbn [mbind option_bind]. by rewrite Href, Hbody.
Qed.

(** ** Typing *)

Context (has_type : V → Type_ → Prop).

(** The types of a function's parameters, [self] aside. *)
Definition input_types method : list Type_ :=
  omap (λ a, match a with FnArg_Typed arg => Some (ty arg) | FnArg_Receiver _ => None end) (inputs method).

(** The functions of the block exist, with their receivers, and take the arguments of
    their types and no others. *)
Definition fns_typed (l : list ImplItemFn) : Prop :=
  ∀ method, method ∈ l → ∃ f, method_of (sig_ident method) = Some f ∧
    fn_by_reference f = receives_by_reference method ∧
    ∀ vs, is_Some (fn_body f vs) ↔ Forall2 has_type vs (input_types method).

(** [T::AccountId] is not [Copy]: [Config] only asks for [Ord + Clone + Encode + Decode]. *)
Definition accounts_move : Prop :=
  ∀ v type, caller_type type → has_type v type → is_copy v = false.


Lemma omap_typed_args (rest : list (Ident * Type_)) :
  omap (λ a, match a with FnArg_Typed arg => Some (ty arg) | FnArg_Receiver _ => None end)
    (typed_arg <$> rest) = rest.*2.
Proof. induction rest as [|a rest IH]; [done|]. csimpl. by rewrite IH. Qed.

Lemma callable_types method m :
  callable method m → ∃ type, caller_type type ∧ input_types method = type :: (args m).*2.
Proof.
  destruct 1 as [f r arg rest [_ Harg]]. exists (ty arg). split; [done|].
  unfold input_types. csimpl. by rewrite omap_typed_args.
Qed.

(** A field called [caller] shadows the dispatcher's; it would have to be an account to be
    passed as the caller, and has then moved when it is to be passed as itself. *)
Lemma shadowed_caller_stuck item_impl def method (m : CallVariantDef) caller vs :
  Forall2 callable (fns_of (items item_impl)) (methods def) →
  NoDup (sig_ident <$> fns_of (items item_impl)) →
  method ∈ fns_of (items item_impl) → callable method m →
  NoDup (args m).*1 → length (args m) = length vs →
  fns_typed (fns_of (items item_impl)) → accounts_move → "caller" ∈ (args m).*1 →
  run_dispatch is_copy method_of (expand_call def) caller (value_of (sig_ident method) (args m).*1 vs) = None.
Proof.
  intros Hdefs Hfns Hmethod Hm Hnd Hlen Htyped Hmove Hcaller.
  rewrite (run_dispatch_fn item_impl def method m) by done.
  destruct (Htyped method Hmethod) as (f & Hf & _ & Hbody). rewrite Hf. cbn [mbind option_bind].
  destruct (take_args _ _ _) as [[|c vs']|] eqn:Htake; [|cbn [mbind option_bind]|done].
  { exfalso. simpl in Htake. destruct (_ !! "caller"); [|done]. simpl in Htake.
    by destruct (take_args _ _ (args m).*1). }
  destruct (fn_by_reference f); [|done].
  destruct (fn_body f (c :: vs')) as [body|] eqn:Hrun; [|done]. exfalso.
  destruct (callable_types _ _ Hm) as (type & Htype & Hinputs).
  assert (Hc : has_type c type).
  { assert (Hsome : is_Some (fn_body f (c :: vs'))) by by rewrite Hrun.
    apply Hbody in Hsome. rewrite Hinputs in Hsome. by inversion Hsome. }
  rewrite (take_args_moved _ _ _ c Hcaller (take_args_head _ _ _ _ _ Htake) (Hmove c type Htype Hc)) in Htake.
  done.
Qed.


(** C27: the authenticated caller cannot be replaced: whatever the parameters of an accepted
    block are called, if the generated dispatcher compiles for a call of a function, it
    runs the function with the dispatcher's caller; for a function with a parameter called
    [caller] (after [_caller]), which the parser accepts, it does not compile, because the
    account would be used twice. *)
Theorem caller_cannot_be_replaced item_impl def method (m : CallVariantDef) caller vs :
  CallDef_try_from (Item_Impl item_impl) = Done (Ok def) →
  NoDup (sig_ident <$> fns_of (items item_impl)) →
  method ∈ fns_of (items item_impl) → callable method m →
  NoDup (args m).*1 → length (args m) = length vs →
  fns_typed (fns_of (items item_impl)) → accounts_move →
  let run := run_dispatch is_copy method_of (expand_call def) caller
    (value_of (sig_ident method) (args m).*1 vs) in
  (∀ p, run = Some p → ∃ f body, method_of (sig_ident method) = Some f ∧
     fn_body f (caller :: vs) = Some body ∧ p = (r ← body; _ ←? r; mret (Ok tt))) ∧
  ("caller" ∈ (args m).*1 → run = None).
Proof.
  intros (? & ident & segments & [= <-] & _ & _ & Hdefs)%try_from_Ok Hfns Hmethod Hm Hnd Hlen Htyped Hmove run.
  assert (Hstuck : "caller" ∈ (args m).*1 → run = None).
  { intros Hin. by apply (shadowed_caller_stuck item_impl). }
  split; [|done]. intros p Hp. destruct (decide ("caller" ∈ (args m).*1)) as [Hin|Hnotin].
  { by rewrite (Hstuck Hin) in Hp. }
  unfold run in Hp. rewrite (run_dispatch_fn item_impl def method m) in Hp by done.
  destruct (method_of (sig_ident method)) as [f|]; [|done]. cbn [mbind option_bind] in Hp.
  rewrite arm_args_passed in Hp by done. cbn [mbind option_bind] in Hp.
  destruct (fn_by_reference f); [|done]. destruct (fn_body f (caller :: vs)) as [body|] eqn:Hbody; [|done].
  injection Hp as <-. by exists f, body.
Qed.
End routing.
End call.
