(* ===== verification/RuntimeMacro.v ===== *)
(** [#[macros::runtime]] ([macros/src/runtime]): the parser of the [Runtime] struct and the
    code it is expanded to. *)

From S2P Require Export Syntax.

Section runtime_macro.
Context `{!Syn}.
Implicit Types (item : Item) (item_struct : ItemStruct) (field : Field).

(** * [parse.rs] *)

Record RuntimeDef := mkRuntimeDef { runtime_struct : Ident; pallets : list (Ident * Type_) }.

Definition check_system item_struct : syn_Result unit :=
  first_field_name ←
    match head (fields item_struct) with
    | Some first_field =>
        match field_ident first_field with
        | Some field_name => mret field_name
        | None => fail_with "first field is expected to have the name system"
        end
    | None => fail_with "runtime struct is expected to have fields"
    end;
  if decide (first_field_name ≠ "system") then
    fail_with "first field is expected to be named system"
  else mret tt.

(** The loop over the fields after the first. *)
Definition parse_fields (l : list Field) : list (Ident * Type_) :=
  omap (λ field, (λ ident, (ident, field_ty field)) <$> field_ident field) l.

Definition RuntimeDef_try_from item : syn_Result RuntimeDef :=
  match item with
  | Item_Struct item_struct =>
      check_system item_struct;;
      mret (mkRuntimeDef (struct_ident item_struct) (parse_fields (drop 1 (fields item_struct))))
  | _ => fail_with "Invalid runtime, expected item struct"
  end.

(** * [expand.rs] *)

(** [name(module::Call<config>)], a variant of [RuntimeCall]. *)
Record RuntimeVariant := mkRuntimeVariant {
  call_variant : Ident;
  call_module : Ident;
  call_config : Ident
}.

(** [RuntimeCall::variant(call) => { self.field.dispatch(caller, call)?; }]. *)
Record RuntimeArm := mkRuntimeArm { outer_variant : Ident; pallet_field : Ident }.

(** [<type>::new()]; the system pallet's type is written by the macro. *)
Variant pallet_type :=
| PalletType (type : Type_)
| SystemPalletSelf.

(** [execute_block] is the same text for every runtime. *)
Record RuntimeExpansion := mkRuntimeExpansion {
  runtime_call_enum : list RuntimeVariant;
  runtime_for : Ident;
  caller_config : Ident;
  runtime_arms : list RuntimeArm;
  new_fields : list (Ident * pallet_type)
}.

Definition expand_runtime (def : RuntimeDef) : RuntimeExpansion :=
  let pallet_names := fst <$> pallets def in
  let pallet_types := snd <$> pallets def in
  {|
    runtime_call_enum := (λ n, mkRuntimeVariant n n (runtime_struct def)) <$> pallet_names;
    runtime_for := runtime_struct def;
    caller_config := "Runtime";
    runtime_arms := (λ n, mkRuntimeArm n n) <$> pallet_names;
    new_fields := ("system", SystemPalletSelf) :: zip pallet_names (PalletType <$> pallet_types)
  |}.

(** * [mod.rs] *)

Definition runtime item : outcome (Item * generated RuntimeExpansion) :=
  match RuntimeDef_try_from item with
  | Done (Ok def) => Done (item, Expanded (expand_runtime def))
  | Done (Err e) => Done (item, CompileError e)
  | Panicked msg => Panicked msg
  end.

(** ** Running the generated code

    [dispatch_of] is the dispatcher of the pallet in a field, on the payload of a call;
    [new_of] is a pallet type's [new]. *)

Section run.
Context {V C S P : Type} (dispatch_of : Ident → V → C → option (prog S DispatchResult)).

Definition run_runtime (code : RuntimeExpansion) (caller : V) (variant : Ident) (call : C)
    : option (prog S DispatchResult) :=
  arm ← head (base.filter (λ arm, outer_variant arm = variant) (runtime_arms code));
  body ← dispatch_of (pallet_field arm) caller call;
  Some (r ← body; _ ←? r; mret (Ok tt)).

Definition run_new (new_of : pallet_type → option P) (code : RuntimeExpansion) : option (list (Ident * P)) :=
  mapM (λ f, (λ p, (f.1, p)) <$> new_of f.2) (new_fields code).
End run.

(** * What the parser accepts *)

Lemma runtime_try_from_Ok item def :
  RuntimeDef_try_from item = Done (Ok def) ↔
  ∃ item_struct type rest,
    item = Item_Struct item_struct ∧ fields item_struct = mkField (Some "system") type :: rest ∧
    def = mkRuntimeDef (struct_ident item_struct) (parse_fields rest).
Proof.
  split.
  - destruct item as [|item_struct|]; try done. simpl. intros ([] & Hsystem & [= <-])%syn_bind_Ok.
    unfold check_system in Hsystem. destruct (fields item_struct) as [|[[i|] t] rest] eqn:Hf; try done.
    simpl in Hsystem. destruct (decide (i ≠ "system")) as [|Hi%dec_stable]; [done|]. subst i.
    exists item_struct, t, rest. simpl. by rewrite drop_0.
  - intros (item_struct & type & rest & -> & Hf & ->). simpl. unfold check_system. rewrite Hf. simpl.
    by rewrite drop_0.
Qed.

(** The macro never panics. *)
Lemma runtime_no_panic item : ∃ out, runtime item = Done (item, out).
Proof.
  unfold runtime, RuntimeDef_try_from, check_system. destruct item as [|item_struct|]; [by eexists| |by eexists].
  destruct (fields item_struct) as [|[[i|] t] rest]; try (by eexists). simpl.
  destruct (decide (i ≠ "system")); by eexists.
Qed.

Lemma parse_fields_named (l : list (Ident * Type_)) :
  parse_fields ((λ f, mkField (Some f.1) f.2) <$> l) = l.
Proof. induction l as [|[i t] l IH]; [done|]. csimpl. by rewrite IH. Qed.

(** C16: for a struct with named fields, [#[macros::runtime]] generates code if and only
    if the first field is [system]; the generated [new] then initialises every field of
    the struct, in order and with the field's type (the system pallet's type is fixed),
    and [RuntimeCall] and the dispatcher have one variant for each of the other fields,
    which goes to that field's pallet.  The dispatcher is for the struct, but takes its
    caller's type from one that is called [Runtime], whatever the struct's name. *)
Theorem runtime_expansion_complete (name first : Ident) (type : Type_) (rest : list (Ident * Type_)) :
  let item := Item_Struct (mkItemStruct name
    (mkField (Some first) type :: ((λ f, mkField (Some f.1) f.2) <$> rest))) in
  (first ≠ "system" → ∃ e, runtime item = Done (item, CompileError e)) ∧
  (first = "system" → ∃ code, runtime item = Done (item, Expanded code) ∧
    new_fields code = ("system", SystemPalletSelf) :: ((λ f, (f.1, PalletType f.2)) <$> rest) ∧
    runtime_call_enum code = (λ f, mkRuntimeVariant f.1 f.1 name) <$> rest ∧
    runtime_for code = name ∧ caller_config code = "Runtime" ∧
    (NoDup rest.*1 → ∀ V C S (dispatch_of : Ident → V → C → option (prog S DispatchResult)) caller call pallet body,
      pallet ∈ rest.*1 → dispatch_of pallet caller call = Some body →
      run_runtime dispatch_of code caller pallet call = Some (r ← body; _ ←? r; mret (Ok tt)))).
Proof.
  intros item. split; [intros Hne|intros ->].
  - eexists. unfold runtime, item. simpl. unfold check_system. simpl. by rewrite decide_True.
  - exists (expand_runtime (mkRuntimeDef name rest)).
    assert (Hok : RuntimeDef_try_from item = Done (Ok (mkRuntimeDef name rest))).
    { apply runtime_try_from_Ok. eexists _, type, _. split; [done|]. split; [done|].
      by rewrite parse_fields_named. }
    unfold runtime. rewrite Hok. split; [done|]. unfold expand_runtime. cbn [new_fields runtime_call_enum].
    split; [|split; [|split; [done|split; [done|]]]].
    + f_equal. cbn [pallets]. by rewrite zip_with_fmap_l, !zip_with_fmap_r, zip_with_diag.
    + cbn [pallets runtime_struct]. by rewrite <- list_fmap_compose.
    + intros Hnd V C S dispatch_of caller call pallet body Hin Hbody. unfold run_runtime.
      cbn [runtime_arms pallets]. rewrite (find_unique outer_variant _ (mkRuntimeArm pallet pallet)).
      * simpl. by rewrite Hbody.
      * by rewrite <- list_fmap_compose, list_fmap_id.
      * by apply list_elem_of_fmap_2 with (f := λ n, mkRuntimeArm n n).
Qed.
End runtime_macro.
