(* ===== verification/Generated.v ===== *)
(** The macros at work on this crate: the items of [balances.rs], [proof_of_existence.rs]
    and [lib.rs] that carry an attribute, and the equivalence of what the macros generate
    for them with the definitions of [Balances], [ProofOfExistence] and [Runtime]. *)

From S2P Require Export Syntax Runtime.
From S2P Require System Balances ProofOfExistence CallMacro RuntimeMacro.

Import CallMacro(callable_intro, run_dispatch, expand_call, mkCallValue, mkFnValue, fn_value, CallDef_try_from).
Import RuntimeMacro(RuntimeDef_try_from, expand_runtime, run_runtime, run_new, PalletType, SystemPalletSelf).

(** * The items *)

Section items.
Context `{!Syn}.

(** The types the items mention. *)
Class CrateTypes := {
  type_Pallet_T : Type_;
  type_AccountId : Type_;
  type_Balance : Type_;
  type_Content : Type_;
  type_system_Pallet : Type_;
  type_balances_Pallet : Type_;
  type_poe_Pallet : Type_
}.

(** [Pallet<T>] is a path with the one segment [Pallet], and [T::AccountId] is written so. *)
Class CrateTypesOk `{!CrateTypes} : Prop := {
  type_Pallet_T_path : type_path type_Pallet_T = Some ["Pallet"];
  type_AccountId_tokens : to_token_stream type_AccountId = [TokIdent "T"; TokPathSep; TokIdent "AccountId"]
}.

Context `{!CrateTypes}.

Definition arg (name : Ident) (type : Type_) : FnArg := FnArg_Typed (mkPatType (Pat_Ident name) type).

(** [impl<T: Config> Pallet<T>] of [balances.rs]. *)
Definition balances_impl : ItemImpl :=
  mkItemImpl type_Pallet_T
    [ImplItem_Fn (mkFn "transfer"
      [FnArg_Receiver true; arg "caller" type_AccountId; arg "to" type_AccountId;
       arg "amount" type_Balance])].

(** [impl<T: Config> Pallet<T>] of [proof_of_existence.rs]. *)
Definition poe_impl : ItemImpl :=
  mkItemImpl type_Pallet_T
    [ImplItem_Fn (mkFn "create_claim"
      [FnArg_Receiver true; arg "caller" type_AccountId; arg "claim" type_Content]);
     ImplItem_Fn (mkFn "revoke_claim"
      [FnArg_Receiver true; arg "caller" type_AccountId; arg "claim" type_Content])].

(** [struct Runtime] of [lib.rs]. *)
Definition runtime_item : ItemStruct :=
  mkItemStruct "Runtime"
    [mkField (Some "system") type_system_Pallet;
     mkField (Some "balances") type_balances_Pallet;
     mkField (Some "proof_of_existence") type_poe_Pallet].
End items.

(** * Running the generated code on the pallets

    Values of the three generic types, and the pallets' functions on lists of them. *)

Variant value (AccountId Balance Content : Type) :=
| VAccount (a : AccountId)
| VBalance (b : Balance)
| VContent (c : Content).
Arguments VAccount {_ _ _} _.
Arguments VBalance {_ _ _} _.
Arguments VContent {_ _ _} _.

Section pallets.
Context {AccountId Balance Content : Type} `{Countable AccountId} `{Countable Content}.
Context `{!CheckedNum Balance, !Ord Content}.
Context `{!Codec AccountId, !Codec Balance, !Codec Content}.
Context {Store : Type} `{!KeyValueStore Store}.

#[local] Abbreviation val := (value AccountId Balance Content).

(** [T::Balance] is [Copy] by its bound, the others are not. *)
Definition value_is_copy (v : val) : bool := match v with VBalance _ => true | _ => false end.

Definition balances_fn (f : Ident) :
    option (fn_value (V := val) (S := Balances.Pallet AccountId Balance * env Store)) :=
  if decide (f = "transfer") then
    Some (mkFnValue true (λ vs, match vs with
      | [VAccount caller; VAccount to; VBalance amount] => Some (Balances.transfer caller to amount)
      | _ => None
      end))
  else None.

Definition on_claim (f : AccountId → Content → prog (ProofOfExistence.Pallet AccountId Content * env Store) DispatchResult)
    (vs : list val) : option (prog (ProofOfExistence.Pallet AccountId Content * env Store) DispatchResult) :=
  match vs with [VAccount caller; VContent claim] => Some (f caller claim) | _ => None end.

Definition poe_fn (f : Ident) :
    option (fn_value (V := val) (S := ProofOfExistence.Pallet AccountId Content * env Store)) :=
  if decide (f = "create_claim") then Some (mkFnValue true (on_claim ProofOfExistence.create_claim))
  else if decide (f = "revoke_claim") then Some (mkFnValue true (on_claim ProofOfExistence.revoke_claim))
  else None.

(** The values of the generated enums, field by field. *)
Definition balances_value (call : Balances.Call AccountId Balance) : CallMacro.call_value (V := val) :=
  match call with
  | Balances.Call_transfer to amount =>
      mkCallValue "transfer" {["to" := VAccount to; "amount" := VBalance amount]}
  end.

Definition poe_value (call : ProofOfExistence.Call Content) : CallMacro.call_value (V := val) :=
  match call with
  | ProofOfExistence.Call_create_claim claim => mkCallValue "create_claim" {["claim" := VContent claim]}
  | ProofOfExistence.Call_revoke_claim claim => mkCallValue "revoke_claim" {["claim" := VContent claim]}
  end.

Context `{!Syn, !CrateTypes, !CrateTypesOk}.

Definition balances_def : CallMacro.CallDef :=
  CallMacro.mkCallDef "Pallet"
    [CallMacro.mkCallVariantDef "transfer" [("to", type_AccountId); ("amount", type_Balance)]].

Definition poe_def : CallMacro.CallDef :=
  CallMacro.mkCallDef "Pallet"
    [CallMacro.mkCallVariantDef "create_claim" [("claim", type_Content)];
     CallMacro.mkCallVariantDef "revoke_claim" [("claim", type_Content)]].

Lemma caller_arg_ok : CallMacro.caller_arg (mkPatType (Pat_Ident "caller") type_AccountId).
Proof. split; [by left | apply type_AccountId_tokens]. Qed.

Lemma balances_impl_parsed : CallDef_try_from (Item_Impl balances_impl) = Done (Ok balances_def).
Proof.
  apply CallMacro.try_from_Ok. exists balances_impl, "Pallet", [].
  split; [done|]. split; [apply type_Pallet_T_path|]. split; [done|].
  repeat constructor. apply (callable_intro "transfer" true _ [("to", _); ("amount", _)]), caller_arg_ok.
Qed.

Lemma poe_impl_parsed : CallDef_try_from (Item_Impl poe_impl) = Done (Ok poe_def).
Proof.
  apply CallMacro.try_from_Ok. exists poe_impl, "Pallet", [].
  split; [done|]. split; [apply type_Pallet_T_path|]. split; [done|].
  repeat constructor; apply (callable_intro _ true _ [("claim", _)]), caller_arg_ok.
Qed.

Lemma balances_generated caller call :
  run_dispatch value_is_copy balances_fn (expand_call balances_def) (VAccount caller) (balances_value call) =
    Some (Balances.dispatch caller call).
Proof. by destruct call. Qed.

Lemma poe_generated caller call :
  run_dispatch value_is_copy poe_fn (expand_call poe_def) (VAccount caller) (poe_value call) =
    Some (ProofOfExistence.dispatch caller call).
Proof. by destruct call. Qed.
End pallets.

(** * Running the generated code on the runtime *)

Section generated.
Context `{!Ed25519}.
Context `{!Codec AccountId, !Codec u32, !Codec u128, !Codec string}.
Context `{!Codec (array 32 * u32 * RuntimeCall)}.
Context {Store : Type} `{!KeyValueStore Store}.
Context `{!Syn, !CrateTypes, !CrateTypesOk}.

#[local] Abbreviation val := (value AccountId Balance Content).

(** [self.field.dispatch(caller, call)], with the dispatcher that was generated from the
    definition found in the pallet's file. *)
Definition field_dispatch (bdef pdef : CallMacro.CallDef) (field : Ident) (caller : val)
    (call : CallMacro.call_value (V := val)) : option (prog (Runtime * env Store) DispatchResult) :=
  if decide (field = "balances") then
    on_balances <$> run_dispatch value_is_copy balances_fn (expand_call bdef) caller call
  else if decide (field = "proof_of_existence") then
    on_poe <$> run_dispatch value_is_copy poe_fn (expand_call pdef) caller call
  else None.

(** A variant of [RuntimeCall], and its payload. *)
Definition outer_value (call : RuntimeCall) : Ident * CallMacro.call_value (V := val) :=
  match call with
  | RuntimeCall_balances call => ("balances", balances_value call)
  | RuntimeCall_proof_of_existence call => ("proof_of_existence", poe_value call)
  end.

Variant pallet_value :=
| PSystem (p : System.Pallet AccountId Nonce BlockNumber)
| PBalances (p : Balances.Pallet AccountId Balance)
| PPoe (p : ProofOfExistence.Pallet AccountId Content).

(** The struct that has these fields. *)
Definition runtime_of (l : list (Ident * pallet_value)) : option Runtime :=
  match l with
  | [(f1, PSystem p1); (f2, PBalances p2); (f3, PPoe p3)] =>
      if decide ((f1, f2, f3) = ("system", "balances", "proof_of_existence"))
      then Some (mkRuntime p1 p2 p3) else None
  | _ => None
  end.

(** C11: what the macros generate for this crate is what [Balances], [ProofOfExistence] and
    [Runtime] say: the parsers accept the three items, and running the code generated
    from what they found, the outer dispatcher on top of the two inner ones, is
    [Runtime]'s dispatch for every caller and call, and the generated constructor is its
    [new]. *)
Theorem macros_generate_runtime (new_of : RuntimeMacro.pallet_type → option pallet_value) (store : Store) :
  new_of SystemPalletSelf = Some (PSystem (System.new store)) →
  new_of (PalletType type_balances_Pallet) = Some (PBalances (Balances.new store)) →
  new_of (PalletType type_poe_Pallet) = Some (PPoe (ProofOfExistence.new store)) →
  ∃ bdef pdef rdef,
    CallDef_try_from (Item_Impl balances_impl) = Done (Ok bdef) ∧
    CallDef_try_from (Item_Impl poe_impl) = Done (Ok pdef) ∧
    RuntimeDef_try_from (Item_Struct runtime_item) = Done (Ok rdef) ∧
    run_new new_of (expand_runtime rdef) ≫= runtime_of = Some (new store) ∧
    ∀ caller call,
      run_runtime (field_dispatch bdef pdef) (expand_runtime rdef) (VAccount caller)
        (outer_value call).1 (outer_value call).2 = Some (dispatch caller call).
Proof.
  intros Hsystem Hbalances Hpoe. exists balances_def, poe_def. eexists.
  split; [apply balances_impl_parsed|]. split; [apply poe_impl_parsed|]. split; [reflexivity|].
  split.
  - unfold run_new. cbn. by rewrite Hsystem, Hbalances, Hpoe.
  - intros caller [call|call]; unfold run_runtime; cbn [outer_value fst snd].
    + unfold field_dispatch. simpl. rewrite balances_generated. simpl. done.
    + unfold field_dispatch. simpl. rewrite poe_generated. simpl. done.
Qed.
End generated.
