(* ===== verification/RuntimeSpec.v ===== *)
(** An abstract specification of the runtime, as a state machine over the in-memory
    state alone, and the refinement theorem: whatever the store does and whatever is
    printed, [Runtime.execute_block] is the machine's step.  The properties of block
    execution are proved on the machine and transported. *)

From S2P Require Export Runtime.
From S2P Require System Balances ProofOfExistence.

(** * The machine *)

Section machine.
Context `{!Ed25519} `{!Codec (array 32 * u32 * RuntimeCall)}.
Implicit Types (rt : Runtime) (ext : types_Extrinsic) (block : types_Block).

Definition set_system (p : System.Pallet AccountId Nonce BlockNumber) rt : Runtime :=
  mkRuntime p (balances rt) (proof_of_existence rt).

Definition set_balances (p : Balances.Pallet AccountId Balance) rt : Runtime :=
  mkRuntime (system rt) p (proof_of_existence rt).

Definition set_poe (p : ProofOfExistence.Pallet AccountId Content) rt : Runtime :=
  mkRuntime (system rt) (balances rt) p.

Definition account_nonce rt (a : AccountId) : N := uval (System.nonce (system rt) a).
Definition account_balance rt (a : AccountId) : N := uval (Balances.balance (balances rt) a).
Definition claim_owner rt (c : Content) : option AccountId :=
  ProofOfExistence.get_claim (proof_of_existence rt) c.
Definition height rt : N := uval (System.block_number (system rt)).
Definition issuance rt : N := Balances.total_issuance (balances rt).

(** A call either changes its pallet or fails without effect. *)
Definition apply_call (caller : AccountId) (call : RuntimeCall) rt : DispatchResult * Runtime :=
  match call with
  | RuntimeCall_balances (Balances.Call_transfer to amount) =>
      match checked_sub (Balances.balance (balances rt) caller) amount with
      | None => (Err "Not enough funds.", rt)
      | Some new_caller =>
          match checked_add (Balances.balance (balances rt) to) amount with
          | None => (Err "Overflow", rt)
          | Some new_to => (Ok tt, set_balances (Balances.insert_balance to new_to
              (Balances.insert_balance caller new_caller (balances rt))) rt)
          end
      end
  | RuntimeCall_proof_of_existence (ProofOfExistence.Call_create_claim claim) =>
      match claim_owner rt claim with
      | Some _ => (Err "this content is already claimed", rt)
      | None => (Ok tt,
          set_poe (ProofOfExistence.insert_claim claim caller (proof_of_existence rt)) rt)
      end
  | RuntimeCall_proof_of_existence (ProofOfExistence.Call_revoke_claim claim) =>
      match claim_owner rt claim with
      | None => (Err "claim does not exist", rt)
      | Some owner =>
          if decide (owner = caller)
          then (Ok tt, set_poe (ProofOfExistence.delete_claim claim (proof_of_existence rt)) rt)
          else (Err "caller is not owner", rt)
      end
  end.

(** An extrinsic is accepted when its signature verifies and its nonce is the
    signer's. *)
Definition accepts rt ext : Prop :=
  verify ext = Ok tt ∧ System.nonce (system rt) (signer ext) = nonce ext.

#[export] Instance accepts_dec rt ext : Decision (accepts rt ext).
Proof. unfold accepts. apply _. Defined.

(** An accepted extrinsic consumes a nonce and is dispatched, whether or not the
    call succeeds; any other is skipped. *)
Definition apply_extrinsic ext : prog Runtime unit := λ rt,
  if decide (accepts rt ext) then
    match checked_add (nonce ext) one with
    | None => (Panicked unwrap_msg, rt)
    | Some n => (Done tt, (apply_call (signer ext) (call ext)
        (set_system (System.set_nonce (signer ext) n (system rt)) rt)).2)
    end
  else (Done tt, rt).

Definition apply_block block : prog Runtime DispatchResult := λ rt,
  match checked_add (System.block_number (system rt)) one with
  | None => (Panicked unwrap_msg, rt)
  | Some b =>
      let rt1 := set_system (System.set_block_number b (system rt)) rt in
      if decide (block_number (header block) = b)
      then (for_each apply_extrinsic (extrinsics block);; mret (Ok tt)) rt1
      else (Done (Err "block number does not match what is expected"), rt1)
  end.
End machine.

(** * The refinement *)

Section refinement.
Context `{!Ed25519}.
Context `{!Codec AccountId, !Codec u32, !Codec u128, !Codec string}.
Context `{!Codec (array 32 * u32 * RuntimeCall)}.
Context {Store : Type} `{!KeyValueStore Store}.
Implicit Types (rt : Runtime) (e : env Store) (ext : types_Extrinsic) (block : types_Block).

Lemma dispatch_apply (caller : AccountId) (call : RuntimeCall) rt e :
  ∃ e', dispatch caller call (rt, e) =
    (Done (apply_call caller call rt).1, ((apply_call caller call rt).2, e')).
Proof.
  destruct call as [[to amount]|[claim|claim]];
    unfold dispatch, on_balances, on_poe, zoom, mbind, prog_bind;
    cbn [fst snd apply_call]; unfold claim_owner.
  - rewrite Balances.dispatch_run, Balances.transfer_run.
    destruct (checked_sub _ _); [|destruct rt; by eexists].
    destruct (checked_add _ _); destruct rt; by eexists.
  - rewrite ProofOfExistence.dispatch_create_run, ProofOfExistence.create_claim_run.
    destruct (ProofOfExistence.get_claim _ _); destruct rt; by eexists.
  - rewrite ProofOfExistence.dispatch_revoke_run, ProofOfExistence.revoke_claim_run.
    destruct (ProofOfExistence.get_claim _ _) as [owner|]; [|destruct rt; by eexists].
    destruct (decide (owner = caller)); destruct rt; by eexists.
Qed.

Lemma execute_extrinsic_erases (b : BlockNumber) (i : nat) ext :
  erases (E := env Store) (execute_extrinsic b (i, (ext, verify ext))) (apply_extrinsic ext).
Proof.
  intros rt e. unfold apply_extrinsic. destruct (decide (accepts rt ext)) as [[Hv Hn]|Hna].
  - unfold execute_extrinsic, on_system, extrinsic_error, effect. rewrite Hv. prun.
    rewrite decide_False by auto. cbn [fst snd]. rewrite System.inc_nonce_run, Hn.
    destruct (checked_add (nonce ext) one) as [n|]; simpl; [|destruct rt; by eexists].
    set (e1 := env_put _ _ _ _).
    destruct (dispatch_apply (signer ext) (call ext)
      (mkRuntime (System.set_nonce (signer ext) n (system rt)) (balances rt)
        (proof_of_existence rt)) e1) as [e' ->].
    unfold set_system. destruct (apply_call _ _ _) as [[]?]; by eexists.
  - unfold execute_extrinsic, extrinsic_error, effect.
    destruct (verify ext) as [[]|err] eqn:Hv; prun; [|by eexists].
    rewrite decide_True by (intros Hn; by apply Hna). by eexists.
Qed.

Lemma lookup_block_items (exts : list types_Extrinsic) (i : nat) :
  enumerate (zip exts (verify_batch exts)) !! i = (λ ext, (i, (ext, verify ext))) <$> exts !! i.
Proof.
  unfold enumerate, verify_batch. rewrite list_lookup_imap, lookup_zip_with, list_lookup_fmap.
  by destruct (exts !! i).
Qed.

(** The refinement of one block. *)
Lemma execute_block_machine block rt e :
  ∃ e', execute_block block (rt, e) = ((apply_block block rt).1, ((apply_block block rt).2, e')).
Proof.
  unfold execute_block, apply_block, on_system. prun. rewrite System.inc_block_number_run.
  destruct (checked_add _ _) as [b|]; simpl; [|destruct rt; by eexists].
  set (e1 := env_put _ _ _ _). unfold set_system.
  destruct (decide (block_number (header block) = b)) as [Hb|Hb].
  - rewrite decide_False by auto.
    destruct (erases_for_each (E := env Store)
      (execute_extrinsic (block_number (header block))) apply_extrinsic
      (enumerate (zip (extrinsics block) (verify_batch (extrinsics block)))) (extrinsics block))
      with (s := mkRuntime (System.set_block_number b (system rt)) (balances rt)
        (proof_of_existence rt)) (e := e1) as [e' ->].
    { apply Forall2_lookup. intros i. rewrite lookup_block_items.
      destruct (extrinsics block !! i) as [ext|]; constructor. apply execute_extrinsic_erases. }
    destruct (for_each apply_extrinsic _ _) as [[[]|msg] rt']; by eexists.
  - rewrite decide_True by auto. by eexists.
Qed.

(** C1: executing a block refines the machine: whatever the store answers, and
    whatever is printed, [execute_block] returns what the machine returns (panics
    included) and leaves the memory the machine leaves. *)
Theorem execute_block_refines block rt e :
  ∃ e', execute_block block (rt, e) = ((apply_block block rt).1, ((apply_block block rt).2, e')).
Proof. apply execute_block_machine. Qed.
End refinement.
