(* ===== verification/BlockExecution.v ===== *)
(** Properties of block execution, proved on the machine of [RuntimeSpec] and stated
    on [Runtime.execute_block]: authorisation, nonces and replay, conservation of the
    issuance, skipped extrinsics, totality, rejected blocks, and the genesis. *)

From S2P Require Export RuntimeSpec.
From S2P Require System Balances ProofOfExistence.

(** * Effects of one call on the accounts *)

Section calls.
Implicit Types (rt : Runtime) (call : RuntimeCall) (a caller : AccountId).

(** The call moves money from an account to itself. *)
Definition self_transfer (caller : AccountId) (call : RuntimeCall) : bool :=
  match call with
  | RuntimeCall_balances (Balances.Call_transfer to _) => bool_decide (to = caller)
  | _ => false
  end.

Lemma apply_call_system caller call rt : system (apply_call caller call rt).2 = system rt.
Proof.
  destruct call as [[to amount]|[claim|claim]]; cbn [apply_call].
  - destruct (checked_sub _ _); [|done]. by destruct (checked_add _ _).
  - by destruct (claim_owner rt claim).
  - destruct (claim_owner rt claim) as [owner|]; [|done]. by destruct (decide (owner = caller)).
Qed.

(** A failed call changes nothing. *)
Lemma apply_call_err caller call rt msg :
  (apply_call caller call rt).1 = Err msg → (apply_call caller call rt).2 = rt.
Proof.
  destruct call as [[to amount]|[claim|claim]]; cbn [apply_call].
  - destruct (checked_sub _ _); [|done]. by destruct (checked_add _ _).
  - by destruct (claim_owner rt claim).
  - destruct (claim_owner rt claim) as [owner|]; [|done]. by destruct (decide (owner = caller)).
Qed.

Lemma apply_call_balance caller call rt a :
  a ≠ caller → (account_balance rt a ≤ account_balance (apply_call caller call rt).2 a)%N.
Proof.
  intros Ha. unfold account_balance.
  destruct call as [[to amount]|[claim|claim]]; cbn [apply_call].
  - destruct (checked_sub _ _) as [nc|]; [|done]. destruct (checked_add _ _) as [nt|] eqn:Hnt; [|done].
    apply checked_add_Some in Hnt. simpl in *. destruct (decide (to = a)) as [->|Hto].
    + rewrite Balances.balance_insert. lia.
    + by rewrite !Balances.balance_insert_ne by done.
  - by destruct (claim_owner rt claim).
  - destruct (claim_owner rt claim) as [owner|]; [|done]. by destruct (decide (owner = caller)).
Qed.

Lemma apply_call_claim caller call rt a c :
  a ≠ caller → claim_owner rt c = Some a → claim_owner (apply_call caller call rt).2 c = Some a.
Proof.
  intros Ha. unfold claim_owner, ProofOfExistence.get_claim.
  destruct call as [[to amount]|[claim|claim]]; cbn [apply_call].
  - destruct (checked_sub _ _); [|done]. by destruct (checked_add _ _).
  - unfold claim_owner, ProofOfExistence.get_claim. intros Hc.
    destruct (ProofOfExistence.claims _ !! claim) eqn:Hcl; [done|]. simpl.
    rewrite lookup_insert_ne; [done|]. intros ->. congruence.
  - unfold claim_owner, ProofOfExistence.get_claim. intros Hc.
    destruct (ProofOfExistence.claims _ !! claim) as [owner|] eqn:Hcl; [|done].
    destruct (decide (owner = caller)) as [->|]; [|done]. simpl.
    rewrite lookup_delete_ne; [done|]. intros ->. congruence.
Qed.

Lemma apply_call_issuance caller call rt :
  self_transfer caller call = false → issuance (apply_call caller call rt).2 = issuance rt.
Proof.
  intros Hself. unfold issuance.
  destruct call as [[to amount]|[claim|claim]]; cbn [apply_call].
  - apply bool_decide_eq_false in Hself.
    destruct (checked_sub _ _) as [nc|] eqn:Hnc; [|done].
    destruct (checked_add _ _) as [nt|] eqn:Hnt; [|done]. cbn [snd balances set_balances].
    apply checked_sub_Some in Hnc. apply checked_add_Some in Hnt.
    pose proof (Balances.total_issuance_insert caller nc (balances rt)) as H1.
    pose proof (Balances.total_issuance_insert to nt
      (Balances.insert_balance caller nc (balances rt))) as H2.
    rewrite Balances.balance_insert_ne in H2 by done. simpl in *. lia.
  - by destruct (claim_owner rt claim).
  - destruct (claim_owner rt claim) as [owner|]; [|done]. by destruct (decide (owner = caller)).
Qed.
End calls.

(** * The machine's steps *)

Section steps.
Context `{!Ed25519} `{!Codec (array 32 * u32 * RuntimeCall)}.
Implicit Types (rt : Runtime) (ext : types_Extrinsic) (block : types_Block) (a : AccountId).

(** The state the call of an accepted extrinsic runs in. *)
Definition consume_nonce ext (n : u32) rt : Runtime :=
  set_system (System.set_nonce (signer ext) n (system rt)) rt.

(** The three ways an extrinsic can go. *)
Variant extrinsic_step ext rt : outcome unit * Runtime → Prop :=
| step_skipped : ¬ accepts rt ext → extrinsic_step ext rt (Done tt, rt)
| step_overflow :
    accepts rt ext → uval (nonce ext) = umax 32 →
    extrinsic_step ext rt (Panicked unwrap_msg, rt)
| step_applied n :
    accepts rt ext → uval n = (uval (nonce ext) + 1)%N →
    extrinsic_step ext rt (Done tt, (apply_call (signer ext) (call ext) (consume_nonce ext n rt)).2).

Lemma apply_extrinsic_step ext rt : extrinsic_step ext rt (apply_extrinsic ext rt).
Proof.
  unfold apply_extrinsic. destruct (decide (accepts rt ext)) as [Ha|Ha]; [|by constructor].
  destruct (checked_add (nonce ext) one) as [n|] eqn:Hn.
  - apply checked_add_Some in Hn. rewrite num_val_one in Hn. by constructor.
  - apply checked_add_None in Hn. rewrite num_val_one in Hn. simpl in Hn.
    pose proof (uval_le_max (nonce ext)). constructor; [done|]. lia.
Qed.

Lemma account_nonce_consume ext n rt a :
  account_nonce (apply_call (signer ext) (call ext) (consume_nonce ext n rt)).2 a =
    if decide (a = signer ext) then uval n else account_nonce rt a.
Proof.
  unfold account_nonce. rewrite apply_call_system. simpl. destruct (decide (a = signer ext)) as [->|Ha].
  - by rewrite System.nonce_set_nonce.
  - by rewrite System.nonce_set_nonce_ne.
Qed.

(** A block is a new height followed by its extrinsics. *)
Lemma apply_block_ensures (R : relation Runtime) `{!PreOrder R} block :
  (∀ rt b, R rt (set_system (System.set_block_number b (system rt)) rt)) →
  (∀ ext, ext ∈ extrinsics block → ensures R (apply_extrinsic ext)) →
  ensures R (apply_block block).
Proof.
  intros Hb Hext rt. unfold apply_block. destruct (checked_add _ _) as [b|]; [|done].
  destruct (decide _); [|apply Hb]. etrans; [apply Hb|].
  apply ensures_bind; [done | by apply ensures_for_each|]. intros. by apply ensures_ret.
Qed.

(** Nonces never decrease. *)
Lemma apply_extrinsic_nonce_grows a ext : ensures (grows (λ rt, account_nonce rt a)) (apply_extrinsic ext).
Proof.
  intros rt. unfold grows. destruct (apply_extrinsic_step ext rt) as [|? ?|n [_ Hn] Hv]; simpl; [lia..|].
  rewrite account_nonce_consume. destruct (decide _) as [->|]; [|lia].
  unfold account_nonce. rewrite Hn. lia.
Qed.

Lemma apply_block_nonce_grows a block : ensures (grows (λ rt, account_nonce rt a)) (apply_block block).
Proof.
  apply apply_block_ensures; [apply _| |].
  - intros rt b. unfold grows. done.
  - intros. apply apply_extrinsic_nonce_grows.
Qed.

(** Extrinsics leave the height alone. *)
Lemma apply_extrinsic_height ext : ensures (fixes height) (apply_extrinsic ext).
Proof.
  intros rt. unfold fixes. destruct (apply_extrinsic_step ext rt); simpl; [done..|].
  unfold height. by rewrite apply_call_system.
Qed.

Lemma apply_block_height_grows block : ensures (grows height) (apply_block block).
Proof.
  intros rt. unfold apply_block, grows. destruct (checked_add _ _) as [b|] eqn:Hb; [|simpl; lia].
  apply checked_add_Some in Hb. rewrite num_val_one in Hb. simpl in Hb.
  set (rt1 := set_system _ rt).
  assert (Hrt1 : (height rt ≤ height rt1)%N) by (unfold height; simpl; lia).
  destruct (decide _); [|done]. etrans; [exact Hrt1|].
  apply (ensures_bind (grows height)); [|intros; apply ensures_ret; apply _].
  apply ensures_for_each; [apply _|]. intros ext _.
  eapply ensures_mono; [|apply apply_extrinsic_height]. unfold fixes, grows. intros ? ? ->. lia.
Qed.

(** What a signature protects. *)
Definition account_safe a : relation Runtime := λ rt rt',
  (account_balance rt a ≤ account_balance rt' a)%N ∧
  account_nonce rt' a = account_nonce rt a ∧
  ∀ c, claim_owner rt c = Some a → claim_owner rt' c = Some a.

#[export] Instance account_safe_preorder a : PreOrder (account_safe a).
Proof.
  split; unfold account_safe.
  - intros rt. split; [done | split; auto].
  - intros rt1 rt2 rt3 (H1 & H2 & H3) (H4 & H5 & H6). split; [lia|]. split; [congruence | auto].
Qed.

Lemma apply_extrinsic_safe a ext :
  (signer ext = a → verify ext ≠ Ok tt) → ensures (account_safe a) (apply_extrinsic ext).
Proof.
  intros Hsig rt. destruct (apply_extrinsic_step ext rt) as [|? ?|n [Hver _] Hv]; simpl; [done..|].
  assert (Hne : a ≠ signer ext) by (intros ->; by apply Hsig).
  split; [|split].
  - by apply (apply_call_balance (signer ext) (call ext) (consume_nonce ext n rt)).
  - by rewrite account_nonce_consume, decide_False.
  - intros c Hc. by apply apply_call_claim.
Qed.
End steps.

(** * Theorems about [execute_block] *)

Section theorems.
Context `{!Ed25519}.
Context `{!Codec AccountId, !Codec u32, !Codec u128, !Codec string}.
Context `{!Codec (array 32 * u32 * RuntimeCall)}.
Context {Store : Type} `{!KeyValueStore Store}.
Implicit Types (rt : Runtime) (e : env Store) (s : Runtime * env Store).
Implicit Types (ext : types_Extrinsic) (block : types_Block) (a : AccountId).

Lemma execute_block_memory block rt e :
  (execute_block block (rt, e)).1 = (apply_block block rt).1 ∧
  (execute_block block (rt, e)).2.1 = (apply_block block rt).2.
Proof. by destruct (execute_block_machine block rt e) as [e' ->]. Qed.

(** A relation the machine's step respects is respected by [execute_block]. *)
Lemma execute_block_ensures (R : relation Runtime) block :
  ensures R (apply_block block) → ensures (λ s s', R s.1 s'.1) (execute_block (Store := Store) block).
Proof. intros HR [rt e]. destruct (execute_block_memory block rt e) as [_ ->]. apply HR. Qed.

Lemma execute_extrinsic_memory b i ext s :
  (execute_extrinsic b (i, (ext, verify ext)) s).2.1 = (apply_extrinsic ext s.1).2.
Proof.
  destruct s as [rt e]. by destruct (execute_extrinsic_erases (Store := Store) b i ext rt e) as [e' ->].
Qed.

(** C6: nobody acts for an account without its signature: if no extrinsic of the
    block both names the account as signer and verifies, then executing the block
    does not decrease its balance, does not move its nonce and does not take any of
    its claims away. *)
Theorem no_effect_without_signature block a rt e :
  (∀ ext, ext ∈ extrinsics block → signer ext = a → verify ext ≠ Ok tt) →
  account_safe a rt (execute_block block (rt, e)).2.1.
Proof.
  intros Hsig. refine (execute_block_ensures (account_safe a) block _ (rt, e)).
  apply apply_block_ensures; [apply _|done|].
  intros ext Hext. apply apply_extrinsic_safe. auto.
Qed.

(** A node applying a sequence of blocks. *)
Definition run_blocks (blocks : list types_Block) : prog (Runtime * env Store) unit :=
  for_each (λ block, execute_block block;; mret tt) blocks.

Lemma run_blocks_nonce_grows blocks a :
  ensures (λ s s', grows (λ rt, account_nonce rt a) s.1 s'.1) (run_blocks blocks).
Proof.
  assert (Hpre : PreOrder (λ s s' : Runtime * env Store, grows (λ rt, account_nonce rt a) s.1 s'.1)).
  { unfold grows. split; [intros s | intros s1 s2 s3]; lia. }
  apply ensures_for_each; [done|]. intros block _. apply ensures_bind; [done| |].
  - apply (execute_block_ensures (grows (λ rt, account_nonce rt a)) block), apply_block_nonce_grows.
  - intros _. by apply ensures_ret.
Qed.

(** C7: at most once: when an extrinsic has changed the runtime, neither it nor any
    other extrinsic of the same signer with the same nonce changes the runtime again,
    however many blocks are executed in between. *)
Theorem executed_at_most_once b i ext b' i' ext' blocks rt e :
  (execute_extrinsic b (i, (ext, verify ext)) (rt, e)).2.1 ≠ rt →
  signer ext' = signer ext → nonce ext' = nonce ext →
  let s1 := (execute_extrinsic b (i, (ext, verify ext)) (rt, e)).2 in
  let s2 := (run_blocks blocks s1).2 in
  (execute_extrinsic b' (i', (ext', verify ext')) s2).2.1 = s2.1.
Proof.
  intros Hchange Hsigner Hnonce s1 s2. subst s2.
  pose proof (run_blocks_nonce_grows blocks (signer ext) s1) as Hgrow. unfold grows in Hgrow.
  assert (Hs1 : account_nonce s1.1 (signer ext) = (uval (nonce ext) + 1)%N).
  { subst s1. rewrite execute_extrinsic_memory in *. simpl in *.
    destruct (apply_extrinsic_step ext rt) as [| |n [_ Hn] Hv]; [done..|]. simpl.
    by rewrite account_nonce_consume, decide_True. }
  rewrite execute_extrinsic_memory. set (s2 := (run_blocks blocks s1).2) in *.
  destruct (apply_extrinsic_step ext' s2.1) as [| |n [_ Hn] Hv]; [done..|].
  unfold account_nonce in *. rewrite Hsigner, Hnonce in Hn. rewrite Hn in Hgrow. lia.
Qed.

(** C8: money is conserved: a block none of whose extrinsics transfers from an
    account to itself leaves the total issuance as it was, whatever its extrinsics
    do and whether or not it is executed to the end. *)
Theorem execute_block_conserves_issuance block rt e :
  (∀ ext, ext ∈ extrinsics block → self_transfer (signer ext) (call ext) = false) →
  issuance (execute_block block (rt, e)).2.1 = issuance rt.
Proof.
  intros Hself. refine (execute_block_ensures (fixes issuance) block _ (rt, e)).
  apply apply_block_ensures; [apply _|done|].
  intros ext Hext rt'. unfold fixes.
  destruct (apply_extrinsic_step ext rt') as [| |n ? Hv]; [done..|]. simpl.
  rewrite apply_call_issuance by auto. done.
Qed.

Lemma for_each_skips (f : types_Extrinsic → prog Runtime unit) (P : types_Extrinsic → Prop)
    `{∀ x, Decision (P x)} l :
  (∀ x rt, ¬ P x → f x rt = (Done tt, rt)) →
  ∀ rt, for_each f (base.filter P l) rt = for_each f l rt.
Proof.
  intros Hskip. induction l as [|x l IH]; intros rt; [done|].
  rewrite filter_cons. destruct (decide (P x)) as [HP|HP]; simpl.
  - unfold mbind, prog_bind. destruct (f x rt) as [[a|msg] rt']; [apply IH | done].
  - unfold mbind, prog_bind. rewrite Hskip by done. apply IH.
Qed.

(** C18: an extrinsic with a bad signature is as good as absent: the block without
    its unverifiable extrinsics gives the same result and the same runtime. *)
Theorem bad_signatures_ignored block rt e e' :
  let block' := mkBlock (header block)
    (base.filter (λ ext, verify ext = Ok tt) (extrinsics block)) in
  (execute_block block (rt, e)).1 = (execute_block block' (rt, e')).1 ∧
  (execute_block block (rt, e)).2.1 = (execute_block block' (rt, e')).2.1.
Proof.
  intros block'. destruct (execute_block_memory block rt e) as [-> ->].
  destruct (execute_block_memory block' rt e') as [-> ->].
  assert (apply_block block rt = apply_block block' rt) as ->; [|done].
  unfold apply_block, block'. simpl. destruct (checked_add _ _); [|done].
  destruct (decide _); [|done]. unfold mbind, prog_bind. rewrite for_each_skips; [done|].
  intros ext rt' Hver. destruct (apply_extrinsic_step ext rt') as [|[] ?|? []]; done.
Qed.

(** The extrinsics of a block signed by an account. *)
Definition signed_by a (exts : list types_Extrinsic) : nat :=
  length (base.filter (λ ext, signer ext = a) exts).

Lemma for_each_total (exts : list types_Extrinsic) rt :
  (∀ a, account_nonce rt a + N.of_nat (signed_by a exts) ≤ umax 32)%N →
  (for_each apply_extrinsic exts rt).1 = Done tt.
Proof.
  revert rt. induction exts as [|ext exts IH]; intros rt Hroom; [done|]. simpl.
  assert (Hcount : ∀ a, signed_by a (ext :: exts) =
    if decide (signer ext = a) then S (signed_by a exts) else signed_by a exts).
  { intros a. unfold signed_by. rewrite filter_cons. by destruct (decide (signer ext = a)). }
  unfold mbind, prog_bind. destruct (apply_extrinsic_step ext rt) as [Hna|[_ Hn] Hmax|n [_ Hn] Hv].
  - apply IH. intros a. specialize (Hroom a). rewrite Hcount in Hroom.
    destruct (decide (signer ext = a)); lia.
  - specialize (Hroom (signer ext)). rewrite Hcount, decide_True in Hroom by done.
    unfold account_nonce in Hroom. rewrite Hn in Hroom. lia.
  - apply IH. intros a. specialize (Hroom a). rewrite Hcount in Hroom.
    rewrite account_nonce_consume. unfold account_nonce in *.
    destruct (decide (a = signer ext)) as [->|Hne].
    + rewrite decide_True, Hn in Hroom by done. lia.
    + rewrite decide_False in Hroom by auto. lia.
Qed.

(** C17: totality: while the height and the nonces have room in their types, executing
    a block never panics, and it succeeds exactly when the header carries the next
    height. *)
Theorem execute_block_total block rt e :
  (height rt < umax 32)%N →
  (∀ a, account_nonce rt a + N.of_nat (signed_by a (extrinsics block)) ≤ umax 32)%N →
  (execute_block block (rt, e)).1 =
    Done (if decide (uval (block_number (header block)) = height rt + 1)%N then Ok tt
          else Err "block number does not match what is expected").
Proof.
  intros Hh Hroom. destruct (execute_block_memory block rt e) as [-> _]. unfold apply_block.
  destruct (checked_add _ _) as [b|] eqn:Hb.
  2: { apply checked_add_None in Hb. rewrite num_val_one in Hb. unfold height in Hh. simpl in *. lia. }
  apply checked_add_Some in Hb. rewrite num_val_one in Hb. simpl in Hb. unfold height.
  rewrite <- Hb. destruct (decide (block_number (header block) = b)) as [Heq|Hne].
  - rewrite decide_True by by rewrite Heq.
    unfold mbind, prog_bind. set (rt1 := set_system _ _).
    pose proof (for_each_total (extrinsics block) rt1 Hroom) as Hdone.
    destruct (for_each _ _ rt1) as [r rt2]. simpl in Hdone. by rewrite Hdone.
  - rewrite decide_False; [done|]. intros Hv. apply Hne. by apply uint_eq.
Qed.

(** A block with another number than the next is rejected, and counted. *)
Lemma execute_block_rejected block rt e :
  (height rt < umax 32)%N → uval (block_number (header block)) ≠ (height rt + 1)%N →
  ∃ b e1, uval b = (height rt + 1)%N ∧ execute_block block (rt, e)
    = (Done (Err "block number does not match what is expected"),
       (set_system (System.set_block_number b (system rt)) rt, e1)).
Proof.
  intros Hh Hne. destruct (execute_block_machine block rt e) as [e1 ->].
  unfold apply_block. destruct (checked_add _ _) as [b|] eqn:Hb.
  2: { apply checked_add_None in Hb. rewrite num_val_one in Hb. unfold height in Hh. simpl in *. lia. }
  apply checked_add_Some in Hb. rewrite num_val_one in Hb. simpl in Hb.
  exists b, e1. split; [done|]. rewrite decide_False; [done|].
  intros Heq. apply Hne. by rewrite Heq.
Qed.

(** A node that is out of step with a chain, behind or ahead, stays so: it rejects every
    block of the chain, and nothing but its height changes. *)
Lemma out_of_step_rejects (blocks : list types_Block) rt e :
  (height rt + N.of_nat (length blocks) ≤ umax 32)%N →
  (∀ i block, blocks !! i = Some block →
    uval (block_number (header block)) ≠ (height rt + 1 + N.of_nat i)%N) →
  ∃ rt' e', mapM execute_block blocks (rt, e) =
      (Done (replicate (length blocks) (Err "block number does not match what is expected")), (rt', e')) ∧
    height rt' = (height rt + N.of_nat (length blocks))%N ∧
    System.pallet_nonce (system rt') = System.pallet_nonce (system rt) ∧
    balances rt' = balances rt ∧ proof_of_existence rt' = proof_of_existence rt.
Proof.
  revert rt e. induction blocks as [|block blocks IH]; intros rt e Hroom Hall.
  { exists rt, e. simpl. split; [done|]. split; [lia | done]. }
  simpl length in Hroom. destruct (execute_block_rejected block rt e) as (b & e1 & Hb & Hrun); [lia| |].
  { specialize (Hall 0 block eq_refl). lia. }
  set (rt1 := set_system _ _) in Hrun. assert (Hh : height rt1 = (height rt + 1)%N) by done.
  destruct (IH rt1 e1) as (rt' & e' & Hrest & Hh' & Hn & Hbal & Hp).
  - rewrite Hh. lia.
  - intros i block' Hi. specialize (Hall (S i) block' Hi). rewrite Hh. lia.
  - exists rt', e'. split; [|simpl length; rewrite Hh', Hh; split; [lia | done]].
    change (mapM execute_block (block :: blocks)) with
      (r ← execute_block block; rs ← mapM execute_block blocks; mret (r :: rs)).
    by rewrite (run_bind_done _ _ _ _ _ Hrun), (run_bind_done _ _ _ _ _ Hrest).
Qed.

(** C35: a rejected block moves the node out of step for good: the height is advanced
    before the header is looked at and stays advanced, so every block of the real chain
    from then on, as many as may come, is rejected too, with no change to any account. *)
Theorem rejected_block_desyncs bad (chain : list types_Block) rt e :
  (height rt + 1 + N.of_nat (length chain) ≤ umax 32)%N →
  uval (block_number (header bad)) ≠ (height rt + 1)%N →
  (∀ i block, chain !! i = Some block →
    uval (block_number (header block)) = (height rt + 1 + N.of_nat i)%N) →
  ∃ rt1 e1 rt2 e2,
    execute_block bad (rt, e)
      = (Done (Err "block number does not match what is expected"), (rt1, e1)) ∧
    height rt1 = (height rt + 1)%N ∧
    mapM execute_block chain (rt1, e1)
      = (Done (replicate (length chain) (Err "block number does not match what is expected")), (rt2, e2)) ∧
    height rt2 = (height rt + 1 + N.of_nat (length chain))%N ∧
    System.pallet_nonce (system rt2) = System.pallet_nonce (system rt) ∧
    balances rt2 = balances rt ∧ proof_of_existence rt2 = proof_of_existence rt.
Proof.
  intros Hroom Hbad Hchain.
  destruct (execute_block_rejected bad rt e) as (b & e1 & Hb & Hrun); [lia|done|].
  set (rt1 := set_system _ _) in Hrun. assert (Hh : height rt1 = (height rt + 1)%N) by done.
  destruct (out_of_step_rejects chain rt1 e1) as (rt2 & e2 & Hrest & Hh2 & Hsame).
  - by rewrite Hh.
  - intros i block Hi. rewrite (Hchain i block Hi), Hh. lia.
  - exists rt1, e1, rt2, e2. split; [done|]. split; [done|]. split; [done|]. rewrite Hh2, Hh.
    split; [done | exact Hsame].
Qed.

(** C29: a call that fails does not undo the acceptance of its extrinsic: the nonce is
    consumed, nothing else of the runtime changes, and the block goes on. *)
Theorem failed_call_consumes_nonce b i ext rt e msg :
  verify ext = Ok tt → System.nonce (system rt) (signer ext) = nonce ext →
  (uval (nonce ext) < umax 32)%N →
  (dispatch (signer ext) (call ext) (rt, e)).1 = Done (Err msg) →
  ∃ n e', uval n = (uval (nonce ext) + 1)%N ∧
    execute_extrinsic b (i, (ext, verify ext)) (rt, e)
      = (Done tt, (mkRuntime (System.set_nonce (signer ext) n (system rt))
          (balances rt) (proof_of_existence rt), e')).
Proof.
  intros Hver Hn Hmax Hfail.
  destruct (dispatch_apply (signer ext) (call ext) rt e) as [e0 Hd]. rewrite Hd in Hfail.
  destruct (execute_extrinsic_erases (Store := Store) b i ext rt e) as [e' ->].
  destruct (apply_extrinsic_step ext rt) as [Hna|_ Ho|n _ Hv].
  - by destruct Hna.
  - lia.
  - exists n, e'. split; [done|]. simpl.
    assert (Hcall : apply_call (signer ext) (call ext) (consume_nonce ext n rt) =
      ((apply_call (signer ext) (call ext) rt).1,
       set_system (System.set_nonce (signer ext) n (system rt))
         (apply_call (signer ext) (call ext) rt).2)).
    { destruct (call ext) as [[to amount]|[claim|claim]]; cbn [apply_call];
        unfold claim_owner; cbn [consume_nonce set_system balances proof_of_existence].
      - destruct (checked_sub _ _); [|done]. by destruct (checked_add _ _).
      - by destruct (ProofOfExistence.get_claim _ _).
      - destruct (ProofOfExistence.get_claim _ _) as [o|]; [|done].
        by destruct (decide (o = signer ext)). }
    simpl in Hfail. rewrite Hcall. simpl. rewrite (apply_call_err _ _ rt msg) by congruence. done.
Qed.

Lemma maybe_apply_genesis_idle rt e :
  height rt ≠ 0%N → maybe_apply_genesis (rt, e) = (Done tt, (rt, e)).
Proof.
  intros Hh. unfold maybe_apply_genesis. prun. by rewrite decide_True by done.
Qed.

Lemma execute_empty_block rt e b :
  uval (block_number b) = (height rt + 1)%N →
  ∃ e', execute_block (mkBlock b []) (rt, e) =
    (Done (Ok tt), (set_system (System.set_block_number (block_number b) (system rt)) rt, e')).
Proof.
  intros Hb. destruct (execute_block_machine (mkBlock b []) rt e) as [e' ->]. exists e'.
  unfold apply_block. simpl. assert (checked_add (System.block_number (system rt)) one
    = Some (block_number b)) as ->.
  { apply checked_add_Some. rewrite num_val_one. done. }
  by rewrite decide_True.
Qed.

(** The balances the genesis sets. *)
Definition genesis_balances (p : Balances.Pallet AccountId Balance) : Balances.Pallet AccountId Balance :=
  Balances.insert_balance (public Charlie) (u128_of 1000000)
    (Balances.insert_balance (public Bob) (u128_of 1000000)
      (Balances.insert_balance (public Alice) (u128_of 1000000) p)).

Lemma maybe_apply_genesis_run rt e :
  height rt = 0%N →
  ∃ e', maybe_apply_genesis (rt, e) = (Done tt,
    (mkRuntime (System.set_block_number (u32_of 1) (system rt)) (genesis_balances (balances rt))
      (proof_of_existence rt), e')).
Proof.
  intros Hh. unfold maybe_apply_genesis, on_balances, zoom, mbind, prog_bind, gets. cbn [fst snd].
  rewrite decide_False by (intros Hne; by apply Hne).
  rewrite !Balances.set_balance_run. cbn [fst snd balances].
  set (rt1 := mkRuntime _ _ _). set (e1 := Balances.persist_balance (public Charlie) _ _).
  destruct (execute_empty_block rt1 e1 (mkHeader (u32_of 1))) as [e2 ->].
  { change (height rt1) with (height rt). rewrite Hh. reflexivity. }
  by eexists.
Qed.

(** The genesis runs once: on a chain at height 0 it never panics, moves the
    height to 1, funds the three dev accounts with 1_000_000 each and leaves every
    other balance, every nonce and every claim alone; afterwards, as on any chain
    past height 0, it does nothing. *)
Theorem genesis_once rt e :
  let s' := (maybe_apply_genesis (rt, e)).2 in
  (maybe_apply_genesis (rt, e)).1 = Done tt ∧
  maybe_apply_genesis s' = (Done tt, s') ∧
  (height rt ≠ 0%N → s' = (rt, e)) ∧
  (height rt = 0%N →
    height s'.1 = 1%N ∧
    (∀ a, account_balance s'.1 a =
      if decide (a ∈ [public Alice; public Bob; public Charlie])
      then 1000000%N else account_balance rt a) ∧
    System.pallet_nonce (system s'.1) = System.pallet_nonce (system rt) ∧
    proof_of_existence s'.1 = proof_of_existence rt).
Proof.
  intros s'. subst s'. destruct (decide (height rt = 0%N)) as [Hh|Hh].
  - destruct (maybe_apply_genesis_run rt e Hh) as [e' ->]. simpl.
    assert (H1 : uval (u32_of 1) = 1%N) by (by rewrite uval_uwrap_small).
    split; [done|]. split; [by apply maybe_apply_genesis_idle|].
    split; [done|]. intros _. split; [done|]. split; [|done]. intros a.
    unfold account_balance, genesis_balances. simpl.
    assert (H2 : uval (u128_of 1000000) = 1000000%N) by (by rewrite uval_uwrap_small).
    destruct (decide (public Charlie = a)) as [<-|Hc].
    { rewrite Balances.balance_insert, decide_True by set_solver. done. }
    rewrite Balances.balance_insert_ne by done.
    destruct (decide (public Bob = a)) as [<-|Hb].
    { rewrite Balances.balance_insert, decide_True by set_solver. done. }
    rewrite Balances.balance_insert_ne by done.
    destruct (decide (public Alice = a)) as [<-|Ha].
    { rewrite Balances.balance_insert, decide_True by set_solver. done. }
    rewrite Balances.balance_insert_ne, decide_False by set_solver. done.
  - rewrite (maybe_apply_genesis_idle rt e Hh). simpl.
    split; [done|]. split; [by apply maybe_apply_genesis_idle | done].
Qed.
End theorems.
