(* ===== verification/Restart.v ===== *)
(** Restarts: what a runtime loaded from the store knows of the runtime that wrote
    it.  Accounts survive exactly; every loaded claim is a current one, but claims
    may be missing (see [ProofOfExistence]). *)

From S2P Require Export Runtime.
From S2P Require System Balances ProofOfExistence.

(** The pallets' keys do not overlap. *)
Lemma balances_not_system key : Balances.balances_key key → ¬ System.system_key key.
Proof.
  assert (H1 : disjoint_prefixes Balances.PREFIX_BALANCE System.PREFIX_NONCE)
    by (apply (bool_decide_unpack _); by vm_compute).
  assert (H2 : ¬ Balances.PREFIX_BALANCE `prefix_of` System.PREFIX_BLOCK_NUMBER)
    by (apply (bool_decide_eq_false_1 _); by vm_compute).
  unfold Balances.balances_key. intros Hb [->|[k ->]]; [done|].
  by apply (disjoint_prefixes_app _ _ k) in H1.
Qed.

Lemma poe_not_system key : ProofOfExistence.poe_key key → ¬ System.system_key key.
Proof.
  assert (H1 : disjoint_prefixes ProofOfExistence.PREFIX_POE System.PREFIX_NONCE)
    by (apply (bool_decide_unpack _); by vm_compute).
  assert (H2 : ¬ ProofOfExistence.PREFIX_POE `prefix_of` System.PREFIX_BLOCK_NUMBER)
    by (apply (bool_decide_eq_false_1 _); by vm_compute).
  unfold ProofOfExistence.poe_key. intros Hb [->|[k ->]]; [done|].
  by apply (disjoint_prefixes_app _ _ k) in H1.
Qed.

Lemma poe_not_balances key : ProofOfExistence.poe_key key → ¬ Balances.balances_key key.
Proof.
  assert (H1 : disjoint_prefixes ProofOfExistence.PREFIX_POE Balances.PREFIX_BALANCE)
    by (apply (bool_decide_unpack _); by vm_compute).
  unfold ProofOfExistence.poe_key, Balances.balances_key. intros Hb [k ->].
  by apply (disjoint_prefixes_app _ _ k) in H1.
Qed.

Section restart.
Context `{!Ed25519}.
Context `{!Codec AccountId, !Codec u32, !Codec u128, !Codec string}.
Context `{!CodecOk AccountId, !CodecOk u32, !CodecOk u128, !CodecOk string}.
Context `{!CodecNonEmpty AccountId, !CodecNonEmpty string}.
Context `{!Codec (array 32 * u32 * RuntimeCall)}.
Context {Store : Type} `{!KeyValueStore Store, !KeyValueStoreOk Store, !KvReliable Store}.
Implicit Types (rt : Runtime) (e : env Store).

(** The store holds the accounts exactly and no claim that is not current. *)
Definition runtime_sound (s : Runtime * env Store) : Prop :=
  System.system_synced (system s.1) (persisted s.2) ∧
  Balances.balances_synced (balances s.1) (persisted s.2) ∧
  ProofOfExistence.poe_sound (proof_of_existence s.1) (persisted s.2).

(** A computation on one pallet that keeps that pallet's part of the invariant and
    writes only the pallet's keys keeps the invariant. *)
Lemma on_system_sound {A} (m : prog (System.Pallet AccountId Nonce BlockNumber * env Store) A) :
  ensures (keeps (λ s, System.system_synced s.1 (persisted s.2))) m →
  ensures (leaves (λ key, ¬ System.system_key key)) m →
  ensures (keeps runtime_sound) (on_system m).
Proof.
  intros Hk Hl [rt e] (Hs & Hb & Hp). specialize (Hk (system rt, e)). specialize (Hl (system rt, e)).
  unfold on_system, zoom. simpl in *. destruct (m (system rt, e)) as [r [p e']]. simpl in *.
  split; [by apply Hk|]. split; simpl.
  - eapply synced_agree; [|exact Hb]. intros key Hkey. by apply Hl, balances_not_system.
  - eapply persisted_sub_agree; [|exact Hp]. intros key Hkey. by apply Hl, poe_not_system.
Qed.

Lemma on_balances_sound {A} (m : prog (Balances.Pallet AccountId Balance * env Store) A) :
  ensures (keeps (λ s, Balances.balances_synced s.1 (persisted s.2))) m →
  ensures (leaves (λ key, ¬ Balances.balances_key key)) m →
  ensures (keeps runtime_sound) (on_balances m).
Proof.
  intros Hk Hl [rt e] (Hs & Hb & Hp). specialize (Hk (balances rt, e)). specialize (Hl (balances rt, e)).
  unfold on_balances, zoom. simpl in *. destruct (m (balances rt, e)) as [r [p e']]. simpl in *.
  split; [|split; [by apply Hk|]]; simpl.
  - eapply System.system_synced_agree; [|exact Hs]. intros key Hkey. apply Hl.
    intros Hbk. by apply (balances_not_system key).
  - eapply persisted_sub_agree; [|exact Hp]. intros key Hkey. by apply Hl, poe_not_balances.
Qed.

Lemma on_poe_sound {A} (m : prog (ProofOfExistence.Pallet AccountId Content * env Store) A) :
  ensures (keeps (λ s, ProofOfExistence.poe_sound s.1 (persisted s.2))) m →
  ensures (leaves (λ key, ¬ ProofOfExistence.poe_key key)) m →
  ensures (keeps runtime_sound) (on_poe m).
Proof.
  intros Hk Hl [rt e] (Hs & Hb & Hp).
  specialize (Hk (proof_of_existence rt, e)). specialize (Hl (proof_of_existence rt, e)).
  unfold on_poe, zoom. simpl in *. destruct (m (proof_of_existence rt, e)) as [r [p e']]. simpl in *.
  split; [|split; [|by apply Hk]]; simpl.
  - eapply System.system_synced_agree; [|exact Hs]. intros key Hkey. apply Hl.
    intros Hpk. by apply (poe_not_system key).
  - eapply synced_agree; [|exact Hb]. intros key Hkey. apply Hl.
    intros Hpk. by apply (poe_not_balances key).
Qed.

Lemma print_sound ev : ensures (keeps runtime_sound) (effect (env_print ev)).
Proof. intros [rt e] Hs. exact Hs. Qed.

Lemma runtime_dispatch_sound caller call : ensures (keeps runtime_sound) (dispatch (Store := Store) caller call).
Proof.
  destruct call as [call|call]; unfold dispatch; (apply ensures_bind; [apply _| |
    intros r; apply ensures_try; [apply _ | intros; apply ensures_ret; apply _]]).
  - apply on_balances_sound; [apply Balances.dispatch_synced | apply Balances.dispatch_balances_leaves].
  - apply on_poe_sound; [apply ProofOfExistence.dispatch_sound | apply ProofOfExistence.dispatch_poe_leaves].
Qed.

Lemma execute_extrinsic_sound b item :
  ensures (keeps runtime_sound) (execute_extrinsic (Store := Store) b item).
Proof.
  destruct item as [i [ext [[]|err]]]; [|apply print_sound]. unfold execute_extrinsic.
  apply ensures_bind; [apply _ | apply ensures_gets; apply _ | intros rt].
  destruct (decide _); [apply print_sound|].
  apply ensures_bind; [apply _| |intros _].
  - apply on_system_sound; [apply System.inc_nonce_synced | apply System.inc_nonce_leaves].
  - apply ensures_bind; [apply _ | apply runtime_dispatch_sound | intros [[]|err]].
    + apply ensures_ret. apply _.
    + apply print_sound.
Qed.

Lemma execute_block_sound block : ensures (keeps runtime_sound) (execute_block (Store := Store) block).
Proof.
  unfold execute_block. apply ensures_bind; [apply _| |intros _].
  { apply on_system_sound; [apply System.inc_block_number_synced | apply System.inc_block_number_leaves]. }
  apply ensures_bind; [apply _ | apply ensures_gets; apply _ | intros rt].
  destruct (decide _); [apply ensures_ret; apply _|].
  apply ensures_bind; [apply _| |intros _; apply ensures_ret; apply _].
  apply ensures_for_each; [apply _|]. intros item _. apply execute_extrinsic_sound.
Qed.

Lemma genesis_sound : ensures (keeps runtime_sound) (maybe_apply_genesis (Store := Store)).
Proof.
  unfold maybe_apply_genesis. apply ensures_bind; [apply _ | apply ensures_gets; apply _ | intros rt].
  destruct (decide _); [apply ensures_ret; apply _|].
  do 3 (apply ensures_bind; [apply _ | apply on_balances_sound;
    [apply Balances.set_balance_synced | apply Balances.set_balance_leaves] | intros _]).
  apply ensures_bind; [apply _ | apply execute_block_sound | intros r].
  apply ensures_bind; [apply _ | apply ensures_expect; apply _ | intros _]. apply print_sound.
Qed.

(** The state [new] gives from a store that satisfies the invariant. *)
Lemma new_sound rt e :
  runtime_sound (rt, e) →
  system (new (env_kv e)) = system rt ∧ balances (new (env_kv e)) = balances rt ∧
  ∀ c o, ProofOfExistence.get_claim (proof_of_existence (new (env_kv e))) c = Some o →
    ProofOfExistence.get_claim (proof_of_existence rt) c = Some o.
Proof.
  intros (Hs & Hb & Hp). unfold new. simpl. split; [|split].
  - by apply System.system_new_synced.
  - by apply Balances.balances_new_synced.
  - intros c o Hc. eapply lookup_weaken; [exact Hc|]. by apply load_map_persisted_sub.
Qed.

(** The loaded runtime is in step with the store it was loaded from. *)
Lemma new_runtime_sound rt e : runtime_sound (rt, e) → runtime_sound (new (env_kv e), e).
Proof.
  intros Hsound. destruct (new_sound rt e Hsound) as (Hs' & Hb' & _).
  destruct Hsound as (Hs & Hb & Hp). unfold runtime_sound. cbn [fst snd]. rewrite Hs', Hb'.
  split; [done|]. split; [done|].
  by apply (load_map_loaded (env_kv e) _ _ Hp).
Qed.

(** The runtime of a new chain. *)
Definition empty_runtime : Runtime :=
  mkRuntime (System.mkPallet zero ∅) (Balances.mkPallet ∅) (ProofOfExistence.mkPallet ∅).

Lemma empty_sound e : persisted e = ∅ → runtime_sound (empty_runtime, e).
Proof.
  intros Hempty.
  unfold runtime_sound, System.system_synced, Balances.balances_synced, ProofOfExistence.poe_sound.
  cbn [fst snd]. rewrite Hempty.
  split; [split; [by rewrite lookup_empty | apply synced_empty]|].
  split; apply synced_empty.
Qed.

(** An empty store is in step with the runtime loaded from it. *)
Lemma empty_runtime_sound e : persisted e = ∅ → runtime_sound (new (env_kv e), e).
Proof. intros Hempty. by apply (new_runtime_sound empty_runtime), empty_sound. Qed.

(** Nothing is loaded from an empty store. *)
Lemma new_empty e : persisted e = ∅ → new (env_kv e) = empty_runtime.
Proof.
  intros Hempty. destruct (new_sound empty_runtime e (empty_sound e Hempty)) as (Hs & Hb & Hp).
  destruct (new (env_kv e)) as [sys bal [cl]]. simpl in *. subst sys bal.
  unfold empty_runtime. do 2 f_equal. apply map_eq. intros c. rewrite lookup_empty.
  destruct (cl !! c) as [o|] eqn:Hc; [|done]. apply Hp in Hc. by unfold ProofOfExistence.get_claim in Hc.
Qed.

(** A node that stops after any block restarts with the accounts it had: from a
    store in step with memory, the runtime loaded after executing a block has the
    same block number, nonces and balances as the runtime in memory, and every claim
    it has is one of those in memory, with the same owner. *)
Theorem restart_after_block block rt e :
  runtime_sound (rt, e) →
  let '(rt', e') := (execute_block block (rt, e)).2 in
  let rt'' := new (env_kv e') in
  runtime_sound (rt', e') ∧
  system rt'' = system rt' ∧ balances rt'' = balances rt' ∧
  ∀ c o, ProofOfExistence.get_claim (proof_of_existence rt'') c = Some o →
    ProofOfExistence.get_claim (proof_of_existence rt') c = Some o.
Proof.
  intros Hs. pose proof (execute_block_sound block (rt, e) Hs) as Hs'.
  destruct (execute_block block (rt, e)).2 as [rt' e']. split; [done|]. by apply new_sound.
Qed.
End restart.
