(* ===== verification/Node.v ===== *)
(** The node ([node.rs], with the topics of [network.rs]): slots and authorship, the
    RPC handlers, the application task (mempool, peer blocks, block production) and
    the network task, as handlers over the node's shared state.

    The application task is the only writer of the runtime and of the mempool, and the
    network task the only writer of the peer list, so a run of the node is a sequence
    of handlers.  Two handlers release a lock and take another on state that another
    task may change in between: the tick, which reads the peer list twice, and the nonce
    endpoint, which reads the runtime and then the pool.  Both have what happens in
    between as a parameter. *)

From S2P Require Export Runtime.
From S2P Require Mempool System.
From stdpp Require Import pretty.

(** * Parameters

    libp2p's peer identities, gossipsub's topic hash, the [hex] crate, the iteration
    order of [std]'s randomly seeded [HashMap], and whether the build checks integer
    overflow (Cargo's [dev] profile does, [release] wraps). *)

Class NodeParams := {
  PeerId : Type;
  PeerId_eq_dec :: EqDecision PeerId;
  PeerId_ord :: Ord PeerId;
  peer_display : PeerId → string;
  to_base58 : PeerId → string;
  topic_hash : string → string;
  hex_decode : string → result bytes string;
  hash_iter : gmap AccountId32 (list types_Extrinsic) → list (AccountId32 * list types_Extrinsic);
  overflow_checks : bool
}.

(** What the program relies on: peer ids are totally ordered, different topics have
    different hashes, decoding lower-case hexadecimal gives the bytes back, and
    iterating a map visits each entry once. *)
Class NodeParamsOk `{!NodeParams} : Prop := {
  PeerId_ord_ok :: OrdOk PeerId;
  topic_hash_inj (s t : string) : topic_hash s = topic_hash t → s = t;
  hex_decode_encode (bs : bytes) : hex_decode (hex_string bs) = Ok bs;
  hash_iter_perm (m : gmap AccountId32 (list types_Extrinsic)) : hash_iter m ≡ₚ map_to_list m
}.

(** [network.rs] *)
Definition extrinsic_topic : string := "extrinsics".
Definition block_topic : string := "blocks".

(** [format!("{v:?}")] of a list of strings that need no escapes *)
Definition double_quote : string := String.String (Ascii.ascii_of_nat 34) String.EmptyString.

Definition debug_strings (l : list string) : string :=
  "[" +:+ String.concat ", " ((λ s, double_quote +:+ s +:+ double_quote) <$> l) +:+ "]".

(** * Shared state *)

Record PublishReq := mkPublishReq { topic : string; data : bytes }.

(** The state behind the node's locks, its three channels, and what gossipsub
    accepted for publication. *)
Record NodeState `{!NodeParams} := mkNode {
  runtime : Runtime;
  mempool : Mempool.Mempool types_Extrinsic;
  shared_peers : list PeerId;
  chan_ext : list types_Extrinsic;
  chan_blk : list types_Block;
  chan_pub : list PublishReq;
  published : list PublishReq
}.

Arguments mkNode {_} _ _ _ _ _ _ _.
Arguments runtime {_} _.
Arguments mempool {_} _.
Arguments shared_peers {_} _.
Arguments chan_ext {_} _.
Arguments chan_blk {_} _.
Arguments chan_pub {_} _.
Arguments published {_} _.

Section setters.
Context `{!NodeParams}.
Implicit Types n : NodeState.

Definition set_runtime rt n : NodeState :=
  mkNode rt (mempool n) (shared_peers n) (chan_ext n) (chan_blk n) (chan_pub n) (published n).
Definition set_mempool mp n : NodeState :=
  mkNode (runtime n) mp (shared_peers n) (chan_ext n) (chan_blk n) (chan_pub n) (published n).
Definition set_peers ps n : NodeState :=
  mkNode (runtime n) (mempool n) ps (chan_ext n) (chan_blk n) (chan_pub n) (published n).
Definition set_chan_ext c n : NodeState :=
  mkNode (runtime n) (mempool n) (shared_peers n) c (chan_blk n) (chan_pub n) (published n).
Definition set_chan_blk c n : NodeState :=
  mkNode (runtime n) (mempool n) (shared_peers n) (chan_ext n) c (chan_pub n) (published n).
Definition set_chan_pub c n : NodeState :=
  mkNode (runtime n) (mempool n) (shared_peers n) (chan_ext n) (chan_blk n) c (published n).
Definition set_published p n : NodeState :=
  mkNode (runtime n) (mempool n) (shared_peers n) (chan_ext n) (chan_blk n) (chan_pub n) p.
End setters.

(** * Slots *)

Definition SLOT_SECS : N := 20.

(** [now] is the number of whole seconds since the epoch, a [u64]. *)
Definition current_slot (now : N) : N := (now / SLOT_SECS)%N.

(** The wait before the first tick. *)
Definition secs_until_next (now : N) : N := (SLOT_SECS - now mod SLOT_SECS)%N.

Section node.
Context `{!NodeParams} `{!Ed25519}.
Context `{!Codec AccountId, !Codec u32, !Codec u128, !Codec string}.
Context `{!Codec (array 32 * u32 * RuntimeCall)}.
Context `{!Codec types_Extrinsic, !Codec types_Block}.
Context {Store : Type} `{!KeyValueStore Store}.

#[local] Abbreviation M := (prog (NodeState * env Store)).
Implicit Types (n : NodeState) (e : env Store).

Definition update (f : NodeState → NodeState) : M unit := modify (λ '(n, e), (f n, e)).

Definition on_runtime {A} (m : prog (Runtime * env Store) A) : M A :=
  zoom (λ s, (runtime s.1, s.2)) (λ t s, (set_runtime t.1 s.1, t.2)) m.

(** [x % y] and [v[i]] panic on a zero divisor and out of range. *)
Definition is_my_slot (my_id : PeerId) (peers : list PeerId) (now : N) : M bool :=
  if decide (length peers = 0) then
    panic "attempt to calculate the remainder with a divisor of zero"
  else
    let idx := N.to_nat (current_slot now mod N.of_nat (length peers)) in
    p ← expect (peers !! idx) "index out of bounds";
    mret (bool_decide (p = my_id)).

(** * RPC handlers *)

Inductive StatusCode : Type := ACCEPTED | BAD_REQUEST.

(** [unbounded_channel] sends. *)
Definition send_ext (ext : types_Extrinsic) : M unit :=
  update (λ n, set_chan_ext (chan_ext n ++ [ext]) n).
Definition send_blk (blk : types_Block) : M unit :=
  update (λ n, set_chan_blk (chan_blk n ++ [blk]) n).
Definition send_pub (req : PublishReq) : M unit :=
  update (λ n, set_chan_pub (chan_pub n ++ [req]) n).

Definition submit_handler (raw : bytes) : M (result StatusCode (StatusCode * string)) :=
  match decode_slice (A := types_Extrinsic) raw with
  | None => mret (Err (BAD_REQUEST, "SCALE decode failed: "))
  | Some ext =>
      send_pub (mkPublishReq (topic_hash extrinsic_topic) raw);;
      send_ext ext;;
      mret (Ok ACCEPTED)
  end.

(** [a + b] on [u32] *)
Definition u32_add {St} (a b : u32) : prog St u32 :=
  match checked_add a b with
  | Some c => mret c
  | None =>
      if overflow_checks then panic "attempt to add with overflow"
      else mret (uwrap (uval a + uval b))
  end.

(** [between] is what the other tasks do between the read of the runtime and that of
    the pool. *)
Definition nonce_handler (between : M unit) (hex : string) :
    M (result string (StatusCode * string)) :=
  match hex_decode hex with
  | Err e => mret (Err (BAD_REQUEST, "invalid hex: " +:+ e))
  | Ok bs =>
      match array_of_list (n := 32) bs with
      | None => mret (Err (BAD_REQUEST, "account must be 32 bytes"))
      | Some arr =>
          let account := mkAccountId32 arr in
          n ← gets fst;
          let base := System.nonce (system (runtime n)) account in
          between;;
          n ← gets fst;
          let pending := uwrap (N.of_nat (length
            (base.filter (λ ext, signer ext = account)
              (Mempool.pending_extrinsics (mempool n))))) in
          total ← u32_add base pending;
          mret (Ok (pretty (uval total)))
      end
  end.

(** * Block production *)

(** [sort_by_key(|e| e.nonce)], a stable sort. *)
Fixpoint insert_by_nonce (x : types_Extrinsic) (l : list types_Extrinsic) : list types_Extrinsic :=
  match l with
  | [] => [x]
  | y :: l' =>
      if (uval (nonce x) <=? uval (nonce y))%N then x :: y :: l'
      else y :: insert_by_nonce x l'
  end.

Definition sort_by_nonce (l : list types_Extrinsic) : list types_Extrinsic :=
  foldr insert_by_nonce [] l.

(** [by_signer.entry(ext.signer).or_default().push(ext)] for every candidate *)
Definition group_by_signer (candidates : list types_Extrinsic) :
    gmap AccountId32 (list types_Extrinsic) :=
  foldl (λ m ext, <[signer ext := default [] (m !! signer ext) ++ [ext]]> m) ∅ candidates.

(** The inner loop: take while the nonces follow each other. *)
Fixpoint take_run (expected : u32) (txs : list types_Extrinsic) : M (list types_Extrinsic) :=
  match txs with
  | [] => mret []
  | tx :: txs' =>
      if decide (nonce tx = expected) then
        expected' ← u32_add expected one;
        run ← take_run expected' txs';
        mret (tx :: run)
      else mret []
  end.

(** The outer loop, over the groups in the map's order. *)
Fixpoint collect_runs (rt : Runtime) (groups : list (AccountId32 * list types_Extrinsic)) :
    M (list types_Extrinsic) :=
  match groups with
  | [] => mret []
  | (signer, txs) :: groups' =>
      run ← take_run (System.nonce (system rt) signer) (sort_by_nonce txs);
      rest ← collect_runs rt groups';
      mret (run ++ rest)
  end.

Definition println (msg : string) : M unit := effect (env_print (Println msg)).
Definition eprintln (msg : string) : M unit := effect (env_print (Eprintln msg)).

Definition produce_block (blk_topic : string) : M unit :=
  n ← gets fst;
  let limit := default 10 (Mempool.block_limit (mempool n)) in
  let '(candidates, mp) := Mempool.drain_for_block limit (mempool n) in
  update (set_mempool mp);;
  let by_signer := group_by_signer candidates in
  batch ← collect_runs (runtime n) (hash_iter by_signer);
  next_num ← unwrap (checked_add (System.block_number (system (runtime n))) one);
  let block := mkBlock (mkHeader next_num) batch in
  let encoded := encode block in
  res ← on_runtime (execute_block block);
  match res with
  | Ok _ =>
      println ("[node] produced block #" +:+ pretty (uval next_num) +:+ " (" +:+
        pretty (length batch) +:+ " tx)");;
      for_each (λ ext, println ("    signer=" +:+ AccountId32_fmt (signer ext) +:+ " nonce=" +:+
        pretty (uval (nonce ext)))) batch;;
      send_pub (mkPublishReq blk_topic encoded)
  | Err err => eprintln ("[node] block production failed: " +:+ err)
  end.

(** * Connections *)

(** [peers.sort()] *)
Definition sort_peers (peers : list PeerId) : list PeerId := merge_sort ord_le peers.

(** [SwarmEvent::ConnectionEstablished].  (The base58 form of a peer id is longer than
    the eight characters shown, so the slice does not panic.) *)
Definition on_connection_established (peer_id : PeerId) : M unit :=
  println ("[net] connected to " +:+ peer_display peer_id);;
  update (λ n, set_peers (shared_peers n ++ [peer_id]) n);;
  update (λ n, set_peers (sort_peers (shared_peers n)) n);;
  n ← gets fst;
  println ("[node] author order: " +:+
    debug_strings ((λ p, String.substring 0 8 (to_base58 p)) <$> shared_peers n)).

(** [SwarmEvent::ConnectionClosed] *)
Definition on_connection_closed (peer_id : PeerId) : M unit :=
  println ("[net] disconnected " +:+ peer_display peer_id);;
  update (λ n, set_peers (base.filter (λ id, id ≠ peer_id) (shared_peers n)) n).

(** A connection event of the network task. *)
Inductive connection : Type :=
| Connected (peer_id : PeerId)
| Disconnected (peer_id : PeerId).

Definition on_connection (c : connection) : M unit :=
  match c with
  | Connected peer_id => on_connection_established peer_id
  | Disconnected peer_id => on_connection_closed peer_id
  end.

(** * The application task *)

(** [Some(ext) = rx_ext.recv()] *)
Definition on_recv_ext : M unit :=
  n ← gets fst;
  match chan_ext n with
  | [] => mret tt
  | ext :: rest =>
      update (λ n, set_mempool (Mempool.submit ext (mempool n)).2 (set_chan_ext rest n))
  end.

(** [Some(block) = rx_blk.recv()] *)
Definition on_recv_blk : M unit :=
  n ← gets fst;
  match chan_blk n with
  | [] => mret tt
  | block :: rest =>
      update (set_chan_blk rest);;
      let included := (λ ext, (signer ext, nonce ext)) <$> extrinsics block in
      res ← on_runtime (execute_block block);
      match res with
      | Ok _ =>
          n ← gets fst;
          println ("[node] applied peer block, height=" +:+
            pretty (uval (System.block_number (system (runtime n)))));;
          update (λ n, set_mempool (Mempool.retain
            (λ ext, negb (existsb (λ sn, bool_decide (sn = (signer ext, nonce ext))) included))
            (mempool n)) n)
      | Err err => eprintln ("[node] peer block rejected: " +:+ err)
      end
  end.

(** [_ = ticker.tick()]: the peer list is read once for its length and once more by
    [is_my_slot]; [between] is what the network task makes of the list in between,
    and [now] is the clock at the second read. *)
Definition on_tick (my_peer_id : PeerId) (between : list connection) (now : N) : M unit :=
  n ← gets fst;
  let have_peers := bool_decide (1 < length (shared_peers n)) in
  if have_peers then
    for_each on_connection between;;
    n ← gets fst;
    mine ← is_my_slot my_peer_id (shared_peers n) now;
    if (mine : bool) then produce_block (topic_hash block_topic) else mret tt
  else mret tt.

(** * The network task *)

(** [SwarmEvent::Behaviour(Gossipsub(Message { message, .. }))] *)
Definition on_message (msg_topic : string) (msg_data : bytes) : M unit :=
  if decide (msg_topic = topic_hash extrinsic_topic) then
    match decode_slice (A := types_Extrinsic) msg_data with
    | Some ext => send_ext ext
    | None => eprintln "[net] bad extrinsic bytes: "
    end
  else if decide (msg_topic = topic_hash block_topic) then
    match decode_slice (A := types_Block) msg_data with
    | Some blk => send_blk blk
    | None => eprintln "[net] bad block bytes: "
    end
  else mret tt.

(** [Some(req) = rx_pub.recv()], with gossipsub's answer to the publication *)
Definition on_recv_pub (answer : result unit string) : M unit :=
  n ← gets fst;
  match chan_pub n with
  | [] => mret tt
  | req :: rest =>
      update (set_chan_pub rest);;
      match answer with
      | Ok _ => update (λ n, set_published (published n ++ [req]) n)
      | Err err => eprintln ("[net] publish error: " +:+ err)
      end
  end.

(** * The node *)

(** The state [run] starts its tasks with: the runtime and the pool, the peer list that
    names the node alone, and empty channels.  The swarm it builds in between, and the
    errors of that, are libp2p's. *)
Definition run_init (my_peer_id : PeerId) (e : env Store) : outcome unit * (NodeState * env Store) :=
  let '(r, (rt, e')) := maybe_apply_genesis (new (env_kv e), e) in
  (r, (mkNode rt (Mempool.with_block_limit 3) [my_peer_id] [] [] [] [], e')).

(** What can happen to a running node. *)
Inductive node_event : Type :=
| EvSubmit (raw : bytes)
| EvNonce (hex : string)
| EvRecvExt
| EvRecvBlk
| EvTick (between : list connection) (now : N)
| EvMessage (msg_topic : string) (msg_data : bytes)
| EvConnection (c : connection)
| EvRecvPub (answer : result unit string).

(** (The nonce endpoint writes nothing: what happens between its reads are events of
    their own.) *)
Definition node_handle (my_peer_id : PeerId) (ev : node_event) : M unit :=
  match ev with
  | EvSubmit raw => submit_handler raw;; mret tt
  | EvNonce hex => nonce_handler (mret tt) hex;; mret tt
  | EvRecvExt => on_recv_ext
  | EvRecvBlk => on_recv_blk
  | EvTick between now => on_tick my_peer_id between now
  | EvMessage msg_topic msg_data => on_message msg_topic msg_data
  | EvConnection c => on_connection c
  | EvRecvPub answer => on_recv_pub answer
  end.
End node.
