(* ===== verification/Authorship.v ===== *)
(** Slots, authorship and the peer list of a node. *)

From S2P Require Export Node.
From S2P Require Mempool.

(** * Slots *)

(** The ticker is aligned: the wait is between one second and one slot, and it
    ends on the first second of the next slot. *)
Theorem ticker_aligned (now : N) :
  (1 ≤ secs_until_next now ≤ SLOT_SECS)%N ∧
  ((now + secs_until_next now) mod SLOT_SECS = 0)%N ∧
  current_slot (now + secs_until_next now) = (current_slot now + 1)%N.
Proof.
  unfold secs_until_next, current_slot, SLOT_SECS.
  pose proof (N.mod_lt now 20 ltac:(lia)). pose proof (N.div_mod' now 20).
  assert (Heq : (now + (20 - now mod 20) = (now / 20 + 1) * 20)%N) by lia.
  rewrite Heq, N.Div0.mod_mul, N.div_mul by lia. split; [|done].
  clear Heq H0. revert H. generalize (now mod 20)%N. lia.
Qed.


Section authorship.
Context `{!NodeParams} {Store : Type}.
Implicit Types (peers : list PeerId) (s : NodeState * env Store).

(** The author of a slot. *)
Definition author peers (slot : N) : option PeerId :=
  peers !! N.to_nat (slot mod N.of_nat (length peers)).

Lemma author_is_Some peers slot : peers ≠ [] → is_Some (author peers slot).
Proof.
  intros Hne. unfold author. apply lookup_lt_is_Some.
  destruct peers as [|p peers]; [done|].
  pose proof (N.mod_lt slot (N.of_nat (length (p :: peers)))). simpl in *. lia.
Qed.

Lemma is_my_slot_run p peers now s :
  peers ≠ [] →
  is_my_slot p peers now s = (Done (bool_decide (author peers (current_slot now) = Some p)), s).
Proof.
  intros Hne. unfold is_my_slot. rewrite decide_False by (by destruct peers).
  destruct (author_is_Some peers (current_slot now) Hne) as [q Hq]. rewrite Hq.
  unfold author in Hq. rewrite Hq. prun. f_equal. f_equal. apply bool_decide_ext. naive_solver.
Qed.

(** C22: nodes with the same peer list agree on the author: the slot has one author,
    a member of the list, and every node finds that it is its turn exactly when it
    is that author; with a non-empty list nobody panics. *)
Theorem one_author peers now :
  peers ≠ [] →
  ∃ p, p ∈ peers ∧
    ∀ q s, is_my_slot q peers now s = (Done (bool_decide (q = p)), s).
Proof.
  intros Hne. destruct (author_is_Some peers (current_slot now) Hne) as [p Hp].
  exists p. split; [by eapply list_elem_of_lookup_2|]. intros q s.
  rewrite is_my_slot_run, Hp by done. f_equal. f_equal. apply bool_decide_ext. naive_solver.
Qed.



End authorship.

(** * The peer list over time *)

Section peer_list.
Context `{!NodeParams, !NodeParamsOk} `{!Ed25519}.
Context `{!Codec AccountId, !Codec u32, !Codec u128, !Codec string}.
Context `{!Codec (array 32 * u32 * RuntimeCall)}.
Context `{!Codec types_Extrinsic, !Codec types_Block}.
Context {Store : Type} `{!KeyValueStore Store}.

Abbreviation node_world := (NodeState * env Store)%type.
Abbreviation peers_of s := (shared_peers (fst s)).

(** A run of the node: the handlers of the events in turn.  A panic ends its handler
    and, in the program, the task it runs in; the run goes on regardless, which
    allows more behaviours than the program has. *)
Definition run_events (me : PeerId) (evs : list node_event) (s : node_world) : node_world :=
  foldl (λ s ev, (node_handle me ev s).2) s evs.

Lemma on_runtime_fixes {A B} (f : node_world → B) (m : prog (Runtime * env Store) A) :
  (∀ rt e n e0, f (set_runtime rt n, e) = f (n, e0)) → ensures (fixes f) (on_runtime m).
Proof.
  intros Hf. apply (ensures_zoom _ (λ _ _, True)); [|by intros s].
  intros [n e] [rt e'] _. apply Hf.
Qed.

Ltac fixes_steps := ensures_steps ltac:(solve [by intros [? ?] | by apply on_runtime_fixes]).

Lemma u32_add_fixes {B} (f : node_world → B) a b : ensures (fixes f) (u32_add a b).
Proof. unfold u32_add. fixes_steps. Qed.

Lemma take_run_fixes {B} (f : node_world → B) expected txs : ensures (fixes f) (take_run expected txs).
Proof.
  revert expected. induction txs as [|tx txs IH]; intros expected; simpl; [apply ensures_ret; apply _|].
  ensures_steps ltac:(first [apply u32_add_fixes | apply IH]).
Qed.

Lemma collect_runs_fixes {B} (f : node_world → B) rt groups :
  ensures (fixes f) (collect_runs rt groups).
Proof.
  induction groups as [|[k txs] groups IH]; simpl; [apply ensures_ret; apply _|].
  ensures_steps ltac:(first [apply take_run_fixes | apply IH]).
Qed.

Lemma produce_block_peers t : ensures (fixes (λ s : node_world, peers_of s)) (produce_block t).
Proof.
  unfold produce_block, println, eprintln, send_pub, update, effect.
  ensures_steps ltac:(first [apply collect_runs_fixes | solve [by intros [? ?]]
    | solve [by apply on_runtime_fixes]]).
Qed.

(** The list is sorted and names the node itself. *)
Definition peers_ok (me : PeerId) (peers : list PeerId) : Prop :=
  StronglySorted ord_le peers ∧ me ∈ peers.

Lemma StronglySorted_filter {A} (R : relation A) (P : A → Prop) `{∀ x, Decision (P x)} (l : list A) :
  StronglySorted R l → StronglySorted R (base.filter P l).
Proof.
  induction 1 as [|x l Hl IH Hx]; [constructor|]. rewrite filter_cons.
  destruct (decide (P x)); [|done]. constructor; [done|].
  apply Forall_forall. intros y [_ Hy]%list_elem_of_filter.
  by eapply Forall_forall in Hx.
Qed.

Lemma connected_run p (n : NodeState) (e : env Store) :
  ∃ e', on_connection_established p (n, e)
    = (Done tt, (set_peers (sort_peers (shared_peers n ++ [p])) n, e')).
Proof. by eexists. Qed.

Lemma disconnected_run p (n : NodeState) (e : env Store) :
  ∃ e', on_connection_closed p (n, e)
    = (Done tt, (set_peers (base.filter (λ id, id ≠ p) (shared_peers n)) n, e')).
Proof. by eexists. Qed.

(** The events that report the disconnection of the node itself. *)
Definition disconnects (me : PeerId) (ev : node_event) : Prop :=
  match ev with
  | EvConnection c => c = Disconnected me
  | EvTick between _ => Disconnected me ∈ between
  | _ => False
  end.

Abbreviation keeps_peers_ok me := (keeps (λ s : node_world, peers_ok me (peers_of s))).

Lemma on_connection_peers_ok me c : c ≠ Disconnected me → ensures (keeps_peers_ok me) (on_connection c).
Proof.
  intros Hc [n e] [Hs Hme]. destruct c as [p|p]; cbn [on_connection].
  - destruct (connected_run p n e) as [e' ->]. split; simpl.
    + apply (StronglySorted_merge_sort ord_le).
    + unfold sort_peers. rewrite merge_sort_Permutation. set_solver.
  - destruct (disconnected_run p n e) as [e' ->]. split; simpl.
    + by apply StronglySorted_filter.
    + apply list_elem_of_filter. split; [congruence | done].
Qed.

(** What leaves the peer list alone keeps it well-formed. *)
Lemma fixed_peers_ok {A} me (m : prog node_world A) :
  ensures (fixes (λ s : node_world, peers_of s)) m → ensures (keeps_peers_ok me) m.
Proof. apply ensures_mono. unfold fixes, keeps. by intros s s' ->. Qed.

Lemma node_handle_peers_ok me ev :
  ¬ disconnects me ev → ensures (keeps_peers_ok me) (node_handle me ev).
Proof.
  intros Hev. destruct ev as [raw|hex| | |between now|t bs|c|answer]; simpl in Hev; cbn [node_handle].
  1-4, 6, 8: apply fixed_peers_ok;
    unfold submit_handler, nonce_handler, on_recv_ext, on_recv_blk, on_message,
      on_recv_pub, send_ext, send_blk, send_pub, println, eprintln, update, effect;
    ensures_steps ltac:(first [apply u32_add_fixes
      | solve [by intros [? ?]] | solve [by apply on_runtime_fixes]]).
  - unfold on_tick, is_my_slot.
    ensures_steps ltac:(first [apply fixed_peers_ok; apply produce_block_peers
      | apply on_connection_peers_ok; by intros ->]).
  - by apply on_connection_peers_ok.
Qed.

(** From a start whose list is the node itself, whatever events the node
    handles (its own disconnection, which libp2p never reports, apart), and whatever
    connections come and go between the two reads of a tick, the peer list stays
    sorted and keeps the node in it; so a tick never divides by zero and never indexes
    out of range. *)
Theorem peer_list_invariant (me : PeerId) (evs : list node_event) (s : node_world) now :
  peers_of s = [me] → Forall (λ ev, ¬ disconnects me ev) evs →
  let s' := run_events me evs s in
  peers_ok me (peers_of s') ∧ ∃ b, is_my_slot me (peers_of s') now s' = (Done b, s').
Proof.
  intros Hinit Hevs s'.
  assert (Hok : peers_ok me (peers_of s')).
  { assert (Hs : peers_ok me (peers_of s)).
    { rewrite Hinit. split; [repeat constructor | set_solver]. }
    subst s'. unfold run_events. clear Hinit. revert s Hs.
    induction Hevs as [|ev evs Hev _ IH]; intros s Hs; simpl; [done|].
    apply IH. by apply (node_handle_peers_ok me ev Hev). }
  split; [done|]. destruct Hok as [_ Hme]. eexists. apply is_my_slot_run.
  intros Hnil. rewrite Hnil in Hme. by apply not_elem_of_nil in Hme.
Qed.

(** C40: the list counts connections, not peers, going up and peers going down: a
    peer that opens a second connection is listed twice, and closing one of the two
    removes it altogether although it is still connected. *)
Theorem second_connection_forgets_peer (me p : PeerId) (s : node_world) :
  peers_of (run_events me [EvConnection (Connected p); EvConnection (Connected p)] s) ≡ₚ p :: p :: peers_of s ∧
  p ∉ peers_of (run_events me [EvConnection (Connected p); EvConnection (Connected p); EvConnection (Disconnected p)] s).
Proof.
  destruct s as [n e]. unfold run_events. cbn [foldl node_handle on_connection].
  destruct (connected_run p n e) as [e1 ->]. cbn [snd].
  destruct (connected_run p (set_peers (sort_peers (shared_peers n ++ [p])) n) e1) as [e2 ->]. cbn [snd].
  set (n2 := set_peers _ (set_peers _ n)). split.
  - simpl. unfold sort_peers. rewrite !merge_sort_Permutation. solve_Permutation.
  - destruct (disconnected_run p n2 e2) as [e3 ->]. simpl.
    intros [Hne _]%list_elem_of_filter. done.
Qed.
End peer_list.
