(* ===== verification/Production.v ===== *)
(** Block production and the application of peer blocks: what a produced block
    contains, that it is executed in full, that peers that apply it follow, and what
    is evicted from or lost by the mempool. *)

From S2P Require Export BlockExecution Authorship.
From S2P Require Mempool System.

(** * Sorting by nonce *)

Section sorting.
Implicit Types (x : types_Extrinsic) (l : list types_Extrinsic).

Definition nonce_le : relation types_Extrinsic := λ x y, (uval (nonce x) ≤ uval (nonce y))%N.

Lemma insert_by_nonce_perm x l : insert_by_nonce x l ≡ₚ x :: l.
Proof.
  induction l as [|y l IH]; simpl; [done|]. destruct (_ <=? _)%N; [done|].
  rewrite IH. by apply Permutation_swap.
Qed.

Lemma sort_by_nonce_perm l : sort_by_nonce l ≡ₚ l.
Proof. induction l as [|x l IH]; simpl; [done|]. by rewrite insert_by_nonce_perm, IH. Qed.

Lemma insert_by_nonce_sorted x l :
  StronglySorted nonce_le l → StronglySorted nonce_le (insert_by_nonce x l).
Proof.
  unfold nonce_le. induction 1 as [|y l Hl IH Hy]; simpl; [by repeat constructor|].
  destruct (N.leb_spec (uval (nonce x)) (uval (nonce y))) as [Hle|Hlt].
  - constructor; [by constructor|]. constructor; [done|].
    eapply Forall_impl; [exact Hy|]. intros z Hz. simpl in *. lia.
  - constructor; [done|]. rewrite insert_by_nonce_perm. constructor; [lia | done].
Qed.

Lemma sort_by_nonce_sorted l : StronglySorted nonce_le (sort_by_nonce l).
Proof. induction l as [|x l IH]; simpl; [constructor | by apply insert_by_nonce_sorted]. Qed.
End sorting.

(** * Grouping by signer *)

Section grouping.
Implicit Types (x : types_Extrinsic) (l : list types_Extrinsic).

Lemma group_by_signer_lookup l (a : AccountId32) :
  default [] (group_by_signer l !! a) = base.filter (λ x, signer x = a) l ∧
  (is_Some (group_by_signer l !! a) → base.filter (λ x, signer x = a) l ≠ []).
Proof.
  unfold group_by_signer. induction l as [|x l [IH1 IH2]] using rev_ind; simpl.
  { rewrite lookup_empty. split; [done | by intros [? ?]]. }
  rewrite foldl_app, filter_app, filter_cons, filter_nil. simpl.
  destruct (decide (signer x = a)) as [<-|Hne].
  - rewrite lookup_insert_eq. simpl. rewrite IH1. split; [done|]. intros _ Hnil.
    by apply app_nil in Hnil as [_ Hnil].
  - rewrite lookup_insert_ne, app_nil_r by done. done.
Qed.

Lemma group_by_signer_Some l (a : AccountId32) txs :
  group_by_signer l !! a = Some txs → txs = base.filter (λ x, signer x = a) l.
Proof. intros H. destruct (group_by_signer_lookup l a) as [<- _]. by rewrite H. Qed.

Lemma group_by_signer_None l (a : AccountId32) :
  group_by_signer l !! a = None → base.filter (λ x, signer x = a) l = [].
Proof. intros H. destruct (group_by_signer_lookup l a) as [<- _]. by rewrite H. Qed.
End grouping.

(** * Consecutive runs *)

(** The nonces of [run] are [start], [start + 1], ... *)
Fixpoint consecutive (start : N) (run : list types_Extrinsic) : Prop :=
  match run with
  | [] => True
  | x :: run' => uval (nonce x) = start ∧ consecutive (start + 1) run'
  end.

Section runs.
Context `{!NodeParams, !NodeParamsOk} `{!Ed25519}.
Context {Store : Type} `{!KeyValueStore Store}.
Implicit Types (txs run : list types_Extrinsic) (rt : Runtime).

(** With room for the nonces, a run is computed without overflow and without effect:
    it is a prefix of the sorted transactions with consecutive nonces, and it stops
    only at the end or at a transaction that does not have the next nonce. *)
Lemma take_run_spec (expected : u32) txs (s : NodeState * env Store) :
  (uval expected + N.of_nat (length txs) ≤ umax 32)%N →
  ∃ run rest, take_run expected txs s = (Done run, s) ∧ txs = run ++ rest ∧
    consecutive (uval expected) run ∧
    ∀ x, head rest = Some x → uval (nonce x) ≠ (uval expected + N.of_nat (length run))%N.
Proof.
  revert expected. induction txs as [|tx txs IH]; intros expected Hroom; simpl in *.
  { by exists [], []. }
  destruct (decide (nonce tx = expected)) as [<-|Hne].
  2: { exists [], (tx :: txs). split; [done|]. split; [done|]. split; [done|].
       intros x Hx. simplify_eq/=. intros Hv. apply Hne, uint_eq. lia. }
  unfold u32_add. destruct (checked_add (nonce tx) one) as [next|] eqn:Hnext.
  2: { apply checked_add_None in Hnext. rewrite num_val_one in Hnext. simpl in *. lia. }
  apply checked_add_Some in Hnext. rewrite num_val_one in Hnext. simpl in Hnext.
  destruct (IH next) as (run & rest & Hrun & -> & Hcons & Hstop); [lia|].
  exists (tx :: run), rest. prun. rewrite Hrun. split; [done|]. split; [done|].
  rewrite <- Hnext. split; [done|]. intros x Hx. specialize (Hstop x Hx). lia.
Qed.

(** What the outer loop collects. *)
Inductive collected rt : list (AccountId32 * list types_Extrinsic) → list types_Extrinsic → Prop :=
| collected_nil : collected rt [] []
| collected_cons k txs groups run rest batch :
    sort_by_nonce txs = run ++ rest →
    consecutive (account_nonce rt k) run →
    (∀ x, head rest = Some x → uval (nonce x) ≠ (account_nonce rt k + N.of_nat (length run))%N) →
    collected rt groups batch →
    collected rt ((k, txs) :: groups) (run ++ batch).

Lemma collect_runs_spec rt groups (s : NodeState * env Store) :
  (∀ k txs, (k, txs) ∈ groups → (account_nonce rt k + N.of_nat (length txs) ≤ umax 32)%N) →
  ∃ batch, collect_runs rt groups s = (Done batch, s) ∧ collected rt groups batch.
Proof.
  induction groups as [|[k txs] groups IH]; intros Hroom; simpl.
  { exists []. split; [done | constructor]. }
  destruct (take_run_spec (System.nonce (system rt) k) (sort_by_nonce txs) s)
    as (run & rest & Hrun & Hsplit & Hcons & Hstop).
  { rewrite sort_by_nonce_perm. apply Hroom. set_solver. }
  destruct IH as (batch & Hbatch & Hcol); [intros k' txs' Hin; apply Hroom; set_solver|].
  exists (run ++ batch). prun. rewrite Hrun, Hbatch. split; [done|]. by eapply collected_cons.
Qed.

Lemma collected_elem rt groups batch x :
  collected rt groups batch → x ∈ batch → ∃ k txs, (k, txs) ∈ groups ∧ x ∈ txs.
Proof.
  induction 1 as [|k txs groups run rest batch Hsplit _ _ _ IH]; intros Hx; [set_solver|].
  apply elem_of_app in Hx as [Hx|Hx].
  - exists k, txs. split; [set_solver|]. rewrite <- (sort_by_nonce_perm txs), Hsplit. set_solver.
  - destruct (IH Hx) as (k' & txs' & ? & ?). exists k', txs'. set_solver.
Qed.
End runs.

(** * Executing a batch *)

Section executing.
Context `{!Ed25519} `{!Codec (array 32 * u32 * RuntimeCall)}.
Implicit Types (rt : Runtime) (run : list types_Extrinsic) (a k : AccountId32).

Lemma for_each_app {S A} (f : A → prog S unit) l l' s s' :
  for_each f l s = (Done tt, s') → for_each f (l ++ l') s = for_each f l' s'.
Proof.
  revert s. induction l as [|x l IH]; intros s; simpl; [by intros [= ->]|].
  unfold mbind, prog_bind. destruct (f x s) as [[[]|msg] s1]; [apply IH | done].
Qed.

(** A verified consecutive run of one signer is accepted to the last extrinsic. *)
Lemma run_applied k run rt :
  (∀ x, x ∈ run → signer x = k ∧ verify x = Ok tt) →
  consecutive (account_nonce rt k) run →
  (account_nonce rt k + N.of_nat (length run) ≤ umax 32)%N →
  ∃ rt', for_each apply_extrinsic run rt = (Done tt, rt') ∧
    ∀ a, account_nonce rt' a =
      if decide (a = k) then (account_nonce rt a + N.of_nat (length run))%N else account_nonce rt a.
Proof.
  revert rt. induction run as [|x run IH]; intros rt Hall Hcons Hroom; simpl in *.
  { exists rt. split; [done|]. intros a. destruct (decide (a = k)); lia. }
  destruct (Hall x) as [Hsig Hver]; [set_solver|]. destruct Hcons as [Hx Hcons].
  assert (Hacc : accepts rt x).
  { split; [done|]. apply uint_eq. rewrite Hsig. by rewrite Hx. }
  unfold mbind, prog_bind. destruct (apply_extrinsic_step x rt) as [|_ Hmax|n _ Hn]; [done|lia|].
  set (rt1 := (apply_call _ _ _).2).
  assert (Hn1 : ∀ a, account_nonce rt1 a =
    if decide (a = k) then (account_nonce rt k + 1)%N else account_nonce rt a).
  { intros a. unfold rt1. rewrite account_nonce_consume, Hsig.
    destruct (decide (a = k)); [by rewrite Hn, Hx | done]. }
  destruct (IH rt1) as (rt' & Hrt' & Hn').
  - intros y Hy. apply Hall. set_solver.
  - by rewrite Hn1, decide_True.
  - rewrite Hn1, decide_True by done. lia.
  - exists rt'. split; [done|]. intros a. rewrite Hn', Hn1.
    destruct (decide (a = k)) as [->|]; lia.
Qed.

Lemma signed_by_app a l l' : signed_by a (l ++ l') = signed_by a l + signed_by a l'.
Proof. unfold signed_by. by rewrite filter_app, length_app. Qed.

Lemma signed_by_run a k run :
  (∀ x, x ∈ run → signer x = k) → signed_by a run = if decide (a = k) then length run else 0.
Proof.
  unfold signed_by. induction run as [|x run IH]; intros Hall; [by destruct (decide _)|].
  rewrite filter_cons, (Hall x) by set_solver.
  specialize (IH (λ y Hy, Hall y (list_elem_of_further _ _ _ Hy))).
  destruct (decide (a = k)) as [->|Hne].
  - rewrite decide_True by done. simpl. by rewrite IH.
  - by rewrite decide_False, IH by done.
Qed.

(** The runs of different signers do not interfere. *)
Lemma batch_applied rt0 groups batch rt :
  collected rt0 groups batch →
  NoDup groups.*1 →
  (∀ k txs x, (k, txs) ∈ groups → x ∈ txs → signer x = k ∧ verify x = Ok tt) →
  (∀ k txs, (k, txs) ∈ groups → (account_nonce rt0 k + N.of_nat (length txs) ≤ umax 32)%N) →
  (∀ k, k ∈ groups.*1 → account_nonce rt k = account_nonce rt0 k) →
  ∃ rt', for_each apply_extrinsic batch rt = (Done tt, rt') ∧
    ∀ a, account_nonce rt' a = (account_nonce rt a + N.of_nat (signed_by a batch))%N.
Proof.
  intros Hcol. revert rt.
  induction Hcol as [|k txs groups run rest batch Hsplit Hcons _ _ IH];
    intros rt Hnd Hall Hroom Hrt; simpl in *.
  { exists rt. split; [done|]. intros a. unfold signed_by. simpl. lia. }
  apply NoDup_cons in Hnd as [Hk Hnd].
  assert (Hrun : ∀ x, x ∈ run → signer x = k ∧ verify x = Ok tt).
  { intros x Hx. apply (Hall k txs); [by left|].
    rewrite <- (sort_by_nonce_perm txs), Hsplit. apply elem_of_app. by left. }
  assert (Hlen : length run ≤ length txs).
  { rewrite <- (sort_by_nonce_perm txs), Hsplit, length_app. lia. }
  specialize (Hroom k txs ltac:(by left)) as Hroomk.
  assert (Hrtk : account_nonce rt k = account_nonce rt0 k) by (apply Hrt; by left).
  destruct (run_applied k run rt Hrun) as (rt1 & Hrt1 & Hn1); [by rewrite Hrtk | lia|].
  destruct (IH rt1 Hnd) as (rt' & Hrt' & Hn').
  - intros k' txs' x Hin. apply (Hall k' txs'). by right.
  - intros k' txs' Hin. apply Hroom. by right.
  - intros k' Hin. rewrite Hn1, decide_False by (intros ->; by apply Hk). apply Hrt. by right.
  - exists rt'. split; [by rewrite (for_each_app _ _ _ _ _ Hrt1)|]. intros a.
    assert (Hsig : signed_by a run = if decide (a = k) then length run else 0).
    { apply signed_by_run. intros x Hx. exact (proj1 (Hrun x Hx)). }
    rewrite Hn', Hn1, signed_by_app, Hsig.
    destruct (decide (a = k)); lia.
Qed.
End executing.

(** * Producing a block *)

Section producing.
Context `{!NodeParams} `{!Ed25519}.
Context `{!Codec AccountId, !Codec u32, !Codec u128, !Codec string}.
Context `{!Codec (array 32 * u32 * RuntimeCall)}.
Context `{!Codec types_Extrinsic, !Codec types_Block}.
Context {Store : Type} `{!KeyValueStore Store}.
Implicit Types (n : NodeState) (e : env Store) (block : types_Block).

(** The extrinsics taken from the pool, and those left in it. *)
Definition block_limit_of n : nat := default 10 (Mempool.block_limit (mempool n)).
Definition candidates_of n : list types_Extrinsic := take (block_limit_of n) (Mempool.pending (mempool n)).
Definition drained n : NodeState :=
  set_mempool (Mempool.set_pending (drop (block_limit_of n) (Mempool.pending (mempool n))) (mempool n)) n.

Lemma on_runtime_execute block n e :
  ∃ e', on_runtime (execute_block block) (n, e) =
    ((apply_block block (runtime n)).1, (set_runtime (apply_block block (runtime n)).2 n, e')).
Proof.
  unfold on_runtime, zoom. cbn [fst snd].
  destruct (execute_block_machine block (runtime n) e) as [e' ->]. by exists e'.
Qed.

Lemma for_each_println (f : types_Extrinsic → string) l n e :
  ∃ e', for_each (λ x, println (f x)) l (n, e) = (Done tt, (n, e')).
Proof.
  revert e. induction l as [|x l IH]; intros e; simpl; [by eexists|].
  unfold mbind, prog_bind. apply IH.
Qed.

(** The block [produce_block] executes is accepted by its own header. *)
Lemma apply_next_block (b : u32) batch (rt : Runtime) :
  checked_add (System.block_number (system rt)) one = Some b →
  apply_block (mkBlock (mkHeader b) batch) rt =
    (for_each apply_extrinsic batch;; mret (Ok tt))
      (set_system (System.set_block_number b (system rt)) rt).
Proof. intros Hb. unfold apply_block. rewrite Hb. simpl. by rewrite decide_True. Qed.

Lemma apply_block_ok_height block (rt rt' : Runtime) :
  apply_block block rt = (Done (Ok tt), rt') → height rt' = (height rt + 1)%N.
Proof.
  unfold apply_block. destruct (checked_add _ _) as [b|] eqn:Hb; [|done].
  apply checked_add_Some in Hb. rewrite num_val_one in Hb. simpl in Hb.
  destruct (decide _); [|done]. unfold mbind, prog_bind.
  set (rt1 := set_system _ rt).
  assert (Hfix : ensures (fixes height) (for_each apply_extrinsic (extrinsics block))).
  { apply ensures_for_each; [apply _|]. intros x _. apply apply_extrinsic_height. }
  specialize (Hfix rt1). unfold fixes in Hfix.
  destruct (for_each _ _ rt1) as [[[]|msg] rt2]; [|done]. intros [= <-]. simpl in Hfix.
  rewrite Hfix. unfold height. simpl. lia.
Qed.

(** What a production that does not panic does. *)
Lemma produce_block_inv t n e n' e' :
  produce_block t (n, e) = (Done tt, (n', e')) →
  ∃ batch b,
    collect_runs (runtime n) (hash_iter (group_by_signer (candidates_of n))) (drained n, e)
      = (Done batch, (drained n, e)) ∧
    checked_add (System.block_number (system (runtime n))) one = Some b ∧
    let block := mkBlock (mkHeader b) batch in
    (apply_block block (runtime n)).1 = Done (Ok tt) ∧
    n' = set_chan_pub (chan_pub n ++ [mkPublishReq t (encode block)])
      (set_runtime (apply_block block (runtime n)).2 (drained n)).
Proof.
  unfold produce_block. unfold mbind at 1, prog_bind at 1, gets. cbn [fst].
  rewrite Mempool.drain_for_block_spec. unfold mbind at 1, prog_bind at 1, update, modify.
  fold (block_limit_of n). fold (candidates_of n). fold (drained n).
  set (groups := hash_iter _). unfold mbind at 1, prog_bind at 1.
  pose proof (collect_runs_fixes (Store := Store) (λ s, s) (runtime n) groups (drained n, e)) as Hfix.
  unfold fixes in Hfix. destruct (collect_runs (runtime n) groups (drained n, e)) as [[batch|msg] s1];
    simpl in Hfix; subst s1; [|done].
  destruct (checked_add _ _) as [b|] eqn:Hb; [|done]. intros Hrest. exists batch, b.
  split; [done|]. split; [done|]. cbv zeta. revert Hrest.
  unfold unwrap, expect. unfold mbind at 1, prog_bind at 1, mret, prog_ret.
  set (block := mkBlock _ _).
  destruct (on_runtime_execute block (drained n) e) as [e1 Hexec]. simpl in Hexec.
  unfold mbind at 1, prog_bind at 1. rewrite Hexec.
  destruct (apply_block block (runtime n)) as [r rt'] eqn:Happly. cbn [fst snd].
  assert (Hok : ∀ err, r ≠ Done (Err err)).
  { intros err ->. unfold block in Happly. rewrite (apply_next_block b batch _ Hb) in Happly.
    unfold mbind, prog_bind in Happly. destruct (for_each _ _ _) as [[?|?] ?]; simplify_eq/=. }
  destruct r as [[[]|err]|msg]; [|by edestruct Hok|done].
  unfold mbind at 1, prog_bind at 1, println at 1, effect, modify.
  unfold mbind at 1, prog_bind at 1.
  match goal with |- context [for_each ?f ?l (?a, ?e0)] =>
    destruct (for_each_println (λ ext, "    signer=" +:+ AccountId32_fmt (signer ext) +:+ " nonce=" +:+
      pretty.pretty (uval (nonce ext))) l a e0) as [e2 Hprint] end.
  rewrite Hprint. intros [= <- _]. split; done.
Qed.

Lemma produce_block_run t n e batch b :
  collect_runs (runtime n) (hash_iter (group_by_signer (candidates_of n))) (drained n, e)
    = (Done batch, (drained n, e)) →
  checked_add (System.block_number (system (runtime n))) one = Some b →
  (apply_block (mkBlock (mkHeader b) batch) (runtime n)).1 = Done (Ok tt) →
  ∃ n' e', produce_block t (n, e) = (Done tt, (n', e')).
Proof.
  intros Hcol Hb Hok. unfold produce_block. unfold mbind at 1, prog_bind at 1, gets. cbn [fst].
  rewrite Mempool.drain_for_block_spec. unfold mbind at 1, prog_bind at 1, update, modify.
  fold (block_limit_of n). fold (candidates_of n). fold (drained n).
  unfold mbind at 1, prog_bind at 1. rewrite Hcol, Hb.
  unfold unwrap, expect. unfold mbind at 1, prog_bind at 1, mret, prog_ret.
  set (block := mkBlock _ _) in *.
  destruct (on_runtime_execute block (drained n) e) as [e1 Hexec]. simpl in Hexec.
  unfold mbind at 1, prog_bind at 1. rewrite Hexec, Hok. cbn [fst snd].
  unfold mbind at 1, prog_bind at 1, println at 1, effect, modify.
  unfold mbind at 1, prog_bind at 1.
  match goal with |- context [for_each ?f ?l (?a, ?e0)] =>
    destruct (for_each_println (λ ext, "    signer=" +:+ AccountId32_fmt (signer ext) +:+ " nonce=" +:+
      pretty.pretty (uval (nonce ext))) l a e0) as [e2 Hprint] end.
  rewrite Hprint. by eexists _, _.
Qed.

Context `{!NodeParamsOk}.

Lemma hash_iter_elem (m : gmap AccountId32 (list types_Extrinsic)) k txs :
  (k, txs) ∈ hash_iter m ↔ m !! k = Some txs.
Proof. rewrite hash_iter_perm. apply elem_of_map_to_list. Qed.

Lemma hash_iter_keys_NoDup (m : gmap AccountId32 (list types_Extrinsic)) : NoDup (hash_iter m).*1.
Proof. rewrite hash_iter_perm. apply NoDup_fst_map_to_list. Qed.

Lemma group_elem n k txs x :
  (k, txs) ∈ hash_iter (group_by_signer (candidates_of n)) → x ∈ txs →
  signer x = k ∧ x ∈ candidates_of n.
Proof.
  intros Hg%hash_iter_elem Hx. rewrite (group_by_signer_Some _ _ _ Hg) in Hx.
  by apply list_elem_of_filter in Hx.
Qed.

Lemma group_length n k txs :
  (k, txs) ∈ hash_iter (group_by_signer (candidates_of n)) → length txs ≤ length (candidates_of n).
Proof.
  intros Hg%hash_iter_elem. rewrite (group_by_signer_Some _ _ _ Hg). apply length_filter.
Qed.

End producing.

(** * What a produced block contains *)

Section batch.
Context `{!NodeParams, !NodeParamsOk} `{!Ed25519}.
Context `{!Codec AccountId, !Codec u32, !Codec u128, !Codec string}.
Context `{!Codec (array 32 * u32 * RuntimeCall)}.
Context `{!Codec types_Extrinsic, !Codec types_Block}.
Context {Store : Type} `{!KeyValueStore Store}.
Implicit Types (n : NodeState) (e : env Store) (rt : Runtime) (x y : types_Extrinsic) (a : AccountId).

(** The extrinsics of one signer, in order. *)
Definition of_signer a (l : list types_Extrinsic) : list types_Extrinsic :=
  base.filter (λ x, signer x = a) l.

Lemma of_signer_app a l l' : of_signer a (l ++ l') = of_signer a l ++ of_signer a l'.
Proof. apply filter_app. Qed.

Lemma elem_of_of_signer a l x : x ∈ of_signer a l ↔ signer x = a ∧ x ∈ l.
Proof. unfold of_signer. by rewrite list_elem_of_filter. Qed.

Lemma of_signer_all a l : (∀ x, x ∈ l → signer x = a) → of_signer a l = l.
Proof.
  induction l as [|x l IH]; intros Hall; [done|]. unfold of_signer. rewrite filter_cons.
  rewrite decide_True by (apply Hall; set_solver). fold (of_signer a l).
  rewrite IH; [done|]. set_solver.
Qed.

Lemma of_signer_none a l : (∀ x, x ∈ l → signer x ≠ a) → of_signer a l = [].
Proof.
  intros Hall. destruct (of_signer a l) as [|x l'] eqn:Hx; [done|].
  destruct (elem_of_of_signer a l x) as [[Hs Hin] _]; [rewrite Hx; set_solver|]. by destruct (Hall x).
Qed.

(** The batch takes from each group a maximal consecutive run. *)
Definition maximal_run rt a (txs run : list types_Extrinsic) : Prop :=
  ∃ rest, sort_by_nonce txs = run ++ rest ∧ consecutive (account_nonce rt a) run ∧
    ∀ x, head rest = Some x → uval (nonce x) ≠ (account_nonce rt a + N.of_nat (length run))%N.

Lemma maximal_run_nil rt a : maximal_run rt a [] [].
Proof. by exists []. Qed.

Lemma collected_maximal rt groups batch a txs :
  collected rt groups batch → NoDup groups.*1 →
  (∀ k l x, (k, l) ∈ groups → x ∈ l → signer x = k) →
  (a, txs) ∈ groups → maximal_run rt a txs (of_signer a batch).
Proof.
  induction 1 as [|k l groups run rest batch Hsplit Hcons Hstop Hcol IH]; intros Hnd Hsig Hin;
    [set_solver|].
  apply NoDup_cons in Hnd as [Hk Hnd]. rewrite of_signer_app.
  assert (Hrun : ∀ x, x ∈ run → signer x = k).
  { intros x Hx. apply (Hsig k l); [by left|]. rewrite <- (sort_by_nonce_perm l), Hsplit. set_solver. }
  assert (Hbatch : ∀ x, x ∈ batch → signer x ∈ groups.*1).
  { intros x Hx. destruct (collected_elem _ _ _ _ Hcol Hx) as (k' & l' & Hg & Hx').
    rewrite (Hsig k' l' x); [|by right|done]. apply list_elem_of_fmap. by exists (k', l'). }
  apply elem_of_cons in Hin as [[= -> ->]|Hin].
  - rewrite of_signer_all by done. rewrite (of_signer_none k batch), app_nil_r.
    + by exists rest.
    + intros x Hx <-. by apply Hk, Hbatch.
  - rewrite of_signer_none; simpl.
    + apply IH; [done| |done]. intros k' l' x Hg. apply Hsig. by right.
    + intros x Hx Ha. apply Hk. rewrite <- (Hrun x Hx), Ha. apply list_elem_of_fmap. by exists (a, txs).
Qed.

Lemma candidates_maximal n batch a :
  collected (runtime n) (hash_iter (group_by_signer (candidates_of n))) batch →
  maximal_run (runtime n) a (of_signer a (candidates_of n)) (of_signer a batch).
Proof.
  intros Hcol. destruct (group_by_signer (candidates_of n) !! a) as [txs|] eqn:Hg.
  - unfold of_signer at 1. rewrite <- (group_by_signer_Some _ _ _ Hg).
    eapply collected_maximal; [exact Hcol|apply hash_iter_keys_NoDup| |by apply hash_iter_elem].
    intros k l x Hin Hx. by apply (group_elem n k l x).
  - unfold of_signer at 1. rewrite (group_by_signer_None _ _ Hg), of_signer_none; [apply maximal_run_nil|].
    intros x Hx <-. destruct (collected_elem _ _ _ _ Hcol Hx) as (k & l & Hin & Hxl).
    destruct (group_elem n k l x Hin Hxl) as [<- _]. apply hash_iter_elem in Hin. by rewrite Hg in Hin.
Qed.

Lemma consecutive_nonce s run x :
  consecutive s run → x ∈ run → (s ≤ uval (nonce x) < s + N.of_nat (length run))%N.
Proof.
  revert s. induction run as [|y run IH]; intros s; [set_solver|]. simpl.
  intros [Hy Hc] [->|Hx]%elem_of_cons; [lia|]. specialize (IH _ Hc Hx). lia.
Qed.

Lemma consecutive_hit s run k :
  consecutive s run → (s ≤ k < s + N.of_nat (length run))%N → ∃ x, x ∈ run ∧ uval (nonce x) = k.
Proof.
  revert s. induction run as [|y run IH]; intros s; simpl; [lia|]. intros [Hy Hc] Hk.
  destruct (decide (k = s)) as [->|]; [exists y; set_solver|].
  destruct (IH _ Hc) as (x & ? & ?); [lia|]. exists x. set_solver.
Qed.

Lemma sorted_app_le l l' x y :
  StronglySorted nonce_le (l ++ l') → x ∈ l → y ∈ l' → (uval (nonce x) ≤ uval (nonce y))%N.
Proof.
  induction l as [|z l IH]; simpl; [set_solver|]. intros Hs Hx Hy.
  apply StronglySorted_inv in Hs as [Hs Hz]. apply elem_of_cons in Hx as [->|Hx]; [|by apply IH].
  rewrite Forall_forall in Hz. apply Hz. set_solver.
Qed.

Lemma sorted_head_le l x y :
  StronglySorted nonce_le l → head l = Some x → y ∈ l → (uval (nonce x) ≤ uval (nonce y))%N.
Proof.
  destruct l as [|z l]; [done|]. intros [_ Hz]%StronglySorted_inv [= ->] [->|Hy]%elem_of_cons; [lia|].
  rewrite Forall_forall in Hz. by apply Hz.
Qed.

Lemma sorted_app_r l l' : StronglySorted nonce_le (l ++ l') → StronglySorted nonce_le l'.
Proof. induction l as [|z l IH]; [done|]. simpl. intros [Hs _]%StronglySorted_inv. auto. Qed.

(** A run of fresh, distinct nonces contains exactly what no gap precedes. *)
Lemma maximal_run_gap_free rt a txs run x :
  maximal_run rt a txs run →
  NoDup ((λ y, uval (nonce y)) <$> txs) →
  (∀ y, y ∈ txs → (account_nonce rt a ≤ uval (nonce y))%N) →
  x ∈ txs →
  x ∈ run ↔ ∀ k, (account_nonce rt a ≤ k ≤ uval (nonce x))%N → ∃ y, y ∈ txs ∧ uval (nonce y) = k.
Proof.
  intros (rest & Hsplit & Hcons & Hstop) Hnd Hfresh Hx.
  pose proof (sort_by_nonce_sorted txs) as Hsorted. rewrite Hsplit in Hsorted.
  assert (Hin : ∀ y, y ∈ txs ↔ y ∈ run ∨ y ∈ rest).
  { intros y. by rewrite <- (sort_by_nonce_perm txs), Hsplit, elem_of_app. }
  rewrite <- (sort_by_nonce_perm txs), Hsplit, fmap_app, NoDup_app in Hnd.
  destruct Hnd as (_ & Hdisj & _). split.
  - intros Hrun k Hk. pose proof (consecutive_nonce _ _ _ Hcons Hrun).
    destruct (consecutive_hit _ _ k Hcons) as (y & ? & ?); [lia|]. exists y. by rewrite Hin; auto.
  - intros Hgap. apply Hin in Hx as [Hx|Hx]; [done|]. exfalso.
    destruct (head rest) as [y|] eqn:Hy; [|by destruct rest; [set_solver|]].
    assert (Hyrest : y ∈ rest) by (destruct rest; simplify_eq/=; set_solver).
    specialize (Hstop y eq_refl). pose proof (sorted_app_r _ _ Hsorted) as Hsr.
    pose proof (sorted_head_le _ _ _ Hsr Hy Hx) as Hyx.
    assert (Hfy : (account_nonce rt a ≤ uval (nonce y))%N) by (apply Hfresh, Hin; auto).
    assert (Hlow : ¬ (uval (nonce y) < account_nonce rt a + N.of_nat (length run))%N).
    { intros Hlt. destruct (consecutive_hit _ _ (uval (nonce y)) Hcons) as (z & Hz & Hzy); [lia|].
      apply (Hdisj (uval (nonce y))); apply list_elem_of_fmap; [by exists z | by exists y]. }
    destruct (Hgap (account_nonce rt a + N.of_nat (length run))%N) as (z & Hz & Hzk); [lia|].
    apply Hin in Hz as [Hz|Hz].
    + pose proof (consecutive_nonce _ _ _ Hcons Hz). lia.
    + pose proof (sorted_head_le _ _ _ Hsr Hy Hz). lia.
Qed.

(** A stale nonce sorts first and ends the run before it starts. *)
Lemma maximal_run_stale rt a txs run x :
  maximal_run rt a txs run → x ∈ txs → (uval (nonce x) < account_nonce rt a)%N → run = [].
Proof.
  intros (rest & Hsplit & Hcons & _) Hx Hstale. destruct run as [|y run]; [done|]. exfalso.
  pose proof (sort_by_nonce_sorted txs) as Hsorted. rewrite Hsplit in Hsorted.
  assert (Hxs : x ∈ (y :: run) ++ rest) by (by rewrite <- Hsplit, sort_by_nonce_perm).
  pose proof (sorted_head_le _ y _ Hsorted eq_refl Hxs). simpl in Hcons. lia.
Qed.

(** The numbers of a production have room: the height and every nonce stay within
    [u32]. *)
Definition production_ready n : Prop :=
  (height (runtime n) < umax 32)%N ∧
  (∀ a, account_nonce (runtime n) a + N.of_nat (length (candidates_of n)) ≤ umax 32)%N.

Lemma batch_signed n batch a :
  collected (runtime n) (hash_iter (group_by_signer (candidates_of n))) batch →
  signed_by a batch ≤ length (candidates_of n).
Proof.
  intros Hcol. destruct (candidates_maximal n batch a Hcol) as (rest & Hsplit & _).
  unfold signed_by. fold (of_signer a batch). apply (f_equal length) in Hsplit.
  rewrite length_app, (Permutation_length (sort_by_nonce_perm _)) in Hsplit.
  pose proof (length_filter (λ x, signer x = a) (candidates_of n)) as Hl.
  fold (of_signer a (candidates_of n)) in Hl. lia.
Qed.

(** The batch is computed, and applied without a panic. *)
Lemma batch_total n e :
  production_ready n →
  ∃ batch b, collect_runs (runtime n) (hash_iter (group_by_signer (candidates_of n))) (drained n, e)
      = (Done batch, (drained n, e)) ∧
    collected (runtime n) (hash_iter (group_by_signer (candidates_of n))) batch ∧
    checked_add (System.block_number (system (runtime n))) one = Some b ∧
    uval b = (height (runtime n) + 1)%N ∧
    (apply_block (mkBlock (mkHeader b) batch) (runtime n)).1 = Done (Ok tt).
Proof.
  intros [Hh Hroom]. destruct (collect_runs_spec (runtime n)
    (hash_iter (group_by_signer (candidates_of n))) (drained n, e)) as (batch & Hrun & Hcol).
  { intros k txs Hg. specialize (Hroom k). apply group_length in Hg. lia. }
  destruct (checked_add (System.block_number (system (runtime n))) one) as [b|] eqn:Hb.
  2: { apply checked_add_None in Hb. rewrite num_val_one in Hb. unfold height in Hh. simpl in *. lia. }
  exists batch, b. split; [done|]. split; [done|]. split; [done|].
  pose proof Hb as Hbv. apply checked_add_Some in Hbv. rewrite num_val_one in Hbv. split; [exact Hbv|].
  rewrite (apply_next_block b batch _ Hb). set (rt1 := set_system _ _).
  assert (Hdone : (for_each apply_extrinsic batch rt1).1 = Done tt).
  { apply for_each_total. intros a. pose proof (batch_signed n batch a Hcol). specialize (Hroom a).
    change (account_nonce rt1 a) with (account_nonce (runtime n) a). lia. }
  unfold mbind, prog_bind. destruct (for_each _ _ rt1) as [r rt2]. simpl in Hdone. by rewrite Hdone.
Qed.

(** With good signatures every extrinsic of the batch is executed. *)
Lemma batch_executed n batch b :
  production_ready n →
  collected (runtime n) (hash_iter (group_by_signer (candidates_of n))) batch →
  checked_add (System.block_number (system (runtime n))) one = Some b →
  (∀ x, x ∈ candidates_of n → verify x = Ok tt) →
  ∀ a, account_nonce (apply_block (mkBlock (mkHeader b) batch) (runtime n)).2 a =
    (account_nonce (runtime n) a + N.of_nat (signed_by a batch))%N.
Proof.
  intros [_ Hroom] Hcol Hb Hver a. set (groups := hash_iter (group_by_signer (candidates_of n))) in *.
  rewrite (apply_next_block b batch _ Hb). set (rt1 := set_system _ _).
  destruct (batch_applied (runtime n) groups batch rt1 Hcol) as (rt' & Hrt' & Hn').
  - apply hash_iter_keys_NoDup.
  - intros k txs x Hg Hx. destruct (group_elem n k txs x Hg Hx) as [? ?]. auto.
  - intros k txs Hg. specialize (Hroom k). apply group_length in Hg. lia.
  - done.
  - unfold mbind, prog_bind. rewrite Hrt'. exact (Hn' a).
Qed.

(** C9: while the height and the nonces have room in [u32], block production succeeds,
    whatever the candidates are signed with: it publishes exactly one block, with the
    next height in its header and extrinsics from the candidates only; the runtime is
    the one that executing the block gives, one block higher; and the candidates, the
    first [block_limit] pending extrinsics, have left the pool.  If the candidates'
    signatures are good, the block is executed in full: every extrinsic in it consumes
    one nonce of its signer. *)
Theorem production_succeeds t n e :
  production_ready n →
  ∃ block n' e', produce_block t (n, e) = (Done tt, (n', e')) ∧
    uval (block_number (header block)) = (height (runtime n) + 1)%N ∧
    (∀ x, x ∈ extrinsics block → x ∈ candidates_of n) ∧
    chan_pub n' = chan_pub n ++ [mkPublishReq t (encode block)] ∧
    apply_block block (runtime n) = (Done (Ok tt), runtime n') ∧
    Mempool.pending (mempool n') = drop (block_limit_of n) (Mempool.pending (mempool n)) ∧
    height (runtime n') = (height (runtime n) + 1)%N ∧
    ((∀ x, x ∈ candidates_of n → verify x = Ok tt) →
     ∀ a, account_nonce (runtime n') a =
       (account_nonce (runtime n) a + N.of_nat (signed_by a (extrinsics block)))%N).
Proof.
  intros Hready. destruct (batch_total n e Hready) as (batch & b & Hrun & Hcol & Hb & Hbv & Hok).
  destruct (produce_block_run t n e batch b Hrun Hb Hok) as (n' & e' & Hprod).
  destruct (produce_block_inv t n e n' e' Hprod) as (batch' & b' & Hrun' & Hb' & _ & ->).
  rewrite Hrun in Hrun'. rewrite Hb in Hb'. simplify_eq.
  eexists (mkBlock (mkHeader b') batch'), _, _. split; [exact Hprod|]. split; [done|].
  split; [|split; [done|split; [|split; [done|split]]]].
  - intros x Hx. destruct (collected_elem _ _ _ _ Hcol Hx) as (k & l & Hg & Hxl).
    by destruct (group_elem n k l x Hg Hxl).
  - simpl. rewrite <- Hok. by destruct (apply_block _ _).
  - simpl. apply (apply_block_ok_height (mkBlock (mkHeader b') batch')). rewrite <- Hok.
    by destruct (apply_block _ _).
  - intros Hver a. simpl. by apply batch_executed.
Qed.

Lemma produces_batch t n e n' e' :
  produce_block t (n, e) = (Done tt, (n', e')) →
  (∀ a, account_nonce (runtime n) a + N.of_nat (length (candidates_of n)) ≤ umax 32)%N →
  ∃ b batch,
    n' = set_chan_pub (chan_pub n ++ [mkPublishReq t (encode (mkBlock (mkHeader b) batch))])
      (set_runtime (apply_block (mkBlock (mkHeader b) batch) (runtime n)).2 (drained n)) ∧
    ∀ a, maximal_run (runtime n) a (of_signer a (candidates_of n)) (of_signer a batch).
Proof.
  intros Hprod Hroom. destruct (produce_block_inv t n e n' e' Hprod) as (batch & b & Hrun & _ & _ & ->).
  exists b, batch. split; [done|]. intros a. apply candidates_maximal.
  destruct (collect_runs_spec (runtime n) (hash_iter (group_by_signer (candidates_of n))) (drained n, e))
    as (batch' & Hrun' & Hcol).
  { intros k txs Hg. specialize (Hroom k). apply group_length in Hg. lia. }
  rewrite Hrun in Hrun'. by simplify_eq.
Qed.

(** C10: which of an account's candidates get into the block: sorted by nonce (in the order
    of the pool where nonces are equal), the longest prefix whose nonces are consecutive
    from the account's.  So if the account's candidates are all fresh (no nonce below the
    account's) and have different nonces, a candidate is included exactly when there is no
    gap between the account's nonce and its own. *)
Theorem included_iff_gap_free t n e n' e' a :
  produce_block t (n, e) = (Done tt, (n', e')) →
  (∀ k, account_nonce (runtime n) k + N.of_nat (length (candidates_of n)) ≤ umax 32)%N →
  ∃ block, chan_pub n' = chan_pub n ++ [mkPublishReq t (encode block)] ∧
    maximal_run (runtime n) a (of_signer a (candidates_of n)) (of_signer a (extrinsics block)) ∧
    (NoDup ((λ y, uval (nonce y)) <$> of_signer a (candidates_of n)) →
     (∀ y, y ∈ of_signer a (candidates_of n) → (account_nonce (runtime n) a ≤ uval (nonce y))%N) →
     ∀ x, x ∈ of_signer a (candidates_of n) →
      x ∈ extrinsics block ↔
      ∀ k, (account_nonce (runtime n) a ≤ k ≤ uval (nonce x))%N →
        ∃ y, y ∈ of_signer a (candidates_of n) ∧ uval (nonce y) = k).
Proof.
  intros Hprod Hroom.
  destruct (produces_batch t n e n' e' Hprod Hroom) as (b & batch & -> & Hmax).
  exists (mkBlock (mkHeader b) batch). split; [done|]. split; [apply Hmax|]. intros Hnd Hfresh x Hx.
  rewrite <- (maximal_run_gap_free _ _ _ _ x (Hmax a) Hnd Hfresh Hx).
  rewrite elem_of_of_signer. simpl. apply elem_of_of_signer in Hx as [? ?]. naive_solver.
Qed.

(** C36: a stale nonce drops an account's fresh extrinsics too: when one of the
    account's candidates has a nonce below the account's, none of its candidates is
    in the block, and all of them have left the pool. *)
Theorem stale_nonce_drops_fresh t n e n' e' x :
  produce_block t (n, e) = (Done tt, (n', e')) →
  (∀ k, account_nonce (runtime n) k + N.of_nat (length (candidates_of n)) ≤ umax 32)%N →
  x ∈ candidates_of n → (uval (nonce x) < account_nonce (runtime n) (signer x))%N →
  Mempool.pending (mempool n') = drop (block_limit_of n) (Mempool.pending (mempool n)) ∧
  ∃ block, chan_pub n' = chan_pub n ++ [mkPublishReq t (encode block)] ∧
    ∀ y, y ∈ extrinsics block → signer y ≠ signer x.
Proof.
  intros Hprod Hroom Hx Hstale.
  destruct (produces_batch t n e n' e' Hprod Hroom) as (b & batch & -> & Hmax).
  split; [done|]. exists (mkBlock (mkHeader b) batch). split; [done|]. intros y Hy Hsig. simpl in Hy.
  assert (Hnil : of_signer (signer x) batch = []).
  { eapply maximal_run_stale; [apply Hmax| |exact Hstale]. by apply elem_of_of_signer. }
  assert (Hin : y ∈ of_signer (signer x) batch) by (by apply elem_of_of_signer).
  rewrite Hnil in Hin. set_solver.
Qed.
End batch.

(** * Peer blocks *)

Section peers.
Context `{!NodeParams} `{!Ed25519}.
Context `{!Codec AccountId, !Codec u32, !Codec u128, !Codec string}.
Context `{!Codec (array 32 * u32 * RuntimeCall)}.
Context `{!Codec types_Extrinsic, !Codec types_Block}.
Context {Store : Type} `{!KeyValueStore Store}.
Implicit Types (n p : NodeState) (e ep : env Store) (block : types_Block) (ext : types_Extrinsic).

(** The extrinsic names a (signer, nonce) pair that the block has used. *)
Definition includes block ext : Prop :=
  (signer ext, nonce ext) ∈ ((λ x, (signer x, nonce x)) <$> extrinsics block).

#[export] Instance includes_dec block ext : Decision (includes block ext).
Proof. unfold includes. apply _. Defined.

Lemma existsb_included block ext :
  existsb (λ sn, bool_decide (sn = (signer ext, nonce ext))) ((λ x, (signer x, nonce x)) <$> extrinsics block)
    = bool_decide (includes block ext).
Proof.
  apply eq_true_iff_eq. rewrite existsb_exists, bool_decide_eq_true. unfold includes. split.
  - intros (sn & Hin%list_elem_of_In & ->%bool_decide_eq_true). done.
  - intros Hin. exists (signer ext, nonce ext).
    split; [by apply list_elem_of_In | by apply bool_decide_eq_true].
Qed.

Lemma retain_not_included block (mp : Mempool.Mempool types_Extrinsic) :
  Mempool.pending (Mempool.retain
    (λ ext, negb (existsb (λ sn, bool_decide (sn = (signer ext, nonce ext)))
      ((λ x, (signer x, nonce x)) <$> extrinsics block))) mp) =
  base.filter (λ ext, ¬ includes block ext) (Mempool.pending mp).
Proof.
  unfold Mempool.retain. simpl. apply list_filter_iff. intros ext. rewrite existsb_included.
  destruct (decide (includes block ext)) as [Hi|Hi].
  - rewrite bool_decide_true by done. naive_solver.
  - rewrite bool_decide_false by done. naive_solver.
Qed.

(** What handling a peer block does, in one equation. *)
Lemma on_recv_blk_run block rest n e :
  chan_blk n = block :: rest →
  ∃ e', on_recv_blk (n, e) =
    match (apply_block block (runtime n)).1 with
    | Panicked msg => (Panicked msg,
        (set_runtime (apply_block block (runtime n)).2 (set_chan_blk rest n), e'))
    | Done r => (Done tt,
        (set_mempool (Mempool.set_pending
            (match r with
             | Ok _ => base.filter (λ ext, ¬ includes block ext) (Mempool.pending (mempool n))
             | Err _ => Mempool.pending (mempool n)
             end) (mempool n))
          (set_runtime (apply_block block (runtime n)).2 (set_chan_blk rest n)), e'))
    end.
Proof.
  intros Hc. unfold on_recv_blk. unfold mbind at 1, prog_bind at 1, gets. cbn [fst]. rewrite Hc.
  unfold mbind at 1, prog_bind at 1, update at 1, modify. unfold mbind at 1, prog_bind at 1.
  destruct (on_runtime_execute block (set_chan_blk rest n) e) as [e1 ->]. cbn [runtime set_chan_blk].
  destruct (apply_block block (runtime n)) as [[[[]|err]|msg] rt']; cbn [fst snd].
  - unfold mbind, prog_bind, println, effect, modify, update. simpl.
    rewrite <- retain_not_included. unfold Mempool.retain. by eexists.
  - exists (env_print (Eprintln ("[node] peer block rejected: " +:+ err)) e1).
    by destruct n as [? [] ? ? ? ? ?].
  - by eexists.
Qed.

(** C21: handling a peer block: when it is applied, the pool keeps, in their order,
    exactly the extrinsics whose (signer, nonce) the block did not use; when it is
    rejected, the pool is untouched; the runtime is the one the block gives. *)
Theorem peer_block_handled block rest n e n' e' :
  chan_blk n = block :: rest →
  on_recv_blk (n, e) = (Done tt, (n', e')) →
  chan_blk n' = rest ∧
  runtime n' = (apply_block block (runtime n)).2 ∧
  match (apply_block block (runtime n)).1 with
  | Done (Ok _) =>
      Mempool.pending (mempool n') =
        base.filter (λ ext, ¬ includes block ext) (Mempool.pending (mempool n))
  | _ => Mempool.pending (mempool n') = Mempool.pending (mempool n)
  end.
Proof.
  intros Hc Hrun. destruct (on_recv_blk_run block rest n e Hc) as [e1 Heq]. rewrite Heq in Hrun.
  destruct (apply_block block (runtime n)) as [[[[]|err]|msg] rt']; simplify_eq/=; done.
Qed.

Context `{!NodeParamsOk, !CodecOk types_Extrinsic, !CodecOk types_Block}.

Lemma topics_differ : topic_hash block_topic ≠ topic_hash extrinsic_topic.
Proof. by intros Heq%topic_hash_inj. Qed.

Lemma on_message_block block p e :
  on_message (topic_hash block_topic) (encode block) (p, e) =
    (Done tt, (set_chan_blk (chan_blk p ++ [block]) p, e)).
Proof.
  unfold on_message. rewrite decide_False by apply topics_differ. rewrite decide_True by done.
  by rewrite decode_slice_encode.
Qed.

Lemma on_message_ext ext p e :
  on_message (topic_hash extrinsic_topic) (encode ext) (p, e) =
    (Done tt, (set_chan_ext (chan_ext p ++ [ext]) p, e)).
Proof. unfold on_message. rewrite decide_True by done. by rewrite decode_slice_encode. Qed.

(** C5: peers follow: whatever block a node produces, a peer whose runtime is the
    one the author started from, and which handles the published bytes, ends with
    the author's runtime, without panicking. *)
Theorem peer_converges n e n' e' p ep :
  produce_block (topic_hash block_topic) (n, e) = (Done tt, (n', e')) →
  runtime p = runtime n → chan_blk p = [] →
  ∃ req, chan_pub n' = chan_pub n ++ [req] ∧
    ∃ p' ep', (on_message (topic req) (data req);; on_recv_blk) (p, ep) = (Done tt, (p', ep')) ∧
      runtime p' = runtime n'.
Proof.
  intros Hprod Hrt Hc.
  destruct (produce_block_inv _ n e n' e' Hprod) as (batch & b & _ & _ & Hok & ->).
  set (block := mkBlock (mkHeader b) batch) in *. eexists. split; [done|]. cbn [topic data].
  unfold mbind, prog_bind. rewrite on_message_block, Hc. cbn [app].
  destruct (on_recv_blk_run block [] (set_chan_blk [block] p) ep) as [e1 Heq]; [done|].
  rewrite Heq. cbn [runtime set_chan_blk]. rewrite Hrt, Hok. by eexists _, _.
Qed.

Lemma on_recv_ext_run ext rest n e :
  chan_ext n = ext :: rest → Mempool.max_capacity (mempool n) = None →
  on_recv_ext (n, e) = (Done tt,
    (set_mempool (Mempool.set_pending (Mempool.pending (mempool n) ++ [ext]) (mempool n))
      (set_chan_ext rest n), e)).
Proof.
  intros Hc Hcap. unfold on_recv_ext, mbind, prog_bind, gets, update, modify. cbn [fst].
  rewrite Hc. unfold Mempool.submit. simpl. by rewrite Hcap.
Qed.

(** A submission reaches every pool: the bytes of an extrinsic posted to one node
    are accepted, are gossiped as they are, and the extrinsic joins the end of the
    submitting node's pool and of the pool of every peer that handles the message. *)
Theorem submission_reaches_pools ext n e p ep :
  chan_ext n = [] → chan_ext p = [] → chan_pub n = [] →
  Mempool.max_capacity (mempool n) = None → Mempool.max_capacity (mempool p) = None →
  ∃ n1 req, submit_handler (encode ext) (n, e) = (Done (Ok ACCEPTED), (n1, e)) ∧
    chan_pub n1 = [req] ∧
    (∃ n2, on_recv_ext (n1, e) = (Done tt, (n2, e)) ∧
      Mempool.pending (mempool n2) = Mempool.pending (mempool n) ++ [ext]) ∧
    (∃ p2, (on_message (topic req) (data req);; on_recv_ext) (p, ep) = (Done tt, (p2, ep)) ∧
      Mempool.pending (mempool p2) = Mempool.pending (mempool p) ++ [ext]).
Proof.
  intros Hn Hp Hpub Hcn Hcp. unfold submit_handler. rewrite decode_slice_encode.
  unfold send_pub, send_ext, update, modify, mbind, prog_bind. cbn -[encode on_message on_recv_ext].
  eexists _, _. split; [done|]. rewrite Hpub, Hn. split; [done|]. cbn [topic data].
  rewrite on_message_ext, Hp. cbn [app].
  unfold mbind, prog_bind. split.
  - eexists. rewrite (on_recv_ext_run ext []) by done. by split.
  - eexists. rewrite (on_recv_ext_run ext []) by done. by split.
Qed.
End peers.

(** * The next nonce *)

Section next_nonce.
Context `{!NodeParams} `{!Ed25519}.
Context `{!Codec AccountId, !Codec u32, !Codec u128, !Codec string}.
Context `{!Codec (array 32 * u32 * RuntimeCall)}.
Context `{!Codec types_Extrinsic, !Codec types_Block}.
Context {Store : Type} `{!KeyValueStore Store}.
Implicit Types (n : NodeState) (e : env Store) (ext : types_Extrinsic) (a : AccountId).

Lemma consecutive_app s run ext :
  consecutive s (run ++ [ext]) ↔
    consecutive s run ∧ uval (nonce ext) = (s + N.of_nat (length run))%N.
Proof.
  revert s. induction run as [|x run IH]; intros s; simpl.
  - split; [intros [-> _]|intros [_ ->]]; split; lia.
  - rewrite IH. split; [intros (-> & ? & ->)|intros ((-> & ?) & ->)]; repeat split; try done; lia.
Qed.

(** The account's pending extrinsics. *)
Definition pending_of a n : list types_Extrinsic :=
  base.filter (λ x, signer x = a) (Mempool.pending (mempool n)).

(** The answer is the nonce at the first read plus the pending extrinsics at the
    second. *)
Lemma nonce_handler_run between hex bs arr n e n' e' :
  hex_decode hex = Ok bs → array_of_list (n := 32) bs = Some arr →
  between (n, e) = (Done tt, (n', e')) →
  let a := mkAccountId32 arr in
  (account_nonce (runtime n) a + N.of_nat (length (pending_of a n')) ≤ umax 32)%N →
  ∃ total : u32, nonce_handler between hex (n, e) = (Done (Ok (pretty.pretty (uval total))), (n', e')) ∧
    uval total = (account_nonce (runtime n) a + N.of_nat (length (pending_of a n')))%N.
Proof.
  intros Hhex Harr Hbetween a Hroom. unfold nonce_handler. rewrite Hhex, Harr.
  assert (Hlen : uval (uwrap (w := 32) (N.of_nat (length (pending_of a n')))) =
    N.of_nat (length (pending_of a n'))).
  { apply uval_uwrap_small. unfold umax in Hroom. lia. }
  unfold mbind at 1, prog_bind at 1, gets at 1. cbn [fst].
  unfold mbind at 1, prog_bind at 1. rewrite Hbetween.
  unfold mbind at 1, prog_bind at 1, gets. cbn [fst]. fold a. unfold Mempool.pending_extrinsics.
  fold (pending_of a n'). unfold u32_add.
  destruct (checked_add _ _) as [total|] eqn:Htotal.
  2: { apply checked_add_None in Htotal. simpl in Htotal. rewrite Hlen in Htotal.
       unfold account_nonce in Hroom. lia. }
  apply checked_add_Some in Htotal. simpl in Htotal. rewrite Hlen in Htotal.
  by exists total.
Qed.

(** The nonce endpoint: for 32 bytes of hex, and when nothing happens between its
    two reads, it answers without changing the node; an extrinsic with that nonce,
    once received, extends the account's consecutive run of pending nonces. *)
Theorem nonce_reply_extends_run hex bs arr n e :
  hex_decode hex = Ok bs → array_of_list (n := 32) bs = Some arr →
  let a := mkAccountId32 arr in
  (account_nonce (runtime n) a + N.of_nat (length (pending_of a n)) ≤ umax 32)%N →
  consecutive (account_nonce (runtime n) a) (pending_of a n) →
  Mempool.max_capacity (mempool n) = None →
  ∃ total : u32, nonce_handler (mret tt) hex (n, e) = (Done (Ok (pretty.pretty (uval total))), (n, e)) ∧
    ∀ ext n' e', signer ext = a → nonce ext = total → chan_ext n = [ext] →
      on_recv_ext (n, e) = (Done tt, (n', e')) →
      consecutive (account_nonce (runtime n') a) (pending_of a n').
Proof.
  intros Hhex Harr a Hroom Hcons Hcap.
  destruct (nonce_handler_run (mret tt) hex bs arr n e n e Hhex Harr (run_ret tt (n, e)) Hroom)
    as (total & Hrun & Htotal).
  exists total. split; [done|]. intros ext n' e' Hsig Hnonce Hc Hrecv.
  rewrite (on_recv_ext_run ext [] n e Hc Hcap) in Hrecv.
  simplify_eq. unfold pending_of. simpl.
  rewrite filter_app, filter_cons, Hsig, decide_True, filter_nil by done.
  apply consecutive_app. split; [done|]. by rewrite Htotal.
Qed.

(** C39: the nonce endpoint can answer a used nonce: it reads the runtime and the pool
    one after the other, and when a peer block with all of the account's pending
    extrinsics is applied in between, the answer is the account's nonce of before
    the block, which the block has consumed. *)
Theorem nonce_reply_may_be_used hex bs arr block rest n e :
  hex_decode hex = Ok bs → array_of_list (n := 32) bs = Some arr →
  let a := mkAccountId32 arr in
  chan_blk n = block :: rest →
  (apply_block block (runtime n)).1 = Done (Ok tt) →
  (∀ x, x ∈ pending_of a n → includes block x) →
  (account_nonce (runtime n) a < account_nonce (apply_block block (runtime n)).2 a)%N →
  ∃ (total : u32) n' e',
    nonce_handler on_recv_blk hex (n, e) = (Done (Ok (pretty.pretty (uval total))), (n', e')) ∧
    (uval total < account_nonce (runtime n') a)%N.
Proof.
  intros Hhex Harr a Hc Hok Hincl Hlt.
  destruct (on_recv_blk_run block rest n e Hc) as [e' Hrun]. rewrite Hok in Hrun.
  match type of Hrun with _ = (_, (?m, _)) => set (n' := m) in Hrun end.
  assert (Hnil : pending_of a n' = []).
  { unfold pending_of, n'. simpl.
    destruct (base.filter _ (base.filter _ _)) as [|x l] eqn:Hx; [done|]. exfalso.
    assert (Hin : x ∈ x :: l) by by left. rewrite <- Hx in Hin.
    apply list_elem_of_filter in Hin as [Hsig [Hni Hin]%list_elem_of_filter].
    apply Hni, Hincl, list_elem_of_filter. by split. }
  assert (Hroom : (account_nonce (runtime n) a + N.of_nat (length (pending_of a n')) ≤ umax 32)%N).
  { rewrite Hnil, N.add_0_r. apply uval_le_max. }
  destruct (nonce_handler_run on_recv_blk hex bs arr n e n' e' Hhex Harr Hrun Hroom)
    as (total & Hreply & Htotal).
  exists total, n', e'. split; [exact Hreply|]. rewrite Htotal. fold a. rewrite Hnil, N.add_0_r. exact Hlt.
Qed.
End next_nonce.
