(* ===== verification/NodeLife.v ===== *)
(** The life of a node: what holds after any sequence of events — restarts, heights
    and nonces, and what an account's signature protects end to end — and what a
    tick does. *)

From S2P Require Export Production Restart.
From S2P Require Mempool System.

Section node_life.
Context `{!NodeParams} `{!Ed25519}.
Context `{!Codec AccountId, !Codec u32, !Codec u128, !Codec string}.
Context `{!Codec (array 32 * u32 * RuntimeCall)}.
Context `{!Codec types_Extrinsic, !Codec types_Block}.
Context {Store : Type} `{!KeyValueStore Store}.
Implicit Types (n : NodeState) (e : env Store) (s : NodeState * env Store).
Implicit Types (me : PeerId) (ev : node_event) (a : AccountId).

(** A run step by step. *)
Lemma run_events_ensures (R : relation (NodeState * env Store)) `{!PreOrder R} (P : node_event → Prop) me evs s :
  (∀ ev, P ev → ensures R (node_handle me ev)) → Forall P evs → R s (run_events me evs s).
Proof.
  intros HR Hevs. unfold run_events. revert s.
  induction Hevs as [|ev evs Hev _ IH]; intros s; simpl; [done|].
  etrans; [by apply (HR ev Hev) | apply IH].
Qed.

(** What the handlers do to the runtime and the store is what [execute_block] does:
    a relation that blocks respect, and that does not see the rest of the node or
    the output, is respected by every handler. *)
Section runtime_relation.
Context (R : relation (Runtime * env Store)) `{!PreOrder R}.
Hypothesis R_block : ∀ block, ensures R (execute_block block).
Hypothesis R_print : ∀ out rt e, R (rt, e) (rt, env_print out e).

Definition lifted : relation (NodeState * env Store) :=
  λ s s', R (runtime s.1, s.2) (runtime s'.1, s'.2).

#[local] Instance lifted_preorder : PreOrder lifted.
Proof. split; unfold lifted; [intros s; done | intros s1 s2 s3; apply transitivity]. Qed.

Lemma lifted_update f : (∀ n, runtime (f n) = runtime n) → ensures lifted (update (Store := Store) f).
Proof. intros Hf [n e]. unfold lifted. simpl. by rewrite Hf. Qed.

Lemma lifted_print out : ensures lifted (effect (env_print out)).
Proof. intros [n e]. apply R_print. Qed.

Lemma lifted_block block : ensures lifted (on_runtime (execute_block block)).
Proof. apply (ensures_zoom _ R); [|apply R_block]. by intros [n e] [rt e']. Qed.

Ltac lifted_steps := ensures_steps ltac:(first
  [ by apply lifted_update | apply lifted_print | apply lifted_block
  | by (eapply ensures_mono; [|apply (u32_add_fixes (λ s, s))]; intros ? ? ->)
  | by (eapply ensures_mono; [|apply (collect_runs_fixes (λ s, s))]; intros ? ? ->) ]).

Lemma node_handle_lifted me ev : ensures lifted (node_handle me ev).
Proof.
  destruct ev; simpl;
    unfold submit_handler, nonce_handler, on_recv_ext, on_recv_blk, on_tick, is_my_slot,
      on_message, on_recv_pub, on_connection, on_connection_established, on_connection_closed,
      produce_block,
      send_ext, send_blk, send_pub, println, eprintln;
    lifted_steps.
Qed.

Lemma run_events_lifted me evs s : lifted s (run_events me evs s).
Proof.
  apply (run_events_ensures lifted (λ _, True)); [|by apply Forall_true].
  intros ev _. apply node_handle_lifted.
Qed.
End runtime_relation.

(** The chain of a node only moves forward: whatever events it handles, its
    height and the nonce of every account never decrease. *)
Theorem chain_moves_forward me evs s a :
  (height (runtime s.1) ≤ height (runtime (run_events me evs s).1))%N ∧
  (account_nonce (runtime s.1) a ≤ account_nonce (runtime (run_events me evs s).1) a)%N.
Proof.
  split.
  - apply (run_events_lifted (grows (λ x, height x.1))); [|intros; unfold grows; simpl; lia].
    intros block. apply (execute_block_ensures (grows height)), apply_block_height_grows.
  - apply (run_events_lifted (grows (λ x, account_nonce x.1 a))); [|intros; unfold grows; simpl; lia].
    intros block. apply (execute_block_ensures (grows (λ rt, account_nonce rt a))), apply_block_nonce_grows.
Qed.

(** * Ticks *)

Lemma on_connection_run c n e : ∃ ps e', on_connection c (n, e) = (Done tt, (set_peers ps n, e')).
Proof.
  destruct c as [p|p].
  - destruct (connected_run p n e) as [e' ?]. by eexists _, e'.
  - destruct (disconnected_run p n e) as [e' ?]. by eexists _, e'.
Qed.

Lemma on_connections_run between n e :
  ∃ ps e', for_each on_connection between (n, e) = (Done tt, (set_peers ps n, e')).
Proof.
  revert n e. induction between as [|c between IH]; intros n e; simpl.
  { exists (shared_peers n), e. by destruct n. }
  destruct (on_connection_run c n e) as (ps1 & e1 & Hc). unfold mbind, prog_bind. rewrite Hc.
  destruct (IH (set_peers ps1 n) e1) as (ps & e' & ->). by exists ps, e'.
Qed.

(** C24: what a tick does: alone, nothing; with peers, it reads the list again, after
    whatever connections came and went in between, and produces a block exactly when
    the node is the author of the slot in that second list. *)
Theorem tick_spec `{!NodeParamsOk} me between now n e :
  Disconnected me ∉ between → peers_ok me (shared_peers n) →
  ∃ n' e', for_each on_connection between (n, e) = (Done tt, (n', e')) ∧
    runtime n' = runtime n ∧ mempool n' = mempool n ∧
    on_tick me between now (n, e) =
      if decide (1 < length (shared_peers n)) then
        if decide (author (shared_peers n') (current_slot now) = Some me)
        then produce_block (topic_hash block_topic) (n', e')
        else (Done tt, (n', e'))
      else (Done tt, (n, e)).
Proof.
  intros Hbetween Hok. destruct (on_connections_run between n e) as (ps & e' & Hrun).
  exists (set_peers ps n), e'. split; [done|]. split; [done|]. split; [done|].
  assert (Hps : ps ≠ []).
  { assert (Hk : ensures (keeps (λ s : NodeState * env Store, peers_ok me (shared_peers s.1))) (for_each (on_connection (Store := Store)) between)).
    { apply ensures_for_each; [apply _|]. intros c Hc. apply on_connection_peers_ok. by intros ->. }
    specialize (Hk (n, e) Hok). rewrite Hrun in Hk. destruct Hk as [_ Hme]. simpl in Hme.
    intros ->. by apply not_elem_of_nil in Hme. }
  unfold on_tick. unfold mbind at 1, prog_bind at 1, gets at 1. cbn [fst].
  destruct (decide (1 < length (shared_peers n))) as [Hl|Hl].
  2: { by rewrite bool_decide_false. }
  rewrite bool_decide_true by done. unfold mbind at 1, prog_bind at 1. rewrite Hrun.
  unfold mbind at 1, prog_bind at 1, gets at 1. cbn [fst].
  unfold mbind at 1, prog_bind at 1. rewrite is_my_slot_run by done.
  destruct (decide (author (shared_peers (set_peers ps n)) (current_slot now) = Some me)) as [Ha|Ha].
  - by rewrite bool_decide_true.
  - by rewrite bool_decide_false.
Qed.

(** C38: a lone node can produce a block: when its only peer disconnects between the
    two reads of a tick, the node is alone in the second list, hence its author, and
    produces, whatever the slot. *)
Theorem lone_node_may_produce me p now n e :
  me ≠ p → shared_peers n ≡ₚ [me; p] →
  ∃ n' e', shared_peers n' = [me] ∧ runtime n' = runtime n ∧ mempool n' = mempool n ∧
    on_tick me [Disconnected p] now (n, e) = produce_block (topic_hash block_topic) (n', e').
Proof.
  intros Hne Hperm.
  assert (Hfilter : base.filter (λ id, id ≠ p) (shared_peers n) = [me]).
  { apply Permutation_singleton_r. rewrite Hperm, filter_cons, decide_True by done.
    by rewrite filter_cons, decide_False, filter_nil by naive_solver. }
  destruct (disconnected_run p n e) as [e' Hd]. rewrite Hfilter in Hd.
  exists (set_peers [me] n), e'. split; [done|]. split; [done|]. split; [done|].
  assert (Hl : length (shared_peers n) = 2) by by rewrite Hperm.
  unfold on_tick. unfold mbind at 1, prog_bind at 1, gets at 1. cbn [fst].
  rewrite bool_decide_true by (rewrite Hl; lia).
  assert (Hrun : for_each on_connection [Disconnected p] (n, e) = (Done tt, (set_peers [me] n, e'))).
  { simpl. unfold mbind, prog_bind. by rewrite Hd. }
  unfold mbind at 1, prog_bind at 1. rewrite Hrun.
  unfold mbind at 1, prog_bind at 1, gets at 1. cbn [fst].
  unfold mbind at 1, prog_bind at 1. rewrite is_my_slot_run by done. rewrite bool_decide_true; [done|].
  unfold author. cbn [shared_peers set_peers length]. by rewrite N.mod_1_r.
Qed.

(** * Restarting a node *)

Section restarting.
Context `{!CodecOk AccountId, !CodecOk u32, !CodecOk u128, !CodecOk string}.
Context `{!CodecNonEmpty AccountId, !CodecNonEmpty string}.
Context `{!KeyValueStoreOk Store, !KvReliable Store}.

(** The store of a node that is starting: empty, or left behind by a runtime it was
    in step with. *)
Definition startable e : Prop := persisted e = ∅ ∨ ∃ rt, runtime_sound (rt, e).

Lemma run_init_sound me e :
  startable e → runtime_sound (runtime (run_init me e).2.1, (run_init me e).2.2).
Proof.
  intros Hstart. assert (Hs : runtime_sound (new (env_kv e), e)).
  { destruct Hstart as [Hempty|[rt Hrt]]; [by apply empty_runtime_sound | by eapply new_runtime_sound]. }
  apply genesis_sound in Hs. unfold run_init. by destruct (maybe_apply_genesis _) as [r [rt e']].
Qed.

Lemma run_events_sound me evs e :
  startable e →
  runtime_sound (runtime (run_events me evs (run_init me e).2).1, (run_events me evs (run_init me e).2).2).
Proof.
  intros Hstart. exact (run_events_lifted (keeps runtime_sound) execute_block_sound
    (λ _ _ _ Hs, Hs) me evs (run_init me e).2 (run_init_sound me e Hstart)).
Qed.

(** C4: a node can be stopped after any event: start it on an empty store or on one a
    node left behind, let it handle any events, and stop it; the runtime the next
    start loads has the same height, nonces and balances, every claim it has was in
    memory with the same owner, and the store can again be started from. *)
Theorem stop_and_restart me evs e :
  startable e →
  let s := run_events me evs (run_init me e).2 in
  let rt' := new (env_kv s.2) in
  system rt' = system (runtime s.1) ∧ balances rt' = balances (runtime s.1) ∧
  (∀ c o, claim_owner rt' c = Some o → claim_owner (runtime s.1) c = Some o) ∧
  startable s.2.
Proof.
  intros Hstart s rt'.
  pose proof (run_events_sound me evs e Hstart) as Hs.
  destruct (new_sound (runtime s.1) s.2 Hs) as (H1 & H2 & H3).
  split; [done|]. split; [done|]. split; [exact H3|]. right. by exists (runtime s.1).
Qed.
End restarting.

(** * What a signature protects, end to end *)

Section authorisation.
Context a.

(** The extrinsic does not act for [a]. *)
Definition harmless (ext : types_Extrinsic) : Prop := signer ext = a → verify ext ≠ Ok tt.
Definition harmless_block (block : types_Block) : Prop := Forall harmless (extrinsics block).

(** Nothing the node holds acts for [a]. *)
Definition node_harmless n : Prop :=
  Forall harmless (Mempool.pending (mempool n)) ∧ Forall harmless (chan_ext n) ∧
  Forall harmless_block (chan_blk n).

(** Nothing that reaches the node acts for [a]. *)
Definition event_harmless ev : Prop :=
  match ev with
  | EvSubmit raw => ∀ ext, decode_slice raw = Some ext → harmless ext
  | EvMessage msg_topic msg_data =>
      (msg_topic = topic_hash extrinsic_topic →
        ∀ ext, decode_slice msg_data = Some ext → harmless ext) ∧
      (msg_topic = topic_hash block_topic →
        ∀ block, decode_slice msg_data = Some block → harmless_block block)
  | _ => True
  end.

Lemma take_run_elem expected txs s run s' :
  take_run expected txs s = (Done run, s') → s' = s ∧ ∀ x, x ∈ run → x ∈ txs.
Proof.
  revert expected s run s'. induction txs as [|tx txs IH]; intros expected s run s'; simpl.
  { intros [= <- <-]. set_solver. }
  destruct (decide _) as [Heq|]; [|intros [= <- <-]; set_solver].
  pose proof (u32_add_fixes (λ s : NodeState * env Store, s) expected one s) as Hfix.
  unfold fixes in Hfix. unfold mbind at 1, prog_bind at 1.
  destruct (u32_add expected one s) as [[x|msg] s1]; simpl in Hfix; subst s1; [|done].
  unfold mbind at 1, prog_bind at 1. destruct (take_run x txs s) as [[run'|msg] s2] eqn:Hrun; [|done].
  intros [= <- <-]. destruct (IH _ _ _ _ Hrun) as [-> Hin]. set_solver.
Qed.

Lemma collect_runs_elem rt groups s batch s' :
  collect_runs rt groups s = (Done batch, s') →
  ∀ x, x ∈ batch → ∃ k txs, (k, txs) ∈ groups ∧ x ∈ txs.
Proof.
  revert s batch s'. induction groups as [|[k txs] groups IH]; intros s batch s'; simpl.
  { intros [= <- <-]. set_solver. }
  unfold mbind at 1, prog_bind at 1. destruct (take_run _ _ s) as [[run|msg] s1] eqn:Hrun; [|done].
  apply take_run_elem in Hrun as [-> Hin].
  unfold mbind at 1, prog_bind at 1. destruct (collect_runs _ _ s) as [[rest|msg] s2] eqn:Hrest; [|done].
  intros [= <- <-] x [Hx|Hx]%elem_of_app.
  - exists k, txs. split; [by left|]. rewrite <- (sort_by_nonce_perm txs). by apply Hin.
  - destruct (IH _ _ _ Hrest x Hx) as (k' & txs' & ? & ?). exists k', txs'. split; [by right | done].
Qed.

(** One step of the end-to-end argument. *)
Definition protected : relation (NodeState * env Store) := λ s s',
  node_harmless s.1 → node_harmless s'.1 ∧ account_safe a (runtime s.1) (runtime s'.1).

#[local] Instance protected_preorder : PreOrder protected.
Proof.
  split; unfold protected.
  - intros s Hs. split; [done|]. reflexivity.
  - intros s1 s2 s3 H12 H23 Hs. destruct (H12 Hs) as [Hs2 Ha2]. destruct (H23 Hs2) as [Hs3 Ha3].
    split; [done|]. by etrans.
Qed.

Lemma execute_harmless block rt e :
  harmless_block block → account_safe a rt (execute_block block (rt, e)).2.1.
Proof.
  intros Hb. refine (execute_block_ensures (account_safe a) block _ (rt, e)).
  apply apply_block_ensures; [apply _|done|].
  intros ext Hext. apply apply_extrinsic_safe. by eapply Forall_forall in Hb.
Qed.

Lemma on_runtime_protected block :
  harmless_block block → ensures protected (on_runtime (execute_block block)).
Proof.
  intros Hb [n e] Hn. pose proof (execute_harmless block (runtime n) e Hb) as Hsafe.
  unfold on_runtime, zoom. cbn [fst snd].
  destruct (execute_block block (runtime n, e)) as [r [rt e']]. by split.
Qed.

(** A step on the rest of the node. *)
Lemma update_protected f :
  (∀ n, runtime (f n) = runtime n) → (∀ n, node_harmless n → node_harmless (f n)) →
  ensures protected (update (Store := Store) f).
Proof. intros Hrt Hf [n e] Hn. simpl. rewrite Hrt. split; [by apply Hf | reflexivity]. Qed.

Lemma print_protected out : ensures protected (effect (env_print out)).
Proof. intros [n e] Hn. by split. Qed.

Lemma fixed_protected {A} (m : prog (NodeState * env Store) A) :
  ensures (fixes (λ s, s)) m → ensures protected m.
Proof. apply ensures_mono. by intros s s' ->. Qed.

Ltac protected_steps := ensures_steps ltac:(first
  [ apply print_protected
  | apply update_protected; [by intros | by unfold node_harmless]
  | apply fixed_protected; solve [apply u32_add_fixes | apply collect_runs_fixes] ]).

Lemma candidates_harmless n :
  node_harmless n → node_harmless (drained n) ∧ Forall harmless (candidates_of n).
Proof.
  intros (Hp & He & Hb). unfold node_harmless, candidates_of, drained. simpl.
  split; [split; [by apply Forall_drop | done] | by apply Forall_take].
Qed.

Lemma batch_harmless n groups rt s batch s' :
  Forall harmless (candidates_of n) →
  (∀ k txs x, (k, txs) ∈ groups → x ∈ txs → x ∈ candidates_of n) →
  collect_runs rt groups s = (Done batch, s') → Forall harmless batch.
Proof.
  intros Hc Hg Hrun. apply Forall_forall. intros x Hx.
  destruct (collect_runs_elem _ _ _ _ _ Hrun x Hx) as (k & txs & Hin & Hxt).
  rewrite Forall_forall in Hc. by apply Hc, (Hg k txs).
Qed.

Lemma produce_block_protected `{!NodeParamsOk} t : ensures protected (produce_block t).
Proof.
  intros [n e] Hn. destruct (candidates_harmless n Hn) as [Hd Hc]. revert Hn.
  change (protected (n, e) (produce_block t (n, e)).2). unfold produce_block.
  apply (ensures_bind_run protected); [done|]. intros n0 s0 [= <- <-].
  rewrite Mempool.drain_for_block_spec.
  fold (block_limit_of n). fold (candidates_of n).
  apply (ensures_bind_run protected); [intros _; by split|]. intros [] s1 [= <-].
  change (set_mempool _ n) with (drained n).
  apply (ensures_bind_run protected).
  { apply fixed_protected. apply collect_runs_fixes. }
  intros batch s2 Hrun. assert (Hb : Forall harmless batch).
  { eapply batch_harmless; [exact Hc| |exact Hrun]. intros k txs x. apply group_elem. }
  clear Hrun. revert s2. match goal with |- ∀ s2, protected s2 (?m s2).2 => change (ensures protected m) end.
  protected_steps. all: by apply on_runtime_protected.
Qed.

Lemma send_ext_protected ext : harmless ext → ensures protected (send_ext (Store := Store) ext).
Proof.
  intros Hext. apply update_protected; [done|]. intros n (Hp & He & Hb).
  split; [done|]. split; [|done]. simpl. apply Forall_app. by repeat constructor.
Qed.

Lemma send_blk_protected block :
  harmless_block block → ensures protected (send_blk (Store := Store) block).
Proof.
  intros Hblock. apply update_protected; [done|]. intros n (Hp & He & Hb).
  split; [done|]. split; [done|]. simpl. apply Forall_app. by repeat constructor.
Qed.

Lemma on_recv_ext_protected : ensures protected (on_recv_ext (Store := Store)).
Proof.
  intros [n e] (Hp & He & Hb). unfold on_recv_ext, mbind, prog_bind, gets. cbn [fst].
  cbn [fst] in *. destruct (chan_ext n) as [|ext rest] eqn:Hc.
  { split; [|reflexivity]. unfold node_harmless. simpl. by rewrite Hc. }
  apply Forall_cons in He as [Hext Hrest]. unfold update, modify, Mempool.submit. simpl.
  assert (Hpush : Forall harmless (Mempool.pending (mempool n) ++ [ext])).
  { apply Forall_app. by repeat constructor. }
  split; [|reflexivity].
  destruct (Mempool.max_capacity (mempool n)) as [max|]; [destruct (max <=? _)%nat|]; by repeat split.
Qed.

Lemma on_recv_blk_protected : ensures protected on_recv_blk.
Proof.
  intros [n e] Hn. pose proof Hn as (Hp & He & Hb). cbn [fst] in *.
  destruct (chan_blk n) as [|block rest] eqn:Hc.
  { unfold on_recv_blk, mbind, prog_bind, gets. cbn [fst]. rewrite Hc. by split. }
  apply Forall_cons in Hb as [Hblock Hrest].
  pose proof (execute_harmless block (runtime n) e Hblock) as Hsafe.
  destruct (execute_block_memory block (runtime n) e) as [_ Hmem]. rewrite Hmem in Hsafe.
  destruct (on_recv_blk_run block rest n e Hc) as [e' ->].
  destruct (apply_block block (runtime n)) as [[r|msg] rt'] eqn:Happly; simpl in *; (split; [|done]).
  - split; [|by split]. simpl. destruct r; [|done]. apply Forall_forall.
    intros x [_ Hx]%list_elem_of_filter. rewrite Forall_forall in Hp. by apply Hp.
  - by repeat split.
Qed.

Lemma on_connection_protected c : ensures protected (on_connection (Store := Store) c).
Proof.
  unfold on_connection, on_connection_established, on_connection_closed, println. protected_steps.
Qed.

Lemma on_message_protected t bs :
  event_harmless (EvMessage t bs) → ensures protected (on_message (Store := Store) t bs).
Proof.
  intros [Hext Hblk]. unfold on_message.
  destruct (decide _) as [He|_]; [specialize (Hext He)|destruct (decide _) as [Hb|_]; [specialize (Hblk Hb)|]].
  - destruct (decode_slice (A := types_Extrinsic) bs) as [ext|]; [by apply send_ext_protected, Hext | apply print_protected].
  - destruct (decode_slice (A := types_Block) bs) as [blk|]; [by apply send_blk_protected, Hblk | apply print_protected].
  - apply ensures_ret; apply _.
Qed.

Lemma node_handle_protected `{!NodeParamsOk} me ev :
  event_harmless ev → ensures protected (node_handle me ev).
Proof.
  intros Hev. destruct ev as [raw|hex| | |between now|t bs|c|answer]; cbn [node_handle].
  - unfold submit_handler, send_pub. simpl in Hev.
    destruct (decode_slice raw) as [ext|]; protected_steps.
    by apply send_ext_protected, Hev.
  - unfold nonce_handler. protected_steps.
  - apply on_recv_ext_protected.
  - apply on_recv_blk_protected.
  - unfold on_tick, is_my_slot. protected_steps.
    all: first [apply produce_block_protected | apply on_connection_protected].
  - by apply on_message_protected.
  - apply on_connection_protected.
  - unfold on_recv_pub, eprintln. protected_steps.
Qed.

(** C2: end to end, nobody acts for an account without its signature: if nothing the
    node holds and nothing that reaches it, over RPC or gossip, is an extrinsic
    signed by the account that verifies, then whatever happens to the node (its own
    block production included) the account's balance does not decrease, its nonce
    does not move and no claim of its is taken away. *)
Theorem node_protects_account `{!NodeParamsOk} me evs s :
  node_harmless s.1 → Forall event_harmless evs →
  account_safe a (runtime s.1) (runtime (run_events me evs s).1).
Proof.
  intros Hs Hevs.
  apply (run_events_ensures protected event_harmless me evs s); [|done|done].
  intros ev. apply node_handle_protected.
Qed.
End authorisation.
End node_life.
