(* ===== verification/Network.v ===== *)
(** Several nodes and the gossip between them, as one step relation over the handlers
    of [Node], and the agreement of the nodes' chains.

    The network is gossipsub's contract: a publication may fail, a message that is
    published reaches every other member at most once, in any order and after any delay,
    and messages on the wire were published by members.  The agreement needs a network
    that fails and loses extrinsics only.  A handler that panics ends the task it runs
    in, so a node takes no step that panics. *)

From S2P Require Export NodeLife.
From S2P Require Mempool System Balances ProofOfExistence.

(** * The world *)

Section network.
Context `{!NodeParams, !NodeParamsOk} `{!Ed25519}.
Context `{!Codec AccountId, !Codec u32, !Codec u128, !Codec string}.
Context `{!Codec (array 32 * u32 * RuntimeCall)}.
Context `{!Codec types_Extrinsic, !Codec types_Block, !CodecOk types_Block}.
Context {Store : Type} `{!KeyValueStore Store}.

Abbreviation node_state := (NodeState * env Store)%type.

(** The nodes, and the messages on their way, each with the member it is for. *)
Record world := World {
  local : PeerId → node_state;
  wire : list (PeerId * PublishReq)
}.

Context (members : list PeerId).
Implicit Types (w : world) (p q : PeerId) (s : node_state) (req : PublishReq).
Implicit Types (block : types_Block) (R : Runtime).

Definition update_local q s w : PeerId → node_state := λ p, if decide (p = q) then s else local w p.

(** The members a message of [p] is for. *)
Definition others p : list PeerId := base.filter (λ q, q ≠ p) members.

(** ** Blocks on their way *)

Definition as_block req : option types_Block :=
  if decide (topic req = topic_hash block_topic) then decode_slice (data req) else None.

Definition blocks_of (reqs : list PublishReq) : list types_Block := omap as_block reqs.

Definition wire_to p (msgs : list (PeerId * PublishReq)) : list types_Block :=
  blocks_of (snd <$> base.filter (λ m : PeerId * PublishReq, m.1 = p) msgs).

(** The blocks that have been produced elsewhere and that [p] has yet to handle: in
    its own channel, on the wire, and in the other members' publication channels. *)
Definition in_flight p w : list types_Block :=
  chan_blk (local w p).1 ++ wire_to p (wire w) ++
  mjoin ((λ q, blocks_of (chan_pub (local w q).1)) <$> others p).

Definition settled w : Prop := ∀ p, p ∈ members → in_flight p w = [].

(** ** Steps *)

(** The events that neither publish a block nor handle one. *)
Definition plain_event (ev : node_event) : Prop :=
  match ev with
  | EvSubmit _ | EvNonce _ | EvRecvExt | EvConnection _ => True
  | _ => False
  end.

(** The handlers are those of [Node].  Gossipsub may refuse a publication
    ([step_publish_fails]) and lose a message on its way ([step_drop]); [sync] restricts
    this and the production: if it holds, no member ticks while a block is on its way,
    the publication of a block does not fail, and no block is lost.  (The code has no way
    to ask for a block again, so a member that misses one is out of step from then on:
    [out_of_step_rejects].) *)
Inductive world_step (sync : Prop) w : world → Prop :=
| step_plain p ev s :
    p ∈ members → plain_event ev → node_handle p ev (local w p) = (Done tt, s) →
    world_step sync w (World (update_local p s w) (wire w))
| step_tick p between now s :
    p ∈ members → (sync → settled w) →
    node_handle p (EvTick between now) (local w p) = (Done tt, s) →
    world_step sync w (World (update_local p s w) (wire w))
| step_recv_blk p s :
    p ∈ members → node_handle p EvRecvBlk (local w p) = (Done tt, s) →
    world_step sync w (World (update_local p s w) (wire w))
| step_publish p req rest s :
    p ∈ members → chan_pub (local w p).1 = req :: rest →
    node_handle p (EvRecvPub (Ok tt)) (local w p) = (Done tt, s) →
    world_step sync w (World (update_local p s w) (wire w ++ ((λ q, (q, req)) <$> others p)))
| step_publish_fails p req rest err s :
    p ∈ members → chan_pub (local w p).1 = req :: rest → (sync → as_block req = None) →
    node_handle p (EvRecvPub (Err err)) (local w p) = (Done tt, s) →
    world_step sync w (World (update_local p s w) (wire w))
| step_deliver p req before after s :
    p ∈ members → wire w = before ++ (p, req) :: after →
    node_handle p (EvMessage (topic req) (data req)) (local w p) = (Done tt, s) →
    world_step sync w (World (update_local p s w) (before ++ after))
| step_drop p req before after :
    wire w = before ++ (p, req) :: after → (sync → as_block req = None) →
    world_step sync w (World (local w) (before ++ after)).

Definition reachable (sync : Prop) : relation world := rtc (world_step sync).

(** ** What a step does to the blocks on their way *)

Context (Hmembers : NoDup members).

Lemma elem_of_others p q : q ∈ others p ↔ q ≠ p ∧ q ∈ members.
Proof. unfold others. by rewrite list_elem_of_filter. Qed.

Lemma others_NoDup p : NoDup (others p).
Proof. by apply NoDup_filter. Qed.

Lemma update_local_eq q s w : update_local q s w q = s.
Proof. unfold update_local. by rewrite decide_True. Qed.

Lemma update_local_ne p q s w : p ≠ q → update_local q s w p = local w p.
Proof. intros Hne. unfold update_local. by rewrite decide_False. Qed.

Lemma blocks_of_app l l' : blocks_of (l ++ l') = blocks_of l ++ blocks_of l'.
Proof. apply omap_app. Qed.

Lemma wire_to_app p l l' : wire_to p (l ++ l') = wire_to p l ++ wire_to p l'.
Proof. unfold wire_to. by rewrite filter_app, fmap_app, blocks_of_app. Qed.

Lemma wire_to_cons p q req l :
  wire_to p ((q, req) :: l) = (if decide (q = p) then blocks_of [req] else []) ++ wire_to p l.
Proof.
  unfold wire_to. rewrite filter_cons. simpl. destruct (decide (q = p)); [|done].
  change (snd <$> (q, req) :: base.filter _ l) with ([req] ++ (snd <$> base.filter (λ m : PeerId * PublishReq, m.1 = p) l)).
  by rewrite blocks_of_app.
Qed.

(** A publication puts one copy on the wire for each other member. *)
Lemma wire_to_broadcast p q req :
  wire_to p ((λ q', (q', req)) <$> others q) = if decide (p ∈ others q) then blocks_of [req] else [].
Proof.
  pose proof (others_NoDup q) as Hnd. induction (others q) as [|x l IH]; [done|].
  apply NoDup_cons in Hnd as [Hx Hnd]. rewrite fmap_cons, wire_to_cons, (IH Hnd).
  destruct (decide (x = p)) as [->|Hne].
  - rewrite (decide_False (P := p ∈ l)), decide_True, app_nil_r by set_solver. done.
  - destruct (decide (p ∈ l)); [rewrite decide_True by set_solver | rewrite decide_False by set_solver]; done.
Qed.

(** The publications of one member, among those of all the others. *)
Lemma join_split (f g : PeerId → list types_Block) (l : list PeerId) q :
  NoDup l → q ∈ l → (∀ x, x ≠ q → g x = f x) →
  ∃ rest, mjoin (f <$> l) ≡ₚ f q ++ rest ∧ mjoin (g <$> l) ≡ₚ g q ++ rest.
Proof.
  intros Hnd Hq Hg. destruct (list_elem_of_split _ _ Hq) as (l1 & l2 & ->).
  assert (Hsame : ∀ l' : list PeerId, q ∉ l' → g <$> l' = f <$> l').
  { intros l' Hl'. apply list_fmap_ext. intros i x Hx. apply Hg. intros ->.
    by apply Hl', (list_elem_of_lookup_2 _ i). }
  apply NoDup_app in Hnd as (_ & Hdisj & [Hq2 _]%NoDup_cons).
  assert (Hq1 : q ∉ l1) by (intros Hq1; apply (Hdisj q Hq1); by left).
  exists (mjoin (f <$> l1) ++ mjoin (f <$> l2)).
  rewrite !fmap_app, !fmap_cons, (Hsame l1 Hq1), (Hsame l2 Hq2), !join_app. simpl.
  split; solve_Permutation.
Qed.

Lemma join_same (f g : PeerId → list types_Block) (l : list PeerId) q :
  q ∉ l → (∀ x, x ≠ q → g x = f x) → mjoin (g <$> l) = mjoin (f <$> l).
Proof.
  intros Hq Hg. f_equal. apply list_fmap_ext. intros i x Hx. apply Hg. intros ->.
  by apply Hq, (list_elem_of_lookup_2 _ i).
Qed.

(** The blocks on their way after a step of [q]: for [q] itself its own channel and
    the wire matter, for another member the wire and what [q] has to publish. *)
Lemma in_flight_self q s w msgs :
  in_flight q (World (update_local q s w) msgs) =
    chan_blk s.1 ++ wire_to q msgs ++
    mjoin ((λ x, blocks_of (chan_pub (local w x).1)) <$> others q).
Proof.
  unfold in_flight. cbn [local wire]. rewrite update_local_eq. do 2 f_equal.
  apply (join_same _ _ _ q).
  - rewrite elem_of_others. naive_solver.
  - intros x Hx. by rewrite update_local_ne.
Qed.

Lemma in_flight_other p q s w msgs :
  p ≠ q → q ∈ members →
  ∃ rest,
    in_flight p w ≡ₚ wire_to p (wire w) ++ blocks_of (chan_pub (local w q).1) ++ rest ∧
    in_flight p (World (update_local q s w) msgs) ≡ₚ wire_to p msgs ++ blocks_of (chan_pub s.1) ++ rest.
Proof.
  intros Hne Hq. unfold in_flight. cbn [local wire]. rewrite update_local_ne by done.
  destruct (join_split (λ x, blocks_of (chan_pub (local w x).1))
    (λ x, blocks_of (chan_pub (update_local q s w x).1)) (others p) q (others_NoDup p))
    as (rest & Hw & Hw').
  - by apply elem_of_others.
  - intros x Hx. by rewrite update_local_ne.
  - rewrite update_local_eq in Hw'. exists (chan_blk (local w p).1 ++ rest). rewrite Hw, Hw'.
    split; solve_Permutation.
Qed.

(** ** What the handlers do to the chain *)

(** The part of a node the agreement is about. *)
Definition chain_view s : Runtime * list types_Block * list types_Block :=
  (runtime s.1, chan_blk s.1, blocks_of (chan_pub s.1)).

Lemma as_block_extrinsic bs : as_block (mkPublishReq (topic_hash extrinsic_topic) bs) = None.
Proof.
  unfold as_block. rewrite decide_False; [done|]. intros Heq. by apply topics_differ.
Qed.

Lemma as_block_encode block :
  as_block (mkPublishReq (topic_hash block_topic) (encode block)) = Some block.
Proof. unfold as_block. rewrite decide_True by done. apply decode_slice_encode. Qed.

Lemma plain_event_view p ev :
  plain_event ev → ensures (fixes chain_view) (node_handle (Store := Store) p ev).
Proof.
  intros Hev. destruct ev as [raw|hex| | | | |c|]; try done; cbn [node_handle].
  - unfold submit_handler, send_pub, send_ext, update.
    ensures_steps ltac:(solve [by intros [? ?]
      | intros [? ?]; unfold fixes, chain_view; simpl; by rewrite blocks_of_app; simpl;
        rewrite as_block_extrinsic, app_nil_r]).
  - unfold nonce_handler. ensures_steps ltac:(first [apply u32_add_fixes]).
  - unfold on_recv_ext, update. ensures_steps ltac:(solve [by intros [? ?]]).
  - intros [n e]. destruct (on_connection_run c n e) as (ps & e' & ->). done.
Qed.

Lemma message_view p req s s' :
  node_handle p (EvMessage (topic req) (data req)) s = (Done tt, s') →
  runtime s'.1 = runtime s.1 ∧ chan_pub s'.1 = chan_pub s.1 ∧
  chan_blk s'.1 = chan_blk s.1 ++ blocks_of [req].
Proof.
  destruct s as [n e]. destruct req as [t d]. cbn [node_handle topic data].
  unfold on_message, blocks_of, as_block. cbn [omap list_omap topic data].
  pose proof topics_differ as Hdiff.
  destruct (decide (t = topic_hash extrinsic_topic)) as [->|_].
  - rewrite decide_False by auto.
    destruct (decode_slice (A := types_Extrinsic) d); intros [= <-]; simpl; by rewrite app_nil_r.
  - destruct (decide (t = topic_hash block_topic)) as [->|_].
    + destruct (decode_slice (A := types_Block) d); intros [= <-]; simpl; [done|].
      by rewrite app_nil_r.
    + intros [= <-]. simpl. by rewrite app_nil_r.
Qed.

Lemma recv_pub_view p req rest answer s s' :
  chan_pub s.1 = req :: rest → node_handle p (EvRecvPub answer) s = (Done tt, s') →
  runtime s'.1 = runtime s.1 ∧ chan_blk s'.1 = chan_blk s.1 ∧ chan_pub s'.1 = rest.
Proof.
  destruct s as [n e]. cbn [node_handle fst]. intros Hc. unfold on_recv_pub.
  unfold mbind at 1, prog_bind at 1, gets. cbn [fst]. rewrite Hc.
  destruct answer as [[]|err]; by intros [= <-].
Qed.

Lemma tick_view p between now s s' :
  node_handle p (EvTick between now) s = (Done tt, s') →
  chan_blk s'.1 = chan_blk s.1 ∧
  ((runtime s'.1 = runtime s.1 ∧ chan_pub s'.1 = chan_pub s.1) ∨
   ∃ block, apply_block block (runtime s.1) = (Done (Ok tt), runtime s'.1) ∧
     blocks_of (chan_pub s'.1) = blocks_of (chan_pub s.1) ++ [block]).
Proof.
  destruct s as [n e]. cbn [node_handle]. unfold on_tick.
  unfold mbind at 1, prog_bind at 1, gets at 1. cbn [fst].
  destruct (bool_decide _); [|intros [= <-]; split; [done|]; by left].
  destruct (on_connections_run between n e) as (ps & e1 & Hrun).
  unfold mbind at 1, prog_bind at 1. rewrite Hrun.
  unfold mbind at 1, prog_bind at 1, gets at 1. cbn [fst].
  assert (Hslot : ∃ r, is_my_slot p (shared_peers (set_peers ps n)) now (set_peers ps n, e1)
    = (r, (set_peers ps n, e1))).
  { unfold is_my_slot. destruct (decide _); [by eexists|].
    destruct (shared_peers (set_peers ps n) !! _) as [q|]; by eexists. }
  destruct Hslot as [[mine|msg] Hslot]; unfold mbind at 1, prog_bind at 1; rewrite Hslot; [|done].
  destruct mine; [|intros [= <-]; split; [done|]; by left].
  destruct s' as [n' e']. intros Hprod.
  destruct (produce_block_inv _ _ _ _ _ Hprod) as (batch & b & _ & _ & Hok & ->).
  split; [done|]. right. exists (mkBlock (mkHeader b) batch). split.
  - simpl. simpl in Hok. rewrite <- Hok. by destruct (apply_block _ _).
  - simpl. by rewrite blocks_of_app; simpl; rewrite as_block_encode.
Qed.

Lemma recv_blk_view p s s' :
  node_handle p EvRecvBlk s = (Done tt, s') →
  chan_pub s'.1 = chan_pub s.1 ∧
  match chan_blk s.1 with
  | [] => chan_blk s'.1 = [] ∧ runtime s'.1 = runtime s.1
  | block :: rest => chan_blk s'.1 = rest ∧ runtime s'.1 = (apply_block block (runtime s.1)).2
  end.
Proof.
  destruct s as [n e]. cbn [node_handle fst]. destruct (chan_blk n) as [|block rest] eqn:Hc.
  - unfold on_recv_blk, mbind, prog_bind, gets. cbn [fst]. rewrite Hc. by intros [= <-].
  - destruct (on_recv_blk_run block rest n e Hc) as [e1 ->].
    destruct (apply_block block (runtime n)) as [[r|msg] rt']; cbn [fst snd]; [|done].
    by intros [= <-].
Qed.

(** ** Agreement *)

(** The member has the runtime [R], or one block before it on its way. *)
Definition near R p w : Prop :=
  (in_flight p w ≡ₚ [] ∧ runtime (local w p).1 = R) ∨
  ∃ block, in_flight p w ≡ₚ [block] ∧ apply_block block (runtime (local w p).1) = (Done (Ok tt), R).

Definition agreed w : Prop := ∃ R, ∀ p, p ∈ members → near R p w.

Lemma near_keep R p w w' :
  in_flight p w' ≡ₚ in_flight p w → runtime (local w' p).1 = runtime (local w p).1 →
  near R p w → near R p w'.
Proof.
  intros Hf Hrt [[Hn HR]|(block & Hb & Ha)].
  - left. by rewrite Hf, Hrt.
  - right. exists block. by rewrite Hf, Hrt.
Qed.

(** A step of [q] that leaves its runtime alone and only moves blocks. *)
Lemma agreed_move q s w msgs :
  q ∈ members →
  runtime s.1 = runtime (local w q).1 →
  chan_blk s.1 ++ wire_to q msgs ≡ₚ chan_blk (local w q).1 ++ wire_to q (wire w) →
  (∀ p, p ∈ members → p ≠ q →
    wire_to p msgs ++ blocks_of (chan_pub s.1) ≡ₚ
    wire_to p (wire w) ++ blocks_of (chan_pub (local w q).1)) →
  agreed w → agreed (World (update_local q s w) msgs).
Proof.
  intros Hq Hrt Hself Hother [R Hnear]. exists R. intros p Hp. eapply near_keep; [| |by apply Hnear].
  - destruct (decide (p = q)) as [->|Hne].
    + rewrite in_flight_self. unfold in_flight. by rewrite !(assoc_L (++)), Hself.
    + destruct (in_flight_other p q s w msgs Hne Hq) as (rest & -> & ->).
      by rewrite !(assoc_L (++)), (Hother p Hp Hne).
  - cbn [local]. destruct (decide (p = q)) as [->|Hne]; [by rewrite update_local_eq|].
    by rewrite update_local_ne.
Qed.

(** Handling a block. *)
Lemma agreed_recv q s w :
  q ∈ members → node_handle q EvRecvBlk (local w q) = (Done tt, s) →
  agreed w → agreed (World (update_local q s w) (wire w)).
Proof.
  intros Hq Hrun. destruct (recv_blk_view q _ _ Hrun) as [Hpub Hview].
  destruct (chan_blk (local w q).1) as [|block rest] eqn:Hc; destruct Hview as [Hblk Hrt].
  { apply agreed_move; [done|done|by rewrite Hc, Hblk|]. intros p _ _. by rewrite Hpub. }
  intros [R Hnear]. exists R. intros p Hp. destruct (decide (p = q)) as [->|Hne].
  - assert (Hf : in_flight q w ≡ₚ block :: in_flight q (World (update_local q s w) (wire w))).
    { rewrite in_flight_self, Hblk. unfold in_flight. by rewrite Hc. }
    destruct (Hnear q Hq) as [[Hnil _]|(b & Hone & Happly)].
    + rewrite Hf in Hnil. by apply Permutation_nil_r in Hnil.
    + rewrite Hf in Hone. apply Permutation_singleton_r in Hone. injection Hone as -> Hnil.
      left. rewrite Hnil. split; [done|]. cbn [local]. rewrite update_local_eq, Hrt.
      by rewrite Happly.
  - eapply near_keep; [| |by apply Hnear].
    + destruct (in_flight_other p q s w (wire w) Hne Hq) as (rest' & -> & ->). by rewrite Hpub.
    + cbn [local]. by rewrite update_local_ne.
Qed.

(** Producing one, when no other is on its way. *)
Lemma agreed_produce q s w block :
  q ∈ members → settled w →
  chan_blk s.1 = chan_blk (local w q).1 →
  apply_block block (runtime (local w q).1) = (Done (Ok tt), runtime s.1) →
  blocks_of (chan_pub s.1) = blocks_of (chan_pub (local w q).1) ++ [block] →
  agreed w → agreed (World (update_local q s w) (wire w)).
Proof.
  intros Hq Hsettled Hblk Happly Hpub [R Hnear].
  assert (Hall : ∀ p, p ∈ members → runtime (local w p).1 = R).
  { intros p Hp. destruct (Hnear p Hp) as [[_ ?]|(b & Hb & _)]; [done|].
    rewrite (Hsettled p Hp) in Hb. by apply Permutation_nil_l in Hb. }
  exists (runtime s.1). intros p Hp. destruct (decide (p = q)) as [->|Hne].
  - left. rewrite in_flight_self, Hblk. pose proof (Hsettled q Hq) as Hq'. unfold in_flight in Hq'.
    rewrite Hq'. split; [done|]. cbn [local]. by rewrite update_local_eq.
  - right. exists block. cbn [local]. rewrite update_local_ne by done.
    rewrite (Hall p Hp), <- (Hall q Hq). split; [|done].
    destruct (in_flight_other p q s w (wire w) Hne Hq) as (rest & Hw & ->).
    rewrite (Hsettled p Hp) in Hw. rewrite Hpub.
    symmetry in Hw. apply Permutation_nil_r in Hw. apply app_nil in Hw as [Hwire Hw].
    apply app_nil in Hw as [Hnil ->]. by rewrite Hwire, Hnil.
Qed.

Lemma agreed_step w w' : world_step True w w' → agreed w → agreed w'.
Proof.
  intros Hstep Hagreed.
  destruct Hstep as [p ev s Hp Hev Hrun|p between now s Hp Hsync Hrun|p s Hp Hrun
    |p req rest s Hp Hc Hrun|p req rest err s Hp Hc Hreq Hrun|p req before after s Hp Hw Hrun
    |p req before after Hw Hreq].
  - pose proof (plain_event_view p ev Hev (local w p)) as Hview. rewrite Hrun in Hview.
    injection Hview as Hrt Hblk Hpub.
    apply agreed_move; [done|done|by rewrite Hblk|intros q _ _; by rewrite Hpub|done].
  - destruct (tick_view p between now _ _ Hrun) as [Hblk [[Hrt Hpub]|(block & Happly & Hpub)]].
    + apply agreed_move; [done|done|by rewrite Hblk|intros q _ _; by rewrite Hpub|done].
    + by apply (agreed_produce p s w block); [|apply Hsync| | | |].
  - by apply agreed_recv.
  - destruct (recv_pub_view p req rest _ _ _ Hc Hrun) as (Hrt & Hblk & Hpub).
    apply agreed_move; [done|done| | |done].
    + rewrite Hblk, wire_to_app, wire_to_broadcast, decide_False, app_nil_r; [done|].
      rewrite elem_of_others. naive_solver.
    + intros q Hq Hne. rewrite Hpub, Hc, wire_to_app, wire_to_broadcast, decide_True by by apply elem_of_others.
      change (req :: rest) with ([req] ++ rest). rewrite blocks_of_app. by rewrite (assoc_L (++)).
  - destruct (recv_pub_view p req rest _ _ _ Hc Hrun) as (Hrt & Hblk & Hpub).
    apply agreed_move; [done|done|by rewrite Hblk| |done]. intros q _ _.
    rewrite Hpub, Hc. unfold blocks_of. simpl. by rewrite (Hreq I).
  - destruct (message_view p req _ _ Hrun) as (Hrt & Hpub & Hblk).
    apply agreed_move; [done|done| | |done].
    + rewrite Hblk, Hw, !wire_to_app, wire_to_cons, decide_True by done. solve_Permutation.
    + intros q _ Hne. rewrite Hpub, Hw, !wire_to_app, wire_to_cons, decide_False by done. done.
  - destruct Hagreed as [R Hnear]. exists R. intros q Hq. eapply near_keep; [| |by apply Hnear].
    + unfold in_flight. cbn [local wire]. rewrite Hw, !wire_to_app, wire_to_cons.
      unfold blocks_of at 3. simpl. rewrite (Hreq I). by destruct (decide _).
    + done.
Qed.

Lemma reachable_agreed w w' : reachable True w w' → agreed w → agreed w'.
Proof. induction 1 as [|w1 w2 w3 Hstep _ IH]; [done|]. intros Hw. by apply IH, (agreed_step w1). Qed.

Lemma near_height R p w :
  near R p w → (height (runtime (local w p).1) ≤ height R ≤ height (runtime (local w p).1) + 1)%N.
Proof.
  intros [[_ <-]|(block & _ & Happly)]; [lia|]. apply apply_block_ok_height in Happly. lia.
Qed.

(** The members start on new chains. *)
Context `{!CodecOk AccountId, !CodecOk u32, !CodecOk u128, !CodecOk string}.
Context `{!CodecNonEmpty AccountId, !CodecNonEmpty string} `{!KeyValueStoreOk Store}.

Definition started w : Prop :=
  wire w = [] ∧
  ∀ p, p ∈ members → ∃ e : env Store, persisted e = ∅ ∧ local w p = (run_init p e).2.

Lemma started_agreed w : started w → agreed w.
Proof.
  intros [Hwire Hlocal].
  exists (mkRuntime (System.set_block_number (u32_of 1) (system empty_runtime))
    (genesis_balances (balances empty_runtime)) (proof_of_existence empty_runtime)).
  assert (Hinit : ∀ p, p ∈ members → ∃ rt e', local w p =
      (mkNode rt (Mempool.with_block_limit 3) [p] [] [] [] [], e') ∧
      rt = mkRuntime (System.set_block_number (u32_of 1) (system empty_runtime))
        (genesis_balances (balances empty_runtime)) (proof_of_existence empty_runtime)).
  { intros p Hp. destruct (Hlocal p Hp) as (e & Hempty & ->). unfold run_init.
    rewrite (new_empty e Hempty).
    destruct (maybe_apply_genesis_run empty_runtime e) as [e' ->]; [done|]. by eexists _, e'. }
  intros p Hp. left. destruct (Hinit p Hp) as (rt & e' & Heq & ->).
  split; [|by rewrite Heq]. unfold in_flight. rewrite Hwire, Heq. cbn [fst chan_blk app].
  assert (Hjoin : ∀ l, (∀ q, q ∈ l → q ∈ members) →
    mjoin ((λ q, blocks_of (chan_pub (local w q).1)) <$> l) = []).
  { induction l as [|q l IH]; intros Hl; [done|]. rewrite fmap_cons. simpl.
    rewrite IH by set_solver. destruct (Hinit q) as (rt' & e2 & -> & _); [apply Hl; by left|]. done. }
  rewrite Hjoin; [done|]. intros q Hq. by apply elem_of_others in Hq as [_ ?].
Qed.

(** C3: agreement: let the members start on new chains and take any steps, with
    submissions, connections, gossip in any order and at any pace, lost extrinsics and
    block production in any slots, as long as nobody ticks while a block is on its way,
    no block's publication fails and no published block is lost.
    Then all heights are within one of each other at any time, and whenever no block
    is on its way all members have the same runtime. *)
Theorem chains_agree w0 w :
  started w0 → reachable True w0 w →
  (∀ p q, p ∈ members → q ∈ members →
    (height (runtime (local w p).1) ≤ height (runtime (local w q).1) + 1)%N) ∧
  (settled w → ∀ p q, p ∈ members → q ∈ members → runtime (local w p).1 = runtime (local w q).1).
Proof.
  intros Hstart%started_agreed Hreach.
  destruct (reachable_agreed _ _ Hreach Hstart) as [R Hnear]. split.
  - intros p q Hp Hq. pose proof (near_height R p w (Hnear p Hp)).
    pose proof (near_height R q w (Hnear q Hq)). lia.
  - intros Hsettled p q Hp Hq.
    assert (Hall : ∀ x, x ∈ members → runtime (local w x).1 = R).
    { intros x Hx. destruct (Hnear x Hx) as [[_ ?]|(b & Hb & _)]; [done|].
      rewrite (Hsettled x Hx) in Hb. by apply Permutation_nil_l in Hb. }
    by rewrite (Hall p Hp), (Hall q Hq).
Qed.

(** ** Executing steps *)

Variant action :=
| ActEvent p (ev : node_event)
| ActTick p (now : N)
| ActRecvBlk p
| ActPublish p
| ActPublishFails p
| ActDeliver (i : nat).

Definition run_at p ev w (msgs : list (PeerId * PublishReq)) : option world :=
  match node_handle p ev (local w p) with
  | (Done _, s) => Some (World (update_local p s w) msgs)
  | _ => None
  end.

Definition plain_eventb (ev : node_event) : bool :=
  match ev with EvSubmit _ | EvNonce _ | EvRecvExt | EvConnection _ => true | _ => false end.

Definition settledb w : bool :=
  forallb (λ p, match in_flight p w with [] => true | _ => false end) members.

(** The action's step, when it is one; [sync] asks for settled ticks. *)
Definition do_action (sync : bool) w (a : action) : option world :=
  match a with
  | ActEvent p ev => if plain_eventb ev then run_at p ev w (wire w) else None
  | ActTick p now =>
      if negb sync || settledb w then run_at p (EvTick [] now) w (wire w) else None
  | ActRecvBlk p => run_at p EvRecvBlk w (wire w)
  | ActPublish p =>
      match chan_pub (local w p).1 with
      | req :: _ => run_at p (EvRecvPub (Ok tt)) w (wire w ++ ((λ q, (q, req)) <$> others p))
      | [] => None
      end
  | ActPublishFails p =>
      match chan_pub (local w p).1 with
      | req :: _ =>
          if sync && bool_decide (is_Some (as_block req)) then None
          else run_at p (EvRecvPub (Err "InsufficientPeers")) w (wire w)
      | [] => None
      end
  | ActDeliver i =>
      match wire w !! i with
      | Some (p, req) =>
          run_at p (EvMessage (topic req) (data req)) w (take i (wire w) ++ drop (S i) (wire w))
      | None => None
      end
  end.

Definition acts_of_members (a : action) : bool :=
  match a with
  | ActEvent p _ | ActTick p _ | ActRecvBlk p | ActPublish p | ActPublishFails p =>
      bool_decide (p ∈ members)
  | ActDeliver _ => true
  end.

Fixpoint do_actions (sync : bool) (acts : list action) w : option world :=
  match acts with
  | [] => Some w
  | a :: acts' =>
      if acts_of_members a then do_action sync w a ≫= do_actions sync acts' else None
  end.

Lemma settledb_spec w : settledb w = true → settled w.
Proof.
  unfold settledb. rewrite forallb_forall. intros Hall p Hp%list_elem_of_In. specialize (Hall p Hp).
  by destruct (in_flight p w).
Qed.

Lemma run_at_spec p ev w msgs w' :
  run_at p ev w msgs = Some w' →
  ∃ s, node_handle p ev (local w p) = (Done tt, s) ∧ w' = World (update_local p s w) msgs.
Proof.
  unfold run_at. destruct (node_handle p ev (local w p)) as [[[]|msg] s]; [|done].
  intros [= <-]. by exists s.
Qed.

(** The members the wire is for are members, when it starts out so. *)
Definition wire_ok w : Prop := ∀ p req, (p, req) ∈ wire w → p ∈ members.

Lemma do_action_step (sync : bool) w a w' :
  acts_of_members a = true → wire_ok w → do_action sync w a = Some w' →
  world_step sync w w' ∧ wire_ok w'.
Proof.
  intros Ha Hwire Hdo. destruct a as [p ev|p now|p|p|p|i]; simpl in Ha, Hdo;
    try apply bool_decide_eq_true in Ha.
  - destruct (plain_eventb ev) eqn:Hev; [|done]. destruct (run_at_spec _ _ _ _ _ Hdo) as (s & Hs & ->).
    split; [|done]. apply (step_plain _ _ p ev); [done| |done]. by destruct ev.
  - destruct (negb sync || settledb w) eqn:Hsync; [|done].
    destruct (run_at_spec _ _ _ _ _ Hdo) as (s & Hs & ->). split; [|done].
    apply (step_tick _ _ p [] now); [done| |done]. intros Hs'. apply settledb_spec.
    by destruct sync.
  - destruct (run_at_spec _ _ _ _ _ Hdo) as (s & Hs & ->). split; [|done]. by apply step_recv_blk.
  - destruct (chan_pub (local w p).1) as [|req rest] eqn:Hc; [done|].
    destruct (run_at_spec _ _ _ _ _ Hdo) as (s & Hs & ->). split; [by eapply step_publish|].
    intros q req' [Hin|Hin]%elem_of_app; [by eapply Hwire|].
    apply list_elem_of_fmap in Hin as (q' & [= -> ->] & Hq). by apply elem_of_others in Hq as [_ ?].
  - destruct (chan_pub (local w p).1) as [|req rest] eqn:Hc; [done|].
    destruct (sync && bool_decide (is_Some (as_block req))) eqn:Hreq; [done|].
    destruct (run_at_spec _ _ _ _ _ Hdo) as (s & Hs & ->). split; [|done].
    eapply step_publish_fails; [done|exact Hc| |exact Hs]. intros Hsync. apply eq_None_not_Some.
    destruct sync; [|done]. by apply bool_decide_eq_false in Hreq.
  - destruct (wire w !! i) as [[p req]|] eqn:Hi; [|done].
    destruct (run_at_spec _ _ _ _ _ Hdo) as (s & Hs & ->). split.
    + eapply step_deliver; [|symmetry; by apply take_drop_middle|done].
      apply (Hwire p req). by eapply list_elem_of_lookup_2.
    + intros q req' Hin. apply (Hwire q req'). rewrite <- (take_drop_middle _ _ _ Hi). set_solver.
Qed.

Lemma do_actions_reachable (sync : bool) acts w w' :
  wire_ok w → do_actions sync acts w = Some w' → reachable sync w w'.
Proof.
  revert w. induction acts as [|a acts IH]; intros w Hwire; simpl; [by intros [= <-]|].
  destruct (acts_of_members a) eqn:Ha; [|done].
  destruct (do_action sync w a) as [w1|] eqn:Hdo; [|done]. simpl. intros Hrest.
  destruct (do_action_step sync w a w1 Ha Hwire Hdo) as [Hstep Hwire1].
  eapply rtc_l; [exact Hstep | by apply IH].
Qed.
End network.
Arguments world {_} _.
