(* ===== verification/Cli.v ===== *)
(** The command-line client ([main.rs]): submitting a transfer or a claim, to a
    running node over HTTP or in a runtime of its own.

    [ureq] is third-party code and enters as the class [Ureq] over the state [W] of
    whatever is at the other end; [served] is the instance where that is a node of
    this program, with the routes of [start_rpc_server]. *)

From stdpp Require Import pretty.
From S2P Require Export Decimal Production Restart.
From S2P Require Mempool System Balances ProofOfExistence.

(** * The HTTP client *)

Inductive ureq_Error : Type :=
| Status (code : N) (body : string)
| Transport (msg : string).

(** A GET gives the response, whose body may fail to be read; a POST the status code
    of the response. *)
Class Ureq (W : Type) := {
  ureq_get : string → prog W (result (result string string) ureq_Error);
  ureq_post : string → bytes → prog W (result N ureq_Error)
}.

(** The derived [Debug] rendering of the runtime. *)
Class RuntimeDebug := runtime_debug : Runtime → string.

Definition unwrap_err_msg : string := "called `Result::unwrap()` on an `Err` value".

Section client.
Context `{!NodeParams} `{!Ed25519} `{!RuntimeDebug}.
Context `{!Codec AccountId, !Codec u32, !Codec u128, !Codec string}.
Context `{!Codec (array 32 * u32 * RuntimeCall)} `{!Codec types_Extrinsic}.
Context {Store : Type} `{!KeyValueStore Store}.
Context {W : Type} `{HU : Ureq W}.

(** The other end, the process's environment. *)
#[local] Abbreviation M := (prog (W * env Store)).
Implicit Types (w : W) (e : env Store).

Definition client_println (msg : string) : M unit := effect (env_print (Println msg)).
Definition client_eprintln (msg : string) : M unit := effect (env_print (Eprintln msg)).

Definition remote {A} (m : prog W A) : M A := zoom fst (λ w s, (w, s.2)) m.

(** [let mut runtime = Runtime::new(); ...] *)
Definition with_runtime {A} (m : prog (Runtime * env Store) A) : M A := λ '(w, e),
  let '(r, (_, e')) := m (new (env_kv e), e) in (r, (w, e')).

(** [from_name(&name).unwrap_or_else(|| panic!(..))] *)
Definition named (name : string) : M AccountKeyring :=
  expect (from_name name) ("unknown account '" +:+ name +:+ "'; use alice / bob / charlie").

Definition fetch_nonce (url : string) (kr : AccountKeyring) : M u32 :=
  let account_hex := hex_string (arr_list (as_bytes (public kr))) in
  r ← remote (ureq_get (url +:+ "/nonce/" +:+ account_hex));
  body ← expect (match r with Ok body => Some body | Err _ => None end) "failed to get nonce: ";
  text ← expect (match body with Ok text => Some text | Err _ => None end) unwrap_err_msg;
  expect (parse_u32 (trim text)) "nonce must be a number".

Definition post_extrinsic (url : string) (ext : types_Extrinsic) : M unit :=
  let data := encode ext in
  r ← remote (ureq_post (url +:+ "/submit") data);
  match r with
  | Ok status => client_println ("Submitted (HTTP " +:+ pretty status +:+ ")")
  | Err (Status code body) => client_eprintln ("Server error " +:+ pretty code +:+ ": " +:+ body)
  | Err (Transport msg) => client_eprintln ("Connection error: " +:+ msg)
  end.

(** [if let Some(url) = node] *)
Definition submit_to_node (url : string) (kr : AccountKeyring) (call : RuntimeCall) : M unit :=
  n ← fetch_nonce url kr;
  let ext := new_signed (signing_key kr) n call in
  post_extrinsic url ext.

(** The end of the local branches: sign, make the next block, execute it, print. *)
Definition execute_locally (kr : AccountKeyring) (call : RuntimeCall) :
    prog (Runtime * env Store) unit :=
  rt ← gets fst;
  let n := System.nonce (system rt) (public kr) in
  let ext := new_signed (signing_key kr) n call in
  next_block_number ← unwrap (checked_add (System.block_number (system rt)) one);
  let block := mkBlock (mkHeader next_block_number) [ext] in
  r ← execute_block block;
  match r with
  | Ok _ => rt ← gets fst; effect (env_print (Println (runtime_debug rt)))
  | Err err => effect (env_print (Eprintln ("Execution error: " +:+ err)))
  end.

(** [a * b] on [u128] *)
Definition u128_mul {S} (a b : u128) : prog S u128 :=
  match uint_of_N (uval a * uval b) with
  | Some c => mret c
  | None =>
      if overflow_checks then panic "attempt to multiply with overflow"
      else mret (uwrap (uval a * uval b))
  end.

Definition submit_transfer (from to : string) (amount : Balance) (node : option string) : M unit :=
  from_kr ← named from;
  to_kr ← named to;
  let call := RuntimeCall_balances (Balances.Call_transfer (public to_kr) amount) in
  match node with
  | Some url => submit_to_node url from_kr call
  | None =>
      with_runtime (
        funds ← u128_mul amount (u128_of 10);
        on_balances (Balances.set_balance (public from_kr) funds);;
        execute_locally from_kr call)
  end.

Definition submit_claim (account claim : string) (node : option string) : M unit :=
  kr ← named account;
  let call := RuntimeCall_proof_of_existence (ProofOfExistence.Call_create_claim claim) in
  match node with
  | Some url => submit_to_node url kr call
  | None => with_runtime (execute_locally kr call)
  end.
End client.

(** * A node at the other end *)

Section served.
Context `{!NodeParams} `{!Ed25519}.
Context `{!Codec AccountId, !Codec u32, !Codec u128, !Codec string}.
Context `{!Codec (array 32 * u32 * RuntimeCall)} `{!Codec types_Extrinsic} `{!RuntimeDebug}.
Context {Store : Type}.

#[local] Abbreviation world := (NodeState * env Store)%type.

Definition status_code (s : StatusCode) : N :=
  match s with ACCEPTED => 202 | BAD_REQUEST => 400 end.

(** A handler that panics closes its connection. *)
Definition serve {A B} (f : A → result B ureq_Error) (m : prog world A) : prog world (result B ureq_Error) :=
  λ s, match m s with
  | (Done a, s') => (Done (f a), s')
  | (Panicked msg, s') => (Done (Err (Transport msg)), s')
  end.

Definition strip_prefix (pre s : string) : option string :=
  if String.prefix pre s
  then Some (String.substring (String.length pre) (String.length s - String.length pre) s) else None.

(** [GET /state]. *)
Definition state_handler : prog world string := gets (λ s, runtime_debug (runtime s.1)).

(** What a parameter of a route, [:account], matches: one segment, not empty. *)
Fixpoint slash_free (s : string) : bool :=
  match s with
  | String.EmptyString => true
  | String.String c s' => negb (Ascii.eqb c (Ascii.ascii_of_N 47)) && slash_free s'
  end.
Definition segment (s : string) : bool :=
  match s with String.EmptyString => false | _ => slash_free s end.

(** The routes [/nonce/:account], [/state] and [/submit] below [base]. *)
Definition node_get (base url : string) : prog world (result (result string string) ureq_Error) :=
  match strip_prefix (base +:+ "/nonce/") url with
  | Some hex =>
      if segment hex then
        serve (λ r, match r with
                    | Ok text => Ok (Ok text)
                    | Err (c, msg) => Err (Status (status_code c) msg)
                    end) (nonce_handler (mret tt) hex)
      else mret (Err (Status 404 String.EmptyString))
  | None =>
      if decide (url = base +:+ "/state") then serve (λ text, Ok (Ok text)) state_handler
      else mret (Err (Status 404 String.EmptyString))
  end.

Definition node_post (base url : string) (body : bytes) : prog world (result N ureq_Error) :=
  if decide (url = base +:+ "/submit") then
    serve (λ r, match r with
                | Ok c => Ok (status_code c)
                | Err (c, msg) => Err (Status (status_code c) msg)
                end) (submit_handler body)
  else mret (Err (Status 404 String.EmptyString)).

Definition served (base : string) : Ureq world :=
  {| ureq_get := node_get base; ureq_post := node_post base |}.

Lemma string_prefix_app (s t : string) : String.prefix s (s +:+ t) = true.
Proof. induction s as [|c s IH]; simpl; [by destruct t|]. by destruct (Ascii.ascii_dec c c). Qed.

Lemma substring_all (t : string) : String.substring 0 (String.length t) t = t.
Proof. induction t as [|c t IH]; simpl; [done|]. by rewrite IH. Qed.

Lemma substring_app (s t : string) :
  String.substring (String.length s) (String.length (s +:+ t) - String.length s) (s +:+ t) = t.
Proof.
  induction s as [|c s IH]; simpl; [|exact IH].
  rewrite Nat.sub_0_r. apply substring_all.
Qed.

Lemma strip_prefix_app (s t : string) : strip_prefix s (s +:+ t) = Some t.
Proof. unfold strip_prefix. by rewrite string_prefix_app, substring_app. Qed.

Lemma slash_free_app (s t : string) : slash_free (s +:+ t) = slash_free s && slash_free t.
Proof. induction s as [|c s IH]; [done|]. simpl. by rewrite IH, andb_assoc. Qed.

Lemma slash_free_hex (bs : bytes) : slash_free (hex_string bs) = true.
Proof.
  induction bs as [|b bs IH]; [done|]. cbn [hex_string foldr]. rewrite slash_free_app.
  fold (hex_string bs). rewrite IH. by destruct b.
Qed.

Lemma account_segment (a : AccountId) : segment (hex_string (arr_list (as_bytes a))) = true.
Proof.
  unfold segment. pose proof (slash_free_hex (arr_list (as_bytes a))) as Hfree.
  pose proof (length_array (as_bytes a)) as Hlen.
  destruct (arr_list (as_bytes a)) as [|b bs]; [done|]. by destruct b.
Qed.

Lemma string_app_assoc (s t u : string) : (s +:+ t) +:+ u = s +:+ t +:+ u.
Proof.
  induction s as [|c s IH]; [done|].
  change (String.String c ((s +:+ t) +:+ u) = String.String c (s +:+ t +:+ u)). by rewrite IH.
Qed.

Context `{!NodeParamsOk, !Ed25519Ok, !CodecOk types_Extrinsic}.
Context `{!KeyValueStore Store}.
Implicit Types (n : NodeState) (en e : env Store) (kr : AccountKeyring).

(** A node that is ready for an account's next extrinsic. *)
Definition ready_for (a : AccountId) n : Prop :=
  (account_nonce (runtime n) a + N.of_nat (length (pending_of a n)) ≤ umax 32)%N ∧
  consecutive (account_nonce (runtime n) a) (pending_of a n) ∧
  Mempool.max_capacity (mempool n) = None ∧ chan_ext n = [].

(** The client's extrinsic, at the node. *)
Definition submitted kr (call : RuntimeCall) (nc : u32) n : NodeState :=
  let ext := new_signed (signing_key kr) nc call in
  set_chan_ext (chan_ext n ++ [ext])
    (set_chan_pub (chan_pub n ++ [mkPublishReq (topic_hash extrinsic_topic) (encode ext)]) n).

Lemma fetch_nonce_run base kr n en e :
  (account_nonce (runtime n) (public kr) + N.of_nat (length (pending_of (public kr) n)) ≤ umax 32)%N →
  ∃ nc : u32, fetch_nonce (HU := served base) base kr ((n, en), e) = (Done nc, ((n, en), e)) ∧
    uval nc = (account_nonce (runtime n) (public kr) + N.of_nat (length (pending_of (public kr) n)))%N.
Proof.
  intros Hroom.
  destruct (nonce_handler_run (mret (M := prog (NodeState * env Store)) tt) (hex_string (arr_list (as_bytes (public kr))))
    (arr_list (as_bytes (public kr))) (as_bytes (public kr)) n en n en) as (nc & Hreply & Hnc).
  - apply hex_decode_encode.
  - apply array_of_to_list.
  - apply run_ret.
  - by rewrite AccountId32_eta.
  - rewrite AccountId32_eta in Hnc. exists nc. split; [|done].
    unfold fetch_nonce, remote, zoom. unfold mbind at 1, prog_bind at 1. cbn [fst snd ureq_get served].
    unfold node_get. rewrite <- (string_app_assoc base), strip_prefix_app, account_segment.
    unfold serve. rewrite Hreply. unfold mbind, prog_bind, expect, mret, prog_ret.
    by rewrite parse_trim_pretty.
Qed.

Lemma submit_to_node_run base kr (c : RuntimeCall) n en e :
  (account_nonce (runtime n) (public kr) + N.of_nat (length (pending_of (public kr) n)) ≤ umax 32)%N →
  ∃ nc : u32,
    uval nc = (account_nonce (runtime n) (public kr) + N.of_nat (length (pending_of (public kr) n)))%N ∧
    submit_to_node (HU := served base) base kr c ((n, en), e) =
      (Done tt, ((submitted kr c nc n, en), env_print (Println "Submitted (HTTP 202)") e)).
Proof.
  intros Hroom. destruct (fetch_nonce_run base kr n en e Hroom) as (nc & Hfetch & Hnc).
  exists nc. split; [done|]. unfold submit_to_node. unfold mbind at 1, prog_bind at 1. rewrite Hfetch.
  unfold post_extrinsic, remote, zoom. unfold mbind at 1, prog_bind at 1. cbn [fst snd ureq_post served].
  unfold node_post. rewrite decide_True by done. unfold serve, submit_handler.
  by rewrite decode_slice_encode.
Qed.

(** What the node makes of it. *)
Lemma submitted_received kr (c : RuntimeCall) (nc : u32) n en :
  ready_for (public kr) n →
  uval nc = (account_nonce (runtime n) (public kr) + N.of_nat (length (pending_of (public kr) n)))%N →
  let ext := new_signed (signing_key kr) nc c in
  ∃ n', on_recv_ext (submitted kr c nc n, en) = (Done tt, (n', en)) ∧
    Mempool.pending (mempool n') = Mempool.pending (mempool n) ++ [ext] ∧
    consecutive (account_nonce (runtime n') (public kr)) (pending_of (public kr) n').
Proof.
  intros (_ & Hcons & Hcap & Hc) Hnc ext. eexists.
  split; [apply (on_recv_ext_run ext []); [by unfold submitted; simpl; rewrite Hc | exact Hcap]|].
  split; [done|]. unfold pending_of. simpl.
  rewrite filter_app, filter_cons, decide_True, filter_nil by done.
  by apply consecutive_app.
Qed.

(** C25: the client works with the node: a transfer between named accounts, submitted
    to a node with room, is accepted and gossiped, and joins the end of the node's
    pool as a verified extrinsic of the sender with the call and with the nonce that
    extends the sender's run of pending nonces. *)
Theorem submit_transfer_to_node base from to kr kr' amount n en e :
  from_name from = Some kr → from_name to = Some kr' → ready_for (public kr) n →
  ∃ ext n1 n2,
    submit_transfer (HU := served base) from to amount (Some base) ((n, en), e) =
      (Done tt, ((n1, en), env_print (Println "Submitted (HTTP 202)") e)) ∧
    signer ext = public kr ∧ verify ext = Ok tt ∧
    call ext = RuntimeCall_balances (Balances.Call_transfer (public kr') amount) ∧
    chan_pub n1 = chan_pub n ++ [mkPublishReq (topic_hash extrinsic_topic) (encode ext)] ∧
    on_recv_ext (n1, en) = (Done tt, (n2, en)) ∧
    Mempool.pending (mempool n2) = Mempool.pending (mempool n) ++ [ext] ∧
    consecutive (account_nonce (runtime n2) (public kr)) (pending_of (public kr) n2).
Proof.
  intros Hfrom Hto Hready. set (c := RuntimeCall_balances (Balances.Call_transfer (public kr') amount)).
  destruct (submit_to_node_run base kr c n en e (proj1 Hready)) as (nc & Hnc & Hsubmit).
  destruct (submitted_received kr c nc n en Hready Hnc) as (n2 & Hrecv & Hpending & Hcons).
  exists (new_signed (signing_key kr) nc c), (submitted kr c nc n), n2.
  split; [|split; [done | split; [apply verify_new_signed | split; [done | split; [done|]]]]].
  - unfold submit_transfer, named. rewrite Hfrom, Hto. exact Hsubmit.
  - split; [exact Hrecv|]. by split.
Qed.
End served.

(** * The local branches *)

Section local.
Context `{!NodeParams} `{!Ed25519, !Ed25519Ok} `{!RuntimeDebug}.
Context `{!Codec AccountId, !Codec u32, !Codec u128, !Codec string}.
Context `{!CodecOk AccountId, !CodecOk u32, !CodecOk u128, !CodecOk string}.
Context `{!CodecNonEmpty AccountId, !CodecNonEmpty string}.
Context `{!Codec (array 32 * u32 * RuntimeCall)} `{!Codec types_Extrinsic}.
Context {Store : Type} `{!KeyValueStore Store, !KeyValueStoreOk Store, !KvReliable Store}.
Context {W : Type} `{HU : Ureq W}.
Implicit Types (rt : Runtime) (e : env Store) (w : W) (kr : AccountKeyring) (call : RuntimeCall).

(** The runtime with the next height and the account's nonce consumed. *)
Definition next_for (a : AccountId) (b n : u32) rt : Runtime :=
  set_system (System.set_nonce a n (System.set_block_number b (system rt))) rt.

Lemma execute_locally_run kr call rt e :
  (height rt < umax 32)%N → (account_nonce rt (public kr) < umax 32)%N →
  ∃ (b n : u32) e', uval b = (height rt + 1)%N ∧ uval n = (account_nonce rt (public kr) + 1)%N ∧
    execute_locally kr call (rt, e) =
      (Done tt, ((apply_call (public kr) call (next_for (public kr) b n rt)).2, e')) ∧
    (runtime_sound (rt, e) → runtime_sound ((apply_call (public kr) call (next_for (public kr) b n rt)).2, e')).
Proof.
  intros Hh Hn. destruct (checked_add (System.block_number (system rt)) one) as [b|] eqn:Hb.
  2: { apply checked_add_None in Hb. rewrite num_val_one in Hb. unfold height in Hh. simpl in *. lia. }
  set (ext := new_signed (signing_key kr) (System.nonce (system rt) (public kr)) call).
  set (block := mkBlock (mkHeader b) [ext]).
  assert (Hstep : ∃ n : u32, uval n = (account_nonce rt (public kr) + 1)%N ∧ apply_block block rt =
    (Done (Ok tt), (apply_call (public kr) call (next_for (public kr) b n rt)).2)).
  { rewrite (apply_next_block b [ext] rt Hb). unfold mbind, prog_bind. simpl.
    unfold mbind, prog_bind. set (rt1 := set_system _ rt).
    assert (Hacc : accepts rt1 ext) by (split; [apply verify_new_signed | done]).
    destruct (apply_extrinsic_step ext rt1) as [|_ Hmax|n _ Hv].
    - done.
    - exfalso. unfold account_nonce in Hn. simpl in Hmax. lia.
    - by exists n. }
  destruct Hstep as (n & Hnv & Hblock).
  destruct (execute_block_machine block rt e) as [e1 Hexec]. rewrite Hblock in Hexec. simpl in Hexec.
  pose proof Hb as Hbv. apply checked_add_Some in Hbv. rewrite num_val_one in Hbv. simpl in Hbv.
  set (rt2 := (apply_call _ _ _).2) in *.
  exists b, n, (env_print (Println (runtime_debug rt2)) e1).
  split; [done|]. split; [done|]. split.
  - unfold execute_locally. unfold mbind at 1, prog_bind at 1, gets at 1. cbn [fst]. rewrite Hb.
    unfold unwrap, expect. unfold mbind at 1, prog_bind at 1, mret, prog_ret. fold ext. fold block.
    unfold mbind at 1, prog_bind at 1. rewrite Hexec. done.
  - intros Hs. pose proof (execute_block_sound block (rt, e) Hs) as Hs2. by rewrite Hexec in Hs2.
Qed.

Lemma with_runtime_run {A} (m : prog (Runtime * env Store) A) w e r rt' e' :
  m (new (env_kv e), e) = (r, (rt', e')) → with_runtime m (w, e) = (r, (w, e')).
Proof. intros Hm. unfold with_runtime. by rewrite Hm. Qed.

Lemma ten_times (amount : u128) :
  (10 * uval amount ≤ umax 128)%N →
  ∃ funds : u128, uint_of_N (uval amount * uval (u128_of 10)) = Some funds ∧
    uval funds = (10 * uval amount)%N.
Proof.
  intros Hten. assert (H10 : uval (u128_of 10) = 10%N) by by apply uval_uwrap_small.
  rewrite H10. destruct (uint_of_N_lt (w := 128) (uval amount * 10)) as (funds & Hf & Hv).
  - unfold umax in Hten. lia.
  - exists funds. split; [done|]. lia.
Qed.

(** [runtime.balances.set_balance(..)] *)
Lemma fund_run a (funds : u128) rt e :
  runtime_sound (rt, e) →
  ∃ rt1 e1, on_balances (Balances.set_balance a funds) (rt, e) = (Done tt, (rt1, e1)) ∧
    runtime_sound (rt1, e1) ∧ system rt1 = system rt ∧
    balances rt1 = Balances.insert_balance a funds (balances rt).
Proof.
  intros Hs.
  pose proof (on_balances_sound (Balances.set_balance a funds) (Balances.set_balance_synced a funds)
    (Balances.set_balance_leaves a funds) (rt, e) Hs) as Hs1.
  eexists _, _. split; [done|]. split; [exact Hs1 | done].
Qed.

Lemma transfer_from_funds a a' (amount : u128) rt :
  a ≠ a' → (uval amount ≤ account_balance rt a)%N →
  (account_balance rt a' + uval amount ≤ umax 128)%N →
  let rt' := (apply_call a (RuntimeCall_balances (Balances.Call_transfer a' amount)) rt).2 in
  system rt' = system rt ∧
  account_balance rt' a = (account_balance rt a - uval amount)%N ∧
  account_balance rt' a' = (account_balance rt a' + uval amount)%N.
Proof.
  intros Hne Hfunds Hroom. unfold account_balance in *. cbn [apply_call].
  destruct (checked_sub _ _) as [na|] eqn:Hna.
  2: { apply checked_sub_None in Hna. simpl in Hna. lia. }
  destruct (checked_add _ _) as [nb|] eqn:Hnb.
  2: { apply checked_add_None in Hnb. simpl in Hnb. lia. }
  apply checked_sub_Some in Hna. apply checked_add_Some in Hnb. simpl in *.
  rewrite Balances.balance_insert_ne, !Balances.balance_insert by done.
  split; [done|]. split; lia.
Qed.

(** C37: a local transfer is not one-shot: run on the store of a chain, it overwrites
    the sender's persisted balance, whatever it was, with ten times the amount, makes
    the transfer in a block of its own, and leaves the chain one block further, with
    nine times the amount at the sender and its nonce consumed. *)
Theorem local_transfer_overwrites from to kr kr' amount rt w e :
  runtime_sound (rt, e) →
  from_name from = Some kr → from_name to = Some kr' → public kr ≠ public kr' →
  (10 * uval amount ≤ umax 128)%N →
  (account_balance rt (public kr') + uval amount ≤ umax 128)%N →
  (height rt < umax 32)%N → (account_nonce rt (public kr) < umax 32)%N →
  ∃ e', submit_transfer from to amount None (w, e) = (Done tt, (w, e')) ∧
    let rt' := new (env_kv e') in
    height rt' = (height rt + 1)%N ∧
    account_nonce rt' (public kr) = (account_nonce rt (public kr) + 1)%N ∧
    account_balance rt' (public kr) = (9 * uval amount)%N ∧
    account_balance rt' (public kr') = (account_balance rt (public kr') + uval amount)%N.
Proof.
  intros Hsound Hfrom Hto Hne Hten Hroom Hh Hn.
  destruct (new_sound rt e Hsound) as (Hsys & Hbal & _).
  apply new_runtime_sound in Hsound. set (rtl := new (env_kv e)) in *.
  destruct (ten_times amount Hten) as (funds & Hmul & Hfunds).
  destruct (fund_run (public kr) funds rtl e Hsound) as (rt1 & e1 & Hfund & Hs1 & Hsys1 & Hb1).
  rewrite Hsys in Hsys1. rewrite Hbal in Hb1.
  set (call := RuntimeCall_balances (Balances.Call_transfer (public kr') amount)).
  destruct (execute_locally_run kr call rt1 e1) as (b & n & e2 & Hb & Hnv & Hexec & Hs2);
    [unfold height, account_nonce; by rewrite Hsys1..|].
  destruct (transfer_from_funds (public kr) (public kr') amount (next_for (public kr) b n rt1))
    as (Hsys2 & Hfrom2 & Hto2); [done|..].
  { unfold account_balance. simpl. rewrite Hb1, Balances.balance_insert. lia. }
  { unfold account_balance. simpl. by rewrite Hb1, Balances.balance_insert_ne. }
  fold call in Hsys2, Hfrom2, Hto2. set (rt2 := (apply_call _ _ _).2) in *.
  exists e2. split.
  - unfold submit_transfer, named. rewrite Hfrom, Hto. apply (with_runtime_run _ _ _ _ rt2).
    unfold mbind at 1, prog_bind at 1, u128_mul. rewrite Hmul. unfold mret at 1, prog_ret at 1.
    unfold mbind at 1, prog_bind at 1. fold rtl. rewrite Hfund. exact Hexec.
  - destruct (new_sound rt2 e2 (Hs2 Hs1)) as (Hsys3 & Hbal3 & _). cbv zeta.
    unfold height, account_nonce, account_balance in *. rewrite Hsys3, Hbal3, Hsys2, Hfrom2, Hto2. simpl.
    rewrite System.nonce_set_nonce, Hb1, Balances.balance_insert, Balances.balance_insert_ne by done.
    rewrite Hnv, Hsys1. split; [by rewrite Hb, Hsys1|]. split; [done|]. split; [lia | done].
Qed.
End local.
