(* ===== verification/Process.v ===== *)
(** The process around the library: the database path and the lazily opened database of
    [support.rs], and the commands of [main.rs] that work on the database.

    The file system, RocksDB on it, and the parser of multiaddresses are parameters.  The
    commands that submit are [Cli]'s. *)

From S2P Require Export NodeLife Cli.
From S2P Require Mempool System Balances ProofOfExistence.

(** * The file system *)

Class FileSystem (FS DB : Type) := {
  (** [DB::open] with [create_if_missing]. *)
  db_open : string → FS → result DB string * FS;
  (** What an open database at a path leaves there when the process ends. *)
  db_close : string → DB → FS → FS;
  path_exists : string → FS → bool;
  remove_dir_all : string → FS → result unit string * FS
}.

(** What is closed can be read back, what is removed is gone, and a database that did not
    exist is empty when it is opened. *)
Class FileSystemOk (FS DB : Type) `{!FileSystem FS DB} `{!RocksDB DB, !RocksDBOk DB} : Prop := {
  open_close p d fs d' fs' : db_open p (db_close p d fs) = (Ok d', fs') → db_view d' = db_view d;
  open_missing p fs d fs' : path_exists p fs = false → db_open p fs = (Ok d, fs') → db_view d = ∅;
  remove_missing p fs fs' : remove_dir_all p fs = (Ok tt, fs') → path_exists p fs' = false
}.

(** * The statics *)

(** [once_cell]'s [Lazy]: an initialiser that panicked poisons it. *)
Variant lazy_db (DB : Type) :=
| Unopened
| Opened (path : string) (d : DB)
| Poisoned.
Arguments Unopened {DB}.
Arguments Opened {DB} _ _.
Arguments Poisoned {DB}.

(** A process: its statics, the file system, and what it has printed. *)
Record process (FS DB : Type) := mkProcess {
  DB_PATH : option string;
  ROCKS_DB_cell : lazy_db DB;
  file_system : FS;
  printed : list event
}.
Arguments mkProcess {FS DB} _ _ _ _.
Arguments DB_PATH {FS DB} _.
Arguments ROCKS_DB_cell {FS DB} _.
Arguments file_system {FS DB} _.
Arguments printed {FS DB} _.

Section process.
Context {FS DB : Type} `{!FileSystem FS DB} `{!RocksDB DB}.
Implicit Types (s : process FS DB) (p path : string).

#[local] Abbreviation M := (prog (process FS DB)).
#[local] Abbreviation u16 := (uint 16).

Definition init_db_path path : M unit :=
  s ← gets (λ s, s);
  match DB_PATH s with
  | None => modify (λ s, mkProcess (Some path) (ROCKS_DB_cell s) (file_system s) (printed s))
  | Some _ => panic "DB path already initialised — call init_db_path before any storage operation"
  end.

Definition db_path s : string := default "state.db" (DB_PATH s).

(** A use of [ROCKS_DB]: the first one opens the database. *)
Definition force_db : M DB :=
  s ← gets (λ s, s);
  match ROCKS_DB_cell s with
  | Opened _ d => mret d
  | Poisoned => panic "Lazy instance has previously been poisoned"
  | Unopened =>
      match db_open (db_path s) (file_system s) with
      | (Ok d, fs) =>
          modify (λ s, mkProcess (DB_PATH s) (Opened (db_path s) d) fs (printed s));;
          mret d
      | (Err e, fs) =>
          modify (λ s, mkProcess (DB_PATH s) Poisoned fs (printed s));;
          panic ("failed to open RocksDB at '" +:+ db_path s +:+ "': " +:+ e)
      end
  end.

Definition print (ev : event) : M unit :=
  modify (λ s, mkProcess (DB_PATH s) (ROCKS_DB_cell s) (file_system s) (printed s ++ [ev])).

(** A computation with the environment of the pallets: the database, which it opens, and
    the output. *)
Definition with_env {A} (m : env (RocksDbStore DB) → outcome A * env (RocksDbStore DB)) : M A :=
  d ← force_db;
  λ s,
    let '(r, e) := m (Env (mkRocksDbStore d) (printed s)) in
    (r, mkProcess (DB_PATH s)
          (match ROCKS_DB_cell s with
           | Opened path _ => Opened path (ROCKS_DB (env_kv e))
           | cell => cell
           end) (file_system s) (env_out e)).

(** * The commands *)

Inductive Commands : Type :=
| Start (port : u16) (peer : option string) (rpc_port : option u16) (path : option string)
| State (path : option string)
| Reset (path : option string)
| SubmitTransfer (from to : string) (amount : Balance) (node : option string)
| SubmitClaim (account claim : string) (node : option string).

Definition init_path_option (path : option string) : M unit :=
  match path with Some path => init_db_path path | None => mret tt end.

Context `{!NodeParams} `{!Ed25519} `{!RuntimeDebug}.
Context `{!Codec AccountId, !Codec u32, !Codec u128, !Codec string}.
Context `{!Codec (array 32 * u32 * RuntimeCall)}.
Context `{!Codec types_Extrinsic, !Codec types_Block}.

(** [Multiaddr]'s [from_str]. *)
Context {Multiaddr : Type} (parse_multiaddr : string → option Multiaddr).

(** The [Start] command, up to the tasks: the node's state, with its peer id. *)
Definition start_command (peer path : option string) (my_peer_id : PeerId) : M NodeState :=
  init_path_option path;;
  match peer with
  | Some addr => expect (parse_multiaddr addr) "invalid multiaddr";; mret tt
  | None => mret tt
  end;;
  with_env (λ e,
    match run_init my_peer_id e with
    | (Done _, (n, e')) => (Done n, e')
    | (Panicked msg, (_, e')) => (Panicked msg, e')
    end).

(** The tasks of the node that has been started, on some events. *)
Definition node_command (peer path : option string) (my_peer_id : PeerId) (evs : list node_event) :
    M NodeState :=
  n ← start_command peer path my_peer_id;
  with_env (λ e, let '(n', e') := run_events my_peer_id evs (n, e) in (Done n', e')).

Definition state_command (path : option string) : M unit :=
  init_path_option path;;
  with_env (λ e,
    let runtime := new (env_kv e) in
    (Done tt, env_print (Println (runtime_debug runtime)) e)).

Definition reset_command (path : option string) : M unit :=
  let path := default "state.db" path in
  s ← gets (λ s, s);
  if path_exists path (file_system s) then
    match remove_dir_all path (file_system s) with
    | (Ok _, fs) =>
        modify (λ s, mkProcess (DB_PATH s) (ROCKS_DB_cell s) fs (printed s))
    | (Err e, fs) =>
        modify (λ s, mkProcess (DB_PATH s) (ROCKS_DB_cell s) fs (printed s));;
        print (Eprintln ("failed to delete '" +:+ path +:+ "': " +:+ e))
    end;;
    print (Println ("Reset: deleted '" +:+ path +:+ "'"))
  else print (Println ("Nothing to reset — '" +:+ path +:+ "' does not exist")).

(** [main]: [Start] with what its tasks handle before the process ends; the submitting
    commands are the client's. *)
Definition main (submit_transfer : string → string → Balance → option string → M unit)
    (submit_claim : string → string → option string → M unit)
    (my_peer_id : PeerId) (evs : list node_event) (command : Commands) : M unit :=
  match command with
  | Start _ peer _ path => node_command peer path my_peer_id evs;; mret tt
  | State path => state_command path
  | Reset path => reset_command path
  | SubmitTransfer from to amount node => submit_transfer from to amount node
  | SubmitClaim account claim node => submit_claim account claim node
  end.

(** ** A process from start to end *)

Definition new_process (fs : FS) : process FS DB := mkProcess None Unopened fs [].

Definition exit s : FS :=
  match ROCKS_DB_cell s with
  | Opened path d => db_close path d (file_system s)
  | _ => file_system s
  end.

(** * What holds of them *)

(** The process with another database, file system or output. *)
Definition with_db path d fs out s : process FS DB := mkProcess (DB_PATH s) (Opened path d) fs out.

Lemma init_path_option_new (path : option string) fs :
  init_path_option path (new_process fs) =
    (Done tt, mkProcess path Unopened fs []).
Proof. by destruct path. Qed.

Lemma with_env_opened {A} (m : env (RocksDbStore DB) → outcome A * env (RocksDbStore DB)) s path d :
  ROCKS_DB_cell s = Opened path d →
  with_env m s =
    let '(r, e) := m (Env (mkRocksDbStore d) (printed s)) in
    (r, with_db path (ROCKS_DB (env_kv e)) (file_system s) (env_out e) s).
Proof.
  intros Hcell. unfold with_env, force_db, mbind, prog_bind, gets. rewrite Hcell. simpl.
  rewrite Hcell. by destruct (m _).
Qed.

Lemma with_env_unopened {A} (m : env (RocksDbStore DB) → outcome A * env (RocksDbStore DB)) s d fs :
  ROCKS_DB_cell s = Unopened → db_open (db_path s) (file_system s) = (Ok d, fs) →
  with_env m s =
    let '(r, e) := m (Env (mkRocksDbStore d) (printed s)) in
    (r, with_db (db_path s) (ROCKS_DB (env_kv e)) fs (env_out e) s).
Proof.
  intros Hcell Hopen. unfold with_env, force_db, mbind, prog_bind, gets. rewrite Hcell, Hopen. simpl.
  by destruct (m _).
Qed.

Lemma with_env_failed {A} (m : env (RocksDbStore DB) → outcome A * env (RocksDbStore DB)) s err fs :
  ROCKS_DB_cell s = Unopened → db_open (db_path s) (file_system s) = (Err err, fs) →
  ∃ msg s', with_env m s = (Panicked msg, s').
Proof.
  intros Hcell Hopen. unfold with_env, force_db, mbind, prog_bind, gets. rewrite Hcell, Hopen. simpl.
  by eexists _, _.
Qed.

(** ** The path *)

(** The path is fixed by the first use of the database, and nobody is told: after a
    first use without a path, [init_db_path] succeeds and [db_path] answers the new path,
    but every later use is of the database that was opened at the default path. *)
Theorem init_after_open_ignored {A} (m : env (RocksDbStore DB) → outcome A * env (RocksDbStore DB)) path fs d fs' :
  db_open "state.db" fs = (Ok d, fs') →
  ∃ s1 s2, force_db (new_process fs) = (Done d, s1) ∧ init_db_path path s1 = (Done tt, s2) ∧
    db_path s2 = path ∧ ROCKS_DB_cell s2 = Opened "state.db" d ∧
    ROCKS_DB_cell (with_env m s2).2 = Opened "state.db"
      (ROCKS_DB (env_kv (m (Env (mkRocksDbStore d) (printed s2))).2)).
Proof.
  intros Hopen. exists (mkProcess None (Opened "state.db" d) fs' []).
  exists (mkProcess (Some path) (Opened "state.db" d) fs' []).
  split; [unfold force_db, db_path, new_process, mbind, prog_bind, gets; simpl; by rewrite Hopen|].
  do 3 (split; [done|]). rewrite (with_env_opened m _ "state.db" d) by done. by destruct (m _) as [r e].
Qed.

(** ** Reset *)

(** C28: [reset] says that it has deleted the database even if that failed: the error goes
    to the error output, and the report of success follows. *)
Theorem reset_reports_success_on_failure (path : option string) s err fs :
  path_exists (default "state.db" path) (file_system s) = true →
  remove_dir_all (default "state.db" path) (file_system s) = (Err err, fs) →
  reset_command path s =
    (Done tt, mkProcess (DB_PATH s) (ROCKS_DB_cell s) fs (printed s ++
      [Eprintln ("failed to delete '" +:+ default "state.db" path +:+ "': " +:+ err);
       Println ("Reset: deleted '" +:+ default "state.db" path +:+ "'")])).
Proof.
  intros Hex Hrm. unfold reset_command, print, modify, mbind, prog_bind, gets. rewrite Hex, Hrm. simpl.
  by rewrite <- (assoc_L (++)).
Qed.

Context `{!RocksDBOk DB, !FileSystemOk FS DB}.
Context `{!CodecOk AccountId, !CodecOk u32, !CodecOk u128, !CodecOk string}.
Context `{!CodecNonEmpty AccountId, !CodecNonEmpty string}.

Lemma reset_removes (path : option string) s s' :
  reset_command path s = (Done tt, s') →
  (∀ err fs, remove_dir_all (default "state.db" path) (file_system s) ≠ (Err err, fs)) →
  path_exists (default "state.db" path) (file_system s') = false.
Proof.
  intros Hrun Hok. unfold reset_command, print, modify, mbind, prog_bind, gets in Hrun.
  destruct (path_exists _ (file_system s)) eqn:Hex; [|by injection Hrun as <-].
  destruct (remove_dir_all _ (file_system s)) as [[[]|err] fs] eqn:Hrm; [|by destruct (Hok err fs)].
  injection Hrun as <-. by eapply remove_missing.
Qed.

Lemma state_command_run (path : option string) fs s' :
  state_command path (new_process fs) = (Done tt, s') →
  ∃ d fs', db_open (default "state.db" path) fs = (Ok d, fs') ∧
    printed s' = [Println (runtime_debug (new (mkRocksDbStore d)))].
Proof.
  unfold state_command. unfold mbind at 1, prog_bind at 1. rewrite init_path_option_new.
  set (s := mkProcess path Unopened fs []). intros Hrun.
  destruct (db_open (db_path s) (file_system s)) as [[d|err] fs'] eqn:Hopen.
  - exists d, fs'. split; [done|]. rewrite (with_env_unopened _ s d fs') in Hrun by done.
    simpl in Hrun. by injection Hrun as <-.
  - destruct (with_env_failed (λ e, (Done tt, env_print (Println (runtime_debug (new (env_kv e)))) e))
      s err fs' eq_refl Hopen) as (msg & s'' & Hfail). congruence.
Qed.

(** A reset chain is new: after a [reset] whose removal did not fail, the [state] that
    the next process prints for the same path is that of the empty runtime. *)
Theorem reset_then_state (path : option string) fs s1 s2 :
  reset_command path (new_process fs) = (Done tt, s1) →
  (∀ err fs', remove_dir_all (default "state.db" path) fs ≠ (Err err, fs')) →
  state_command path (new_process (exit s1)) = (Done tt, s2) →
  printed s2 = [Println (runtime_debug empty_runtime)].
Proof.
  intros Hreset Hok Hstate. pose proof (reset_removes path _ _ Hreset Hok) as Hmissing.
  destruct (state_command_run path _ _ Hstate) as (d & fs' & Hopen & ->).
  assert (Hexit : exit s1 = file_system s1).
  { unfold reset_command, print, modify, mbind, prog_bind, gets in Hreset.
    destruct (path_exists _ _); [|by injection Hreset as <-].
    destruct (remove_dir_all _ _) as [[[]|err] fs1]; by injection Hreset as <-. }
  rewrite Hexit in Hopen. do 3 f_equal.
  apply (new_empty (Env (mkRocksDbStore d) [])). exact (open_missing _ _ _ _ Hmissing Hopen).
Qed.

(** ** A node's life on disk *)

Context `{!KvReliable (RocksDbStore DB)}.

Lemma start_command_run peer (path : option string) me fs n s1 :
  start_command peer path me (new_process fs) = (Done n, s1) →
  ∃ d fs' e, db_open (default "state.db" path) fs = (Ok d, fs') ∧
    run_init me (Env (mkRocksDbStore d) []) = (Done tt, (n, e)) ∧
    s1 = mkProcess path (Opened (default "state.db" path) (ROCKS_DB (env_kv e))) fs' (env_out e).
Proof.
  unfold start_command. rewrite (run_bind_done _ _ _ _ _ (init_path_option_new path fs)).
  set (s := mkProcess path Unopened fs []).
  destruct (match peer with
      | Some addr => expect (parse_multiaddr addr) "invalid multiaddr";; mret tt
      | None => mret tt end s) as [[[]|msg] s0] eqn:Hpeer; [|by rewrite (run_bind_panicked _ _ _ _ _ Hpeer)].
  rewrite (run_bind_done _ _ _ _ _ Hpeer). assert (s0 = s) as ->.
  { destruct peer as [addr|]; [|by injection Hpeer]. unfold mbind, prog_bind, expect in Hpeer.
    destruct (parse_multiaddr addr); by injection Hpeer. }
  intros Hrun. destruct (db_open (db_path s) (file_system s)) as [[d|err] fs'] eqn:Hopen.
  - rewrite (with_env_unopened _ s d fs') in Hrun by done. cbn [printed s] in Hrun.
    destruct (run_init me _) as [[[]|msg] [n' e]] eqn:Hinit; [|done]. injection Hrun as <- <-.
    by exists d, fs', e.
  - destruct (with_env_failed (λ e, match run_init me e with
        | (Done _, (n, e')) => (Done n, e')
        | (Panicked msg, (_, e')) => (Panicked msg, e')
        end) s err fs' eq_refl Hopen) as (msg & s' & Hfail). congruence.
Qed.

Lemma node_command_run peer (path : option string) me evs fs n s' :
  node_command peer path me evs (new_process fs) = (Done n, s') →
  ∃ d fs', db_open (default "state.db" path) fs = (Ok d, fs') ∧
    let last := run_events me evs (run_init me (Env (mkRocksDbStore d) [])).2 in
    n = last.1 ∧ exit s' = db_close (default "state.db" path) (ROCKS_DB (env_kv last.2)) fs'.
Proof.
  unfold node_command. destruct (start_command peer path me (new_process fs)) as [[n0|msg] s1] eqn:Hstart;
    [|by rewrite (run_bind_panicked _ _ _ _ _ Hstart)].
  rewrite (run_bind_done _ _ _ _ _ Hstart). intros Hrun.
  destruct (start_command_run _ _ _ _ _ _ Hstart) as (d & fs' & e & Hopen & Hinit & ->).
  exists d, fs'. split; [done|]. rewrite Hinit. cbn [snd].
  rewrite (with_env_opened _ _ (default "state.db" path) (ROCKS_DB (env_kv e))) in Hrun by done.
  cbn [printed file_system] in Hrun.
  assert (He : Env (mkRocksDbStore (ROCKS_DB (env_kv e))) (env_out e) = e) by by destruct e as [[]].
  rewrite He in Hrun. destruct (run_events me evs (n0, e)) as [n' e'] eqn:Hevs. by injection Hrun as <- <-.
Qed.

(** C14: what a node has reached is what the next process finds: start a node on a path
    whose database is empty or was left by a node, let it handle any events, and end the
    process; the [state] that another process prints for that path is that of a runtime
    with the node's height, nonces and balances, and no claim the node did not have. *)
Theorem state_after_node peer (path : option string) me evs fs n s1 s2 :
  (∀ d fs', db_open (default "state.db" path) fs = (Ok d, fs') → startable (Env (mkRocksDbStore d) [])) →
  node_command peer path me evs (new_process fs) = (Done n, s1) →
  state_command path (new_process (exit s1)) = (Done tt, s2) →
  ∃ rt, printed s2 = [Println (runtime_debug rt)] ∧
    system rt = system (runtime n) ∧ balances rt = balances (runtime n) ∧
    ∀ c o, claim_owner rt c = Some o → claim_owner (runtime n) c = Some o.
Proof.
  intros Hstartable Hnode Hstate.
  destruct (node_command_run _ _ _ _ _ _ _ Hnode) as (d & fs' & Hopen & -> & Hexit).
  destruct (state_command_run _ _ _ Hstate) as (d' & fs'' & Hopen' & ->).
  pose proof (run_events_sound me evs _ (Hstartable d fs' Hopen)) as Hsound.
  set (last := run_events me evs _) in *. rewrite Hexit in Hopen'. apply open_close in Hopen'.
  exists (new (mkRocksDbStore d')). split; [done|].
  apply (new_sound (runtime last.1) (Env (mkRocksDbStore d') [])).
  unfold runtime_sound in *. cbn [fst snd] in *. unfold persisted. cbn [env_kv]. change (kv_view _) with (db_view d').
  by rewrite Hopen'.
Qed.
End process.
