(* ===== verification/Reference.v ===== *)
(** Concrete instances of the third-party interfaces, to evaluate the model on
    closed inputs and to show that the hypotheses on those interfaces can hold.
    None of the theorems depends on the choices made here. *)

From S2P Require Export Runtime Node.
From S2P Require System Balances ProofOfExistence.

(** * Codec combinators *)

Definition pair_codec {A B} `{!Codec A, !Codec B} : Codec (A * B) := {|
  encode x := encode x.1 ++ encode x.2;
  decode bs := '(a, bs) ← decode bs; '(b, bs) ← decode bs; Some ((a, b), bs)
|}.

Definition sum_codec {A B} `{!Codec A, !Codec B} : Codec (A + B) := {|
  encode x := match x with inl a => x00 :: encode a | inr b => x01 :: encode b end;
  decode bs :=
    match bs with
    | x00 :: bs => '(a, bs) ← decode bs; Some (inl a, bs)
    | x01 :: bs => '(b, bs) ← decode bs; Some (inr b, bs)
    | _ => None
    end
|}.

Definition iso_codec {A B} `{!Codec A} (f : B → A) (g : A → B) : Codec B := {|
  encode b := encode (f b);
  decode bs := '(a, bs) ← decode bs; Some (g a, bs)
|}.

(** A list: each element behind a 1, closed by a 0.  Fuel is the input's length. *)
Fixpoint decode_list {A} `{!Codec A} (fuel : nat) (bs : bytes) : option (list A * bytes) :=
  match fuel, bs with
  | S fuel', x01 :: bs => '(a, bs) ← decode bs; '(l, bs) ← decode_list fuel' bs; Some (a :: l, bs)
  | S _, x00 :: bs => Some ([], bs)
  | _, _ => None
  end.

Definition list_codec {A} `{!Codec A} : Codec (list A) := {|
  encode l := foldr (λ a bs, x01 :: encode a ++ bs) [x00] l;
  decode bs := decode_list (length bs) bs
|}.

Section combinators.
Context {A B : Type} `{!Codec A, !Codec B, !CodecOk A, !CodecOk B}.

Lemma pair_codec_ok : @CodecOk (A * B) pair_codec.
Proof.
  intros [a b] rest. simpl. by rewrite <- (assoc_L (++)), decode_encode; simpl; rewrite decode_encode.
Qed.

Lemma sum_codec_ok : @CodecOk (A + B) sum_codec.
Proof. intros [a|b] rest; simpl; by rewrite decode_encode. Qed.

Lemma iso_codec_ok (f : B → A) (g : A → B) :
  (∀ b, g (f b) = b) → @CodecOk B (iso_codec f g).
Proof. intros Hgf b rest. simpl. rewrite decode_encode. simpl. by rewrite Hgf. Qed.

Lemma decode_list_encode (l : list A) (rest : bytes) (fuel : nat) :
  length (encode (Codec := list_codec) l) ≤ fuel →
  decode_list fuel (encode (Codec := list_codec) l ++ rest) = Some (l, rest).
Proof.
  revert fuel. induction l as [|a l IH]; intros fuel Hfuel; simpl in *.
  - destruct fuel; [lia | done].
  - destruct fuel as [|fuel]; [lia|]. simpl.
    rewrite <- (assoc_L (++)), decode_encode. simpl.
    rewrite IH; [done|]. rewrite length_app in Hfuel. simpl. lia.
Qed.

Lemma list_codec_ok : @CodecOk (list A) list_codec.
Proof.
  intros l rest. change (decode_list (length (encode (Codec := list_codec) l ++ rest))
    (encode (Codec := list_codec) l ++ rest) = Some (l, rest)).
  apply decode_list_encode. rewrite length_app. lia.
Qed.
End combinators.

(** * Base codecs *)

#[export] Instance byte_codec : Codec byte := {|
  encode b := [b];
  decode bs := match bs with b :: bs => Some (b, bs) | [] => None end
|}.
#[export] Instance byte_codec_ok : CodecOk byte.
Proof. done. Qed.

Definition array_codec (n : nat) : Codec (array n) := {|
  encode a := arr_list a;
  decode bs := a ← array_of_list (take n bs); Some (a, drop n bs)
|}.

Lemma array_codec_ok n : @CodecOk (array n) (array_codec n).
Proof.
  intros a rest. simpl. rewrite take_app_length' by by rewrite length_array.
  rewrite array_of_to_list. simpl. by rewrite drop_app_length' by by rewrite length_array.
Qed.

(** Little-endian digits. *)
Fixpoint le_encode (k : nat) (n : N) : bytes :=
  match k with 0 => [] | S k' => byte_of_N (n mod 256) :: le_encode k' (n / 256) end.

Fixpoint le_decode (bs : bytes) : N :=
  match bs with [] => 0%N | b :: bs' => (Byte.to_N b + 256 * le_decode bs')%N end.

Lemma length_le_encode k n : length (le_encode k n) = k.
Proof. revert n. induction k as [|k IH]; intros n; simpl; [done | by rewrite IH]. Qed.

Lemma le_decode_encode k n : (n < 256 ^ N.of_nat k)%N → le_decode (le_encode k n) = n.
Proof.
  revert n. induction k as [|k IH]; intros n Hn; cbn [le_encode le_decode].
  - simpl in Hn. lia.
  - rewrite Nat2N.inj_succ, N.pow_succ_r in Hn by lia.
    rewrite to_N_byte_of_N by (apply N.mod_lt; lia).
    rewrite IH by (apply N.Div0.div_lt_upper_bound; lia).
    pose proof (N.div_mod' n 256). lia.
Qed.

Definition uint_codec (k : nat) : Codec (uint (8 * N.of_nat k)) := {|
  encode a := le_encode k (uval a);
  decode bs :=
    if (length (take k bs) =? k)%nat
    then a ← uint_of_N (le_decode (take k bs)); Some (a, drop k bs)
    else None
|}.

Lemma uint_codec_ok k : @CodecOk (uint (8 * N.of_nat k)) (uint_codec k).
Proof.
  intros a rest. simpl. rewrite take_app_length' by by rewrite length_le_encode.
  rewrite length_le_encode, Nat.eqb_refl, le_decode_encode.
  - rewrite uint_of_to_N. simpl. by rewrite drop_app_length' by by rewrite length_le_encode.
  - pose proof (uval_lt a) as Ha. by rewrite N.pow_mul_r in Ha.
Qed.

(** * The codecs of the program's types *)

#[export] Instance u32_codec : Codec u32 := uint_codec 4.
#[export] Instance u32_codec_ok : CodecOk u32 := uint_codec_ok 4.
#[export] Instance u128_codec : Codec u128 := uint_codec 16.
#[export] Instance u128_codec_ok : CodecOk u128 := uint_codec_ok 16.
#[export] Instance array32_codec : Codec (array 32) := array_codec 32.
#[export] Instance array32_codec_ok : CodecOk (array 32) := array_codec_ok 32.
#[export] Instance array64_codec : Codec (array 64) := array_codec 64.
#[export] Instance array64_codec_ok : CodecOk (array 64) := array_codec_ok 64.

#[export] Instance account_codec : Codec AccountId32 := iso_codec as_bytes mkAccountId32.
#[export] Instance account_codec_ok : CodecOk AccountId32.
Proof. apply iso_codec_ok, AccountId32_eta. Qed.
#[export] Instance account_codec_nonempty : CodecNonEmpty AccountId32.
Proof.
  intros a Ha. pose proof (length_array (as_bytes a)) as Hl. simpl in Ha. by rewrite Ha in Hl.
Qed.

#[export] Instance bytes_codec : Codec bytes := list_codec.
#[export] Instance bytes_codec_ok : CodecOk bytes := list_codec_ok.

#[export] Instance string_codec : Codec string :=
  iso_codec bytes_of_string String.string_of_list_byte.
#[export] Instance string_codec_ok : CodecOk string.
Proof. apply iso_codec_ok, String.string_of_list_byte_of_string. Qed.
#[export] Instance string_codec_nonempty : CodecNonEmpty string.
Proof. intros s. simpl. by destruct (bytes_of_string s). Qed.

Definition call_to_sum (c : RuntimeCall) : (AccountId32 * u128) + (string + string) :=
  match c with
  | RuntimeCall_balances (Balances.Call_transfer to amount) => inl (to, amount)
  | RuntimeCall_proof_of_existence (ProofOfExistence.Call_create_claim c) => inr (inl c)
  | RuntimeCall_proof_of_existence (ProofOfExistence.Call_revoke_claim c) => inr (inr c)
  end.

Definition call_of_sum (x : (AccountId32 * u128) + (string + string)) : RuntimeCall :=
  match x with
  | inl (to, amount) => RuntimeCall_balances (Balances.Call_transfer to amount)
  | inr (inl c) => RuntimeCall_proof_of_existence (ProofOfExistence.Call_create_claim c)
  | inr (inr c) => RuntimeCall_proof_of_existence (ProofOfExistence.Call_revoke_claim c)
  end.

#[export] Instance call_codec : Codec RuntimeCall :=
  @iso_codec _ _ (@sum_codec _ _ pair_codec sum_codec) call_to_sum call_of_sum.
#[export] Instance call_codec_ok : CodecOk RuntimeCall.
Proof.
  apply (@iso_codec_ok _ _ _ (@sum_codec_ok _ _ _ _ pair_codec_ok sum_codec_ok)).
  by intros [[]|[]].
Qed.

#[export] Instance payload_codec : Codec (array 32 * u32 * RuntimeCall) :=
  @pair_codec _ _ pair_codec _.
#[export] Instance payload_codec_ok : CodecOk (array 32 * u32 * RuntimeCall) :=
  @pair_codec_ok _ _ _ _ pair_codec_ok _.

Definition extrinsic_to_tuple (x : types_Extrinsic) : AccountId32 * (array 64 * (u32 * RuntimeCall)) :=
  (signer x, (signature x, (nonce x, call x))).
Definition extrinsic_of_tuple (t : AccountId32 * (array 64 * (u32 * RuntimeCall))) : types_Extrinsic :=
  mkExtrinsic t.1 t.2.1 t.2.2.1 t.2.2.2.

#[export] Instance extrinsic_codec : Codec types_Extrinsic :=
  @iso_codec _ _ (@pair_codec _ _ _ (@pair_codec _ _ _ pair_codec))
    extrinsic_to_tuple extrinsic_of_tuple.
#[export] Instance extrinsic_codec_ok : CodecOk types_Extrinsic.
Proof.
  apply (@iso_codec_ok _ _ _
    (@pair_codec_ok _ _ _ _ _ (@pair_codec_ok _ _ _ _ _ pair_codec_ok))). by intros [].
Qed.

Definition block_to_tuple (x : types_Block) : u32 * list types_Extrinsic :=
  (block_number (header x), extrinsics x).
Definition block_of_tuple (t : u32 * list types_Extrinsic) : types_Block :=
  mkBlock (mkHeader t.1) t.2.

#[export] Instance block_codec : Codec types_Block :=
  @iso_codec _ _ (@pair_codec _ _ _ list_codec) block_to_tuple block_of_tuple.
#[export] Instance block_codec_ok : CodecOk types_Block.
Proof.
  apply (@iso_codec_ok _ _ _ (@pair_codec_ok _ _ _ _ _ list_codec_ok)). by intros [[]].
Qed.

(** * A signature scheme

    Keys are their seeds, and a signature is the key followed by a checksum of the
    message: correct, deterministic, and of course not secure. *)

Definition checksum (key msg : bytes) : N :=
  foldl (λ acc b, ((acc * 257 + Byte.to_N b + 1) mod 2 ^ 61)%N) 7%N (key ++ msg).

Definition reference_sign (key : array 32) (msg : bytes) : array 64 :=
  let l := arr_list key ++ le_encode 32 (checksum (arr_list key) msg) in
  match array_of_list l with Some a => a | None => @Arr 64 (replicate 64 x00) eq_refl end.

#[export] Instance reference_ed25519 : Ed25519 := {|
  SigningKey := array 32;
  VerifyingKey := array 32;
  signing_key_from_bytes seed := seed;
  verifying_key sk := sk;
  verifying_key_bytes vk := vk;
  verifying_key_from_bytes bs := Some bs;
  sign := reference_sign;
  verify_signature vk msg sig := bool_decide (sig = reference_sign vk msg)
|}.

#[export] Instance reference_ed25519_ok : Ed25519Ok.
Proof. split; simpl; [done|]. intros sk msg. by apply bool_decide_eq_true. Qed.

(** * The network

    Peers are numbers, topics are their own hashes, and maps are visited in the order
    of their trees. *)

#[export] Instance N_ord : Ord N := N.ltb.
#[export] Instance N_ord_ok : OrdOk N.
Proof.
  split; unfold ltb, N_ord.
  - intros x. by apply N.ltb_irrefl.
  - intros x y z. rewrite !N.ltb_lt. lia.
  - intros x y. rewrite !N.ltb_lt. lia.
Qed.

Definition hex_nibble (c : Ascii.ascii) : option N :=
  let n := Ascii.N_of_ascii c in
  if ((48 <=? n) && (n <=? 57))%N then Some (n - 48)%N
  else if ((97 <=? n) && (n <=? 102))%N then Some (n - 87)%N
  else if ((65 <=? n) && (n <=? 70))%N then Some (n - 55)%N
  else None.

Fixpoint hex_decode_string (s : string) : option bytes :=
  match s with
  | String.EmptyString => Some []
  | String.String a (String.String b s') =>
      hi ← hex_nibble a; lo ← hex_nibble b; bs ← hex_decode_string s';
      Some (byte_of_N (16 * hi + lo) :: bs)
  | _ => None
  end.

#[export] Instance reference_node : NodeParams := {|
  PeerId := N;
  peer_display := pretty.pretty;
  to_base58 := pretty.pretty;
  topic_hash s := s;
  hex_decode s := match hex_decode_string s with Some bs => Ok bs | None => Err "bad hex" end;
  hash_iter := map_to_list;
  overflow_checks := true
|}.

Lemma hex_decode_byte b s :
  hex_decode_string (byte_hex b +:+ s) = (λ bs, b :: bs) <$> hex_decode_string s.
Proof.
  assert (Hb : match byte_hex b with
    | String.String c1 (String.String c2 String.EmptyString) =>
        match hex_nibble c1, hex_nibble c2 with
        | Some hi, Some lo => byte_of_N (16 * hi + lo) = b
        | _, _ => False
        end
    | _ => False
    end) by by destruct b; vm_compute.
  destruct (byte_hex b) as [|c1 [|c2 [|]]]; try done. simpl.
  destruct (hex_nibble c1) as [hi|]; [|done]. destruct (hex_nibble c2) as [lo|]; [|done].
  simpl. rewrite Hb. change (String.EmptyString +:+ s) with s. by destruct (hex_decode_string s).
Qed.

Lemma hex_decode_string_encode (bs : bytes) : hex_decode_string (hex_string bs) = Some bs.
Proof.
  induction bs as [|b bs IH]; [done|]. cbn [hex_string foldr]. rewrite hex_decode_byte.
  fold (hex_string bs). by rewrite IH.
Qed.

#[export] Instance reference_node_ok : NodeParamsOk.
Proof.
  split; [apply N_ord_ok | done | | done].
  intros bs. simpl. by rewrite hex_decode_string_encode.
Qed.

(** * An evaluation *)

Definition transfer_call (to : AccountId32) (amount : N) : RuntimeCall :=
  RuntimeCall_balances (Balances.Call_transfer to (u128_of amount)).
Definition create_call (c : string) : RuntimeCall :=
  RuntimeCall_proof_of_existence (ProofOfExistence.Call_create_claim c).
Definition revoke_call (c : string) : RuntimeCall :=
  RuntimeCall_proof_of_existence (ProofOfExistence.Call_revoke_claim c).

Definition signed (k : AccountKeyring) (n : N) (c : RuntimeCall) : types_Extrinsic :=
  new_signed (signing_key k : SigningKey) (u32_of n) c.

Definition block_of (n : N) (exts : list types_Extrinsic) : types_Block :=
  mkBlock (mkHeader (u32_of n)) exts.

(** A fresh chain: an empty store, the genesis applied. *)
Definition fresh_env : env MemStore := Env (mkMemStore ∅) [].
Definition genesis_state : Runtime * env MemStore :=
  (maybe_apply_genesis (new (env_kv fresh_env), fresh_env)).2.
