(* ===== verification/Witnesses.v ===== *)
(** The theorems at concrete inputs: for each theorem with hypotheses, an instance
    on the reference codecs, signature scheme and store of [Reference] in which the
    hypotheses hold. *)

From S2P Require Export Cli NodeLife Reference.
From S2P Require Mempool System Balances ProofOfExistence.

(** * Inputs *)

Abbreviation alice := (public Alice).
Abbreviation bob := (public Bob).
Abbreviation charlie := (public Charlie).

(** The genesis runtime and the store it left. *)
Definition rt0 : Runtime := genesis_state.1.
Definition e0 : env MemStore := genesis_state.2.

(** An extrinsic that names Alice but carries a signature of Bob's. *)
Definition forged : types_Extrinsic :=
  mkExtrinsic alice (signature (signed Bob 0 (transfer_call bob 5))) (u32_of 0) (transfer_call bob 5).

Lemma fresh_nonce rt a : System.pallet_nonce (system rt) = ∅ → account_nonce rt a = 0%N.
Proof. intros H. unfold account_nonce, System.nonce. by rewrite H, lookup_empty. Qed.

Lemma rt0_nonce a : account_nonce rt0 a = 0%N.
Proof. apply fresh_nonce. by vm_compute. Qed.

Lemma rt0_height : height rt0 = 1%N.
Proof. by vm_compute. Qed.

Lemma alice_ne_bob : alice ≠ bob.
Proof. apply (bool_decide_eq_false_1 _). by vm_compute. Qed.

Lemma genesis_state_sound : runtime_sound (rt0, e0).
Proof.
  pose proof (genesis_sound (new (env_kv fresh_env), fresh_env)
    (empty_runtime_sound fresh_env eq_refl)) as H.
  unfold rt0, e0, genesis_state. by destruct (maybe_apply_genesis _).2.
Qed.

(** * Pallets *)

Lemma inc_nonce_spec_witness :
  ∃ p' e', System.inc_nonce alice (system rt0, e0) = (Done tt, (p', e')) ∧
    uval (System.nonce p' alice) = 1%N.
Proof.
  destruct (System.inc_nonce_spec (BlockNumber := u32) alice (system rt0) e0)
    as (p' & e' & H1 & H2 & _).
  exists p', e'. split; [exact H1 | exact H2].
Defined.

Lemma transfer_refines_ledger_witness :
  alice ≠ bob ∧ ∃ p' e', Balances.transfer alice bob (u128_of 10) (balances rt0, e0) = (Done (Ok tt), (p', e')) ∧
    num_val (Balances.balance p' bob) = 1000010%N.
Proof.
  split; [exact alice_ne_bob|].
  destruct (Balances.transfer_refines_ledger alice bob (u128_of 10) (balances rt0) e0 alice_ne_bob)
    as (p' & e' & H1 & H2).
  exists p', e'. split; [exact H1|]. exact (H2 bob).
Defined.

Lemma transfer_conserves_issuance_witness :
  Balances.total_issuance (Balances.transfer alice bob (u128_of 10) (balances rt0, e0)).2.1
    = Balances.total_issuance (balances rt0).
Proof. exact (Balances.transfer_conserves_issuance alice bob (u128_of 10) (balances rt0) e0 alice_ne_bob). Defined.

Lemma transfer_self_mints_witness :
  ∃ p' e', Balances.transfer alice alice (u128_of 10) (balances rt0, e0) = (Done (Ok tt), (p', e')) ∧
    num_val (Balances.balance p' alice) = 1000010%N.
Proof.
  destruct (Balances.transfer_self_mints alice (u128_of 10) (balances rt0) e0) as (p' & e' & H1 & H2 & _).
  - by vm_compute.
  - by vm_compute.
  - exists p', e'. split; [exact H1 | exact H2].
Defined.

Lemma claims_registry_witness :
  ∃ e', ProofOfExistence.create_claim alice "a" (proof_of_existence rt0, e0) =
    (Done (Ok tt), (ProofOfExistence.mkPallet
      (<["a" := alice]> (ProofOfExistence.claims (proof_of_existence rt0))), e')).
Proof.
  destruct (ProofOfExistence.claims_registry alice "a" (proof_of_existence rt0) e0) as [[e' H] _].
  exists e'. exact H.
Defined.

(** Alice claims "b" and then "a". *)
Definition after_b := (ProofOfExistence.create_claim alice "b" (proof_of_existence rt0, e0)).2.

Lemma create_claim_lost_on_restart_witness :
  ∃ p' e', ProofOfExistence.create_claim alice "a" after_b = (Done (Ok tt), (p', e')) ∧
    ProofOfExistence.get_claim p' "a" = Some alice ∧
    ProofOfExistence.get_claim (AccountId := AccountId32) (ProofOfExistence.new (env_kv e')) "a" = None.
Proof.
  assert (Hsound : ProofOfExistence.poe_sound after_b.1 (persisted after_b.2)).
  { pose proof (ProofOfExistence.dispatch_sound (Store := MemStore) alice (ProofOfExistence.Call_create_claim "b")
      (proof_of_existence rt0, e0) (proj2 (proj2 genesis_state_sound))) as H.
    rewrite ProofOfExistence.dispatch_create_run in H. exact H. }
  exact (ProofOfExistence.create_claim_lost_on_restart alice "a" "b" after_b.1 after_b.2
    eq_refl (ex_intro _ alice eq_refl) eq_refl Hsound).
Defined.

(** * Extrinsics *)

Lemma new_signed_verifies_witness : verify (signed Alice 0 (transfer_call bob 5)) = Ok tt.
Proof. exact (new_signed_verifies (signing_key Alice : SigningKey) (u32_of 0) (transfer_call bob 5)). Defined.

Lemma verify_binds_witness :
  signed Alice 0 (transfer_call bob 5) = new_signed (signing_key Alice : SigningKey) (u32_of 0) (transfer_call bob 5) ∨
  ∃ vk msg msg', msg ≠ msg' ∧
    sign (signing_key Alice : SigningKey) msg = signature (signed Alice 0 (transfer_call bob 5)) ∧
    verifying_key_from_bytes (as_bytes (signer (signed Alice 0 (transfer_call bob 5)))) = Some vk ∧
    verify_signature vk msg' (sign (signing_key Alice : SigningKey) msg) = true.
Proof.
  apply (verify_binds (signed Alice 0 (transfer_call bob 5)) (signing_key Alice) (u32_of 0) (transfer_call bob 5)).
  - reflexivity.
  - by vm_compute.
Defined.

(** * Block execution *)

Lemma forged_not_verified : verify forged ≠ Ok tt.
Proof. apply (bool_decide_eq_false_1 _). by vm_compute. Qed.

Lemma no_effect_without_signature_witness :
  account_safe alice rt0 (execute_block (block_of 2 [forged; signed Bob 0 (transfer_call alice 5)]) (rt0, e0)).2.1.
Proof.
  apply no_effect_without_signature. simpl.
  intros ext [->|[->|[]%not_elem_of_nil]%elem_of_cons]%elem_of_cons.
  - intros _. exact forged_not_verified.
  - intros Heq. by destruct alice_ne_bob.
Defined.

Lemma executed_at_most_once_witness :
  let first := signed Alice 0 (transfer_call bob 10) in
  let second := signed Alice 0 (transfer_call charlie 10) in
  let s1 := (execute_extrinsic (u32_of 2) (0, (first, verify first)) (rt0, e0)).2 in
  let s2 := (run_blocks [block_of 2 [second]; block_of 7 []] s1).2 in
  (execute_extrinsic (u32_of 3) (0, (second, verify second)) s2).2.1 = s2.1.
Proof.
  intros first second. apply (executed_at_most_once (u32_of 2) 0 first (u32_of 3) 0 second).
  - intros Heq. apply (f_equal (λ rt, account_nonce rt alice)) in Heq. by vm_compute in Heq.
  - reflexivity.
  - reflexivity.
Defined.

Lemma execute_block_conserves_issuance_witness :
  issuance (execute_block (block_of 2 [signed Alice 0 (transfer_call bob 10); signed Bob 0 (create_call "c")])
    (rt0, e0)).2.1 = issuance rt0.
Proof.
  apply execute_block_conserves_issuance. simpl.
  intros ext [->|[->|[]%not_elem_of_nil]%elem_of_cons]%elem_of_cons; by vm_compute.
Defined.

Lemma execute_block_total_witness :
  (execute_block (block_of 2 [signed Alice 0 (transfer_call bob 10)]) (rt0, e0)).1 = Done (Ok tt).
Proof.
  refine (execute_block_total (block_of 2 [signed Alice 0 (transfer_call bob 10)]) rt0 e0 _ _).
  - by vm_compute.
  - intros a. rewrite rt0_nonce. unfold signed_by. pose proof (length_filter (λ ext, signer ext = a)
      (extrinsics (block_of 2 [signed Alice 0 (transfer_call bob 10)]))) as Hl.
    change (length (extrinsics _)) with 1 in Hl. change (umax 32) with 4294967295%N. lia.
Defined.

Lemma rejected_block_desyncs_witness :
  ∃ rt1 e1 rt2 e2,
    execute_block (block_of 5 []) (rt0, e0)
      = (Done (Err "block number does not match what is expected"), (rt1, e1)) ∧
    mapM execute_block [block_of 2 []; block_of 3 []] (rt1, e1)
      = (Done (replicate 2 (Err "block number does not match what is expected")), (rt2, e2)) ∧
    height rt2 = 4%N.
Proof.
  destruct (rejected_block_desyncs (block_of 5 []) [block_of 2 []; block_of 3 []] rt0 e0)
    as (rt1 & e1 & rt2 & e2 & H1 & _ & H2 & H3 & _).
  - by vm_compute.
  - by vm_compute.
  - intros [|[|i]] block Hi; simpl in Hi; simplify_eq; by vm_compute.
  - exists rt1, e1, rt2, e2. split; [exact H1|]. split; [exact H2 | exact H3].
Defined.

Lemma failed_call_consumes_nonce_witness :
  let ext := signed Alice 0 (transfer_call bob 2000000) in
  ∃ n e', uval n = 1%N ∧ execute_extrinsic (u32_of 2) (0, (ext, verify ext)) (rt0, e0)
    = (Done tt, (mkRuntime (System.set_nonce alice n (system rt0)) (balances rt0)
        (proof_of_existence rt0), e')).
Proof.
  intros ext. apply (failed_call_consumes_nonce (u32_of 2) 0 ext rt0 e0 "Not enough funds.").
  - by vm_compute.
  - by vm_compute.
  - by vm_compute.
  - by vm_compute.
Defined.

Lemma restart_after_block_witness :
  let s := (execute_block (block_of 2 [signed Alice 0 (transfer_call bob 10)]) (rt0, e0)).2 in
  balances (new (env_kv s.2)) = balances s.1.
Proof.
  pose proof (restart_after_block (block_of 2 [signed Alice 0 (transfer_call bob 10)]) rt0 e0
    genesis_state_sound) as H.
  intros s. fold s in H. destruct s as [rt' e']. exact (proj1 (proj2 (proj2 H))).
Defined.


(** * A node *)

Definition peer (n : N) : @PeerId reference_node := n.
Definition peers3 : list PeerId := [peer 1; peer 2; peer 3].

(** A node on the genesis chain with two peers and some pending extrinsics. *)
Definition node_with (exts : list types_Extrinsic) : NodeState :=
  mkNode rt0 (Mempool.set_pending exts (Mempool.with_block_limit 3)) [peer 1; peer 2] [] [] [] [].

(** Alice's second and first transfer, and a transfer of Bob's with a nonce gap. *)
Definition pool1 : list types_Extrinsic :=
  [signed Alice 1 (transfer_call bob 7); signed Bob 4 (transfer_call alice 1);
   signed Alice 0 (transfer_call bob 10)].
Definition node1 : NodeState := node_with pool1.
Definition produced1 := (produce_block "blocks" (node1, e0)).2.

(** The chain after Alice's first transfer, with that transfer received late and her
    second one pending. *)
Definition late : NodeState :=
  set_runtime (execute_block (block_of 2 [signed Alice 0 (transfer_call bob 10)]) (rt0, e0)).2.1
    (node_with [signed Alice 0 (transfer_call bob 10); signed Alice 1 (transfer_call bob 7)]).
Definition produced_late := (produce_block "blocks" (late, e0)).2.

Lemma run_done {S E A} (m : prog (S * E) A) s a :
  (m s).1 = Done a → m s = (Done a, ((m s).2.1, (m s).2.2)).
Proof. by destruct (m s) as [r [n e]]; intros [= ->]. Qed.

Lemma produced1_run : produce_block "blocks" (node1, e0) = (Done tt, (produced1.1, produced1.2)).
Proof. unfold produced1. refine (run_done _ (node1, e0) tt _). by vm_compute. Qed.

Lemma produced_late_run :
  produce_block "blocks" (late, e0) = (Done tt, (produced_late.1, produced_late.2)).
Proof. unfold produced_late. refine (run_done _ (late, e0) tt _). by vm_compute. Qed.

Lemma candidates1 : candidates_of node1 = pool1.
Proof. reflexivity. Qed.

Lemma room1 k : (account_nonce (runtime node1) k + N.of_nat (length (candidates_of node1)) ≤ umax 32)%N.
Proof.
  change (runtime node1) with rt0. rewrite rt0_nonce, candidates1.
  change (umax 32) with 4294967295%N. simpl. lia.
Qed.

Lemma pool1_verified x : x ∈ pool1 → verify x = Ok tt.
Proof.
  intros Hx. assert (Hall : Forall (λ x, verify x = Ok tt) pool1).
  { repeat constructor; by vm_compute. }
  by eapply Forall_forall in Hall.
Qed.

Lemma one_author_witness :
  ∃ p, p ∈ peers3 ∧ ∀ q (s : NodeState * env MemStore),
    is_my_slot q peers3 45 s = (Done (bool_decide (q = p)), s).
Proof. refine (one_author (Store := MemStore) peers3 45 _). by vm_compute. Defined.


Lemma peer_list_invariant_witness :
  let s' := run_events (peer 1) [EvConnection (Connected (peer 3)); EvTick [Connected (peer 4)] 45; EvConnection (Disconnected (peer 3))]
    (run_init (peer 1) fresh_env).2 in
  peers_ok (peer 1) (shared_peers s'.1) ∧
  ∃ b, is_my_slot (peer 1) (shared_peers s'.1) 60 s' = (Done b, s').
Proof.
  apply (peer_list_invariant (peer 1) [EvConnection (Connected (peer 3)); EvTick [Connected (peer 4)] 45; EvConnection (Disconnected (peer 3))]
    (run_init (peer 1) fresh_env).2 60).
  - by vm_compute.
  - repeat constructor; simpl.
    + done.
    + intros [H|[]%not_elem_of_nil]%elem_of_cons. by simplify_eq.
    + intros H. by simplify_eq.
Defined.

Lemma production_succeeds_witness :
  ∃ (block : types_Block) n' e', produce_block "blocks" (node1, e0) = (Done tt, (n', e')) ∧
    uval (block_number (header block)) = 2%N ∧ height (runtime n') = 2%N ∧
    ∀ a, account_nonce (runtime n') a =
      (account_nonce (runtime node1) a + N.of_nat (signed_by a (extrinsics block)))%N.
Proof.
  destruct (production_succeeds "blocks" node1 e0) as (block & n' & e' & H1 & H2 & _ & _ & _ & _ & H3 & H4).
  - split; [by vm_compute | exact room1].
  - exists block, n', e'. split; [exact H1|]. split; [exact H2|]. split; [exact H3|].
    exact (H4 pool1_verified).
Defined.

Lemma included_iff_gap_free_witness :
  ∃ block : types_Block, chan_pub produced1.1 = [mkPublishReq "blocks" (encode block)] ∧
    signed Alice 1 (transfer_call bob 7) ∈ extrinsics block.
Proof.
  destruct (included_iff_gap_free "blocks" node1 e0 produced1.1 produced1.2 alice produced1_run room1)
    as (block & Hpub & _ & Hin).
  exists block. split; [exact Hpub|].
  assert (H1 : signed Alice 1 (transfer_call bob 7) ∈ of_signer alice (candidates_of node1)).
  { rewrite elem_of_of_signer, candidates1. split; [reflexivity | by left]. }
  assert (H0 : signed Alice 0 (transfer_call bob 10) ∈ of_signer alice (candidates_of node1)).
  { rewrite elem_of_of_signer, candidates1. split; [reflexivity | by right; right; left]. }
  apply Hin; [| |exact H1|].
  - apply (bool_decide_unpack _). by vm_compute.
  - intros y _. change (runtime node1) with rt0. rewrite rt0_nonce. lia.
  - intros k Hk. change (uval (nonce _)) with 1%N in Hk.
    assert (k = 0%N ∨ k = 1%N) as Hk01 by lia. destruct Hk01 as [->| ->].
    + exists (signed Alice 0 (transfer_call bob 10)). split; [exact H0 | by vm_compute].
    + exists (signed Alice 1 (transfer_call bob 7)). split; [exact H1 | by vm_compute].
Defined.

Lemma late_nonce k : (account_nonce (runtime late) k ≤ 1)%N.
Proof.
  assert (Hn : System.pallet_nonce (system (runtime late)) = {[alice := u32_of 1]}).
  { apply (bool_decide_unpack _). by vm_compute. }
  unfold account_nonce, System.nonce. rewrite Hn. destruct (decide (alice = k)) as [<-|Hne].
  - rewrite lookup_singleton_eq. by vm_compute.
  - rewrite lookup_singleton_ne by exact Hne. by vm_compute.
Qed.

Lemma stale_nonce_drops_fresh_witness :
  signed Alice 1 (transfer_call bob 7) ∈ candidates_of late ∧
  Mempool.pending (mempool produced_late.1) = [] ∧
  ∃ block : types_Block, chan_pub produced_late.1 = [mkPublishReq "blocks" (encode block)] ∧
    ∀ y, y ∈ extrinsics block → signer y ≠ alice.
Proof.
  split; [right; left|].
  destruct (stale_nonce_drops_fresh "blocks" late e0 produced_late.1 produced_late.2
    (signed Alice 0 (transfer_call bob 10)) produced_late_run) as [H1 [block [H2 H3]]].
  - intros k. pose proof (late_nonce k). change (umax 32) with 4294967295%N.
    change (length (candidates_of late)) with 2. lia.
  - left.
  - by vm_compute.
  - split; [exact H1|]. exists block. split; [exact H2 | exact H3].
Defined.

(** A peer that is about to apply the block [node1] produces. *)
Definition peer_with (block : types_Block) : NodeState := set_chan_blk [block] (node_with pool1).

Lemma peer_block_handled_witness :
  let block := block_of 2 [signed Alice 0 (transfer_call bob 10)] in
  Mempool.pending (mempool (on_recv_blk (peer_with block, e0)).2.1) =
    base.filter (λ ext, ¬ includes block ext) pool1.
Proof.
  intros block.
  assert (Hrun : on_recv_blk (peer_with block, e0) =
    (Done tt, ((on_recv_blk (peer_with block, e0)).2.1, (on_recv_blk (peer_with block, e0)).2.2))).
  { refine (run_done _ (peer_with block, e0) tt _). by vm_compute. }
  pose proof (peer_block_handled block [] (peer_with block) e0 _ _ eq_refl Hrun) as (_ & _ & H).
  assert (Hok : (apply_block block (runtime (peer_with block))).1 = Done (Ok tt)) by by vm_compute.
  rewrite Hok in H. exact H.
Defined.

Lemma peer_converges_witness :
  ∃ req, chan_pub produced1.1 = [req] ∧
    ∃ p' ep', (on_message (topic req) (data req);; on_recv_blk) (node_with [], e0) = (Done tt, (p', ep')) ∧
      runtime p' = runtime produced1.1.
Proof.
  exact (peer_converges node1 e0 produced1.1 produced1.2 (node_with []) e0 produced1_run eq_refl eq_refl).
Defined.

Lemma submission_reaches_pools_witness :
  ∃ n1 req, submit_handler (encode (signed Alice 0 (transfer_call bob 10))) (node_with [], e0)
      = (Done (Ok ACCEPTED), (n1, e0)) ∧ chan_pub n1 = [req].
Proof.
  destruct (submission_reaches_pools (signed Alice 0 (transfer_call bob 10)) (node_with []) e0
    node1 e0 eq_refl eq_refl eq_refl eq_refl eq_refl) as (n1 & req & H1 & H2 & _).
  exists n1, req. split; [exact H1 | exact H2].
Defined.

Definition alice_hex : string := hex_string (arr_list (as_bytes alice)).

Lemma nonce_reply_extends_run_witness :
  ∃ total : u32, nonce_handler (mret tt) alice_hex (node_with [signed Alice 0 (transfer_call bob 10)], e0) =
    (Done (Ok (pretty.pretty (uval total))), (node_with [signed Alice 0 (transfer_call bob 10)], e0)).
Proof.
  destruct (nonce_reply_extends_run alice_hex (arr_list (as_bytes alice)) (as_bytes alice)
    (node_with [signed Alice 0 (transfer_call bob 10)]) e0) as [total [H _]].
  - by vm_compute.
  - apply array_of_to_list.
  - by vm_compute.
  - by vm_compute.
  - reflexivity.
  - exists total. exact H.
Defined.

(** A peer with Alice's transfer pending and a block that contains it to apply. *)
Definition racing : NodeState :=
  set_chan_blk [block_of 2 [signed Alice 0 (transfer_call bob 10)]]
    (node_with [signed Alice 0 (transfer_call bob 10)]).

Lemma nonce_reply_may_be_used_witness :
  ∃ (total : u32) n' e', nonce_handler on_recv_blk alice_hex (racing, e0) =
      (Done (Ok (pretty.pretty (uval total))), (n', e')) ∧
    (uval total < account_nonce (runtime n') alice)%N.
Proof.
  apply (nonce_reply_may_be_used alice_hex (arr_list (as_bytes alice)) (as_bytes alice)
    (block_of 2 [signed Alice 0 (transfer_call bob 10)]) [] racing e0).
  - by vm_compute.
  - apply array_of_to_list.
  - reflexivity.
  - by vm_compute.
  - intros x [_ [->|[]%not_elem_of_nil]%elem_of_cons]%list_elem_of_filter.
    apply (bool_decide_unpack _). by vm_compute.
  - by vm_compute.
Defined.

Lemma node1_peers_ok k : k = peer 1 ∨ k = peer 2 → peers_ok k (shared_peers node1).
Proof.
  intros Hk. split; [repeat constructor|]. destruct Hk as [->| ->]; [left | right; left].
Qed.

Lemma tick_spec_witness :
  ∃ n' e', on_tick (peer 2) [Connected (peer 3)] 45 (node1, e0) = (Done tt, (n', e')) ∧
    shared_peers n' = peers3 ∧ runtime n' = rt0.
Proof.
  destruct (tick_spec (peer 2) [Connected (peer 3)] 45 node1 e0) as (n' & e' & Hrun & Hrt & _ & Htick).
  - intros [H|[]%not_elem_of_nil]%elem_of_cons. simplify_eq.
  - apply node1_peers_ok. by right.
  - exists n', e'. assert (Hps : shared_peers n' = peers3).
    { pose proof (f_equal (λ r, shared_peers r.2.1) Hrun) as H. cbn [fst snd] in H. rewrite <- H.
      by vm_compute. }
    rewrite Hps in Htick. split; [exact Htick|]. split; [exact Hps | exact Hrt].
Defined.

Lemma lone_node_may_produce_witness :
  ∃ n' e', shared_peers n' = [peer 1] ∧
    on_tick (peer 1) [Disconnected (peer 2)] 21 (node1, e0) = produce_block "blocks" (n', e').
Proof.
  destruct (lone_node_may_produce (peer 1) (peer 2) 21 node1 e0) as (n' & e' & H1 & _ & _ & H2).
  - done.
  - reflexivity.
  - exists n', e'. split; [exact H1 | exact H2].
Defined.

Lemma stop_and_restart_witness :
  startable fresh_env ∧
  let s := run_events (peer 1) [EvConnection (Connected (peer 2));
    EvSubmit (encode (signed Alice 0 (transfer_call bob 10))); EvRecvExt; EvTick [] 45]
    (run_init (peer 1) fresh_env).2 in
  balances (new (env_kv s.2)) = balances (runtime s.1).
Proof.
  assert (Hstart : startable fresh_env) by by left.
  split; [exact Hstart|]. intros s.
  exact (proj1 (proj2 (stop_and_restart (peer 1) _ fresh_env Hstart))).
Defined.

Lemma node_protects_account_witness :
  account_safe alice rt0 (runtime (run_events (peer 1) [EvRecvExt; EvTick [] 0; EvTick [Connected (peer 3)] 20]
    (set_chan_ext [forged] (node_with [signed Bob 0 (transfer_call alice 5)]), e0)).1).
Proof.
  apply (node_protects_account alice (peer 1) [EvRecvExt; EvTick [] 0; EvTick [Connected (peer 3)] 20]
    (set_chan_ext [forged] (node_with [signed Bob 0 (transfer_call alice 5)]), e0)).
  - split; [|split; repeat constructor].
    + repeat constructor. intros Heq. by destruct alice_ne_bob.
    + intros _. exact forged_not_verified.
  - repeat constructor.
Defined.

(** * The client *)

#[export] Instance reference_debug : RuntimeDebug := λ _, "Runtime { .. }".

Definition url : string := "http://127.0.0.1:8000".

Lemma submit_transfer_to_node_witness :
  ∃ ext n1 n2,
    submit_transfer (HU := served url) "alice" "Bob" (u128_of 7) (Some url)
        ((node_with [signed Alice 0 (transfer_call bob 10)], e0), fresh_env) =
      (Done tt, ((n1, e0), env_print (Println "Submitted (HTTP 202)") fresh_env)) ∧
    signer ext = alice ∧ on_recv_ext (n1, e0) = (Done tt, (n2, e0)) ∧
    Mempool.pending (mempool n2) = [signed Alice 0 (transfer_call bob 10); ext].
Proof.
  destruct (submit_transfer_to_node url "alice" "Bob" Alice Bob (u128_of 7)
    (node_with [signed Alice 0 (transfer_call bob 10)]) e0 fresh_env)
    as (ext & n1 & n2 & H1 & H2 & _ & _ & _ & H3 & H4 & _).
  - reflexivity.
  - reflexivity.
  - split; [by vm_compute|]. split; [by vm_compute|]. split; reflexivity.
  - exists ext, n1, n2. split; [exact H1|]. split; [exact H2|]. split; [exact H3 | exact H4].
Defined.

Lemma local_transfer_overwrites_witness :
  ∃ e', submit_transfer (HU := served url) "alice" "bob" (u128_of 7) None ((node1, e0), e0) =
      (Done tt, ((node1, e0), e')) ∧
    account_balance (new (env_kv e')) alice = 63%N.
Proof.
  destruct (local_transfer_overwrites (HU := served url) "alice" "bob" Alice Bob (u128_of 7) rt0 (node1, e0) e0)
    as (e' & H1 & _ & _ & H2 & _).
  - exact genesis_state_sound.
  - reflexivity.
  - reflexivity.
  - exact alice_ne_bob.
  - by vm_compute.
  - by vm_compute.
  - by vm_compute.
  - by vm_compute.
  - exists e'. split; [exact H1 | exact H2].
Defined.
