(* ===== verification/Forks.v ===== *)
(** Two nodes on the reference instances of [Reference]: runs of the network of
    [Network] on concrete inputs.  One shows that the hypotheses of the agreement
    theorem can hold; the other shows what happens to the chains when its restriction
    on production is dropped. *)

From S2P Require Export Network Witnesses.

(** * Two nodes *)

Definition two_peers : list PeerId := [peer 1; peer 2].

Lemma two_peers_NoDup : NoDup two_peers.
Proof. apply (bool_decide_unpack _). vm_compute. exact I. Qed.

(** Each node on its own fresh database. *)
Definition start_world : world MemStore := World (λ p, (run_init p fresh_env).2) [].

Definition connect_all : list action :=
  [ActEvent (peer 1) (EvConnection (Connected (peer 2)));
   ActEvent (peer 2) (EvConnection (Connected (peer 1)))].

Definition submit_at (p : PeerId) (ext : types_Extrinsic) : list action :=
  [ActEvent p (EvSubmit (encode ext)); ActEvent p EvRecvExt].

(** [p] publishes its oldest message, and the other node handles it as a block. *)
Definition exchange (p q : PeerId) : list action := [ActPublish p; ActDeliver 0; ActRecvBlk q].

Definition alice_to_bob : types_Extrinsic := signed Alice 0 (transfer_call bob 10).

(** * In step *)

(** Alice's transfer is posted to the first node, which produces a block with it in
    its slot; the second node handles that block and produces the next one in its own. *)
Definition in_step : list action :=
  connect_all ++ submit_at (peer 1) alice_to_bob ++ [ActPublishFails (peer 1); ActTick (peer 1) 0] ++
  exchange (peer 1) (peer 2) ++ [ActTick (peer 2) 20] ++ exchange (peer 2) (peer 1).

Definition in_step_world : world MemStore :=
  default start_world (do_actions two_peers true in_step start_world).

Lemma wire_ok_start : wire_ok two_peers start_world.
Proof. intros p req []%not_elem_of_nil. Qed.

Lemma in_step_reachable : reachable two_peers true start_world in_step_world.
Proof.
  apply (do_actions_reachable two_peers two_peers_NoDup true in_step); [exact wire_ok_start|].
  assert (Hsome : is_Some (do_actions two_peers true in_step start_world))
    by (apply (bool_decide_unpack _); vm_compute; exact I).
  unfold in_step_world. destruct Hsome as [w Hw]. by rewrite Hw.
Qed.

Lemma start_world_started : started two_peers start_world.
Proof. split; [done|]. intros p _. by exists fresh_env. Qed.

Lemma chains_agree_witness :
  height (runtime (local in_step_world (peer 1)).1) = 3%N ∧
  runtime (local in_step_world (peer 1)).1 = runtime (local in_step_world (peer 2)).1.
Proof.
  split; [by vm_compute|].
  apply (chains_agree two_peers two_peers_NoDup start_world in_step_world start_world_started in_step_reachable).
  - apply settledb_spec. by vm_compute.
  - left.
  - right. left.
Defined.

(** * Out of step *)

(** The second node ticks before the first one's block has reached it.  Each then
    rejects the other's block, and the first one's next block is applied by both. *)
Definition out_of_step : list action :=
  connect_all ++ submit_at (peer 1) alice_to_bob ++
  [ActPublishFails (peer 1); ActTick (peer 1) 0; ActTick (peer 2) 20; ActPublish (peer 1);
   ActPublish (peer 2); ActDeliver 0; ActRecvBlk (peer 2); ActDeliver 0; ActRecvBlk (peer 1);
   ActTick (peer 1) 40] ++ exchange (peer 1) (peer 2).

Definition out_of_step_world : world MemStore :=
  default start_world (do_actions two_peers false out_of_step start_world).

Lemma out_of_step_reachable : reachable two_peers false start_world out_of_step_world.
Proof.
  apply (do_actions_reachable two_peers two_peers_NoDup false out_of_step); [exact wire_ok_start|].
  assert (Hsome : is_Some (do_actions two_peers false out_of_step start_world))
    by (apply (bool_decide_unpack _); vm_compute; exact I).
  unfold out_of_step_world. destruct Hsome as [w Hw]. by rewrite Hw.
Qed.

(** C26: a fork nobody notices: two nodes on new chains, one of which ticks while the
    other's block is on its way, end with no block on its way, at the same height, the
    last block reported as applied, and with different balances: the transfer that the
    first node's block executed never happened on the second. *)
Theorem late_block_forks :
  ∃ w : world MemStore,
    started two_peers start_world ∧ reachable two_peers False start_world w ∧ settled two_peers w ∧
    height (runtime (local w (peer 1)).1) = 4%N ∧ height (runtime (local w (peer 2)).1) = 4%N ∧
    last (env_out (local w (peer 2)).2) = Some (Println "[node] applied peer block, height=4") ∧
    account_balance (runtime (local w (peer 1)).1) bob = 1000010%N ∧
    account_balance (runtime (local w (peer 2)).1) bob = 1000000%N.
Proof.
  exists out_of_step_world. split; [exact start_world_started|]. split; [exact out_of_step_reachable|].
  split; [apply settledb_spec; by vm_compute|]. repeat split; by vm_compute.
Qed.
