(* ===== verification/MacroWitnesses.v ===== *)
(** The theorems about the macros at concrete inputs, with types that are paths of plain
    identifiers. *)

From S2P Require Export Generated Reference.
From S2P Require Import CallMacro RuntimeMacro.

(** * Types *)

Variant plain_type :=
| PlainPath (segments : list Ident)
| PlainOther.

Fixpoint path_tokens (segments : list Ident) : list token :=
  match segments with
  | [] => []
  | [ident] => [TokIdent ident]
  | ident :: segments' => TokIdent ident :: TokPathSep :: path_tokens segments'
  end.

#[export] Instance plain_syn : Syn := {|
  Type_ := plain_type;
  type_path t := match t with PlainPath segments => Some segments | PlainOther => None end;
  to_token_stream t :=
    match t with PlainPath segments => path_tokens segments | PlainOther => [TokOther "_"] end;
  expected s := "expected `" +:+ s +:+ "`";
  unexpected_token := "unexpected token"
|}.

#[export] Instance plain_crate : CrateTypes := {|
  type_Pallet_T := PlainPath ["Pallet"];
  type_AccountId := PlainPath ["T"; "AccountId"];
  type_Balance := PlainPath ["T"; "Balance"];
  type_Content := PlainPath ["T"; "Content"];
  type_system_Pallet := PlainPath ["system"; "Pallet"];
  type_balances_Pallet := PlainPath ["balances"; "Pallet"];
  type_poe_Pallet := PlainPath ["proof_of_existence"; "Pallet"]
|}.

#[export] Instance plain_crate_ok : CrateTypesOk.
Proof. by split. Qed.

(** * Witnesses *)

#[local] Abbreviation val := (value AccountId Balance Content).

Definition plain_new (s : MemStore) (t : pallet_type) : option pallet_value :=
  match t with
  | SystemPalletSelf => Some (PSystem (System.new s))
  | PalletType (PlainPath ("balances" :: _)) => Some (PBalances (Balances.new s))
  | PalletType (PlainPath ("proof_of_existence" :: _)) => Some (PPoe (ProofOfExistence.new s))
  | _ => None
  end.

Lemma macros_generate_runtime_witness :
  ∃ rdef, RuntimeDef_try_from (Item_Struct runtime_item) = Done (Ok rdef) ∧
    run_new (plain_new (env_kv fresh_env)) (expand_runtime rdef) ≫= runtime_of = Some (new (env_kv fresh_env)).
Proof.
  destruct (macros_generate_runtime (plain_new (env_kv fresh_env)) (env_kv fresh_env))
    as (bdef & pdef & rdef & _ & _ & H1 & H2 & _).
  - reflexivity.
  - reflexivity.
  - reflexivity.
  - exists rdef. split; [exact H1 | exact H2].
Defined.

Lemma transfer_def_distinct m :
  m ∈ methods balances_def → NoDup (args m).*1 ∧ "caller" ∉ (args m).*1.
Proof.
  intros [->|[]%not_elem_of_nil]%elem_of_cons. simpl.
  split; apply (bool_decide_unpack _); vm_compute; exact I.
Qed.

#[local] Abbreviation balances_methods := (balances_fn (Content := string) (Store := MemStore)).

Definition transfer_fn : ImplItemFn :=
  mkFn "transfer" [FnArg_Receiver true; arg "caller" type_AccountId; arg "to" type_AccountId;
    arg "amount" type_Balance].
Definition transfer_variant : CallVariantDef :=
  mkCallVariantDef "transfer" [("to", type_AccountId); ("amount", type_Balance)].

Lemma transfer_callable : callable transfer_fn transfer_variant.
Proof. apply (callable_intro "transfer" true _ [("to", _); ("amount", _)]), caller_arg_ok. Qed.

Lemma transfer_variant_in : transfer_variant ∈ methods balances_def.
Proof. left. Qed.

Lemma dispatch_passes_caller_witness (alice := public Alice) (bob := public Bob) :
  run_dispatch value_is_copy balances_methods (expand_call balances_def) (VAccount alice)
      (value_of "transfer" ["to"; "amount"] [VAccount bob; VBalance (u128_of 5)]) =
    Some (r ← Balances.transfer alice bob (u128_of 5); _ ←? r; mret (Ok tt)).
Proof.
  eapply (dispatch_passes_caller value_is_copy balances_methods balances_impl balances_def
    transfer_fn transfer_variant).
  - apply balances_impl_parsed.
  - apply (bool_decide_unpack _). vm_compute. exact I.
  - left.
  - exact transfer_callable.
  - apply (transfer_def_distinct _ transfer_variant_in).
  - apply (transfer_def_distinct _ transfer_variant_in).
  - reflexivity.
  - reflexivity.
  - reflexivity.
  - reflexivity.
Defined.

(** ** Typing *)

(** Values of the types. *)
Definition plain_has_type (v : val) (t : Type_) : Prop :=
  match v with
  | VAccount _ => t = type_AccountId
  | VBalance _ => t = type_Balance
  | VContent _ => t = type_Content
  end.

Lemma path_tokens_AccountId (segments : list Ident) :
  path_tokens segments = path_tokens ["T"; "AccountId"] → segments = ["T"; "AccountId"].
Proof.
  destruct segments as [|i1 [|i2 [|i3 segments]]]; [done..| |]; simpl.
  - by intros [= -> ->].
  - by destruct segments.
Qed.

Lemma plain_caller_type (t : Type_) : caller_type t → t = type_AccountId.
Proof. destruct t as [segments|]; [|done]. intros Ht. by rewrite (path_tokens_AccountId segments Ht). Qed.

Lemma plain_accounts_move : accounts_move value_is_copy plain_has_type.
Proof. intros [a|b|c] t ->%plain_caller_type; [done | discriminate | discriminate]. Qed.



(** A block with a function that takes a second account called [caller]. *)
Definition pay_fn : ImplItemFn :=
  mkFn "pay" [FnArg_Receiver true; arg "_caller" type_AccountId; arg "caller" type_AccountId].
Definition pay_impl : ItemImpl := mkItemImpl type_Pallet_T [ImplItem_Fn pay_fn].
Definition pay_def : CallDef :=
  mkCallDef "Pallet" [mkCallVariantDef "pay" [("caller", type_AccountId)]].

(** What [pay] is called with ends up as the state. *)
Definition pay_methods (f : Ident) : option (fn_value (V := val) (S := list val)) :=
  if decide (f = "pay") then
    Some (mkFnValue true (λ vs, match vs with
      | [VAccount _; VAccount _] => Some (modify (λ _, vs);; mret (Ok tt))
      | _ => None
      end))
  else None.

Lemma pay_fns_typed : fns_typed pay_methods plain_has_type (fns_of (items pay_impl)).
Proof.
  intros method [->|[]%not_elem_of_nil]%elem_of_cons. eexists. split; [reflexivity|].
  split; [done|]. intros vs. cbn [fn_body]. change (input_types _) with [type_AccountId; type_AccountId].
  split.
  - intros [body Hbody]. destruct vs as [|[] [|[] [|]]]; try discriminate. repeat constructor.
  - intros Hvs. inversion Hvs as [|v1 ? vs1 ? H1 Hvs1]; subst. inversion Hvs1 as [|v2 ? vs2 ? H2 Hvs2]; subst.
    inversion Hvs2; subst. destruct v1, v2; try discriminate. eexists. reflexivity.
Qed.

Lemma caller_cannot_be_replaced_witness (alice := public Alice) (bob := public Bob) :
  CallDef_try_from (Item_Impl pay_impl) = Done (Ok pay_def) ∧
  run_dispatch value_is_copy pay_methods (expand_call pay_def) (VAccount alice)
    (value_of "pay" ["caller"] [VAccount bob]) = None.
Proof.
  split; [reflexivity|].
  apply (caller_cannot_be_replaced value_is_copy pay_methods plain_has_type pay_impl pay_def pay_fn
    (mkCallVariantDef "pay" [("caller", type_AccountId)]) (VAccount alice) [VAccount bob]).
  - reflexivity.
  - apply (bool_decide_unpack _). vm_compute. exact I.
  - left.
  - apply (callable_intro "pay" true _ [("caller", _)]). split; [right; left|]; reflexivity.
  - apply (bool_decide_unpack _). vm_compute. exact I.
  - reflexivity.
  - exact pay_fns_typed.
  - exact plain_accounts_move.
  - left.
Defined.
