(* ===== verification/ProcessWitnesses.v ===== *)
(** The theorems about the process at concrete inputs, on a file system of databases that
    are maps. *)

From S2P Require Export Process Witnesses.

(** * A file system

    Databases by their paths, and whether directories can be removed. *)

Abbreviation map_db := (gmap bytes bytes).

#[export] Instance map_rocksdb : RocksDB map_db := {|
  db_get d k := Ok (d !! k);
  db_put d k v := (Ok tt, <[k := v]> d);
  db_delete d k := (Ok tt, delete k d);
  db_iterator d := Ok <$> btree_iter d
|}.

#[export] Instance map_rocksdb_ok : RocksDBOk map_db.
Proof. by refine {| db_view d := d |}; intros; simplify_eq/=. Defined.

#[export] Instance map_store_reliable : KvReliable (RocksDbStore map_db).
Proof. done. Qed.

Record map_fs := mkFs { databases : gmap string map_db; removable : bool }.

#[export] Instance map_file_system : FileSystem map_fs map_db := {|
  db_open p fs :=
    let d := default ∅ (databases fs !! p) in (Ok d, mkFs (<[p := d]> (databases fs)) (removable fs));
  db_close p d fs := mkFs (<[p := d]> (databases fs)) (removable fs);
  path_exists p fs := bool_decide (is_Some (databases fs !! p));
  remove_dir_all p fs :=
    if removable fs then (Ok tt, mkFs (delete p (databases fs)) (removable fs))
    else (Err "Permission denied", fs)
|}.

#[export] Instance map_file_system_ok : FileSystemOk map_fs map_db.
Proof.
  split; simpl.
  - intros p d fs d' fs'. rewrite lookup_insert_eq. by intros [= <- _].
  - intros p fs d fs' Hmissing. apply bool_decide_eq_false in Hmissing.
    apply eq_None_not_Some in Hmissing. rewrite Hmissing. by intros [= <- _].
  - intros p [dbs rm] fs'. simpl. destruct rm; [|done]. intros [= <-]. simpl.
    rewrite lookup_delete_eq. apply bool_decide_eq_false_2. by intros [? [=]].
Qed.

Definition no_addresses (addr : string) : option unit := None.

(** A fresh disk, and one with an account's balance on it that cannot be removed. *)
Definition fresh_fs : map_fs := mkFs ∅ true.
Definition used_db : map_db := ROCKS_DB (env_kv
  (maybe_apply_genesis (new (mkRocksDbStore ∅), Env (mkRocksDbStore ∅) [])).2.2).
Definition used_fs (removable : bool) : map_fs := mkFs {["state.db" := used_db]} removable.

(** * Witnesses *)

Lemma init_after_open_ignored_witness :
  ∃ s1 s2, force_db (new_process (used_fs true)) = (Done used_db, s1) ∧
    init_db_path "other.db" s1 = (Done tt, s2) ∧ db_path s2 = "other.db" ∧
    ROCKS_DB_cell s2 = Opened "state.db" used_db.
Proof.
  destruct (init_after_open_ignored (FS := map_fs) (λ e, (Done tt, e)) "other.db" (used_fs true) used_db
    (db_open "state.db" (used_fs true)).2) as (s1 & s2 & H1 & H2 & H3 & H4 & _).
  - reflexivity.
  - exists s1, s2. split; [exact H1|]. split; [exact H2|]. split; [exact H3 | exact H4].
Defined.

Lemma reset_reports_success_on_failure_witness :
  printed (reset_command (DB := map_db) None (new_process (used_fs false))).2 =
    [Eprintln "failed to delete 'state.db': Permission denied"; Println "Reset: deleted 'state.db'"].
Proof.
  rewrite (reset_reports_success_on_failure None (new_process (used_fs false)) "Permission denied" (used_fs false)).
  - reflexivity.
  - reflexivity.
  - reflexivity.
Defined.

Lemma reset_then_state_witness :
  let s1 := (reset_command (DB := map_db) None (new_process (used_fs true))).2 in
  printed (state_command None (new_process (exit s1))).2 = [Println (runtime_debug empty_runtime)].
Proof.
  intros s1.
  apply (reset_then_state None (used_fs true) s1 (state_command (DB := map_db) None (new_process (exit s1))).2).
  - reflexivity.
  - intros err fs'. discriminate.
  - reflexivity.
Defined.

Definition some_life : list node_event :=
  [EvConnection (Connected (peer 2)); EvSubmit (encode (signed Alice 0 (transfer_call bob 10)));
   EvRecvExt; EvTick [] 45].

Definition some_node : outcome NodeState * process map_fs map_db :=
  node_command no_addresses None None (peer 1) some_life (new_process fresh_fs).

Lemma some_node_done : ∃ n, some_node.1 = Done n.
Proof.
  assert (H : match some_node.1 with Done _ => true | Panicked _ => false end = true) by by vm_compute.
  destruct some_node.1 as [n|]; [by exists n | done].
Qed.

Lemma state_after_node_witness :
  ∃ n rt, some_node.1 = Done n ∧
    printed (state_command None (new_process (exit some_node.2))).2 = [Println (runtime_debug rt)] ∧
    system rt = system (runtime n).
Proof.
  destruct some_node_done as [n Hn].
  destruct (state_after_node no_addresses None None (peer 1) some_life fresh_fs n some_node.2
    (state_command None (new_process (exit some_node.2))).2) as (rt & H1 & H2 & _).
  - intros d fs' Hopen. left. simpl in Hopen. injection Hopen as <- _. reflexivity.
  - rewrite <- Hn. unfold some_node. apply surjective_pairing.
  - reflexivity.
  - exists n, rt. split; [exact Hn|]. split; [exact H1 | exact H2].
Defined.
