(* ===== verification/Demo.v ===== *)
(** [run_demo] of [main.rs]: a scenario of five blocks and a drained mempool, with the
    accounts' nonces counted by hand. *)

From S2P Require Export Node Reference.
From S2P Require Mempool System Balances ProofOfExistence.

Section demo.
Context `{!NodeParams} `{!Ed25519} `{!Codec AccountId, !Codec u32, !Codec u128, !Codec string}.
Context `{!Codec (array 32 * u32 * RuntimeCall)}.
Context {Store : Type} `{!KeyValueStore Store}.

#[local] Abbreviation M := (prog (Runtime * env Store)).

(** [let (mut an, mut bn, mut cn)]. *)
Record counters := mkCounters { an : u32; bn : u32; cn : u32 }.

Definition counter (kr : AccountKeyring) (c : counters) : u32 :=
  match kr with Alice => an c | Bob => bn c | Charlie => cn c end.

Definition set_counter (kr : AccountKeyring) (n : u32) (c : counters) : counters :=
  match kr with
  | Alice => mkCounters n (bn c) (cn c)
  | Bob => mkCounters (an c) n (cn c)
  | Charlie => mkCounters (an c) (bn c) n
  end.

(** [{ let ext = new_signed(&sk, n, call); n += 1; ext }] *)
Definition sign_next (kr : AccountKeyring) (call : RuntimeCall) (c : counters) : M (types_Extrinsic * counters) :=
  let ext := new_signed (signing_key kr) (counter kr c) call in
  n ← u32_add (counter kr c) one;
  mret (ext, set_counter kr n c).

(** [vec![..]] of such expressions. *)
Fixpoint sign_all (l : list (AccountKeyring * RuntimeCall)) (c : counters) : M (list types_Extrinsic * counters) :=
  match l with
  | [] => mret ([], c)
  | (kr, call) :: l' =>
      '(ext, c) ← sign_next kr call c;
      '(exts, c) ← sign_all l' c;
      mret (ext :: exts, c)
  end.

Definition pay (to : AccountKeyring) (amount : N) : RuntimeCall :=
  RuntimeCall_balances (Balances.Call_transfer (public to) (u128_of amount)).
Definition create (claim : string) : RuntimeCall :=
  RuntimeCall_proof_of_existence (ProofOfExistence.Call_create_claim claim).
Definition revoke (claim : string) : RuntimeCall :=
  RuntimeCall_proof_of_existence (ProofOfExistence.Call_revoke_claim claim).

Definition demo_block (number : N) (exts : list types_Extrinsic) : types_Block :=
  mkBlock (mkHeader (u32_of number)) exts.

(** [execute_block(block).map_err(|e| eprintln!("{e}"))] *)
Definition execute_or_print (msg : string) (block : types_Block) : M unit :=
  r ← execute_block block;
  match r with
  | Ok _ => mret tt
  | Err e => effect (env_print (Eprintln (msg +:+ e)))
  end.

Definition block_1 (c : counters) : M (types_Block * counters) :=
  '(exts, c) ← sign_all [(Alice, pay Bob 70); (Alice, pay Charlie 20); (Bob, pay Charlie 30)] c;
  mret (demo_block 1 exts, c).

Definition block_2 (c : counters) : M (types_Block * counters) :=
  '(exts, c) ← sign_all [(Charlie, pay Alice 40)] c;
  mret (demo_block 2 exts, c).

Definition block_3 (c : counters) : M (types_Block * counters) :=
  '(exts, c) ← sign_all
    [(Alice, create "My first document"); (Bob, pay Alice 5);
     (Bob, create "Patent for my invention"); (Charlie, create "Copyright on my work")] c;
  mret (demo_block 3 exts, c).

Definition block_4 (c : counters) : M (types_Block * counters) :=
  '(exts, c) ← sign_all
    [(Charlie, pay Bob 10); (Bob, create "My first document"); (Alice, revoke "My first document")] c;
  mret (demo_block 4 exts, c).

(** Charlie's last nonce is not counted. *)
Definition block_5 (c : counters) : M (types_Block * counters) :=
  '(first, c) ← sign_all [(Alice, pay Charlie 3); (Alice, revoke "Non-existent claim")] c;
  let third := new_signed (signing_key Charlie) (cn c) (revoke "Patent for my invention") in
  '(rest, c) ← sign_all [(Bob, revoke "Patent for my invention"); (Bob, pay Alice 15)] c;
  mret (demo_block 5 (first ++ third :: rest), c).

(** The pool, filled and drained into a block. *)
Definition mempool_block (c : counters) (number : u32) : types_Block :=
  let mempool := Mempool.new in
  let mempool := (Mempool.submit (new_signed (signing_key Alice) (an c) (pay Bob 1)) mempool).2 in
  let mempool := (Mempool.submit (new_signed (signing_key Bob) (bn c) (pay Charlie 2)) mempool).2 in
  let '(batch, _) := Mempool.drain_for_block 2 mempool in
  mkBlock (mkHeader number) batch.

Context (debug : Runtime → string).

Definition run_demo : M unit :=
  on_balances (Balances.set_balance (public Alice) (u128_of 100));;
  '(b, c) ← block_1 (mkCounters zero zero zero); execute_or_print String.EmptyString b;;
  '(b, c) ← block_2 c; execute_or_print String.EmptyString b;;
  '(b, c) ← block_3 c; execute_or_print String.EmptyString b;;
  '(b, c) ← block_4 c; execute_or_print String.EmptyString b;;
  '(b, c) ← block_5 c; execute_or_print String.EmptyString b;;
  number ← gets (λ s, System.block_number (system s.1));
  next ← unwrap (checked_add number one);
  execute_or_print "Mempool block: " (mempool_block c next);;
  rt ← gets fst;
  effect (env_print (Println (debug rt))).
End demo.

(** * The outcome *)

(** The chain the demo is meant for: an empty database. *)
Definition demo_outcome : outcome unit * (Runtime * env MemStore) :=
  run_demo (λ _, "Runtime { .. }") (new (env_kv fresh_env), fresh_env).

(** On an empty database the demo ends at height 6 with Alice, Bob and Charlie at 66, 29
    and 5 of the 100 that Alice was given, one claim left, Charlie's, and the three
    calls that are meant to fail reported: the second claim of the same document, the
    claim that does not exist, and the claim of another. *)
Theorem demo_result :
  let rt := demo_outcome.2.1 in
  demo_outcome.1 = Done tt ∧ uval (System.block_number (system rt)) = 6%N ∧
  Balances.balances (balances rt) =
    {[public Alice := u128_of 66; public Bob := u128_of 29; public Charlie := u128_of 5]} ∧
  ProofOfExistence.claims (proof_of_existence rt) = {["Copyright on my work" := public Charlie]} ∧
  env_out demo_outcome.2.2 =
    [ExtrinsicError 4 1 "this content is already claimed"; ExtrinsicError 5 1 "claim does not exist";
     ExtrinsicError 5 2 "caller is not owner"; Println "Runtime { .. }"].
Proof.
  intros rt. split; [by vm_compute|]. split; [by vm_compute|].
  split; [apply (bool_decide_unpack _); by vm_compute|].
  split; [apply (bool_decide_unpack _); by vm_compute|]. by vm_compute.
Qed.
