(* ===== verification/UnitTests.v ===== *)
(** The crate's unit tests ([mod tests] of [system.rs], [balances.rs],
    [proof_of_existence.rs] and [support.rs]), as computations on the model, and that
    they pass. *)

From S2P Require Export Reference.
From S2P Require Mempool System Balances ProofOfExistence.

(** * Tests *)

(** [assert!] and [assert_eq!]. *)
Definition assert {S} (b : bool) : prog S unit :=
  if b then mret tt else panic "assertion failed".
Definition assert_eq {S A} `{EqDecision A} (a b : A) : prog S unit :=
  assert (bool_decide (a = b)).
Definition assert_ne {S A} `{EqDecision A} (a b : A) : prog S unit :=
  assert (bool_decide (a ≠ b)).

(** [Result::unwrap]. *)
Definition unwrap_ok {S A E} (r : result A E) : prog S A :=
  match r with Ok a => mret a | Err _ => panic "called `Result::unwrap()` on an `Err` value" end.

(** A test passes if it does not panic on what it starts with. *)
Definition passes {S} (start : S) (test : prog S unit) : bool :=
  match (test start).1 with Done _ => true | Panicked _ => false end.

(** Each test has a store of its own. *)
Definition test_env : env MemStore := Env (mkMemStore ∅) [].

Definition u (n : N) : u32 := u32_of n.
Definition b128 (n : N) : u128 := u128_of n.

(** * [system.rs] *)

Module SystemTests.
Import System.

Definition pallet := Pallet string u32 u32.
Definition T := prog (pallet * env MemStore) unit.
Definition start : pallet * env MemStore := (new (env_kv test_env), test_env).

Definition number_is (n : N) : T := s ← gets fst; assert_eq (block_number s) (u n).
Definition nonce_is (who : string) (n : N) : T := s ← gets fst; assert_eq (nonce s who) (u n).

Definition block_number_starts_at_zero : T := number_is 0.

Definition inc_block_number_increments_by_one : T :=
  inc_block_number;; number_is 1;; inc_block_number;; number_is 2.

Definition nonce_starts_at_zero_for_unknown_account : T := nonce_is "alice" 0.

Definition inc_nonce_increments_target_account : T := inc_nonce "alice";; nonce_is "alice" 1.

Definition inc_nonce_does_not_affect_other_accounts : T := inc_nonce "alice";; nonce_is "bob" 0.

Definition inc_nonce_multiple_times : T :=
  inc_nonce "alice";; inc_nonce "alice";; inc_nonce "alice";; nonce_is "alice" 3.

Definition multiple_accounts_track_nonces_independently : T :=
  inc_nonce "alice";; inc_nonce "alice";; inc_nonce "bob";;
  nonce_is "alice" 2;; nonce_is "bob" 1;; nonce_is "charlie" 0.

Definition tests : list T :=
  [block_number_starts_at_zero; inc_block_number_increments_by_one;
   nonce_starts_at_zero_for_unknown_account; inc_nonce_increments_target_account;
   inc_nonce_does_not_affect_other_accounts; inc_nonce_multiple_times;
   multiple_accounts_track_nonces_independently].
End SystemTests.

(** * [balances.rs] *)

Module BalancesTests.
Import Balances.

Definition pallet := Pallet string u128.
Definition T := prog (pallet * env MemStore) unit.
Definition start : pallet * env MemStore := (new (env_kv test_env), test_env).

Definition balance_is (who : string) (n : N) : T := s ← gets fst; assert_eq (balance s who) (b128 n).
Definition set (who : string) (n : N) : T := set_balance who (b128 n).
Definition transfer_gives (n : N) (expected : DispatchResult) : T :=
  r ← transfer "alice" "bob" (b128 n); assert_eq r expected.
Definition transfer_unwrap (n : N) : T := r ← transfer "alice" "bob" (b128 n); unwrap_ok r.

Definition unknown_account_balance_is_zero : T := balance_is "alice" 0.

Definition set_and_get_balance : T := set "alice" 100;; balance_is "alice" 100;; balance_is "bob" 0.

Definition transfer_ok : T :=
  set "alice" 100;; transfer_gives 40 (Ok tt);; balance_is "alice" 60;; balance_is "bob" 40.

Definition transfer_exact_balance_empties_sender : T :=
  set "alice" 100;; transfer_gives 100 (Ok tt);; balance_is "alice" 0;; balance_is "bob" 100.

Definition transfer_insufficient_funds_leaves_balances_unchanged : T :=
  set "alice" 50;; transfer_gives 51 (Err "Not enough funds.");;
  balance_is "alice" 50;; balance_is "bob" 0.

Definition transfer_from_zero_balance_fails : T := transfer_gives 1 (Err "Not enough funds.").

Definition multiple_transfers_accumulate : T :=
  set "alice" 100;; transfer_unwrap 30;; transfer_unwrap 30;;
  balance_is "alice" 40;; balance_is "bob" 60.

Definition tests : list T :=
  [unknown_account_balance_is_zero; set_and_get_balance; transfer_ok;
   transfer_exact_balance_empties_sender; transfer_insufficient_funds_leaves_balances_unchanged;
   transfer_from_zero_balance_fails; multiple_transfers_accumulate].
End BalancesTests.

(** * [proof_of_existence.rs] *)

Module PoeTests.
Import ProofOfExistence.

Definition pallet := Pallet string string.
Definition T := prog (pallet * env MemStore) unit.
Definition start : pallet * env MemStore := (new (env_kv test_env), test_env).

Definition owner_is (claim : string) (owner : option string) : T :=
  s ← gets fst; assert_eq (get_claim s claim) owner.
Definition create (who claim : string) : T := r ← create_claim who claim; unwrap_ok r.
Definition revoke (who claim : string) : T := r ← revoke_claim who claim; unwrap_ok r.
Definition create_gives (who claim : string) (expected : DispatchResult) : T :=
  r ← create_claim who claim; assert_eq r expected.
Definition revoke_gives (who claim : string) (expected : DispatchResult) : T :=
  r ← revoke_claim who claim; assert_eq r expected.

Definition get_claim_returns_none_for_missing_content : T := owner_is "ghost" None.

Definition create_claim_stores_owner : T :=
  create_gives "alice" "doc" (Ok tt);; owner_is "doc" (Some "alice").

Definition create_duplicate_claim_fails : T :=
  create "alice" "doc";;
  create_gives "bob" "doc" (Err "this content is already claimed");;
  owner_is "doc" (Some "alice").

Definition revoke_claim_removes_it : T :=
  create "alice" "doc";; revoke_gives "alice" "doc" (Ok tt);; owner_is "doc" None.

Definition revoke_nonexistent_claim_fails : T :=
  revoke_gives "alice" "ghost" (Err "claim does not exist").

Definition revoke_claim_wrong_owner_fails : T :=
  create "alice" "doc";;
  revoke_gives "bob" "doc" (Err "caller is not owner");;
  owner_is "doc" (Some "alice").

Definition reclaim_after_revoke_succeeds : T :=
  create "alice" "doc";; revoke "alice" "doc";;
  create_gives "bob" "doc" (Ok tt);; owner_is "doc" (Some "bob").

Definition multiple_claims_are_independent : T :=
  create "alice" "doc1";; create "bob" "doc2";;
  owner_is "doc1" (Some "alice");; owner_is "doc2" (Some "bob").

Definition revoking_one_claim_does_not_affect_others : T :=
  create "alice" "doc1";; create "alice" "doc2";; revoke "alice" "doc1";;
  owner_is "doc1" None;; owner_is "doc2" (Some "alice").

Definition tests : list T :=
  [get_claim_returns_none_for_missing_content; create_claim_stores_owner; create_duplicate_claim_fails;
   revoke_claim_removes_it; revoke_nonexistent_claim_fails; revoke_claim_wrong_owner_fails;
   reclaim_after_revoke_succeeds; multiple_claims_are_independent;
   revoking_one_claim_does_not_affect_others].
End PoeTests.

(** * [support.rs]: the mempool *)

Module MempoolTests.
Import Mempool.

Definition pool := Mempool Z.
Definition T := prog pool unit.

(** A [&mut self] method. *)
Definition call {A} (f : pool → A * pool) : prog pool A := λ s, (Done (f s).1, (f s).2).

(** [let mut pool = ..;] *)
Definition with_pool (start : pool) (test : T) : T := modify (λ _, start);; test.

Definition submit (x : Z) : T := r ← call (Mempool.submit x); unwrap_ok r.
Definition submit_is_ok (x : Z) (expected : bool) : T :=
  r ← call (Mempool.submit x); assert_eq (is_ok r) expected.
Definition submit_range : T := for_each submit [0; 1; 2; 3; 4]%Z.
Definition drain_gives (n : nat) (expected : list Z) : T :=
  batch ← call (drain_for_block n); assert_eq batch expected.
Definition len_is (n : nat) : T := s ← gets (λ s, s); assert_eq (len s) n.
Definition empty : T := s ← gets (λ s, s); assert (is_empty s).
Definition ready_is (expected : bool) : T := s ← gets (λ s, s); assert_eq (is_block_ready s) expected.
Definition remove_gives (index : nat) (expected : option Z) : T :=
  r ← call (remove index); assert_eq r expected.

Definition mempool_new_is_empty : T := with_pool new (empty;; len_is 0).

Definition mempool_submit_and_drain_all : T := with_pool new (
  submit 1;; submit 2;; submit 3;; drain_gives 10 [1; 2; 3]%Z;; empty).

Definition mempool_drain_partial_leaves_remainder : T := with_pool new (
  submit_range;; drain_gives 3 [0; 1; 2]%Z;; len_is 2).

Definition mempool_drain_from_empty_returns_empty_vec : T := with_pool new (drain_gives 10 []).

Definition mempool_capacity_rejects_overflow : T := with_pool (with_capacity 2) (
  submit_is_ok 1 true;; submit_is_ok 2 true;; submit_is_ok 3 false;; len_is 2).

Definition mempool_block_limit_signals_correctly : T := with_pool (with_block_limit 2) (
  ready_is false;; submit 1;; ready_is false;; submit 2;; ready_is true;;
  call (drain_for_block 2);; ready_is false).

Definition mempool_retain_evicts_matching : T := with_pool new (
  submit_range;; modify (retain (λ x, Z.rem x 2 =? 0)%Z);; drain_gives 10 [0; 2; 4]%Z).

Definition mempool_remove_by_index : T := with_pool new (
  submit 10;; submit 20;; submit 30;;
  remove_gives 1 (Some 20%Z);; len_is 2;; drain_gives 10 [10; 30]%Z).

Definition mempool_remove_out_of_bounds_returns_none : T := with_pool new (
  submit 1;; remove_gives 5 None;; len_is 1).

Definition mempool_pending_extrinsics_iter : T := with_pool new (
  submit 10;; submit 20;;
  s ← gets (λ s, s); assert_eq (pending_extrinsics s) [10; 20]%Z).

Definition tests : list T :=
  [mempool_new_is_empty; mempool_submit_and_drain_all; mempool_drain_partial_leaves_remainder;
   mempool_drain_from_empty_returns_empty_vec; mempool_capacity_rejects_overflow;
   mempool_block_limit_signals_correctly; mempool_retain_evicts_matching; mempool_remove_by_index;
   mempool_remove_out_of_bounds_returns_none; mempool_pending_extrinsics_iter].
End MempoolTests.

(** * [support.rs]: signing and verification

    On the reference signature scheme. *)

Module SigningTests.

Record TestCall := mkTestCall { test_call : u32 }.

#[export] Instance TestCall_codec : Codec TestCall := iso_codec test_call mkTestCall.
#[export] Instance test_payload_codec : Codec (array 32 * u32 * TestCall) := @pair_codec _ _ pair_codec _.

Definition ext := UncheckedExtrinsic TestCall.
Definition T := prog unit unit.

Definition alice_signed (n : N) (c : N) : ext := new_signed (signing_key Alice : SigningKey) (u n) (mkTestCall (u c)).
Definition with_nonce (n : N) (x : ext) : ext := mkExtrinsic (signer x) (signature x) (u n) (call x).
Definition with_signer (a : AccountId32) (x : ext) : ext := mkExtrinsic a (signature x) (nonce x) (call x).

Definition new_signed_produces_valid_extrinsic : T :=
  let x := alice_signed 0 42 in
  assert_eq (signer x) (public Alice);; assert_eq (nonce x) (u 0);; assert (is_ok (verify x)).

Definition verify_rejects_tampered_nonce : T :=
  assert (is_err (verify (with_nonce 99 (alice_signed 0 1)))).

Definition verify_rejects_wrong_signer_field : T :=
  assert (is_err (verify (with_signer (public Bob) (alice_signed 0 1)))).

Definition nonces_produce_different_signatures : T :=
  assert_ne (signature (alice_signed 0 1)) (signature (alice_signed 1 1)).

Definition verify_batch_all_valid : T :=
  let exts := (λ n, alice_signed n n) <$> [0; 1; 2; 3]%N in
  assert (forallb is_ok (verify_batch exts)).

Definition verify_batch_catches_tampered_entry : T :=
  let exts := alter (with_nonce 99) 1 ((λ n, alice_signed n n) <$> [0; 1; 2]%N) in
  assert_eq (is_ok <$> verify_batch exts) [true; false; true].

Definition tests : list T :=
  [new_signed_produces_valid_extrinsic; verify_rejects_tampered_nonce; verify_rejects_wrong_signer_field;
   nonces_produce_different_signatures; verify_batch_all_valid; verify_batch_catches_tampered_entry].
End SigningTests.

(** * They pass *)

(** The model passes the crate's unit tests, all 39 of them, each on a store of its
    own. *)
Theorem unit_tests_pass :
  forallb (passes SystemTests.start) SystemTests.tests &&
  forallb (passes BalancesTests.start) BalancesTests.tests &&
  forallb (passes PoeTests.start) PoeTests.tests &&
  forallb (passes Mempool.new) MempoolTests.tests &&
  forallb (passes tt) SigningTests.tests = true.
Proof. by vm_compute. Qed.
